(** * conda-gitlab-ci: the dependency-graph engine of [compute_build_graph.py]

    A shallow embedding of [src/conda_gitlab_ci/compute_build_graph.py]:
    change detection, graph construction, dirty-set propagation and
    build-order extraction, with the properties of the specification
    settled against it.

    Python dictionaries are association lists, so that every [for] loop of
    the source visits its items in a definite order: the order of insertion,
    as Python keeps it since 3.7. The general theorems quantify over every
    graph, hence over every order in which an older interpreter could list
    the same items. Exceptions and the fuel of unbounded loops are the
    three-way [outcome]. A [string] is a text whose characters are code
    points below 256: [split], [isspace] and [repr] are those of text on
    that range. *)

From Stdlib Require Import String Ascii List ZArith Lia Bool Arith Relations.
Import ListNotations.

Local Open Scope string_scope.
Local Open Scope list_scope.

(* ================================================================== *)
(** ** Outcomes of a call *)

Inductive exn : Type :=
| ValueError (msg : string)
| KeyError (key : string)
| IndexError
| AssertionError
| NetworkXError (n : string)
| NetworkXUnfeasible
| NetworkXNoCycle
| RuntimeError.

Inductive outcome (A : Type) : Type :=
| Ret (a : A)
| Raise (e : exn)
| Timeout.

Arguments Ret {A} a.
Arguments Raise {A} e.
Arguments Timeout {A}.

Definition obind {A B} (m : outcome A) (k : A -> outcome B) : outcome B :=
  match m with
  | Ret a => k a
  | Raise e => Raise e
  | Timeout => Timeout
  end.

(* ================================================================== *)
(** ** Strings as the source uses them *)

Definition slash : ascii := "/"%char.
Definition dot : ascii := "."%char.

(** ['/' in f] *)
Fixpoint contains_char (c : ascii) (s : string) : bool :=
  match s with
  | EmptyString => false
  | String a s' => if Ascii.eqb a c then true else contains_char c s'
  end.

(** [s.split(c)]: never empty, one more item than occurrences of [c]. *)
Fixpoint split_char (c : ascii) (s : string) : list string :=
  match s with
  | EmptyString => [EmptyString]
  | String a s' =>
      if Ascii.eqb a c then EmptyString :: split_char c s'
      else match split_char c s' with
           | [] => [String a EmptyString]
           | w :: ws => String a w :: ws
           end
  end.

Definition startswith_char (c : ascii) (s : string) : bool :=
  match s with
  | String a _ => Ascii.eqb a c
  | EmptyString => false
  end.

Fixpoint endswith_char (c : ascii) (s : string) : bool :=
  match s with
  | EmptyString => false
  | String a EmptyString => Ascii.eqb a c
  | String _ s' => endswith_char c s'
  end.

(** [os.path.join(a, b)] of posixpath, for two components. *)
Definition path_join (a b : string) : string :=
  if startswith_char slash b then b
  else if (String.eqb a "" || endswith_char slash a)%bool then a ++ b
  else a ++ "/" ++ b.

(** [c.isspace()] on text. A character of a [string] stands for a code
    point below 256; the blank ones among these are the ASCII blanks
    U+0009..U+000D and U+0020, the separators U+001C..U+001F, the next-line
    control U+0085 and the no-break space U+00A0. *)
Definition is_space (a : ascii) : bool :=
  let n := nat_of_ascii a in
  (Nat.eqb n 32 || (Nat.leb 9 n && Nat.leb n 13) || (Nat.leb 28 n && Nat.leb n 31)
   || Nat.eqb n 133 || Nat.eqb n 160)%bool.

(** [x.strip().split()]: the maximal runs of non-blank characters.
    [cur] is the run being read, in reverse. *)
Fixpoint split_ws_aux (s : string) (cur : list ascii) : list string :=
  let flush (rest : list string) :=
    match cur with
    | [] => rest
    | _ => string_of_list_ascii (rev cur) :: rest
    end in
  match s with
  | EmptyString => flush []
  | String a s' =>
      if is_space a then flush (split_ws_aux s' [])
      else split_ws_aux s' (a :: cur)
  end.

Definition split_ws (s : string) : list string := split_ws_aux s [].

(* ================================================================== *)
(** ** Dictionaries with string keys, in insertion order *)

Definition mem (x : string) (l : list string) : bool :=
  existsb (String.eqb x) l.

Section Dict.
Context {V : Type}.

Definition dict := list (string * V).

Definition keys (d : dict) : list string := map fst d.

Fixpoint lookup (k : string) (d : dict) : option V :=
  match d with
  | [] => None
  | (k', v) :: d' => if String.eqb k k' then Some v else lookup k d'
  end.

(** [d[k] = v]: an existing key keeps its place, a new one goes last. *)
Fixpoint dict_set (k : string) (v : V) (d : dict) : dict :=
  match d with
  | [] => [(k, v)]
  | (k', v') :: d' =>
      if String.eqb k k' then (k', v) :: d' else (k', v') :: dict_set k v d'
  end.

(** Change the value stored under [k], when there is one. *)
Fixpoint dict_adjust (f : V -> V) (k : string) (d : dict) : dict :=
  match d with
  | [] => []
  | (k', v') :: d' =>
      if String.eqb k k' then (k', f v') :: d' else (k', v') :: dict_adjust f k d'
  end.
End Dict.

Arguments dict V : clear implicits.

(* ================================================================== *)
(** ** The data model *)

(** The dictionary built by [describe_meta] and by the placeholder of
    [construct_graph]. *)
Record Meta : Type := mkMeta {
  m_build : Z;
  m_build_depends : dict string;
  m_run_test_depends : dict string;
  m_version : string
}.

(** The three keys of [run_dict]; [deps_type] and [run] range over them. *)
Inductive Flag : Type := Build | Test | Install.

(** A node's attribute dictionary: each key may be absent. *)
Record Attrs : Type := mkAttrs {
  meta : option Meta;
  recipe : option string;
  build : option bool;
  test : option bool;
  install : option bool
}.

Definition no_attrs : Attrs := mkAttrs None None None None None.

Definition get_flag (f : Flag) (a : Attrs) : option bool :=
  match f with
  | Build => build a
  | Test => test a
  | Install => install a
  end.

(** [attrs[f] = b] *)
Definition set_flag (f : Flag) (b : bool) (a : Attrs) : Attrs :=
  match f with
  | Build => mkAttrs (meta a) (recipe a) (Some b) (test a) (install a)
  | Test => mkAttrs (meta a) (recipe a) (build a) (Some b) (install a)
  | Install => mkAttrs (meta a) (recipe a) (build a) (test a) (Some b)
  end.

Definition set_meta (m : Meta) (a : Attrs) : Attrs :=
  mkAttrs (Some m) (recipe a) (build a) (test a) (install a).

Definition set_recipe (r : string) (a : Attrs) : Attrs :=
  mkAttrs (meta a) (Some r) (build a) (test a) (install a).

Definition or_else {A} (o d : option A) : option A :=
  match o with
  | Some x => Some x
  | None => d
  end.

(** [a.update(b)]: every key of [b] overwrites the one of [a]. *)
Definition attrs_update (b a : Attrs) : Attrs :=
  mkAttrs (or_else (meta b) (meta a)) (or_else (recipe b) (recipe a))
          (or_else (build b) (build a)) (or_else (test b) (test a))
          (or_else (install b) (install a)).

(** Python truth of [value.get(flag)]. *)
Definition truthy (o : option bool) : bool :=
  match o with
  | Some true => true
  | _ => false
  end.

(** [networkx.DiGraph] (1.x): the node attribute dictionaries and the two
    adjacency dictionaries, successors and predecessors. *)
Record DiGraph : Type := mkGraph {
  node : dict Attrs;
  succ : dict (list string);
  pred : dict (list string)
}.

Definition empty_graph : DiGraph := mkGraph [] [] [].

Definition nodes (g : DiGraph) : list string := keys (node g).

(** [adj[u][v] = {}] on one adjacency dictionary. *)
Definition adj_add (u v : string) (adj : dict (list string)) : dict (list string) :=
  dict_adjust (fun vs => if mem v vs then vs else vs ++ [v]) u adj.

(** [DiGraph.add_node(n, **attrs)]: a new node enters the three
    dictionaries, an existing one has its attributes updated. *)
Definition nx_add_node (n : string) (attrs : Attrs) (g : DiGraph) : DiGraph :=
  if mem n (keys (succ g)) then
    mkGraph (dict_adjust (attrs_update attrs) n (node g)) (succ g) (pred g)
  else
    mkGraph (dict_set n attrs (node g)) (dict_set n [] (succ g)) (dict_set n [] (pred g)).

(** [DiGraph.add_edge(u, v)]: missing end points become bare nodes. *)
Definition nx_add_edge (u v : string) (g : DiGraph) : DiGraph :=
  let g1 := if mem u (keys (succ g)) then g
            else mkGraph (dict_set u no_attrs (node g)) (dict_set u [] (succ g))
                         (dict_set u [] (pred g)) in
  let g2 := if mem v (keys (succ g1)) then g1
            else mkGraph (dict_set v no_attrs (node g1)) (dict_set v [] (succ g1))
                         (dict_set v [] (pred g1)) in
  mkGraph (node g2) (adj_add u v (succ g2)) (adj_add v u (pred g2)).

(* ================================================================== *)
(** ** Computations that mutate the graph *)

Definition M (A : Type) : Type := DiGraph -> outcome A * DiGraph.

Definition ret {A} (a : A) : M A := fun g => (Ret a, g).
Definition raise {A} (e : exn) : M A := fun g => (Raise e, g).
Definition timeout {A} : M A := fun g => (Timeout, g).

Definition bind {A B} (m : M A) (k : A -> M B) : M B :=
  fun g =>
    match m g with
    | (Ret a, g') => k a g'
    | (Raise e, g') => (Raise e, g')
    | (Timeout, g') => (Timeout, g')
    end.

Definition get : M DiGraph := fun g => (Ret g, g).
Definition modify (f : DiGraph -> DiGraph) : M unit := fun g => (Ret tt, f g).
Definition lift {A} (o : outcome A) : M A := fun g => (o, g).

Declare Scope graph_monad_scope.
Delimit Scope graph_monad_scope with M.
Notation "x <- m ;; k" := (bind m (fun x => k))
  (at level 61, m at next level, right associativity) : graph_monad_scope.
Notation "m ;;; k" := (bind m (fun _ => k))
  (at level 61, right associativity) : graph_monad_scope.

Local Open Scope graph_monad_scope.

(** [graph.node[n]] *)
Definition node_attrs (n : string) : M Attrs :=
  fun g => match lookup n (node g) with
           | Some a => (Ret a, g)
           | None => (Raise (KeyError n), g)
           end.

(** [graph.node[n][f] = True] *)
Definition mark (f : Flag) (n : string) : M unit :=
  fun g => match lookup n (node g) with
           | Some _ => (Ret tt, mkGraph (dict_adjust (set_flag f true) n (node g))
                                        (succ g) (pred g))
           | None => (Raise (KeyError n), g)
           end.

(** [graph.successors_iter(n)] and [graph.predecessors(n)] *)
Definition successors (n : string) : M (list string) :=
  fun g => match lookup n (succ g) with
           | Some vs => (Ret vs, g)
           | None => (Raise (NetworkXError n), g)
           end.

Definition predecessors (n : string) : M (list string) :=
  fun g => match lookup n (pred g) with
           | Some vs => (Ret vs, g)
           | None => (Raise (NetworkXError n), g)
           end.

(** A [for] loop whose body only acts on the graph. *)
Fixpoint for_each {A} (xs : list A) (body : A -> M unit) : M unit :=
  match xs with
  | [] => ret tt
  | x :: xs' => body x ;;; for_each xs' body
  end.

(** [graph.node[n]] changed by [f]; a missing node is a [KeyError]. *)
Definition adjust_node (f : Attrs -> Attrs) (n : string) : M unit :=
  fun g => match lookup n (node g) with
           | Some _ => (Ret tt, mkGraph (dict_adjust f n (node g)) (succ g) (pred g))
           | None => (Raise (KeyError n), g)
           end.

(** What [api.render] gives for a recipe, as far as the engine reads it. *)
Record Pkg : Type := mkPkg {
  pkg_name : string;
  pkg_skip : bool;
  pkg_version : string;
  pkg_build_number : Z;
  requirements_build : list string;
  requirements_run : list string;
  test_requires : list string
}.

(** [_deps_to_version_dict]; [x[0]] of a blank requirement is an
    [IndexError]. *)
Fixpoint deps_loop (deps : list string) (d : dict string) : outcome (dict string) :=
  match deps with
  | [] => Ret d
  | x :: deps' =>
      match split_ws x with
      | [] => Raise IndexError
      | [x0; x1] => deps_loop deps' (dict_set x0 x1 d)
      | x0 :: _ => deps_loop deps' (dict_set x0 "" d)
      end
  end.

Definition _deps_to_version_dict (deps : list string) : outcome (dict string) :=
  deps_loop deps [].

Definition get_build_deps (meta : Pkg) : outcome (dict string) :=
  _deps_to_version_dict (requirements_build meta).

Definition get_run_test_deps (meta : Pkg) : outcome (dict string) :=
  _deps_to_version_dict (requirements_run meta ++ test_requires meta).

Definition describe_meta (meta : Pkg) : outcome Meta :=
  obind (get_build_deps meta) (fun bd =>
  obind (get_run_test_deps meta) (fun rt =>
  Ret (mkMeta (pkg_build_number meta) bd rt (pkg_version meta)))).

(** The dirty view: the names of the nodes flagged [build] or [test], in
    node order. The source returns a dictionary from these names to the
    graph's own attribute dictionaries, which are shared and not copied:
    reading an attribute of a dirty node always goes through the graph. *)
Definition is_dirty (a : Attrs) : bool :=
  (truthy (build a) || truthy (test a))%bool.

Definition dirty (graph : DiGraph) : list string :=
  keys (filter (fun nv => is_dirty (snd nv)) (node graph)).

(** Marked by any of the three flags: the seed of the upstream pass. *)
Definition any_flag (a : Attrs) : bool :=
  (truthy (build a) || truthy (install a) || truthy (test a))%bool.

Section Engine.

(** *** External collaborators *)

(** The working directory, and the lines printed by
    [git diff-tree --no-commit-id --name-only -r rev] run in a directory. *)
Variable getcwd : string.
Variable git_diff_tree : string -> string -> list string.

(** [find_recipe(path)] returns instead of raising [IOError]. *)
Variable find_recipe : string -> bool.

Variable listdir : string -> list string.
Variable isdir : string -> bool.
Variable normpath : string -> string.

(** [api.render(recipe_dir, platform=platform, bits=bits)] *)
Variable render : string -> string -> Z -> Pkg.

(** [_installable(package, version, conda_resolve)] and
    [_buildable(package, version)]: the resolver and the local recipes. *)
Variable _installable : string -> string -> bool.
Variable _buildable : string -> string -> bool.

(** *** Change detection *)

Definition _git_changed_files (git_rev : string) (stop_rev : option string)
           (git_root : string) : list string :=
  let git_root := if String.eqb git_root "" then getcwd else git_root in
  let git_rev :=
    match stop_rev with
    | Some s => if String.eqb s "" then git_rev else (git_rev ++ ".." ++ s)%string
    | None => git_rev
    end in
  git_diff_tree git_rev git_root.

Fixpoint _get_base_folders (base_dir : string) (changed_files : list string)
  : list string :=
  match changed_files with
  | [] => []
  | f :: fs =>
      if contains_char slash f then
        let recipe_dir := hd "" (split_char slash f) in
        if find_recipe (path_join base_dir recipe_dir)
        then recipe_dir :: _get_base_folders base_dir fs
        else _get_base_folders base_dir fs
      else _get_base_folders base_dir fs
  end.

Definition git_changed_recipes (git_rev : string) (stop_rev : option string)
           (git_root : string) : list string :=
  let changed_files := _git_changed_files git_rev stop_rev git_root in
  _get_base_folders git_root changed_files.

(** *** Graph construction *)

Definition run_dict_of (changed : bool) (deps_type : Flag) : Attrs :=
  let run_dict := mkAttrs None None (Some false) (Some false) (Some false) in
  if changed then set_flag deps_type true run_dict else run_dict.

Definition placeholder (version : string) : Attrs :=
  mkAttrs (Some (mkMeta 0 [] [] version)) None None None None.

(** The body of the loop over a recipe's dependencies. *)
Definition add_dependency (name : string) (dv : string * string) : M unit :=
  let (dep, version) := dv in
  g <- get ;;
  (if negb (mem dep (nodes g))
   then modify (nx_add_node dep (placeholder version))
   else ret tt) ;;;
  adjust_node (set_flag Install true) dep ;;;
  modify (nx_add_edge name dep).

(** The body of the loop over [recipe_dirs]. *)
Definition add_recipe (directory platform : string) (bits : Z)
           (folders : list string) (deps_type : Flag) (rd : string) : M unit :=
  let recipe_dir := path_join directory rd in
  let pkg := render recipe_dir platform bits in
  let name := pkg_name pkg in
  let run_dict := run_dict_of (mem rd folders) deps_type in
  (if negb (pkg_skip pkg) then
     g <- get ;;
     m <- lift (describe_meta pkg) ;;
     if negb (mem name (nodes g)) then
       modify (nx_add_node name
                 (attrs_update run_dict (mkAttrs (Some m) (Some recipe_dir) None None None)))
     else
       adjust_node (set_meta m) name ;;;
       adjust_node (set_recipe recipe_dir) name ;;;
       adjust_node (attrs_update run_dict) name
   else ret tt) ;;;
  deps <- lift (match deps_type with
                | Build => get_build_deps pkg
                | _ => get_run_test_deps pkg
                end) ;;
  for_each deps (add_dependency name).

Definition construct_graph_body (directory platform : string) (bits : Z)
           (folders : list string) (deps_type : Flag)
           (git_rev stop_rev : option string) : M unit :=
  let directory := if startswith_char slash directory then directory
                   else normpath (path_join getcwd directory) in
  if negb (isdir directory) then raise AssertionError else
  let other_top_dirs :=
    filter (fun d => (isdir (path_join directory d) && negb (startswith_char dot d))%bool)
           (listdir directory) in
  let recipe_dirs := filter (fun d => find_recipe (path_join directory d)) other_top_dirs in
  let folders :=
    match folders with
    | [] =>
        let git_rev := match git_rev with
                       | Some r => if String.eqb r "" then "HEAD" else r
                       | None => "HEAD"
                       end in
        git_changed_recipes git_rev stop_rev directory
    | _ => folders
    end in
  for_each recipe_dirs (add_recipe directory platform bits folders deps_type).

Definition construct_graph (directory platform : string) (bits : Z)
           (folders : list string) (deps_type : Flag)
           (git_rev stop_rev : option string) : outcome DiGraph :=
  match construct_graph_body directory platform bits folders deps_type
                             git_rev stop_rev empty_graph with
  | (Ret _, g) => Ret g
  | (Raise e, _) => Raise e
  | (Timeout, _) => Timeout
  end.

(** *** Pass 1: upstream dependencies *)

Definition version_of (a : Attrs) : string :=
  match meta a with
  | Some m => m_version m
  | None => ""
  end.

Definition unsatisfiable_msg (successor : string) : string :=
  "Dependency " ++ successor ++
  " is not installable, and recipe (if available) can't produce desired version.".

(** The inner loop over the successors of one node; [appended] collects
    what [dirty_nodes.append] adds meanwhile. *)
Fixpoint check_successors (ss : list string) (appended : list string)
  : M (list string) :=
  match ss with
  | [] => ret appended
  | successor :: ss' =>
      a <- node_attrs successor ;;
      let version := version_of a in
      if _installable successor version then check_successors ss' appended
      else if _buildable successor version then
        mark Build successor ;;;
        check_successors ss' (appended ++ [successor])
      else raise (ValueError (unsatisfiable_msg successor))
  end.

(** The loop [for node in dirty_nodes], which also visits what its body
    appends: [visited] is the part of the list already iterated over,
    [todo] the rest. One unit of fuel per node visited. *)
Fixpoint upstream_loop (fuel : nat) (visited todo : list string)
  : M (list string) :=
  match todo with
  | [] => ret visited
  | n :: rest =>
      match fuel with
      | O => timeout
      | S fuel' =>
          ss <- successors n ;;
          appended <- check_successors ss [] ;;
          upstream_loop fuel' (visited ++ [n]) (rest ++ appended)
      end
  end.

(** Returns the list [dirty_nodes]; the source wraps it in [set], so only
    membership in it is meaningful. *)
Definition upstream_dependencies_needing_build (fuel : nat) : M (list string) :=
  g <- get ;;
  let dirty_nodes := keys (filter (fun nv => any_flag (snd nv)) (node g)) in
  upstream_loop fuel [] dirty_nodes.

(** *** Pass 2: downstream expansion *)

Definition list_eqb (l1 l2 : list string) : bool :=
  if list_eq_dec string_dec l1 l2 then true else false.

Section ExpandRun.
Variable run : Flag.
Variable max_downstream : Z.
Variable initial_dirty : Z.

(** The loop over [graph.predecessors(node)], threading the local
    counter [downstream]. *)
Fixpoint mark_predecessors (ps : list string) (downstream : Z) : M Z :=
  match ps with
  | [] => ret downstream
  | predecessor :: ps' =>
      if ((max_downstream <? 0) || (downstream - initial_dirty <? max_downstream))%bool%Z
      then mark run predecessor ;;; mark_predecessors ps' (downstream + 1)%Z
      else mark_predecessors ps' downstream
  end.

Fixpoint expand_nodes (dirty_nodes : list string) (downstream : Z) : M Z :=
  match dirty_nodes with
  | [] => ret downstream
  | n :: ns =>
      ps <- predecessors n ;;
      downstream' <- mark_predecessors ps downstream ;;
      expand_nodes ns downstream'
  end.

Definition expand_step (dirty_nodes : list string) (downstream : Z) : M Z :=
  expand_nodes dirty_nodes downstream ;;;
  g <- get ;;
  ret (Z.of_nat (length (dirty g))).

(** [for step in range(steps)] *)
Fixpoint expand_steps (steps : nat) (downstream : Z) : M Z :=
  match steps with
  | O => ret downstream
  | S steps' =>
      g <- get ;;
      downstream' <- expand_step (dirty g) downstream ;;
      expand_steps steps' downstream'
  end.

(** [while True]: one unit of fuel per round. The two dictionaries
    compared hold the same shared attribute dictionaries, so they are
    equal exactly when their keys are. *)
Fixpoint expand_until_stable (fuel : nat) (start_dirty_nodes : list string)
         (downstream : Z) : M unit :=
  match fuel with
  | O => timeout
  | S fuel' =>
      downstream' <- expand_step start_dirty_nodes downstream ;;
      g <- get ;;
      let new_dirty := dirty g in
      if list_eqb start_dirty_nodes new_dirty then ret tt
      else expand_until_stable fuel' new_dirty downstream'
  end.
End ExpandRun.

Definition expand_run (fuel : nat) (run : Flag) (steps max_downstream : Z)
  : M (list string) :=
  upstream_dependencies_needing_build fuel ;;;
  let downstream := 0%Z in
  g <- get ;;
  let initial_dirty := Z.of_nat (length (dirty g)) in
  (if (steps >=? 0)%Z then
     expand_steps run max_downstream initial_dirty (Z.to_nat steps) downstream ;;; ret tt
   else
     g <- get ;;
     expand_until_stable run max_downstream initial_dirty fuel (dirty g) downstream) ;;;
  g <- get ;;
  ret (dirty g).

End Engine.

(* ================================================================== *)
(** ** The networkx operations behind [order_build]

    [DiGraph.subgraph] and [topological_sort] of networkx 1.x, the release
    whose interface the source calls ([graph.node], [successors_iter],
    [nodes_iter], [topological_sort(G, reverse=True)]). *)

(** A Python [set] read through membership only. *)
Definition set_add (x : string) (s : list string) : list string :=
  if mem x s then s else x :: s.

(** [nbunch_iter]: the members of [nbunch] that are nodes of the graph. *)
Definition nbunch_iter (g : DiGraph) (nbunch : list string) : list string :=
  filter (fun n => mem n (keys (succ g))) nbunch.

(** [H.node[n] = self.node[n]] for each [n] of the bunch. *)
Fixpoint copy_nodes (g : DiGraph) (bunch : list string) (hnode : dict Attrs)
  : outcome (dict Attrs) :=
  match bunch with
  | [] => Ret hnode
  | n :: bunch' =>
      match lookup n (node g) with
      | Some a => copy_nodes g bunch' (dict_set n a hnode)
      | None => Raise (KeyError n)
      end
  end.

(** The successors of [u] kept in the subgraph. *)
Definition kept_successors (g : DiGraph) (hs : list string) (u : string)
  : list string :=
  match lookup u (succ g) with
  | Some vs => filter (fun v => mem v hs) vs
  | None => []
  end.

Definition subgraph (g : DiGraph) (nbunch : list string) : outcome DiGraph :=
  obind (copy_nodes g (nbunch_iter g nbunch) []) (fun hnode =>
  let hs := keys hnode in
  let hsucc := map (fun u => (u, kept_successors g hs u)) hs in
  let hpred :=
    fold_left (fun acc u =>
                 fold_left (fun acc' v => adj_add v u acc') (kept_successors g hs u) acc)
              hs (map (fun u => (u, @nil string)) hs) in
  Ret (mkGraph hnode hsucc hpred)).

Record dfs_state : Type := mkDfs {
  seen : list string;
  order : list string;
  explored : list string
}.

(** The loop [for n in G[w]] of [topological_sort]. *)
Fixpoint scan_successors (explored seen : list string) (ns new_nodes : list string)
  : outcome (list string) :=
  match ns with
  | [] => Ret new_nodes
  | n :: ns' =>
      if mem n explored then scan_successors explored seen ns' new_nodes
      else if mem n seen then Raise NetworkXUnfeasible
      else scan_successors explored seen ns' (new_nodes ++ [n])
  end.

(** One round of [while fringe], with [w = fringe[-1]]. The stack is kept
    top first: [w :: rest] is the source's [rest] reversed followed by [w],
    and [fringe.extend(new_nodes)] pushes [new_nodes] reversed. *)
Definition dfs_visit (G : DiGraph) (w : string) (rest : list string) (st : dfs_state)
  : outcome (list string * dfs_state) :=
  if mem w (explored st) then Ret (rest, st)
  else
    let seen' := set_add w (seen st) in
    match lookup w (succ G) with
    | None => Raise (KeyError w)
    | Some nbrs =>
        obind (scan_successors (explored st) seen' nbrs []) (fun new_nodes =>
        match new_nodes with
        | [] => Ret (rest, mkDfs seen' (order st ++ [w]) (set_add w (explored st)))
        | _ => Ret (rev new_nodes ++ w :: rest, mkDfs seen' (order st) (explored st))
        end)
    end.

Fixpoint dfs_while (fuel : nat) (G : DiGraph) (fringe : list string) (st : dfs_state)
  : outcome dfs_state :=
  match fringe with
  | [] => Ret st
  | w :: rest =>
      match fuel with
      | O => Timeout
      | S fuel' =>
          obind (dfs_visit G w rest st) (fun fs => dfs_while fuel' G (fst fs) (snd fs))
      end
  end.

(** [for v in G.nodes_iter()] *)
Fixpoint topo_for (fuel : nat) (G : DiGraph) (vs : list string) (st : dfs_state)
  : outcome dfs_state :=
  match vs with
  | [] => Ret st
  | v :: vs' =>
      if mem v (explored st) then topo_for fuel G vs' st
      else obind (dfs_while fuel G [v] st) (topo_for fuel G vs')
  end.

Definition topological_sort (fuel : nat) (G : DiGraph) (reverse : bool)
  : outcome (list string) :=
  obind (topo_for fuel G (nodes G) (mkDfs [] [] []))
        (fun st => Ret (if reverse then order st else rev (order st))).

(* ------------------------------------------------------------------ *)
(** *** [find_cycle] with [orientation='ignore']

    [networkx.algorithms.cycles.find_cycle] and the generator it reads,
    [networkx.algorithms.traversal.edgedfs.edge_dfs], for a directed graph
    whose edges may be followed either way. *)

(** How an edge was followed: the constants [FORWARD] and [REVERSE]. *)
Inductive direction : Type := Forward | Reverse.

(** An edge as [edge_dfs] yields it: its true tail, its true head and
    the direction it was followed in. *)
Definition dedge : Type := (string * string * direction)%type.

(** [key(edge)]: everything but the direction. *)
Definition edge_key (e : dedge) : string * string := fst e.

(** [traversed_tailhead(edge)] *)
Definition tailhead (e : dedge) : string * string :=
  match e with
  | (u, v, Forward) => (u, v)
  | (u, v, Reverse) => (v, u)
  end.

Definition pair_mem (k : string * string) (l : list (string * string)) : bool :=
  existsb (fun k' => (String.eqb (fst k) (fst k') && String.eqb (snd k) (snd k'))%bool) l.

(** [nbunch_iter(n)] for one name: the node itself when it is one,
    otherwise the name is read as a sequence, character by character. *)
Definition nbunch_of (G : DiGraph) (n : string) : list string :=
  if mem n (nodes G) then [n]
  else nbunch_iter G (map (fun c => String c EmptyString) (list_ascii_of_string n)).

(** [edges_iter] and [in_edges_iter] over a bunch of nodes: [mk n nbr]
    for each neighbour [nbr] that the adjacency dictionary lists for [n]. *)
Fixpoint adjacent_edges (adj : dict (list string)) (mk : string -> string -> dedge)
         (bunch : list string) : outcome (list dedge) :=
  match bunch with
  | [] => Ret []
  | n :: bunch' =>
      match lookup n adj with
      | Some nbrs =>
          obind (adjacent_edges adj mk bunch') (fun es => Ret (map (mk n) nbrs ++ es))
      | None => Raise (KeyError n)
      end
  end.

(** [out_edges(u)] of [helper_funcs]: the edges that leave [u], followed
    forward, then the edges that enter it, followed in reverse. The
    generator is read at once, as the graph does not change meanwhile; a
    node that one of the two dictionaries lacks is the [KeyError] that
    the source raises when it comes to that dictionary. *)
Definition out_edges (G : DiGraph) (u : string) : outcome (list dedge) :=
  obind (adjacent_edges (succ G) (fun n nbr => (n, nbr, Forward)) (nbunch_of G u))
        (fun forward =>
  obind (adjacent_edges (pred G) (fun n nbr => (nbr, n, Reverse)) (nbunch_of G u))
        (fun reverse =>
  Ret (forward ++ reverse))).

(** The local variables of [edge_dfs]: the start nodes still to come,
    the stack (top first), the two sets, and what is left of the iterator
    of each visited node. *)
Record edge_dfs_state : Type := mkEdgeDfs {
  start_nodes : list string;
  stack : list string;
  visited_edges : list (string * string);
  visited_nodes : list string;
  edges : dict (list dedge)
}.

(** The generator before its first [next]. A bunch without nodes makes
    it [raise StopIteration], a [RuntimeError] inside a generator. *)
Definition edge_dfs (G : DiGraph) (source : string) : outcome edge_dfs_state :=
  match nbunch_of G source with
  | [] => Raise RuntimeError
  | nodes => Ret (mkEdgeDfs nodes [] [] [] [])
  end.

(** One round of [while stack] with [current_node = stack[-1]]: the edge
    it yields, if it yields one, and the state it leaves. *)
Definition edge_dfs_round (G : DiGraph) (current_node : string) (below : list string)
           (st : edge_dfs_state) : outcome (option dedge * edge_dfs_state) :=
  obind (if mem current_node (visited_nodes st) then Ret st
         else obind (out_edges G current_node) (fun es =>
              Ret (mkEdgeDfs (start_nodes st) (stack st) (visited_edges st)
                             (set_add current_node (visited_nodes st))
                             (dict_set current_node es (edges st)))))
        (fun st =>
  match lookup current_node (edges st) with
  | None => Raise (KeyError current_node)
  | Some [] =>
      Ret (None, mkEdgeDfs (start_nodes st) below (visited_edges st) (visited_nodes st)
                           (edges st))
  | Some (edge :: rest) =>
      let edges' := dict_set current_node rest (edges st) in
      if pair_mem (edge_key edge) (visited_edges st) then
        Ret (None, mkEdgeDfs (start_nodes st) (stack st) (visited_edges st)
                             (visited_nodes st) edges')
      else
        Ret (Some edge,
             mkEdgeDfs (start_nodes st) (snd (tailhead edge) :: stack st)
                       (edge_key edge :: visited_edges st) (visited_nodes st) edges')
  end).

(** [next] on the generator: rounds until one yields, or until the stack
    and the start nodes are used up. One unit of fuel per round. *)
Fixpoint edge_dfs_next (fuel : nat) (G : DiGraph) (st : edge_dfs_state)
  : outcome (option (dedge * edge_dfs_state)) :=
  match stack st with
  | [] =>
      match start_nodes st with
      | [] => Ret None
      | start_node :: nodes' =>
          match fuel with
          | O => Timeout
          | S fuel' =>
              edge_dfs_next fuel' G
                (mkEdgeDfs nodes' [start_node] (visited_edges st) (visited_nodes st)
                           (edges st))
          end
      end
  | current_node :: below =>
      match fuel with
      | O => Timeout
      | S fuel' =>
          obind (edge_dfs_round G current_node below st) (fun r =>
          match fst r with
          | Some edge => Ret (Some (edge, snd r))
          | None => edge_dfs_next fuel' G (snd r)
          end)
      end
  end.

(** The local variables of one start node in [find_cycle]; [path] is the
    list [edges] of the source, last edge first. *)
Record search_state : Type := mkSearch {
  path : list dedge;
  seen_nodes : list string;
  active_nodes : list string;
  previous_node : option string
}.

(** The loop that pops [edges] until the path ends where the new edge
    starts. Popping the empty list is the caught [IndexError];
    [active_nodes.remove] of a missing node is a [KeyError]. *)
Fixpoint backtrack (tail : string) (path : list dedge) (active_nodes : list string)
  : outcome (list dedge * list string) :=
  match path with
  | [] => Ret ([], [tail])
  | popped_edge :: path' =>
      let popped_head := snd (tailhead popped_edge) in
      if mem popped_head active_nodes then
        let active_nodes' := remove string_dec popped_head active_nodes in
        match path' with
        | [] => backtrack tail path' active_nodes'
        | last :: _ =>
            if String.eqb tail (snd (tailhead last)) then Ret (path', active_nodes')
            else backtrack tail path' active_nodes'
        end
      else Raise (KeyError popped_head)
  end.

(** How the body of [for edge in edge_dfs(...)] ends. *)
Inductive verdict : Type :=
| Looped (cycle : list dedge) (final_node : string)
| Stopped
| Continue (st : search_state).

Definition examine (explored : list string) (edge : dedge) (st : search_state)
  : outcome verdict :=
  let tail := fst (tailhead edge) in
  let head := snd (tailhead edge) in
  obind (match previous_node st with
         | Some previous =>
             if negb (String.eqb tail previous)
             then backtrack tail (path st) (active_nodes st)
             else Ret (path st, active_nodes st)
         | None => Ret (path st, active_nodes st)
         end) (fun pa =>
  let path := edge :: fst pa in
  let active_nodes := snd pa in
  if mem head active_nodes then Ret (Looped (rev path) head)
  else if mem head explored then Ret Stopped
  else Ret (Continue (mkSearch path (set_add head (seen_nodes st))
                               (set_add head active_nodes) (Some head)))).

(** [for edge in edge_dfs(G, start_node, orientation)]: the loop found,
    if any, and the nodes seen. One unit of fuel per edge read, and the
    same fuel for each [next]. *)
Fixpoint search_from (fuel : nat) (G : DiGraph) (explored : list string)
         (gen : edge_dfs_state) (st : search_state)
  : outcome (option (list dedge * string) * list string) :=
  match fuel with
  | O => Timeout
  | S fuel' =>
      obind (edge_dfs_next fuel G gen) (fun nx =>
      match nx with
      | None => Ret (None, seen_nodes st)
      | Some (edge, gen') =>
          obind (examine explored edge st) (fun v =>
          match v with
          | Looped cycle final_node => Ret (Some (cycle, final_node), seen_nodes st)
          | Stopped => Ret (None, seen_nodes st)
          | Continue st' => search_from fuel' G explored gen' st'
          end)
      end)
  end.

(** [for start_node in G.nbunch_iter(source)], whose [else] raises
    [NetworkXNoCycle]. *)
Fixpoint find_cycle_from (fuel : nat) (G : DiGraph) (starts explored : list string)
  : outcome (list dedge * string) :=
  match starts with
  | [] => Raise NetworkXNoCycle
  | start_node :: starts' =>
      if mem start_node explored then find_cycle_from fuel G starts' explored
      else
        obind (edge_dfs G start_node) (fun gen =>
        obind (search_from fuel G explored gen
                           (mkSearch [] [start_node] [start_node] None)) (fun r =>
        match fst r with
        | Some found => Ret found
        | None => find_cycle_from fuel G starts' (fold_right set_add explored (snd r))
        end))
  end.

(** [cycle[i:]] for the first [i] whose edge starts at [final_node], the
    last [i] when there is none. *)
Fixpoint trim_cycle (final_node : string) (cycle : list dedge) : list dedge :=
  match cycle with
  | [] => []
  | edge :: rest =>
      if String.eqb (fst (tailhead edge)) final_node then cycle
      else match rest with
           | [] => cycle
           | _ => trim_cycle final_node rest
           end
  end.

Definition find_cycle (fuel : nat) (G : DiGraph) : outcome (list dedge) :=
  obind (find_cycle_from fuel G (keys (succ G)) [])
        (fun found => Ret (trim_cycle (snd found) (fst found))).

(* ------------------------------------------------------------------ *)
(** *** The text of a list of edges

    [str] of a list of tuples of strings, as ["{0}".format] writes it. *)

Definition backslash : ascii := ascii_of_nat 92.
Definition single_quote : ascii := ascii_of_nat 39.
Definition double_quote : ascii := ascii_of_nat 34.

Definition hex_digit (n : nat) : ascii :=
  ascii_of_nat (if Nat.ltb n 10 then 48 + n else 87 + n).

(** [c.isprintable()] for a code point below 256. *)
Definition is_printable (n : nat) : bool :=
  ((Nat.leb 32 n && Nat.ltb n 127) || (Nat.leb 161 n && negb (Nat.eqb n 173)))%bool.

Definition repr_char (quote c : ascii) : string :=
  let n := nat_of_ascii c in
  if (Ascii.eqb c quote || Ascii.eqb c backslash)%bool then String backslash (String c "")
  else if Nat.eqb n 9 then String backslash "t"
  else if Nat.eqb n 10 then String backslash "n"
  else if Nat.eqb n 13 then String backslash "r"
  else if is_printable n then String c ""
  else String backslash
              (String "x" (String (hex_digit (n / 16)) (String (hex_digit (n mod 16)) ""))).

(** [repr(s)]: single quotes, unless [s] holds one and no double quote. *)
Definition repr_str (s : string) : string :=
  let quote :=
    if (contains_char single_quote s && negb (contains_char double_quote s))%bool
    then double_quote else single_quote in
  String quote (String.concat "" (map (repr_char quote) (list_ascii_of_string s))
                ++ String quote "").

Definition direction_text (d : direction) : string :=
  match d with
  | Forward => "forward"
  | Reverse => "reverse"
  end.

Definition repr_edge (e : dedge) : string :=
  match e with
  | (u, v, d) =>
      "(" ++ repr_str u ++ ", " ++ repr_str v ++ ", " ++ repr_str (direction_text d) ++ ")"
  end.

Definition repr_edges (l : list dedge) : string :=
  "[" ++ String.concat ", " (map repr_edge l) ++ "]".

(* ------------------------------------------------------------------ *)
(** *** [order_build] *)

(** [tmp_global.node[n] = graph.node[n]] for every node of [tmp_global]. *)
Fixpoint copy_node_data (graph : DiGraph) (ns : list string) (hnode : dict Attrs)
  : outcome (dict Attrs) :=
  match ns with
  | [] => Ret hnode
  | n :: ns' =>
      match lookup n (node graph) with
      | Some a => copy_node_data graph ns' (dict_set n a hnode)
      | None => Raise (KeyError n)
      end
  end.

Definition order_build (fuel : nat) (graph : DiGraph) (packages : option (list string))
           (level : Z) (filter_dirty : bool) : outcome (DiGraph * list string) :=
  let packages :=
    match packages with
    | Some (p :: ps) => p :: ps
    | _ => if filter_dirty then dirty graph else nodes graph
    end in
  obind (subgraph graph packages) (fun sub =>
  obind (copy_node_data graph (nodes sub) (node sub)) (fun hnode =>
  let tmp_global := mkGraph hnode (succ sub) (pred sub) in
  match topological_sort fuel tmp_global true with
  | Ret order => Ret (tmp_global, order)
  | Raise NetworkXUnfeasible =>
      obind (find_cycle fuel tmp_global) (fun cycle =>
      Raise (ValueError ("Cycles detected in graph: " ++ repr_edges cycle)))
  | Raise e => Raise e
  | Timeout => Timeout
  end)).

(* ================================================================== *)
(** ** Notions used to state the properties *)

(** [needle] occurs in [s]. *)
Fixpoint is_substring (needle s : string) : bool :=
  (String.prefix needle s ||
   match s with
   | EmptyString => false
   | String _ s' => is_substring needle s'
   end)%bool.

(** The attributes of a node, bare when the node is missing. *)
Definition attrs_of (g : DiGraph) (n : string) : Attrs :=
  match lookup n (node g) with
  | Some a => a
  | None => no_attrs
  end.

(** [u -> v] is an edge of the successor dictionary. *)
Definition edge (g : DiGraph) (u v : string) : Prop :=
  exists vs, lookup u (succ g) = Some vs /\ In v vs.

(** The position of the first [x] in [l] ([length l] when there is none). *)
Fixpoint index_of (x : string) (l : list string) : nat :=
  match l with
  | [] => O
  | y :: l' => if String.eqb x y then O else S (index_of x l')
  end.

(** [x] comes strictly before [y] in [l]. *)
Definition precedes (x y : string) (l : list string) : Prop :=
  In x l /\ In y l /\ index_of x l < index_of y l.

(** The invariants networkx keeps: a node is listed once, the three
    dictionaries have the same keys, and every neighbour listed is a node. *)
Fixpoint nodupb (l : list string) : bool :=
  match l with
  | [] => true
  | x :: l' => (negb (mem x l') && nodupb l')%bool
  end.

Definition closed_adj (ns : list string) (adj : dict (list string)) : bool :=
  forallb (fun kv => forallb (fun v => mem v ns) (snd kv)) adj.

Definition wf_graph (g : DiGraph) : bool :=
  (nodupb (nodes g)
   && list_eqb (keys (succ g)) (nodes g) && list_eqb (keys (pred g)) (nodes g)
   && closed_adj (nodes g) (succ g) && closed_adj (nodes g) (pred g))%bool.

(* ================================================================== *)
(** ** Small repositories and graphs to run the engine on *)

Module Examples.

(** A diff touching two recipes, a plain directory and a top-level file. *)
Definition diff (_ _ : string) : list string :=
  ["numpy/meta.yaml"; "README.md"; "docs/index.rst"; "scipy/build.sh"; "numpy/bld.bat"].

Definition is_recipe (p : string) : bool :=
  (String.eqb p "/r/numpy" || String.eqb p "/r/scipy")%bool.

(** A repository [/r] of two recipes: [x] needs [y] to build, [y] needs
    nothing. *)
Definition render_xy (recipe_dir _ : string) (_ : Z) : Pkg :=
  if String.eqb recipe_dir "/r/x"
  then mkPkg "x" false "1.0" 0 ["y 2.0"] [] []
  else mkPkg "y" false "2.0" 0 [] [] [].

Definition no_diff (_ _ : string) : list string := [].
Definition always (_ : string) : bool := true.
Definition same (p : string) : string := p.

(** [construct_graph] on [/r] whose listing is [ls], with [x] changed. *)
Definition construct_xy (ls : list string) : outcome DiGraph :=
  construct_graph "/" no_diff always (fun _ => ls) always same render_xy
                  "/r" "linux" 64 ["x"] Build None None.



Definition bare (b t i : option bool) (v : string) : Attrs :=
  mkAttrs (Some (mkMeta 0 [] [] v)) None b t i.

Definition yes (_ _ : string) : bool := true.
Definition no (_ _ : string) : bool := false.

(** A repository [/r] where [b] and [c] each need [a] to build, and only
    [a] has changed. *)
Definition render_dependents (recipe_dir _ : string) (_ : Z) : Pkg :=
  if String.eqb recipe_dir "/r/a" then mkPkg "a" false "1.0" 0 [] [] []
  else if String.eqb recipe_dir "/r/b" then mkPkg "b" false "1.0" 0 ["a"] [] []
  else mkPkg "c" false "1.0" 0 ["a"] [] [].

Definition construct_dependents (ls : list string) : outcome DiGraph :=
  construct_graph "/" no_diff always (fun _ => ls) always same render_dependents
                  "/r" "linux" 64 ["a"] Build None None.

(** The graph of the recipes [a] and [b]: [b] depends on [a], and only
    [a] is dirty. *)
Definition one_dependent : DiGraph :=
  Eval vm_compute in
    match construct_dependents ["a"; "b"] with
    | Ret g => g
    | _ => empty_graph
    end.

(** The graph of the recipes [a], [b] and [c]. *)
Definition two_dependents : DiGraph :=
  Eval vm_compute in
    match construct_dependents ["a"; "b"; "c"] with
    | Ret g => g
    | _ => empty_graph
    end.

(** [one_dependent] once [b] has been marked for a test run. *)
Definition one_dependent_done : DiGraph :=
  Eval vm_compute in snd (expand_run yes yes 5 Test (-1) 5 one_dependent).

Definition rank_ab (n : string) : nat := if String.eqb n "b" then 1 else 0.

(** A repository [/r] of three recipes: [a] needs [b], [b] needs [c];
    only [a] has changed. *)
Definition render_abc (recipe_dir _ : string) (_ : Z) : Pkg :=
  if String.eqb recipe_dir "/r/a" then mkPkg "a" false "1.0" 0 ["b"] [] []
  else if String.eqb recipe_dir "/r/b" then mkPkg "b" false "1.0" 0 ["c 1.0"] [] []
  else mkPkg "c" false "1.0" 0 [] [] [].

Definition construct_abc : outcome DiGraph :=
  construct_graph "/" no_diff always (fun _ => ["a"; "b"; "c"]) always same render_abc
                  "/r" "linux" 64 ["a"] Build None None.

(** The graph that [construct_abc] returns. *)
Definition graph_abc : DiGraph :=
  Eval vm_compute in
    match construct_abc with
    | Ret g => g
    | _ => empty_graph
    end.

(** The graph of [construct_xy ["x"]]: [x] changed, and its dependency
    [y] at version 2.0 known only as a placeholder. *)
Definition graph_x : DiGraph :=
  Eval vm_compute in
    match construct_xy ["x"] with
    | Ret g => g
    | _ => empty_graph
    end.

(** A repository [/r] of two recipes that need each other to build,
    both changed. *)
Definition render_cycle (recipe_dir _ : string) (_ : Z) : Pkg :=
  if String.eqb recipe_dir "/r/a" then mkPkg "a" false "2.0" 0 ["b"] [] []
  else mkPkg "b" false "2.0" 0 ["a"] [] [].

Definition construct_cycle : outcome DiGraph :=
  construct_graph "/" no_diff always (fun _ => ["a"; "b"]) always same render_cycle
                  "/r" "linux" 64 ["a"; "b"] Build None None.

Definition graph_cycle : DiGraph :=
  Eval vm_compute in
    match construct_cycle with
    | Ret g => g
    | _ => empty_graph
    end.





Definition rank_abc (n : string) : nat :=
  if String.eqb n "a" then 2 else if String.eqb n "b" then 1 else 0.

End Examples.

(** A computation never leaves the relation [R] between the graph it
    starts from and the graph it leaves, whatever its outcome. *)
Definition preserves (R : DiGraph -> DiGraph -> Prop) {A} (m : M A) : Prop :=
  forall g, R g (snd (m g)).

(** What a skipped recipe may change: no build or test flag, no recipe
    directory, and no metadata of a node that was already there. *)
Definition no_intent_change (g g' : DiGraph) : Prop :=
  (forall n, build (attrs_of g' n) = build (attrs_of g n) /\
             test (attrs_of g' n) = test (attrs_of g n) /\
             recipe (attrs_of g' n) = recipe (attrs_of g n)) /\
  (forall n, In n (nodes g) ->
             In n (nodes g') /\ meta (attrs_of g' n) = meta (attrs_of g n)).

(** The successor dictionary has exactly the nodes as keys. *)
Definition adj_keys_ok (g : DiGraph) : Prop :=
  forall n, In n (keys (succ g)) <-> In n (nodes g).

Definition skip_frame (g g' : DiGraph) : Prop :=
  adj_keys_ok g -> adj_keys_ok g' /\ no_intent_change g g'.

(** The requirement set that [deps_type] selects. *)
Definition selected_deps (deps_type : Flag) (pkg : Pkg) : outcome (dict string) :=
  match deps_type with
  | Build => get_build_deps pkg
  | _ => get_run_test_deps pkg
  end.

(* ------------------------------------------------------------------ *)
(** *** Propagation *)

(** What propagation towards [run] may change in a node: nothing but its
    [build] flag and its [run] flag, and these only to [True]. *)
Definition attrs_frame (run : Flag) (a a' : Attrs) : Prop :=
  meta a' = meta a /\ recipe a' = recipe a /\
  forall f, get_flag f a' = get_flag f a \/
            ((f = Build \/ f = run) /\ get_flag f a' = Some true).

(** The same nodes in the same order, the same edges, and node by node
    [attrs_frame]. *)
Definition flags_frame (run : Flag) (g g' : DiGraph) : Prop :=
  succ g' = succ g /\ pred g' = pred g /\
  Forall2 (fun nv nv' => fst nv' = fst nv /\ attrs_frame run (snd nv) (snd nv'))
          (node g) (node g').

Section UpstreamNotions.
Variable _installable : string -> string -> bool.
Variable _buildable : string -> string -> bool.

(** The resolver cannot install [s] at the version its node records. *)
Definition not_installable (g : DiGraph) (s : string) : bool :=
  negb (_installable s (version_of (attrs_of g s))).

Definition buildable (g : DiGraph) (s : string) : bool :=
  _buildable s (version_of (attrs_of g s)).

(** The nodes flagged by any of [build], [install], [test]. *)
Definition seeds (g : DiGraph) : list string :=
  keys (filter (fun nv => any_flag (snd nv)) (node g)).

(** What the worklist reaches from [start]: its members, and every
    successor of a reached node that cannot be installed. *)
Inductive reached (g : DiGraph) (start : list string) : string -> Prop :=
| reached_start n : In n start -> reached g start n
| reached_step n s :
    reached g start n -> edge g n s -> not_installable g s = true ->
    reached g start s.

(** C1 as the specification words it: every transitive successor of an
    initially dirty node that is not installable but buildable is flagged
    and returned. *)
Definition upstream_closure_as_stated (g : DiGraph) : Prop :=
  forall fuel D g',
    upstream_dependencies_needing_build _installable _buildable fuel g = (Ret D, g') ->
    forall n s,
      In n (seeds g) -> clos_trans string (edge g) n s ->
      not_installable g s = true -> buildable g s = true ->
      build (attrs_of g' s) = Some true /\ In s D.

(** Nothing is left to propagate towards [run]: every dependency of a
    flagged node that cannot be installed can be built and is flagged for
    a build, and every package that depends on a dirty node has its [run]
    flag. *)
Definition stable (run : Flag) (g : DiGraph) : Prop :=
  (forall n s,
      In n (nodes g) -> any_flag (attrs_of g n) = true ->
      edge g n s -> not_installable g s = true ->
      buildable g s = true /\ build (attrs_of g s) = Some true) /\
  (forall n ps p,
      In n (dirty g) -> lookup n (pred g) = Some ps -> In p ps ->
      get_flag run (attrs_of g p) = Some true).

(** From any worklist that holds [n], the loop of Pass 1 ends in the
    error of an unsatisfiable dependency. *)
Definition aborts_from (g0 : DiGraph) (n : string) : Prop :=
  forall todo visited g1,
    flags_frame Build g0 g1 ->
    (forall x, In x todo -> In x (nodes g0)) ->
    In n todo ->
    exists fuel s' g',
      upstream_loop _installable _buildable fuel visited todo g1
      = (Raise (ValueError (unsatisfiable_msg s')), g') /\
      not_installable g0 s' = true /\ buildable g0 s' = false.

(** C6 as the specification words it: an unsatisfiable dependency of a
    dirty node aborts the pass with an error that tells both the package
    and the version required. *)
Definition unsatisfiable_reported_as_stated (g : DiGraph) : Prop :=
  forall n s,
    reached g (seeds g) n -> edge g n s ->
    not_installable g s = true -> buildable g s = false ->
    exists fuel msg g',
      upstream_dependencies_needing_build _installable _buildable fuel g
      = (Raise (ValueError msg), g') /\
      is_substring s msg = true /\
      is_substring (version_of (attrs_of g s)) msg = true.
End UpstreamNotions.

(** A numbering of the nodes that decreases along every edge: the graph
    has no cycle. *)
Definition rank_ok (rank : string -> nat) (g : DiGraph) : bool :=
  forallb (fun kv => forallb (fun v => Nat.ltb (rank v) (rank (fst kv))) (snd kv)) (succ g).

Definition successors_of (g : DiGraph) (n : string) : list string :=
  match lookup n (succ g) with
  | Some vs => vs
  | None => []
  end.

(** The number of paths that leave [n], counted to depth [k]. *)
Fixpoint weight (g : DiGraph) (k : nat) (n : string) : nat :=
  match k with
  | O => 1
  | S k' => 1 + list_sum (map (weight g k') (successors_of g n))
  end.

Definition total_weight (g : DiGraph) (rank : string -> nat) (l : list string) : nat :=
  list_sum (map (fun n => weight g (rank n) n) l).

(* ------------------------------------------------------------------ *)
(** *** Build order *)

(** The packages [order_build] selects. *)
Definition selected (graph : DiGraph) (packages : option (list string))
           (filter_dirty : bool) : list string :=
  match packages with
  | Some (p :: ps) => p :: ps
  | _ => if filter_dirty then dirty graph else nodes graph
  end.

(** An edge of the graph between two selected packages. *)
Definition induced_edge (graph : DiGraph) (sel : list string) (u v : string) : Prop :=
  In u sel /\ In v sel /\ edge graph u v.

(** What the depth-first search has so far is a dependency-first order
    of the explored nodes. *)
Definition topo_inv (G : DiGraph) (st : dfs_state) : Prop :=
  NoDup (order st) /\
  (forall x, In x (explored st) <-> In x (order st)) /\
  (forall u v, In u (order st) -> edge G u v -> precedes v u (order st)).

(** The stack of the search, top first. A node that is seen and not yet
    explored is on the stack; what lies above it holds all its successors
    still to explore, and what lies above its topmost occurrence is
    reachable from it. The stack and the order hold nodes only. *)
Definition dfs_inv (G : DiGraph) (fringe : list string) (st : dfs_state) : Prop :=
  (forall above x below,
      fringe = above ++ x :: below ->
      In x (seen st) -> ~ In x (explored st) ->
      forall s, edge G x s -> In s (explored st) \/ In s above) /\
  (forall above x below,
      fringe = above ++ x :: below -> ~ In x above ->
      In x (seen st) -> ~ In x (explored st) ->
      forall y, In y above -> clos_refl_trans string (edge G) x y) /\
  (forall x, In x (seen st) -> ~ In x (explored st) -> In x fringe) /\
  (forall x, In x fringe \/ In x (order st) -> In x (nodes G)).

(** The successor dictionary has the nodes as keys and lists only nodes. *)
Definition graph_ok (G : DiGraph) : Prop :=
  adj_keys_ok G /\
  forall u vs v, lookup u (succ G) = Some vs -> In v vs -> In v (nodes G).

Definition degree_bound (G : DiGraph) : nat :=
  list_sum (map (fun kv => length (snd kv)) (succ G)).

Definition unseen (G : DiGraph) (st : dfs_state) : nat :=
  length (filter (fun n => negb (mem n (seen st))) (nodes G)).

(** What is left to do: the stack, and a full fan-out for each unseen node. *)
Definition dfs_measure (G : DiGraph) (fringe : list string) (st : dfs_state) : nat :=
  length fringe + S (degree_bound G) * unseen G st.

(** Fuel that is enough for each search of [topological_sort]. *)
Definition dfs_budget (G : DiGraph) : nat :=
  1 + S (degree_bound G) * length (nodes G).

(** [wf_graph] as a proposition. *)
Definition closed (ns : list string) (adj : dict (list string)) : Prop :=
  forall n vs v, lookup n adj = Some vs -> In v vs -> In v ns.

Definition wf_ok (g : DiGraph) : Prop :=
  NoDup (nodes g) /\ keys (succ g) = nodes g /\ keys (pred g) = nodes g /\
  closed (nodes g) (succ g) /\ closed (nodes g) (pred g).

Definition keeps_wf (g g' : DiGraph) : Prop := wf_ok g -> wf_ok g'.

(* ================================================================== *)
(** ** Further notions: requirements, construction, propagation *)

(** The package a requirement names, and the version it carries: the
    second of exactly two blank-separated words, nothing otherwise. *)
Definition first_token (x : string) : string := hd "" (split_ws x).

Definition version_part (x : string) : string :=
  match split_ws x with
  | [_; v] => v
  | _ => ""
  end.

(** [x] is empty or made of blanks only. *)
Fixpoint all_space (x : string) : bool :=
  match x with
  | EmptyString => true
  | String a x' => (is_space a && all_space x')%bool
  end.

(** The directory [construct_graph] works in, the recipe directories it
    visits there and the folders it takes as changed. *)
Definition abs_directory (getcwd : string) (normpath : string -> string)
           (directory : string) : string :=
  if startswith_char slash directory then directory
  else normpath (path_join getcwd directory).

Definition recipe_dirs_of (find_recipe : string -> bool) (listdir : string -> list string)
           (isdir : string -> bool) (directory : string) : list string :=
  filter (fun d => find_recipe (path_join directory d))
         (filter (fun d => (isdir (path_join directory d) && negb (startswith_char dot d))%bool)
                 (listdir directory)).

Definition changed_folders (getcwd : string) (git_diff_tree : string -> string -> list string)
           (find_recipe : string -> bool) (directory : string) (folders : list string)
           (git_rev stop_rev : option string) : list string :=
  match folders with
  | [] =>
      git_changed_recipes getcwd git_diff_tree find_recipe
                          (match git_rev with
                           | Some r => if String.eqb r "" then "HEAD" else r
                           | None => "HEAD"
                           end) stop_rev directory
  | _ => folders
  end.

Definition flag_eqb (f f' : Flag) : bool :=
  match f, f' with
  | Build, Build | Test, Test | Install, Install => true
  | _, _ => false
  end.

(** No edge is lost. *)
Definition edges_kept (g g' : DiGraph) : Prop :=
  forall u v, edge g u v -> edge g' u v.

(** The node [name], once there, stays with its metadata, recipe
    directory, build flag and test flag. *)
Definition node_kept (name : string) (g g' : DiGraph) : Prop :=
  adj_keys_ok g ->
  adj_keys_ok g' /\
  (In name (nodes g) ->
   In name (nodes g') /\
   meta (attrs_of g' name) = meta (attrs_of g name) /\
   recipe (attrs_of g' name) = recipe (attrs_of g name) /\
   build (attrs_of g' name) = build (attrs_of g name) /\
   test (attrs_of g' name) = test (attrs_of g name)).

(** Every node whose [build] flag differs between [g] and [g'] is in [Q]. *)
Definition build_changes_in (Q : string -> Prop) (g g' : DiGraph) : Prop :=
  forall x, build (attrs_of g' x) <> build (attrs_of g x) -> Q x.

(** [p] is listed among the predecessors of [n]: [p] depends on [n]. *)
Definition pred_edge (g : DiGraph) (p n : string) : Prop :=
  exists ps, lookup n (pred g) = Some ps /\ In p ps.

(** What lies within [d] predecessor steps of a node of [start]. *)
Inductive within (g : DiGraph) (start : list string) : nat -> string -> Prop :=
| within_start d n : In n start -> within g start d n
| within_step d n p :
    within g start d n -> pred_edge g p n -> within g start (S d) p.

(** Every node that is dirty in [g'] was dirty in [g] or is in [Q]. *)
Definition marks_in (Q : string -> Prop) (g g' : DiGraph) : Prop :=
  forall x, In x (dirty g') -> In x (dirty g) \/ Q x.

Module Requirements.

(** A requirement list that names [python] twice, and what
    [_deps_to_version_dict] makes of it. *)
Definition listed : list string := ["python 2.7"; "numpy"; "python 3.5"].

Definition versions : dict string := [("python", "3.5"); ("numpy", "")].

End Requirements.

(** The two adjacency dictionaries tell the same edges. *)
Definition mirrored (g : DiGraph) : Prop :=
  forall u v, edge g u v <-> pred_edge g u v.

Definition keeps_mirror (g g' : DiGraph) : Prop :=
  wf_ok g /\ mirrored g -> wf_ok g' /\ mirrored g'.

(** No requirement of the list is empty or blank. *)
Definition no_blank (deps : list string) : bool :=
  forallb (fun x => negb (all_space x)) deps.

(** The requirements that [deps_type] selects. *)
Definition selected_requirements (deps_type : Flag) (pkg : Pkg) : list string :=
  match deps_type with
  | Build => requirements_build pkg
  | _ => requirements_run pkg ++ test_requires pkg
  end.

(** What [construct_graph] splits of a recipe holds no blank requirement:
    all its requirements unless the recipe is skipped, and the selected
    ones in any case. *)
Definition recipe_readable (deps_type : Flag) (pkg : Pkg) : bool :=
  ((pkg_skip pkg
    || no_blank (requirements_build pkg)
       && no_blank (requirements_run pkg ++ test_requires pkg))
   && no_blank (selected_requirements deps_type pkg))%bool.

(** Every edge of [g'] is an edge of [g] or is in [Q]. *)
Definition edges_from (Q : string -> string -> Prop) (g g' : DiGraph) : Prop :=
  forall u v, edge g' u v -> edge g u v \/ Q u v.

(** The graph with [u] entered as a bare node when it is none yet: the
    first step of [add_edge]. *)
Definition with_bare (u : string) (g : DiGraph) : DiGraph :=
  if mem u (keys (succ g)) then g
  else mkGraph (dict_set u no_attrs (node g)) (dict_set u [] (succ g))
               (dict_set u [] (pred g)).

(** The step from [g] to [g'] does not concern the name [n]. *)
Definition untouched (n : string) (g g' : DiGraph) : Prop :=
  adj_keys_ok g ->
  adj_keys_ok g' /\ (In n (nodes g') <-> In n (nodes g)) /\ attrs_of g' n = attrs_of g n.

(** The node [n], once it has its install flag, stays as it is. *)
Definition fixed (n : string) (g g' : DiGraph) : Prop :=
  adj_keys_ok g ->
  adj_keys_ok g' /\
  (In n (nodes g) -> install (attrs_of g n) = Some true ->
   In n (nodes g') /\ attrs_of g' n = attrs_of g n).

(* ================================================================== *)
(** ** The build matrix of [build_matrix.py]

    [src/conda_gitlab_ci/build_matrix.py] reads a file of versions, a
    dictionary from the names of environment variables to lists of values,
    drops the variables that a recipe does not leave open, and returns one
    configuration for each combination of the values that are left. The
    process environment [os.environ] is the state that is threaded through;
    the YAML loader, the renderer and the file system are parameters. *)

Module BuildMatrix.

Inductive error : Type :=
| KeyError (key : string)
| IndexError
| TypeError.

Inductive result (A : Type) : Type :=
| Ok (a : A)
| Fail (e : error).

Arguments Ok {A} a.
Arguments Fail {A} e.

(** An item of a list of the versions file: a string, or anything
    else, of which only its truth matters: false for [None], a zero,
    [False] or an empty collection, true otherwise. *)
Inductive atom : Type :=
| Str (s : string)
| Falsy
| Truthy.

(** What the versions file gives for a variable: a list, or a single
    value that is a string, [None], a number or a boolean. A mapping as
    the value of a variable is left out. *)
Inductive value : Type :=
| Items (l : list atom)
| One (a : atom).

(** [os.environ] *)
Definition environ : Type := dict string.

(** A computation on [os.environ]. *)
Definition E (A : Type) : Type := environ -> result A * environ.

(** [del d[k]] where [k] is a key of [d]. *)
Definition dict_del {V} (k : string) (d : dict V) : dict V :=
  filter (fun kv => negb (String.eqb k (fst kv))) d.

(** What the context manager makes of a variable it has set: its old
    value when that was not empty, no variable otherwise. *)
Definition restored (old : option string) : option string :=
  match old with
  | Some (String a s) => Some (String a s)
  | _ => None
  end.

(** [not value] *)
Definition falsy (a : atom) : bool :=
  match a with
  | Str s => String.eqb s ""
  | Falsy => true
  | Truthy => false
  end.

(** The loop of [set_conda_env_vars] before its [yield]: each variable
    is backed up, then set to the value, or to the first value of a list.
    A list without values is an [IndexError]; [os.environ] takes strings
    only. *)
Fixpoint set_vars (items : list (string * value)) (backup_dict : dict (option string))
  : E (dict (option string)) :=
  fun env =>
    match items with
    | [] => (Ok backup_dict, env)
    | (env_var, v) :: items' =>
        let backup_dict := dict_set env_var (lookup env_var env) backup_dict in
        match (match v with
               | Items [] => Fail IndexError
               | Items (a :: _) => Ok a
               | One a => Ok a
               end) with
        | Fail e => (Fail e, env)
        | Ok a =>
            match (if falsy a then Str "" else a) with
            | Str s => set_vars items' backup_dict (dict_set env_var s env)
            | _ => (Fail TypeError, env)
            end
        end
    end.

(** The loop after the [yield]: a variable whose backup is empty or
    missing is deleted, any other is set back. *)
Fixpoint restore_vars (backup : list (string * option string)) : E unit :=
  fun env =>
    match backup with
    | [] => (Ok tt, env)
    | (env_var, Some (String a s)) :: backup' =>
        restore_vars backup' (dict_set env_var (String a s) env)
    | (env_var, _) :: backup' =>
        match lookup env_var env with
        | Some _ => restore_vars backup' (dict_del env_var env)
        | None => (Fail (KeyError env_var), env)
        end
    end.

(** [with set_conda_env_vars(env_dict): body]. The context manager has
    no [finally]: when the body raises, nothing is restored. *)
Definition set_conda_env_vars {A} (env_dict : dict value) (body : E A) : E A :=
  fun env =>
    match set_vars env_dict [] env with
    | (Fail e, env1) => (Fail e, env1)
    | (Ok backup_dict, env1) =>
        match body env1 with
        | (Fail e, env2) => (Fail e, env2)
        | (Ok a, env2) =>
            match restore_vars backup_dict env2 with
            | (Fail e, env3) => (Fail e, env3)
            | (Ok _, env3) => (Ok a, env3)
            end
        end
    end.

(** [key.upper()] *)
Definition upper_char (a : ascii) : ascii :=
  let n := nat_of_ascii a in
  if (Nat.leb 97 n && Nat.leb n 122)%bool then ascii_of_nat (n - 32) else a.

Fixpoint upper (s : string) : string :=
  match s with
  | EmptyString => EmptyString
  | String a s' => String (upper_char a) (upper s')
  end.

(** The key that [del_key] deletes for a package. *)
Definition conda_key (key : string) : string :=
  let key := if String.eqb key "python" then "py"
             else if String.eqb key "numpy" then "npy"
             else if String.eqb key "r-base" then "r"
             else key in
  ("CONDA_" ++ upper key)%string.

Definition del_key (version_dicts : dict value) (key : string) : result (dict value) :=
  match lookup (conda_key key) version_dicts with
  | Some _ => Ok (dict_del (conda_key key) version_dicts)
  | None => Fail (KeyError (conda_key key))
  end.

(** The loop over the run requirements for one package: [true] when it
    ends by [break], [false] when it runs to its end, where the [else]
    of the [for] deletes the key. The requirements are strings;
    [req.encode('utf-8')] changes neither where the blanks are nor which
    part equals a name, and is left out. *)
Fixpoint leaves_open (name : string) (reqs : list string) : bool :=
  match reqs with
  | [] => false
  | req :: reqs' =>
      let req_parts := split_char " "%char req in
      if String.eqb (hd "" req_parts) name then
        if Nat.ltb 1 (length req_parts) then
          if (String.eqb name "numpy" && mem "x.x" req_parts)%bool then true
          else leaves_open name reqs'
        else if String.eqb name "numpy" then leaves_open name reqs'
        else true
      else leaves_open name reqs'
  end.

Definition matrix_packages : list string := ["numpy"; "python"; "perl"; "lua"; "r-base"].

Fixpoint filter_names (names : list string) (reqs : list string)
         (version_dicts : dict value) : result (dict value) :=
  match names with
  | [] => Ok version_dicts
  | name :: names' =>
      if leaves_open name reqs then filter_names names' reqs version_dicts
      else match del_key version_dicts name with
           | Ok version_dicts' => filter_names names' reqs version_dicts'
           | Fail e => Fail e
           end
  end.

(** [itertools.product]: the last pool varies fastest. *)
Fixpoint product {A} (pools : list (list A)) : list (list A) :=
  match pools with
  | [] => [[]]
  | pool :: pools' => flat_map (fun x => map (cons x) (product pools')) pool
  end.

(** What iterating over a value of the versions file gives: the items
    of a list, the characters of a string; nothing else can be iterated. *)
Definition iterate (v : value) : result (list atom) :=
  match v with
  | Items l => Ok l
  | One (Str s) => Ok (map (fun c => Str (String c EmptyString)) (list_ascii_of_string s))
  | One _ => Fail TypeError
  end.

Fixpoint pools_of (vs : list value) : result (list (list atom)) :=
  match vs with
  | [] => Ok []
  | v :: vs' =>
      match iterate v with
      | Fail e => Fail e
      | Ok pool =>
          match pools_of vs' with
          | Fail e => Fail e
          | Ok pools => Ok (pool :: pools)
          end
      end
  end.

(** [dict(izip(dicts, x))] *)
Fixpoint dict_of_pairs {V} (kvs : list (string * V)) (d : dict V) : dict V :=
  match kvs with
  | [] => d
  | (k, v) :: kvs' => dict_of_pairs kvs' (dict_set k v d)
  end.

(** A value of a configuration: one from the versions file, or the
    one-item tuple [label,]. *)
Inductive setting : Type :=
| Plain (a : atom)
| Tuple1 (s : string).

(** [{'variables': version_set}] *)
Record configuration : Type := mkConfiguration {
  variables : dict setting
}.

Section Matrix.

(** [yaml.load] of the file at a path. *)
Variable load_yaml : string -> dict value.

Variable isdir : string -> bool.

(** [metadata.get_value('requirements/run')] of the recipe that
    [conda_build.api.render] renders under an environment. *)
Variable render_run : environ -> string -> list string.

Definition _filter_environment_with_metadata (build_recipe : string)
           (version_dicts : dict value) : E (dict value) :=
  fun env =>
    match set_conda_env_vars version_dicts
            (fun env1 => (Ok (render_run env1 build_recipe), env1)) env with
    | (Fail e, env') => (Fail e, env')
    | (Ok reqs, env') => (filter_names matrix_packages reqs version_dicts, env')
    end.

Definition _get_versions_product (build_recipe versions_file : string)
  : E (list (dict atom)) :=
  fun env =>
    let dicts := load_yaml versions_file in
    match (if isdir build_recipe
           then _filter_environment_with_metadata build_recipe dicts env
           else (Ok dicts, env)) with
    | (Fail e, env') => (Fail e, env')
    | (Ok dicts, env') =>
        match pools_of (map snd dicts) with
        | Fail e => (Fail e, env')
        | Ok pools =>
            (Ok (map (fun x => dict_of_pairs (combine (keys dicts) x) [])
                     (product pools)), env')
        end
    end.

Definition expand_build_matrix (build_recipe repo_base_dir label : string)
  : E (list configuration) :=
  fun env =>
    let build_recipe :=
      if startswith_char slash build_recipe then build_recipe
      else path_join repo_base_dir build_recipe in
    match _get_versions_product build_recipe
                                (path_join repo_base_dir "versions.yml") env with
    | (Fail e, env') => (Fail e, env')
    | (Ok version_sets, env') =>
        (Ok (map (fun version_set =>
                    let version_set :=
                      dict_set "TARGET_PLATFORM" (Tuple1 label)
                               (map (fun kv => (fst kv, Plain (snd kv))) version_set) in
                    let version_set :=
                      if isdir build_recipe
                      then dict_set "BUILD_RECIPE" (Plain (Str build_recipe)) version_set
                      else version_set in
                    mkConfiguration version_set)
                 version_sets), env')
    end.

(** The run requirements that the filter reads: those rendered under
    the environment that the versions set. *)
Definition matrix_requirements (build_recipe : string) (version_dicts : dict value)
           (env : environ) : list string :=
  render_run (snd (set_vars version_dicts [] env)) build_recipe.

End Matrix.

(** The path [expand_build_matrix] takes for the recipe. *)
Definition recipe_path (repo_base_dir build_recipe : string) : string :=
  if startswith_char slash build_recipe then build_recipe
  else path_join repo_base_dir build_recipe.

(** The key belongs to one of [names] that the requirements do not
    leave open. *)
Definition dropped (names : list string) (reqs : list string) (key : string) : bool :=
  existsb (fun name => (String.eqb (conda_key name) key
                        && negb (leaves_open name reqs))%bool) names.

End BuildMatrix.

Module MatrixExamples.
Import BuildMatrix.

(** Two Pythons and one version of everything else. *)
Definition versions : dict value :=
  [("CONDA_PY", Items [Str "27"; Str "35"]);
   ("CONDA_NPY", Items [Str "111"]);
   ("CONDA_PERL", Items [Str "5.20"]);
   ("CONDA_LUA", Items [Str "5.2"]);
   ("CONDA_R", Items [Str "3.3"])].

(** A recipe that leaves Python and numpy open. *)
Definition requirements (_ : environ) (_ : string) : list string :=
  ["python"; "numpy x.x"; "six >=1.10"].

(** An environment where [CONDA_PY] is set and empty. *)
Definition environment : environ :=
  [("PATH", "/usr/bin"); ("CONDA_PY", ""); ("CONDA_R", "3.2")].

Definition environment_after : environ :=
  Eval vm_compute in
    snd (set_conda_env_vars versions (fun env => (Ok tt, env)) environment).

Definition configurations : list configuration :=
  Eval vm_compute in
    match expand_build_matrix (fun _ => versions) (fun _ => true) requirements
                              "recipe" "/repo" "linux-64" environment with
    | (Ok cs, _) => cs
    | _ => []
    end.

End MatrixExamples.

(* ================================================================== *)
(** ** Notions for [find_cycle] *)

(** The head and the tail of an edge in the direction it was followed. *)
Definition head_of (e : dedge) : string := snd (tailhead e).
Definition tail_of (e : dedge) : string := fst (tailhead e).

(** The list of followed edges leads from [a] to [b]: each edge starts
    where the one before it ends. *)
Fixpoint leads (a : string) (l : list dedge) (b : string) : Prop :=
  match l with
  | [] => a = b
  | e :: l' => tail_of e = a /\ leads (head_of e) l' b
  end.

(** A loop of the graph when the direction of its edges is ignored: the
    edges are edges of the graph, each starts where the one before it
    ends and the last ends where the first starts, no edge is used twice
    and no node is left twice. *)
Definition loop_ignoring_direction (G : DiGraph) (l : list dedge) : Prop :=
  l <> [] /\
  (forall u v d, In (u, v, d) l -> edge G u v) /\
  (exists a, leads a l a) /\
  NoDup (map edge_key l) /\
  NoDup (map tail_of l).

(** A node of the list lies on a cycle of the graph. *)
Definition on_cycle (G : DiGraph) (n : string) : Prop :=
  clos_trans string (edge G) n n.


Definition predecessors_of (g : DiGraph) (n : string) : list string :=
  match lookup n (pred g) with
  | Some ps => ps
  | None => []
  end.

(** What [out_edges] lists for a node. *)
Definition incident (G : DiGraph) (n : string) : list dedge :=
  map (fun v => (n, v, Forward)) (successors_of G n)
  ++ map (fun p => (p, n, Reverse)) (predecessors_of G n).

(** The relation that a list of edge keys spells out. *)
Definition joined (ve : list (string * string)) (a b : string) : Prop := In (a, b) ve.

(** The nodes the generator has met: visited, or waiting on the stack. *)
Definition gen_seen (g : edge_dfs_state) (x : string) : Prop :=
  In x (visited_nodes g) \/ In x (stack g).

(** What the generator keeps between two rounds: the stack and the
    visited nodes are nodes; all of the stack but its top is visited; the
    iterator of a visited node is a rest of its incident edges, of which
    the part read is visited; a visited node that left the stack has an
    empty iterator; and a visited edge is an edge between nodes met. *)
Record gen_ok (G : DiGraph) (g : edge_dfs_state) : Prop := mkGenOk {
  gen_starts : start_nodes g = [];
  gen_stack_nodes : forall x, In x (stack g) -> In x (nodes G);
  gen_visited_nodes : forall x, In x (visited_nodes g) -> In x (nodes G);
  gen_below : forall top below,
      stack g = top :: below -> forall x, In x below -> In x (visited_nodes g);
  gen_iter : forall n,
      In n (visited_nodes g) ->
      exists read rest,
        lookup n (edges g) = Some rest /\ incident G n = read ++ rest /\
        forall e, In e read -> In (edge_key e) (visited_edges g);
  gen_keys : forall n, In n (keys (edges g)) -> In n (visited_nodes g);
  gen_finished : forall n,
      In n (visited_nodes g) -> ~ In n (stack g) -> lookup n (edges g) = Some [];
  gen_edges : forall u v,
      In (u, v) (visited_edges g) -> edge G u v /\ gen_seen g u /\ gen_seen g v
}.

(** What is left for the generator to do: the edges of the iterators, a
    full fan for each node not yet visited, and the stack to pop. *)
Definition unvisited_degree (G : DiGraph) (visited : list string) : nat :=
  list_sum (map (fun n => if mem n visited then 0 else length (incident G n)) (nodes G)).

Definition iterators_left (its : dict (list dedge)) : nat :=
  list_sum (map (fun kv => length (snd kv)) its).

Definition gen_measure (G : DiGraph) (g : edge_dfs_state) : nat :=
  2 * (unvisited_degree G (visited_nodes g) + iterators_left (edges g)) + length (stack g).

(** Fuel that is enough for [find_cycle]. *)
Definition cycle_budget (G : DiGraph) : nat :=
  2 * unvisited_degree G [] + 3.

(** The path, last edge first, starts at [s], and each of its edges
    starts where the one before it ends. *)
Fixpoint chained (s : string) (path : list dedge) : Prop :=
  match path with
  | [] => True
  | e :: rest => tail_of e = hd s (map head_of rest) /\ chained s rest
  end.

(** What [find_cycle] keeps between two edges of one start node [s]: the
    path it holds is the stack of the generator, the active nodes are the
    nodes on it, the nodes seen are those the generator has met, none of
    them explored before, and the visited edges have no cycle. *)
Record search_ok (G : DiGraph) (s : string) (explored : list string)
       (g : edge_dfs_state) (c : search_state) : Prop := mkSearchOk {
  so_gen : gen_ok G g;
  so_stack : stack g = map head_of (path c) ++ [s];
  so_chain : chained s (path c);
  so_nodup : NoDup (stack g);
  so_active : forall x, In x (active_nodes c) <-> In x (stack g);
  so_seen : forall x, In x (seen_nodes c) <-> gen_seen g x;
  so_previous : previous_node c = match path c with
                                  | [] => None
                                  | e :: _ => Some (head_of e)
                                  end;
  so_path_keys : forall e, In e (path c) -> In (edge_key e) (visited_edges g);
  so_path_nodup : NoDup (map edge_key (path c));
  so_acyclic : forall u, ~ clos_trans string (joined (visited_edges g)) u u;
  so_fresh : forall x, In x (seen_nodes c) -> ~ In x explored
}.

(** What [find_cycle] keeps between two start nodes: the explored nodes
    are nodes, an edge never leaves them, and none lies on a cycle. *)
Definition explored_ok (G : DiGraph) (explored : list string) : Prop :=
  (forall u v, edge G u v -> (In u explored <-> In v explored)) /\
  (forall u, In u explored -> ~ on_cycle G u).





(* ================================================================== *)
(** ** Lists, strings and dictionaries *)

Lemma mem_In (x : string) (l : list string) : mem x l = true <-> In x l.
Proof.
  unfold mem. rewrite existsb_exists. split.
  - intros [y [Hy E]]. apply String.eqb_eq in E. now subst.
  - intros H. exists x. split; [assumption | apply String.eqb_refl].
Qed.

Lemma mem_false (x : string) (l : list string) : mem x l = false <-> ~ In x l.
Proof.
  rewrite <- mem_In. destruct (mem x l); split; congruence.
Qed.

Lemma list_eqb_eq (l1 l2 : list string) : list_eqb l1 l2 = true <-> l1 = l2.
Proof.
  unfold list_eqb. destruct (list_eq_dec string_dec l1 l2); split; congruence.
Qed.

Lemma list_eqb_refl (l : list string) : list_eqb l l = true.
Proof. now apply list_eqb_eq. Qed.

Section DictFacts.
Context {V : Type}.
Implicit Types (d : dict V) (k n : string).

Lemma lookup_In_keys k d v : lookup k d = Some v -> In k (keys d).
Proof.
  induction d as [|[k' v'] d IH]; simpl; [discriminate|].
  destruct (String.eqb_spec k k'); [now left | auto].
Qed.

Lemma lookup_None k d : lookup k d = None <-> ~ In k (keys d).
Proof.
  induction d as [|[k' v'] d IH]; simpl.
  - tauto.
  - destruct (String.eqb_spec k k'); subst.
    + split; [discriminate | intros H; exfalso; apply H; now left].
    + rewrite IH. split; intros H; [intros [E|I]; congruence | tauto].
Qed.

Lemma In_keys_lookup k d : In k (keys d) -> exists v, lookup k d = Some v.
Proof.
  intros H. destruct (lookup k d) eqn:E; [eauto|].
  apply lookup_None in E. contradiction.
Qed.

Lemma keys_dict_adjust f n d : keys (dict_adjust f n d) = keys d.
Proof.
  induction d as [|[k' v'] d IH]; simpl; [reflexivity|].
  destruct (String.eqb n k'); simpl; congruence.
Qed.

Lemma lookup_dict_adjust f n k d :
  lookup k (dict_adjust f n d) =
  if String.eqb k n then option_map f (lookup k d) else lookup k d.
Proof.
  induction d as [|[k' v'] d IH]; simpl.
  - now destruct (String.eqb k n).
  - destruct (String.eqb_spec n k'); simpl.
    + subst. destruct (String.eqb_spec k k'); simpl; [reflexivity|].
      reflexivity.
    + destruct (String.eqb_spec k k'); simpl.
      * subst. destruct (String.eqb_spec k' n); [congruence | reflexivity].
      * apply IH.
Qed.

Lemma lookup_dict_set n v k d :
  lookup k (dict_set n v d) = if String.eqb k n then Some v else lookup k d.
Proof.
  induction d as [|[k' v'] d IH]; simpl.
  - reflexivity.
  - destruct (String.eqb_spec n k'); simpl.
    + subst. destruct (String.eqb_spec k k'); reflexivity.
    + destruct (String.eqb_spec k k'); simpl.
      * subst. destruct (String.eqb_spec k' n); [congruence | reflexivity].
      * apply IH.
Qed.

Lemma keys_dict_set n v d :
  keys (dict_set n v d) = if mem n (keys d) then keys d else keys d ++ [n].
Proof.
  induction d as [|[k' v'] d IH]; simpl; [reflexivity|].
  destruct (String.eqb_spec n k'); simpl; [reflexivity|].
  rewrite IH. now destruct (mem n (keys d)).
Qed.

Lemma In_keys_dict_set n v d k :
  In k (keys (dict_set n v d)) <-> k = n \/ In k (keys d).
Proof.
  rewrite keys_dict_set. destruct (mem n (keys d)) eqn:E.
  - apply mem_In in E. split; [auto | intros [->|]; auto].
  - rewrite in_app_iff. simpl. intuition.
Qed.
End DictFacts.

(** *** [split] and [in] on strings *)

Lemma split_char_nonempty c s : split_char c s <> [].
Proof.
  destruct s as [|a s]; simpl; [discriminate|].
  destruct (Ascii.eqb a c); [discriminate|].
  destruct (split_char c s); discriminate.
Qed.

Lemma contains_char_app c s t :
  contains_char c (s ++ t) = (contains_char c s || contains_char c t)%bool.
Proof.
  induction s as [|a s IH]; simpl; [reflexivity|].
  destruct (Ascii.eqb a c); simpl; auto.
Qed.

(** The first item of [f.split(c)] is what precedes the first [c]. *)
Lemma split_char_head c d rest :
  contains_char c d = false ->
  hd "" (split_char c (d ++ String c rest)) = d.
Proof.
  induction d as [|a d IH]; simpl; intros H.
  - now rewrite Ascii.eqb_refl.
  - destruct (Ascii.eqb a c) eqn:E; [discriminate|].
    specialize (IH H).
    destruct (split_char c (d ++ String c rest)) eqn:S.
    + now apply split_char_nonempty in S.
    + simpl in *. now subst.
Qed.

Lemma split_char_decompose c f :
  contains_char c f = true ->
  exists rest, f = (hd "" (split_char c f) ++ String c rest)%string /\
               contains_char c (hd "" (split_char c f)) = false.
Proof.
  induction f as [|a f IH]; simpl; [discriminate|].
  destruct (Ascii.eqb a c) eqn:E.
  - intros _. apply Ascii.eqb_eq in E. subst. exists f. now simpl.
  - intros H. destruct (IH H) as [rest [Hf Hn]].
    destruct (split_char c f) eqn:S; [now apply split_char_nonempty in S|].
    simpl in *. exists rest. rewrite E. split; [now f_equal | assumption].
Qed.

Lemma prefix_app needle b : String.prefix needle (needle ++ b) = true.
Proof.
  induction needle as [|x n IH]; simpl; [now destruct b|].
  destruct (ascii_dec x x); [assumption | congruence].
Qed.

Lemma is_substring_prefix needle s :
  String.prefix needle s = true -> is_substring needle s = true.
Proof.
  intros H. destruct s; simpl in *; rewrite H; reflexivity.
Qed.

Lemma is_substring_app needle a b :
  is_substring needle (a ++ needle ++ b) = true.
Proof.
  induction a as [|c a IH].
  - change (is_substring needle (needle ++ b) = true).
    apply is_substring_prefix, prefix_app.
  - change (is_substring needle (String c (a ++ needle ++ b)) = true).
    simpl. rewrite IH. apply orb_true_r.
Qed.

(** *** Computations and the relations they preserve *)

Section Preservation.
Variable R : DiGraph -> DiGraph -> Prop.
Hypothesis R_refl : forall g, R g g.
Hypothesis R_trans : forall g1 g2 g3, R g1 g2 -> R g2 g3 -> R g1 g3.

Lemma preserves_ret {A} (a : A) : preserves R (ret a).
Proof. intros g. apply R_refl. Qed.

Lemma preserves_raise {A} e : preserves R (@raise A e).
Proof. intros g. apply R_refl. Qed.

Lemma preserves_timeout {A} : preserves R (@timeout A).
Proof. intros g. apply R_refl. Qed.

Lemma preserves_get : preserves R get.
Proof. intros g. apply R_refl. Qed.

Lemma preserves_lift {A} (o : outcome A) : preserves R (lift o).
Proof. intros g. apply R_refl. Qed.

Lemma preserves_node_attrs n : preserves R (node_attrs n).
Proof. intros g. unfold node_attrs. destruct (lookup n (node g)); apply R_refl. Qed.

Lemma preserves_successors n : preserves R (successors n).
Proof. intros g. unfold successors. destruct (lookup n (succ g)); apply R_refl. Qed.

Lemma preserves_predecessors n : preserves R (predecessors n).
Proof. intros g. unfold predecessors. destruct (lookup n (pred g)); apply R_refl. Qed.

Lemma preserves_bind {A B} (m : M A) (k : A -> M B) :
  preserves R m -> (forall a, preserves R (k a)) -> preserves R (bind m k).
Proof.
  intros Hm Hk g. unfold bind. specialize (Hm g).
  destruct (m g) as [[a|e|] g1]; simpl in *; auto.
  eapply R_trans; [exact Hm | apply Hk].
Qed.

Lemma bind_rel {A B} (m : M A) (k : A -> M B) g :
  R g (snd (m g)) -> (forall a, preserves R (k a)) -> R g (snd (bind m k g)).
Proof.
  intros Hm Hk. unfold bind.
  destruct (m g) as [[a|e|] g1]; simpl in *; auto.
  eapply R_trans; [exact Hm | apply Hk].
Qed.

Lemma preserves_for_each {A} (xs : list A) (body : A -> M unit) :
  (forall x, preserves R (body x)) -> preserves R (for_each xs body).
Proof.
  intros Hb. induction xs as [|x xs IH]; simpl.
  - apply preserves_ret.
  - apply preserves_bind; auto.
Qed.
End Preservation.

Lemma attrs_of_adjust f n g s p k :
  attrs_of (mkGraph (dict_adjust f n (node g)) s p) k =
  if String.eqb k n then
    match lookup k (node g) with Some a => f a | None => no_attrs end
  else attrs_of g k.
Proof.
  unfold attrs_of. simpl. rewrite lookup_dict_adjust.
  destruct (String.eqb k n); [|reflexivity].
  now destruct (lookup k (node g)).
Qed.

Lemma attrs_of_set a n g s p k :
  attrs_of (mkGraph (dict_set n a (node g)) s p) k =
  if String.eqb k n then a else attrs_of g k.
Proof.
  unfold attrs_of. simpl. rewrite lookup_dict_set. now destruct (String.eqb k n).
Qed.

Lemma attrs_of_missing g n : ~ In n (nodes g) -> attrs_of g n = no_attrs.
Proof.
  intros H. unfold attrs_of. apply lookup_None in H. unfold nodes in *. now rewrite H.
Qed.

Lemma lookup_In {V} k (d : dict V) v : lookup k d = Some v -> In (k, v) d.
Proof.
  induction d as [|[k' v'] d IH]; simpl; [discriminate|].
  destruct (String.eqb_spec k k'); [intros H; inversion H; subst; now left | auto].
Qed.

(** *** Sums over lists *)

Lemma list_sum_map_le {A} (f h : A -> nat) l :
  (forall x, In x l -> f x <= h x) -> list_sum (map f l) <= list_sum (map h l).
Proof.
  induction l as [|x l IH]; simpl; intros H; [lia|].
  specialize (H x (or_introl eq_refl)) as Hx.
  assert (list_sum (map f l) <= list_sum (map h l)) by (apply IH; auto).
  lia.
Qed.

Lemma list_sum_filter_le {A} (f : A -> nat) p l :
  list_sum (map f (filter p l)) <= list_sum (map f l).
Proof.
  induction l as [|x l IH]; simpl; [lia|].
  destruct (p x); simpl; lia.
Qed.

(** *** Adjacency lists *)

Lemma NoDup_keys_dict_set {V} n (v : V) d : NoDup (keys d) -> NoDup (keys (dict_set n v d)).
Proof.
  intros N. rewrite keys_dict_set. destruct (mem n (keys d)) eqn:E; [exact N|].
  apply mem_false in E. apply NoDup_app; [assumption | repeat constructor; intros [] |].
  intros x I [<-|[]]. contradiction.
Qed.

Lemma lookup_adj_add u v adj x :
  lookup x (adj_add u v adj) =
  if String.eqb x u
  then option_map (fun vs => if mem v vs then vs else vs ++ [v]) (lookup x adj)
  else lookup x adj.
Proof. unfold adj_add. apply lookup_dict_adjust. Qed.

Lemma lookup_adj_add_iff u v (adj : dict (list string)) x y :
  In u (keys adj) ->
  (exists vs, lookup x (adj_add u v adj) = Some vs /\ In y vs) <->
  (exists vs, lookup x adj = Some vs /\ In y vs) \/ (x = u /\ y = v).
Proof.
  intros I. rewrite lookup_adj_add.
  destruct (String.eqb_spec x u) as [->|N].
  - destruct (In_keys_lookup u adj I) as [ws L]. rewrite L. simpl. split.
    + intros [vs [E J]]. inversion E; subst vs. clear E.
      destruct (mem v ws) eqn:M; [left; eauto|].
      apply in_app_iff in J. destruct J as [J|[J|[]]]; [left; eauto | right; auto].
    + intros [[vs [E J]]|[_ ->]].
      * inversion E; subst vs. eexists. split; [reflexivity|].
        destruct (mem v ws); [exact J | apply in_app_iff; now left].
      * eexists. split; [reflexivity|].
        destruct (mem v ws) eqn:M; [now apply mem_In | apply in_app_iff; right; now left].
  - split; [intros H; now left | intros [H|[E _]]; [exact H | contradiction]].
Qed.

(* ================================================================== *)
(** ** Change detection *)

Section ChangeDetector.
Variable getcwd : string.
Variable git_diff_tree : string -> string -> list string.
Variable find_recipe : string -> bool.

Lemma In_get_base_folders base fs d :
  In d (_get_base_folders find_recipe base fs) <->
  exists f, In f fs /\ contains_char slash f = true /\
            d = hd "" (split_char slash f) /\
            find_recipe (path_join base d) = true.
Proof.
  induction fs as [|f fs IH]; simpl.
  - split; [tauto | intros [f [[] _]]].
  - destruct (contains_char slash f) eqn:C.
    + destruct (find_recipe (path_join base (hd "" (split_char slash f)))) eqn:R.
      * simpl. rewrite IH. split.
        -- intros [E | [f' [I H]]]; [exists f; subst; auto | exists f'; auto].
        -- intros [f' [[E|I] [H1 [H2 H3]]]]; subst; [now left | right; eauto].
      * rewrite IH. split.
        -- intros [f' [I H]]. exists f'. auto.
        -- intros [f' [[E|I] [H1 [H2 H3]]]]; subst; [congruence | eauto].
    + rewrite IH. split.
      * intros [f' [I H]]. exists f'. auto.
      * intros [f' [[E|I] [H1 H2]]]; subst; [congruence | eauto].
Qed.

Lemma get_base_folders_app base fs1 fs2 :
  _get_base_folders find_recipe base (fs1 ++ fs2) =
  _get_base_folders find_recipe base fs1 ++ _get_base_folders find_recipe base fs2.
Proof.
  induction fs1 as [|f fs1 IH]; simpl; [reflexivity|].
  destruct (contains_char slash f); [|assumption].
  destruct (find_recipe _); simpl; congruence.
Qed.

(** C9. [git_changed_recipes] returns exactly the top-level directories
    [d] for which some changed path is [d/...] and [d] is a recipe root
    under [git_root]; a changed path with no directory part, or whose
    top-level directory is not a recipe root, contributes nothing. *)
Theorem git_changed_recipes_spec (git_rev : string) (stop_rev : option string)
        (git_root : string) :
  (forall d,
      In d (git_changed_recipes getcwd git_diff_tree find_recipe git_rev stop_rev git_root)
      <->
      exists f rest,
        In f (_git_changed_files getcwd git_diff_tree git_rev stop_rev git_root) /\
        f = (d ++ "/" ++ rest)%string /\ contains_char slash d = false /\
        find_recipe (path_join git_root d) = true)
  /\
  (forall fs1 f fs2,
      contains_char slash f = false \/
      find_recipe (path_join git_root (hd "" (split_char slash f))) = false ->
      _get_base_folders find_recipe git_root (fs1 ++ f :: fs2) =
      _get_base_folders find_recipe git_root (fs1 ++ fs2)).
Proof.
  split.
  - intros d. unfold git_changed_recipes. rewrite In_get_base_folders. split.
    + intros [f [I [C [E R]]]]. destruct (split_char_decompose _ _ C) as [rest [Hf Hn]].
      exists f, rest. subst d. repeat split; auto.
    + intros [f [rest [I [E [C R]]]]]. exists f. subst f. repeat split; auto.
      * rewrite contains_char_app. unfold slash. cbn. apply orb_true_r.
      * symmetry. now apply (split_char_head slash d rest).
  - intros fs1 f fs2 H. rewrite !get_base_folders_app. f_equal. simpl.
    destruct H as [H|H]; rewrite ?H; [reflexivity|].
    now destruct (contains_char slash f).
Qed.
End ChangeDetector.

(** A diff that touches two recipes, a plain directory and a top-level
    file. *)
Lemma git_changed_recipes_spec_witness :
  git_changed_recipes "/cwd" Examples.diff Examples.is_recipe "HEAD" None "/r"
  = ["numpy"; "scipy"; "numpy"] /\
  _get_base_folders Examples.is_recipe "/r"
                    (["numpy/meta.yaml"] ++ "README.md" :: ["scipy/build.sh"]) =
  _get_base_folders Examples.is_recipe "/r" (["numpy/meta.yaml"] ++ ["scipy/build.sh"]).
Proof.
  split; [reflexivity|].
  apply (git_changed_recipes_spec "/cwd" Examples.diff Examples.is_recipe "HEAD" None "/r").
  left. reflexivity.
Defined.

(* ================================================================== *)
(** ** Graph construction *)

(** C3. A placeholder met before its recipe loses its install flag when
    the recipe is merged: with [x] (which needs [y]) listed before [y], the
    node [y] is first a placeholder with [install = True]; after the merge
    it has the recipe's metadata and directory, and [install = False].
    Listed the other way round, [y] ends with [install = True]. *)
Theorem construct_graph_merge_clears_install :
  (exists g, Examples.construct_xy ["x"] = Ret g /\
             install (attrs_of g "y") = Some true /\ recipe (attrs_of g "y") = None) /\
  (exists g, Examples.construct_xy ["x"; "y"] = Ret g /\
             install (attrs_of g "y") = Some false /\
             recipe (attrs_of g "y") = Some "/r/y" /\
             option_map m_version (meta (attrs_of g "y")) = Some "2.0") /\
  (exists g, Examples.construct_xy ["y"; "x"] = Ret g /\
             install (attrs_of g "y") = Some true /\
             recipe (attrs_of g "y") = Some "/r/y").
Proof.
  repeat split; eexists; (split; [vm_compute; reflexivity|]); repeat split.
Qed.

Lemma no_intent_change_refl g : no_intent_change g g.
Proof. split; intros; auto. Qed.

Lemma no_intent_change_trans g1 g2 g3 :
  no_intent_change g1 g2 -> no_intent_change g2 g3 -> no_intent_change g1 g3.
Proof.
  intros [A1 B1] [A2 B2]. split.
  - intros n. destruct (A1 n) as [? [? ?]], (A2 n) as [? [? ?]]. repeat split; congruence.
  - intros n H. destruct (B1 n H) as [I1 M1]. destruct (B2 n I1) as [I2 M2].
    split; [assumption | congruence].
Qed.

Lemma no_intent_change_add_node g dep v :
  ~ In dep (nodes g) ->
  no_intent_change g (nx_add_node dep (placeholder v) g).
Proof.
  intros Hn. unfold nx_add_node. destruct (mem dep (keys (succ g))).
  - split.
    + intros n. rewrite attrs_of_adjust. destruct (String.eqb_spec n dep); auto.
      subst. rewrite (attrs_of_missing g dep Hn).
      apply lookup_None in Hn. unfold nodes in Hn. rewrite Hn. auto.
    + intros n H. unfold nodes. simpl. rewrite keys_dict_adjust. split; [assumption|].
      rewrite attrs_of_adjust. destruct (String.eqb_spec n dep); [subst; contradiction | reflexivity].
  - split.
    + intros n. rewrite attrs_of_set. destruct (String.eqb_spec n dep); auto.
      subst. rewrite (attrs_of_missing g dep Hn). auto.
    + intros n H. unfold nodes. simpl. rewrite In_keys_dict_set. split; [now right|].
      rewrite attrs_of_set. destruct (String.eqb_spec n dep); [subst; contradiction | reflexivity].
Qed.

Lemma no_intent_change_bare g u :
  ~ In u (nodes g) ->
  no_intent_change g (mkGraph (dict_set u no_attrs (node g)) (dict_set u [] (succ g))
                              (dict_set u [] (pred g))).
Proof.
  intros Hn. split.
  - intros n. rewrite attrs_of_set. destruct (String.eqb_spec n u); auto.
    subst. rewrite (attrs_of_missing g u Hn). auto.
  - intros n H. unfold nodes. simpl. rewrite In_keys_dict_set. split; [now right|].
    rewrite attrs_of_set. destruct (String.eqb_spec n u); [subst; contradiction | reflexivity].
Qed.

Lemma no_intent_change_same_node g s p :
  no_intent_change g (mkGraph (node g) s p).
Proof. split; intros; auto. Qed.

Lemma skip_frame_refl g : skip_frame g g.
Proof. intros K. split; [assumption | apply no_intent_change_refl]. Qed.

Lemma skip_frame_trans g1 g2 g3 :
  skip_frame g1 g2 -> skip_frame g2 g3 -> skip_frame g1 g3.
Proof.
  intros H1 H2 K. destruct (H1 K) as [K2 N1]. destruct (H2 K2) as [K3 N2].
  split; [assumption | eapply no_intent_change_trans; eassumption].
Qed.

Lemma skip_frame_set_install dep :
  preserves skip_frame (adjust_node (set_flag Install true) dep).
Proof.
  intros g. unfold adjust_node. destruct (lookup dep (node g)) eqn:L; simpl.
  2: apply skip_frame_refl.
  intros K. split.
  - intros n. unfold nodes. simpl. rewrite keys_dict_adjust. apply K.
  - split.
    + intros n. rewrite attrs_of_adjust. destruct (String.eqb_spec n dep); auto.
      subst. unfold attrs_of. rewrite L. auto.
    + intros n H. unfold nodes. simpl. rewrite keys_dict_adjust. split; [assumption|].
      rewrite attrs_of_adjust. destruct (String.eqb_spec n dep); auto.
      subst. unfold attrs_of. rewrite L. auto.
Qed.

(** Registering a missing end point of an edge. *)
Lemma skip_frame_bare g u :
  skip_frame g (if mem u (keys (succ g)) then g
                else mkGraph (dict_set u no_attrs (node g)) (dict_set u [] (succ g))
                             (dict_set u [] (pred g))).
Proof.
  destruct (mem u (keys (succ g))) eqn:E; [apply skip_frame_refl|].
  intros K. apply mem_false in E. split.
  - intros n. unfold nodes. simpl. rewrite !In_keys_dict_set. specialize (K n).
    unfold nodes in K. tauto.
  - apply no_intent_change_bare. intros H. apply E. now apply K.
Qed.

Lemma skip_frame_add_edge u v : preserves skip_frame (modify (nx_add_edge u v)).
Proof.
  intros g. unfold modify, nx_add_edge. simpl.
  eapply skip_frame_trans; [apply (skip_frame_bare g u)|].
  set (g1 := if mem u (keys (succ g)) then g else _).
  eapply skip_frame_trans; [apply (skip_frame_bare g1 v)|].
  set (g2 := if mem v (keys (succ g1)) then g1 else _).
  intros K. split.
  - intros n. unfold nodes, adj_add. simpl. rewrite keys_dict_adjust. apply K.
  - apply no_intent_change_same_node.
Qed.

Lemma skip_frame_add_dependency name dv :
  preserves skip_frame (add_dependency name dv).
Proof.
  intros g. destruct dv as [dep version]. unfold add_dependency.
  unfold bind at 1. unfold get at 1. cbv beta iota.
  apply bind_rel; [apply skip_frame_trans | |].
  - destruct (mem dep (nodes g)) eqn:E; simpl; [apply skip_frame_refl|].
    apply mem_false in E. intros K. split.
    + intros n. unfold nx_add_node.
      destruct (mem dep (keys (succ g))) eqn:E'.
      * apply mem_In in E'. exfalso. apply E. now apply K.
      * unfold nodes. simpl. rewrite !In_keys_dict_set. specialize (K n).
        unfold nodes in K. tauto.
    + now apply no_intent_change_add_node.
  - intros _. apply preserves_bind; [apply skip_frame_trans | apply skip_frame_set_install |].
    intros _. apply skip_frame_add_edge.
Qed.








(* ================================================================== *)
(** ** Propagation changes flags only *)

Lemma attrs_frame_refl run a : attrs_frame run a a.
Proof. repeat split; auto. Qed.

Lemma attrs_frame_trans run a1 a2 a3 :
  attrs_frame run a1 a2 -> attrs_frame run a2 a3 -> attrs_frame run a1 a3.
Proof.
  intros [M1 [R1 F1]] [M2 [R2 F2]]. repeat split; try congruence.
  intros f. destruct (F2 f) as [E2|[W2 E2]]; [|right; auto].
  destruct (F1 f) as [E1|[W1 E1]]; [left; congruence | right; split; congruence].
Qed.

Lemma attrs_frame_set_flag run f a :
  f = Build \/ f = run -> attrs_frame run a (set_flag f true a).
Proof.
  intros Hf. repeat split; try (now destruct f).
  intros f'. destruct f, f'; simpl; auto.
Qed.

Lemma flags_frame_refl run g : flags_frame run g g.
Proof.
  repeat split. induction (node g) as [|nv d IH]; constructor; auto.
  split; [reflexivity | apply attrs_frame_refl].
Qed.

Lemma flags_frame_trans run g1 g2 g3 :
  flags_frame run g1 g2 -> flags_frame run g2 g3 -> flags_frame run g1 g3.
Proof.
  intros [S1 [P1 N1]] [S2 [P2 N2]]. repeat split; try congruence.
  revert N2. generalize (node g3). induction N1 as [|x y l1 l2 [K A] _ IH];
    intros l3 N2; inversion N2 as [|y' z l2' l3' [K' A'] N2']; subst; constructor.
  - split; [congruence | eapply attrs_frame_trans; eassumption].
  - now apply IH.
Qed.

Lemma Forall2_frame_refl run (d : dict Attrs) :
  Forall2 (fun nv nv' => fst nv' = fst nv /\ attrs_frame run (snd nv) (snd nv')) d d.
Proof.
  induction d as [|nv d IH]; constructor; auto.
  split; [reflexivity | apply attrs_frame_refl].
Qed.

Lemma Forall2_frame_adjust run f n (d : dict Attrs) :
  f = Build \/ f = run ->
  Forall2 (fun nv nv' => fst nv' = fst nv /\ attrs_frame run (snd nv) (snd nv'))
          d (dict_adjust (set_flag f true) n d).
Proof.
  intros Hf. induction d as [|[k x] d IH]; simpl; [constructor|].
  destruct (String.eqb n k); constructor; simpl; auto.
  - split; [reflexivity | now apply attrs_frame_set_flag].
  - apply Forall2_frame_refl.
  - split; [reflexivity | apply attrs_frame_refl].
Qed.

Lemma flags_frame_mark run f n :
  f = Build \/ f = run -> preserves (flags_frame run) (mark f n).
Proof.
  intros Hf g. unfold mark. destruct (lookup n (node g)); [|apply flags_frame_refl].
  simpl. repeat split. simpl. now apply Forall2_frame_adjust.
Qed.

(** What [flags_frame] says node by node. *)
Lemma flags_frame_nodes run g g' : flags_frame run g g' -> nodes g' = nodes g.
Proof.
  intros [_ [_ N]]. unfold nodes. induction N as [|x y l1 l2 [K _] _ IH]; simpl; congruence.
Qed.

Lemma flags_frame_lookup run g g' n :
  flags_frame run g g' ->
  match lookup n (node g), lookup n (node g') with
  | Some a, Some a' => attrs_frame run a a'
  | None, None => True
  | _, _ => False
  end.
Proof.
  intros [_ [_ N]]. induction N as [|[k a] [k' a'] l1 l2 [K A] _ IH]; simpl; [exact I|].
  simpl in K. subst k'. destruct (String.eqb n k); [exact A | exact IH].
Qed.

Lemma flags_frame_attrs_of run g g' n :
  flags_frame run g g' -> attrs_frame run (attrs_of g n) (attrs_of g' n).
Proof.
  intros F. pose proof (flags_frame_lookup run g g' n F) as L. unfold attrs_of.
  destruct (lookup n (node g)), (lookup n (node g')); try contradiction; auto.
  apply attrs_frame_refl.
Qed.

Lemma flags_frame_version run g g' n :
  flags_frame run g g' -> version_of (attrs_of g' n) = version_of (attrs_of g n).
Proof.
  intros F. destruct (flags_frame_attrs_of run g g' n F) as [M _].
  unfold version_of. now rewrite M.
Qed.

(** A flag that is set stays set. *)
Lemma flags_frame_keeps run g g' n f :
  flags_frame run g g' -> get_flag f (attrs_of g n) = Some true ->
  get_flag f (attrs_of g' n) = Some true.
Proof.
  intros F H. destruct (flags_frame_attrs_of run g g' n F) as [_ [_ A]].
  destruct (A f) as [E|[_ E]]; congruence.
Qed.

(** Propagation towards [Build] is also propagation towards any [run]. *)
Lemma flags_frame_build run g g' : flags_frame Build g g' -> flags_frame run g g'.
Proof.
  intros [S [P N]]. repeat split; auto.
  induction N as [|x y l1 l2 [K [M [R A]]] _ IH]; constructor; auto.
  repeat split; auto. intros f. destruct (A f) as [E|[[W|W] E]]; auto.
Qed.

(** Closes the goals [preserves R m] that follow the shape of [m]. *)
Ltac frame_side :=
  first [ exact (flags_frame_refl _) | exact (flags_frame_trans _) ].

Ltac frame_auto :=
  repeat first
    [ exact (flags_frame_refl _)
    | exact (flags_frame_trans _)
    | apply preserves_ret
    | apply preserves_raise
    | apply preserves_timeout
    | apply preserves_get
    | apply preserves_lift
    | apply preserves_node_attrs
    | apply preserves_successors
    | apply preserves_predecessors
    | apply preserves_bind
    | match goal with |- forall _, _ => intro end ].

Section FrameOfRun.
Variable _installable : string -> string -> bool.
Variable _buildable : string -> string -> bool.
Variable run : Flag.

Let R := flags_frame run.

Lemma frame_check_successors ss acc :
  preserves R (check_successors _installable _buildable ss acc).
Proof.
  revert acc. induction ss as [|s ss IH]; intros acc; simpl; [frame_auto|].
  apply preserves_bind; [frame_side | frame_auto |].
  intros a. destruct (_installable s (version_of a)); [apply IH|].
  destruct (_buildable s (version_of a)); [|frame_auto].
  apply preserves_bind; [frame_side | | intros _; apply IH].
  apply flags_frame_mark. now left.
Qed.

Lemma frame_upstream_loop fuel visited todo :
  preserves R (upstream_loop _installable _buildable fuel visited todo).
Proof.
  revert visited todo. induction fuel as [|fuel IH]; intros visited [|n rest]; simpl;
    try solve [frame_auto].
  apply preserves_bind; [frame_side | frame_auto |].
  intros ss. apply preserves_bind; [frame_side | | intros; apply IH].
  apply frame_check_successors.
Qed.

Lemma frame_upstream fuel :
  preserves R (upstream_dependencies_needing_build _installable _buildable fuel).
Proof.
  unfold upstream_dependencies_needing_build.
  apply preserves_bind; [frame_side | frame_auto |].
  intros g. apply frame_upstream_loop.
Qed.

Variables max_downstream initial_dirty : Z.

Lemma frame_mark_predecessors ps downstream :
  preserves R (mark_predecessors run max_downstream initial_dirty ps downstream).
Proof.
  revert downstream. induction ps as [|p ps IH]; intros downstream; simpl; [frame_auto|].
  destruct (_ || _)%bool; [|apply IH].
  apply preserves_bind; [frame_side | | intros _; apply IH].
  apply flags_frame_mark. now right.
Qed.

Lemma frame_expand_nodes ns downstream :
  preserves R (expand_nodes run max_downstream initial_dirty ns downstream).
Proof.
  revert downstream. induction ns as [|n ns IH]; intros downstream; simpl; [frame_auto|].
  apply preserves_bind; [frame_side | frame_auto |].
  intros ps. apply preserves_bind; [frame_side | | intros; apply IH].
  apply frame_mark_predecessors.
Qed.

Lemma frame_expand_step ns downstream :
  preserves R (expand_step run max_downstream initial_dirty ns downstream).
Proof.
  unfold expand_step.
  apply preserves_bind; [frame_side | apply frame_expand_nodes |].
  frame_auto.
Qed.

Lemma frame_expand_steps steps downstream :
  preserves R (expand_steps run max_downstream initial_dirty steps downstream).
Proof.
  revert downstream. induction steps as [|steps IH]; intros downstream; simpl;
    [frame_auto|].
  apply preserves_bind; [frame_side | frame_auto |].
  intros g. apply preserves_bind; [frame_side | | intros; apply IH].
  apply frame_expand_step.
Qed.

Lemma frame_expand_until_stable fuel start downstream :
  preserves R (expand_until_stable run max_downstream initial_dirty fuel start downstream).
Proof.
  revert start downstream. induction fuel as [|fuel IH]; intros start downstream; simpl;
    [frame_auto|].
  apply preserves_bind; [frame_side | apply frame_expand_step |].
  intros d. apply preserves_bind; [frame_side | frame_auto |].
  intros g. destruct (list_eqb start (dirty g)); [frame_auto | apply IH].
Qed.
End FrameOfRun.

Lemma frame_expand_run _installable _buildable fuel run steps max_downstream :
  preserves (flags_frame run)
            (expand_run _installable _buildable fuel run steps max_downstream).
Proof.
  unfold expand_run.
  apply preserves_bind; [frame_side | apply frame_upstream |].
  intros _. apply preserves_bind; [frame_side | frame_auto |].
  intros g. apply preserves_bind; [frame_side | | frame_auto].
  destruct (steps >=? 0)%Z.
  - apply preserves_bind; [frame_side | apply frame_expand_steps | frame_auto].
  - apply preserves_bind; [frame_side | frame_auto |].
    intros g'. apply frame_expand_until_stable.
Qed.

(** C10. Whatever its outcome, [expand_run] towards [build] or [test]
    leaves the node list, the successor and predecessor dictionaries and
    every node's [meta], [recipe] and [install] as they were; a [build] or
    [test] flag either keeps its value or is the [build] flag or the target
    flag of an existing node, now [True]. *)
Theorem expand_run_frame
        (_installable _buildable : string -> string -> bool)
        (fuel : nat) (run : Flag) (steps max_downstream : Z) (g : DiGraph) :
  run <> Install ->
  nodes (snd (expand_run _installable _buildable fuel run steps max_downstream g)) = nodes g /\
  succ (snd (expand_run _installable _buildable fuel run steps max_downstream g)) = succ g /\
  pred (snd (expand_run _installable _buildable fuel run steps max_downstream g)) = pred g /\
  forall n,
    meta (attrs_of (snd (expand_run _installable _buildable fuel run steps max_downstream g)) n)
    = meta (attrs_of g n) /\
    recipe (attrs_of (snd (expand_run _installable _buildable fuel run steps max_downstream g)) n)
    = recipe (attrs_of g n) /\
    install (attrs_of (snd (expand_run _installable _buildable fuel run steps max_downstream g)) n)
    = install (attrs_of g n) /\
    forall f,
      get_flag f (attrs_of (snd (expand_run _installable _buildable fuel run steps
                                            max_downstream g)) n)
      = get_flag f (attrs_of g n) \/
      ((f = Build \/ f = run) /\ In n (nodes g) /\
       get_flag f (attrs_of (snd (expand_run _installable _buildable fuel run steps
                                             max_downstream g)) n) = Some true).
Proof.
  intros Hrun.
  pose proof (frame_expand_run _installable _buildable fuel run steps max_downstream g) as F.
  set (g' := snd (expand_run _ _ fuel run steps max_downstream g)) in *.
  split; [eapply flags_frame_nodes; eassumption|].
  destruct F as [S [P N]]. repeat split; auto.
  - now destruct (flags_frame_attrs_of run g g' n (conj S (conj P N))) as [M _].
  - now destruct (flags_frame_attrs_of run g g' n (conj S (conj P N))) as [_ [Rc _]].
  - destruct (flags_frame_attrs_of run g g' n (conj S (conj P N))) as [_ [_ A]].
    destruct (A Install) as [E|[[W|W] _]]; [exact E | discriminate | congruence].
  - intros f. destruct (flags_frame_attrs_of run g g' n (conj S (conj P N))) as [_ [_ A]].
    destruct (A f) as [E|[W E]]; [now left|].
    destruct (in_dec string_dec n (nodes g)) as [I|I]; [right; auto|].
    left. rewrite (attrs_of_missing g n I).
    rewrite attrs_of_missing; [reflexivity|].
    now rewrite (flags_frame_nodes run g g' (conj S (conj P N))).
Qed.

(** Marking a node for a test run. *)
Lemma expand_run_frame_witness :
  Test <> Install /\
  nodes (snd (expand_run Examples.yes Examples.yes 4 Test (-1) 5 Examples.one_dependent))
  = nodes Examples.one_dependent.
Proof.
  assert (H : Test <> Install) by discriminate.
  split; [exact H|].
  destruct (expand_run_frame Examples.yes Examples.yes 4 Test (-1) 5
                             Examples.one_dependent H) as [A _].
  exact A.
Defined.

(* ================================================================== *)
(** ** Pass 1: what the worklist reaches *)

Lemma edge_frame run g g' u v : flags_frame run g g' -> edge g' u v <-> edge g u v.
Proof. intros [S _]. unfold edge. now rewrite S. Qed.

Lemma mark_ret f n g a :
  lookup n (node g) = Some a ->
  exists g', mark f n g = (Ret tt, g') /\ get_flag f (attrs_of g' n) = Some true.
Proof.
  intros L. unfold mark. rewrite L. eexists. split; [reflexivity|].
  rewrite attrs_of_adjust, String.eqb_refl, L. now destruct f.
Qed.

Section Upstream.
Variable _installable : string -> string -> bool.
Variable _buildable : string -> string -> bool.

Local Abbreviation needs := (not_installable _installable).
Local Abbreviation check := (check_successors _installable _buildable).
Local Abbreviation loop := (upstream_loop _installable _buildable).

Lemma needs_frame run g g' s : flags_frame run g g' -> needs g' s = needs g s.
Proof.
  intros F. unfold not_installable. now rewrite (flags_frame_version run g g' s F).
Qed.

Lemma reached_mono g start1 start2 x :
  (forall y, In y start1 -> reached _installable g start2 y) ->
  reached _installable g start1 x -> reached _installable g start2 x.
Proof.
  intros H R. induction R as [n I|n s R IH E N]; [now apply H|].
  eapply reached_step; eassumption.
Qed.

(** The inner loop appends exactly the successors that cannot be
    installed, each of them buildable and now flagged. *)
Lemma check_successors_ret g0 ss : forall acc g1 out g1',
  flags_frame Build g0 g1 ->
  check ss acc g1 = (Ret out, g1') ->
  out = acc ++ filter (needs g0) ss /\
  forall s, In s ss -> needs g0 s = true ->
            build (attrs_of g1' s) = Some true /\ buildable _buildable g0 s = true.
Proof.
  induction ss as [|s ss IH]; intros acc g1 out g1' F H; simpl in H.
  - inversion H; subst. split; [now rewrite app_nil_r | intros s []].
  - unfold bind at 1 in H. unfold node_attrs in H.
    destruct (lookup s (node g1)) as [a|] eqn:L; [|discriminate].
    assert (V : version_of a = version_of (attrs_of g0 s)).
    { rewrite <- (flags_frame_version Build g0 g1 s F). unfold attrs_of. now rewrite L. }
    rewrite V in H. simpl.
    unfold not_installable at 1. unfold buildable.
    destruct (_installable s (version_of (attrs_of g0 s))) eqn:EI; simpl.
    + destruct (IH _ _ _ _ F H) as [O B]. split; [exact O|].
      intros s' [E|I] N; [|now apply B].
      subst s'. unfold not_installable in N. rewrite EI in N. discriminate.
    + destruct (_buildable s (version_of (attrs_of g0 s))) eqn:EB; [|discriminate].
      unfold bind at 1 in H.
      destruct (mark_ret Build s g1 a L) as [gm [Em Bm]]. rewrite Em in H.
      assert (Fm : flags_frame Build g1 gm).
      { pose proof (flags_frame_mark Build Build s (or_introl eq_refl) g1) as P.
        now rewrite Em in P. }
      assert (F' : flags_frame Build gm g1').
      { pose proof (frame_check_successors _installable _buildable Build ss
                                           (acc ++ [s]) gm) as P.
        now rewrite H in P. }
      destruct (IH _ _ _ _ (flags_frame_trans _ _ _ _ F Fm) H) as [O B].
      split; [rewrite O, <- app_assoc; reflexivity|].
      intros s' [E|I] N; [|now apply B].
      subst s'. split; [|exact EB].
      exact (flags_frame_keeps Build gm g1' s Build F' Bm).
Qed.

(** The worklist loop, from any point of its run. *)
Lemma upstream_loop_ret g0 fuel : forall visited todo g1 D g2,
  flags_frame Build g0 g1 ->
  loop fuel visited todo g1 = (Ret D, g2) ->
  (forall x, In x visited \/ In x todo -> In x D) /\
  (forall n, In n D ->
             In n visited \/
             (reached _installable g0 todo n /\
              forall s, edge g0 n s -> needs g0 s = true ->
                        In s D /\ build (attrs_of g2 s) = Some true /\
                        buildable _buildable g0 s = true)).
Proof.
  induction fuel as [|fuel IH]; intros visited todo g1 D g2 F H.
  - destruct todo; simpl in H; [|discriminate].
    inversion H; subst. split; [intros x [I|[]]; exact I | intros n I; now left].
  - destruct todo as [|n rest]; simpl in H.
    { inversion H; subst. split; [intros x [I|[]]; exact I | intros n I; now left]. }
    unfold bind at 1 in H. unfold successors in H.
    destruct (lookup n (succ g1)) as [ss|] eqn:L; [|discriminate].
    unfold bind at 1 in H.
    destruct (check ss [] g1) as [[appended|e|] g1'] eqn:C; try discriminate.
    destruct (check_successors_ret g0 ss [] g1 appended g1' F C) as [A B].
    simpl in A.
    assert (F1 : flags_frame Build g1 g1').
    { pose proof (frame_check_successors _installable _buildable Build ss [] g1) as P.
      now rewrite C in P. }
    assert (F2 : flags_frame Build g1' g2).
    { pose proof (frame_upstream_loop _installable _buildable Build fuel
                                      (visited ++ [n]) (rest ++ appended) g1') as P.
      now rewrite H in P. }
    destruct (IH _ _ _ _ _ (flags_frame_trans _ _ _ _ F F1) H) as [I1 I2].
    assert (Ls : lookup n (succ g0) = Some ss).
    { destruct F as [S _]. now rewrite <- S. }
    split.
    + intros x [I|[E|I]]; apply I1; rewrite !in_app_iff; simpl; auto.
    + intros x I. destruct (I2 x I) as [V|[Rx Cx]].
      * apply in_app_iff in V. destruct V as [V|[E|[]]]; [now left|].
        subst x. right. split; [apply reached_start; now left|].
        intros s [vs [Lv Iv]] N. rewrite Ls in Lv. inversion Lv; subst vs.
        destruct (B s Iv N) as [Bs Bb]. split; [|split].
        -- apply I1. right. rewrite in_app_iff. right. rewrite A.
           apply filter_In. auto.
        -- exact (flags_frame_keeps Build g1' g2 s Build F2 Bs).
        -- exact Bb.
      * right. split; [|exact Cx].
        apply (reached_mono g0 (rest ++ appended)); [|exact Rx].
        intros y Iy. apply in_app_iff in Iy. destruct Iy as [Iy|Iy].
        -- apply reached_start. now right.
        -- rewrite A in Iy. apply filter_In in Iy. destruct Iy as [Iy Ny].
           apply (reached_step _ g0 _ n y); [apply reached_start; now left| |exact Ny].
           exists ss. auto.
Qed.

(** When Pass 1 returns, it returns what the worklist reaches from the
    initially flagged nodes, and every dependency of a returned node that
    cannot be installed is returned and flagged for a build. *)
Lemma upstream_ret fuel g D g' :
  upstream_dependencies_needing_build _installable _buildable fuel g = (Ret D, g') ->
  (forall s, In s D <-> reached _installable g (seeds g) s) /\
  (forall n s, In n D -> edge g n s -> needs g s = true ->
               In s D /\ build (attrs_of g' s) = Some true /\
               buildable _buildable g s = true).
Proof.
  unfold upstream_dependencies_needing_build. unfold bind at 1. unfold get at 1.
  cbv beta iota. fold (seeds g). intros H.
  destruct (upstream_loop_ret g fuel [] (seeds g) g D g' (flags_frame_refl _ _) H)
    as [I1 I2].
  assert (Cl : forall n s, In n D -> edge g n s -> needs g s = true ->
               In s D /\ build (attrs_of g' s) = Some true /\
               buildable _buildable g s = true).
  { intros n s I E N. destruct (I2 n I) as [[]|[_ C]]. now apply C. }
  split; [|exact Cl].
  intros s. split.
  - intros I. destruct (I2 s I) as [[]|[R _]]. exact R.
  - intros R. induction R as [n I|n s R IH E N]; [apply I1; now right|].
    now destruct (Cl n s IH E N).
Qed.
End Upstream.

(* ================================================================== *)
(** ** Pass 1 ends on a graph without cycles *)

Lemma rank_ok_edge rank g u v : rank_ok rank g = true -> edge g u v -> rank v < rank u.
Proof.
  unfold rank_ok. rewrite forallb_forall. intros H [vs [L I]].
  specialize (H (u, vs) (lookup_In _ _ _ L)). simpl in H.
  rewrite forallb_forall in H. specialize (H v I). now apply Nat.ltb_lt in H.
Qed.

Lemma weight_pos g k n : 1 <= weight g k n.
Proof. destruct k; simpl; lia. Qed.

Lemma weight_S g k : forall n, weight g k n <= weight g (S k) n.
Proof.
  induction k as [|k IH]; intros n.
  - simpl. lia.
  - change (weight g (S k) n) with (1 + list_sum (map (weight g k) (successors_of g n))).
    change (weight g (S (S k)) n)
      with (1 + list_sum (map (weight g (S k)) (successors_of g n))).
    apply Nat.add_le_mono_l. apply list_sum_map_le. intros x _. apply IH.
Qed.

Lemma weight_mono g k k' n : k <= k' -> weight g k n <= weight g k' n.
Proof.
  induction 1 as [|k' _ IH]; [lia|].
  etransitivity; [exact IH | apply weight_S].
Qed.

(** A node weighs more than its successors together. *)
Lemma weight_step rank g n :
  rank_ok rank g = true ->
  1 + total_weight g rank (successors_of g n) <= weight g (rank n) n.
Proof.
  intros H. unfold total_weight.
  assert (E : forall s, In s (successors_of g n) -> rank s < rank n).
  { intros s I. apply (rank_ok_edge rank g n s H). unfold successors_of in I.
    destruct (lookup n (succ g)) as [vs|] eqn:L; [exists vs; auto | destruct I]. }
  destruct (rank n) as [|k] eqn:R.
  - destruct (successors_of g n) as [|s l]; [simpl; lia|].
    specialize (E s (or_introl eq_refl)). lia.
  - change (weight g (S k) n) with (1 + list_sum (map (weight g k) (successors_of g n))).
    apply Nat.add_le_mono_l. apply list_sum_map_le.
    intros s I. apply weight_mono. specialize (E s I). lia.
Qed.

Lemma total_weight_app g rank l1 l2 :
  total_weight g rank (l1 ++ l2) = total_weight g rank l1 + total_weight g rank l2.
Proof. unfold total_weight. now rewrite map_app, list_sum_app. Qed.

Section UpstreamTotal.
Variable _installable : string -> string -> bool.
Variable _buildable : string -> string -> bool.

Lemma check_successors_no_timeout ss : forall acc g,
  fst (check_successors _installable _buildable ss acc g) <> Timeout.
Proof.
  induction ss as [|s ss IH]; intros acc g; simpl; [discriminate|].
  unfold bind at 1. unfold node_attrs.
  destruct (lookup s (node g)) as [a|]; [|discriminate].
  destruct (_installable s (version_of a)); [apply IH|].
  destruct (_buildable s (version_of a)); [|discriminate].
  unfold bind at 1. unfold mark.
  destruct (lookup s (node g)); [apply IH | discriminate].
Qed.

Lemma upstream_loop_total rank g0 :
  rank_ok rank g0 = true ->
  forall fuel visited todo g1,
    flags_frame Build g0 g1 ->
    total_weight g0 rank todo <= fuel ->
    fst (upstream_loop _installable _buildable fuel visited todo g1) <> Timeout.
Proof.
  intros Hr. induction fuel as [|fuel IH]; intros visited todo g1 F W.
  - destruct todo as [|n rest]; simpl; [discriminate|].
    unfold total_weight in W. simpl in W.
    pose proof (weight_pos g0 (rank n) n). lia.
  - destruct todo as [|n rest]; simpl; [discriminate|].
    unfold bind at 1. unfold successors.
    destruct (lookup n (succ g1)) as [ss|] eqn:L; [|discriminate].
    unfold bind at 1.
    pose proof (check_successors_no_timeout ss [] g1) as NT.
    destruct (check_successors _installable _buildable ss [] g1)
      as [[appended|e|] g1'] eqn:C; [|discriminate|now elim NT].
    destruct (check_successors_ret _installable _buildable g0 ss [] g1 appended g1' F C)
      as [A _].
    simpl in A.
    assert (F1 : flags_frame Build g1 g1').
    { pose proof (frame_check_successors _installable _buildable Build ss [] g1) as P.
      now rewrite C in P. }
    apply IH; [eapply flags_frame_trans; eassumption|].
    rewrite total_weight_app.
    assert (Ls : successors_of g0 n = ss).
    { unfold successors_of. destruct F as [S _]. now rewrite <- S, L. }
    pose proof (weight_step rank g0 n Hr) as Ws. rewrite Ls in Ws.
    assert (total_weight g0 rank appended <= total_weight g0 rank ss).
    { rewrite A. apply list_sum_filter_le. }
    unfold total_weight in W at 1. simpl in W.
    fold (total_weight g0 rank rest) in W. lia.
Qed.

End UpstreamTotal.



(** When every dependency is itself flagged, as the install flag of
    [construct_graph] is meant to ensure, Pass 1 examines every edge below
    a flagged node, and C1 holds the way it is worded. *)
Lemma upstream_closure_when_dependencies_flagged _installable _buildable g :
  (forall u v, edge g u v -> In v (seeds g)) ->
  upstream_closure_as_stated _installable _buildable g.
Proof.
  intros Hd fuel D g' H n s In_ C Ns _.
  destruct (upstream_ret _installable _buildable fuel g D g' H) as [R Cl].
  assert (P : exists p, In p (seeds g) /\ edge g p s).
  { apply clos_trans_tn1 in C. destruct C as [s E|y s E C'].
    - exists n. auto.
    - exists y. split; [|exact E].
      destruct C' as [y E'|x y E' _]; eapply Hd; eassumption. }
  destruct P as [p [Ip E]].
  assert (Dp : In p D) by (apply R; now apply reached_start).
  destruct (Cl p s Dp E Ns) as [Ds [Bs _]]. auto.
Qed.

(* ================================================================== *)
(** ** Pass 1 stops at a dependency that cannot be had *)

Lemma nodupb_NoDup l : nodupb l = true -> NoDup l.
Proof.
  induction l as [|x l IH]; simpl; [constructor|].
  rewrite andb_true_iff, negb_true_iff. intros [M N].
  constructor; [now apply mem_false | auto].
Qed.

Lemma wf_graph_spec g :
  wf_graph g = true ->
  NoDup (nodes g) /\ keys (succ g) = nodes g /\ keys (pred g) = nodes g /\
  closed_adj (nodes g) (succ g) = true /\ closed_adj (nodes g) (pred g) = true.
Proof.
  unfold wf_graph. rewrite !andb_true_iff. intros [[[[N K1] K2] C1] C2].
  apply list_eqb_eq in K1, K2. repeat split; auto using nodupb_NoDup.
Qed.

Lemma closed_adj_In ns adj n vs v :
  closed_adj ns adj = true -> lookup n adj = Some vs -> In v vs -> In v ns.
Proof.
  unfold closed_adj. rewrite forallb_forall. intros C L I.
  specialize (C (n, vs) (lookup_In _ _ _ L)). simpl in C.
  rewrite forallb_forall in C. apply mem_In. now apply C.
Qed.

Lemma wf_graph_successors g n :
  wf_graph g = true -> In n (nodes g) -> exists ss, lookup n (succ g) = Some ss.
Proof.
  intros wf I. destruct (wf_graph_spec g wf) as [_ [K _]].
  apply In_keys_lookup. now rewrite K.
Qed.

Lemma wf_graph_closed g n ss s :
  wf_graph g = true -> lookup n (succ g) = Some ss -> In s ss -> In s (nodes g).
Proof.
  intros wf. destruct (wf_graph_spec g wf) as [_ [_ [_ [C _]]]].
  now apply closed_adj_In.
Qed.

Lemma seeds_are_nodes g n : In n (seeds g) -> In n (nodes g).
Proof.
  unfold seeds, nodes, keys. rewrite !in_map_iff.
  intros [nv [E I]]. apply filter_In in I. exists nv. tauto.
Qed.

Lemma unsatisfiable_msg_names s : is_substring s (unsatisfiable_msg s) = true.
Proof. unfold unsatisfiable_msg. apply is_substring_app. Qed.

Section Unsatisfiable.
Variable _installable : string -> string -> bool.
Variable _buildable : string -> string -> bool.
Variable g0 : DiGraph.
Hypothesis wf : wf_graph g0 = true.

Local Abbreviation needs := (not_installable _installable).
Local Abbreviation can_build := (buildable _buildable).
Local Abbreviation check := (check_successors _installable _buildable).
Local Abbreviation loop := (upstream_loop _installable _buildable).

Lemma check_cons s ss acc g1 a :
  lookup s (node g1) = Some a ->
  check (s :: ss) acc g1 =
  if _installable s (version_of a) then check ss acc g1
  else if _buildable s (version_of a) then
    check ss (acc ++ [s])
          (mkGraph (dict_adjust (set_flag Build true) s (node g1)) (succ g1) (pred g1))
  else (Raise (ValueError (unsatisfiable_msg s)), g1).
Proof.
  intros L. simpl. unfold bind at 1. unfold node_attrs. rewrite L.
  destruct (_installable s (version_of a)); [reflexivity|].
  destruct (_buildable s (version_of a)); [|reflexivity].
  unfold bind, mark. now rewrite L.
Qed.

(** The inner loop either returns, all the successors it could not
    install being buildable, or raises for one that is not. *)
Lemma check_successors_cases ss : forall acc g1,
  flags_frame Build g0 g1 ->
  (forall s, In s ss -> In s (nodes g0)) ->
  (exists out g1',
      check ss acc g1 = (Ret out, g1') /\
      forall s, In s ss -> needs g0 s = true -> can_build g0 s = true) \/
  (exists s' g1',
      check ss acc g1 = (Raise (ValueError (unsatisfiable_msg s')), g1') /\
      In s' ss /\ needs g0 s' = true /\ can_build g0 s' = false).
Proof.
  induction ss as [|s ss IH]; intros acc g1 F N.
  - left. exists acc, g1. split; [reflexivity | intros s []].
  - assert (Is : In s (nodes g1)).
    { rewrite (flags_frame_nodes Build g0 g1 F). apply N. now left. }
    destruct (In_keys_lookup s (node g1) Is) as [a L].
    rewrite (check_cons s ss acc g1 a L).
    assert (V : version_of a = version_of (attrs_of g0 s)).
    { rewrite <- (flags_frame_version Build g0 g1 s F). unfold attrs_of. now rewrite L. }
    rewrite V.
    destruct (_installable s (version_of (attrs_of g0 s))) eqn:EI.
    + destruct (IH acc g1 F (fun x I => N x (or_intror I)))
        as [[out [g1' [E B]]]|[s' [g1' [E [I [Ns Bs]]]]]].
      * left. exists out, g1'. split; [exact E|].
        intros x [Ex|Ix] Nx; [|now apply B].
        subst x. unfold not_installable in Nx. rewrite EI in Nx. discriminate.
      * right. exists s', g1'. repeat split; simpl; auto.
    + destruct (_buildable s (version_of (attrs_of g0 s))) eqn:EB.
      * set (gm := mkGraph _ _ _).
        assert (Fm : flags_frame Build g0 gm).
        { apply (flags_frame_trans _ _ _ _ F).
          pose proof (flags_frame_mark Build Build s (or_introl eq_refl) g1) as P.
          unfold mark in P. now rewrite L in P. }
        destruct (IH (acc ++ [s]) gm Fm (fun x I => N x (or_intror I)))
          as [[out [g1' [E B]]]|[s' [g1' [E [I [Ns Bs]]]]]].
        -- left. exists out, g1'. split; [exact E|].
           intros x [Ex|Ix] Nx; [subst x; exact EB | now apply B].
        -- right. exists s', g1'. repeat split; simpl; auto.
      * right. exists s, g1. repeat split; [now left | |exact EB].
        unfold not_installable. now rewrite EI.
Qed.

Lemma aborts_from_successor n s :
  edge g0 n s -> needs g0 s = true ->
  can_build g0 s = false \/ aborts_from _installable _buildable g0 s ->
  aborts_from _installable _buildable g0 n.
Proof.
  intros E Ns Hs todo visited g1 F N I.
  apply in_split in I. destruct I as [l1 [l2 ->]].
  revert l2 visited g1 F N.
  induction l1 as [|m l1 IH]; intros l2 visited g1 F N.
  - (* [n] is at the head *)
    destruct E as [ss [Ls Is]].
    assert (L1 : lookup n (succ g1) = Some ss).
    { destruct F as [S _]. now rewrite S. }
    assert (Nss : forall x, In x ss -> In x (nodes g0)).
    { intros x Ix. eapply wf_graph_closed; eassumption. }
    destruct (check_successors_cases ss [] g1 F Nss)
      as [[out [g1' [C B]]]|[s' [g1' [C [I' [Ns' Bs']]]]]].
    + destruct Hs as [Hs|Hs]; [rewrite (B s Is Ns) in Hs; discriminate|].
      destruct (check_successors_ret _installable _buildable g0 ss [] g1 out g1' F C)
        as [A _]. simpl in A.
      assert (F1 : flags_frame Build g0 g1').
      { apply (flags_frame_trans _ _ _ _ F).
        pose proof (frame_check_successors _installable _buildable Build ss [] g1) as P.
        now rewrite C in P. }
      destruct (Hs (l2 ++ out) (visited ++ [n]) g1' F1) as [fuel [s' [g' [R U]]]].
      * intros x Ix. apply in_app_iff in Ix. destruct Ix as [Ix|Ix].
        -- apply N. now right.
        -- rewrite A in Ix. apply filter_In in Ix. now apply Nss.
      * apply in_app_iff. right. rewrite A. apply filter_In. auto.
      * exists (S fuel), s', g'. split; [|exact U].
        simpl. unfold bind at 1. unfold successors. rewrite L1.
        unfold bind at 1. rewrite C. exact R.
    + exists 1, s', g1'. split; [|auto].
      simpl. unfold bind at 1. unfold successors. rewrite L1.
      unfold bind at 1. now rewrite C.
  - (* [m] is visited first *)
    assert (Im : In m (nodes g0)) by (apply N; now left).
    destruct (wf_graph_successors g0 m wf Im) as [ss Ls].
    assert (L1 : lookup m (succ g1) = Some ss).
    { destruct F as [S _]. now rewrite S. }
    assert (Nss : forall x, In x ss -> In x (nodes g0)).
    { intros x Ix. eapply wf_graph_closed; eassumption. }
    destruct (check_successors_cases ss [] g1 F Nss)
      as [[out [g1' [C B]]]|[s' [g1' [C [I' [Ns' Bs']]]]]].
    + destruct (check_successors_ret _installable _buildable g0 ss [] g1 out g1' F C)
        as [A _]. simpl in A.
      assert (F1 : flags_frame Build g0 g1').
      { apply (flags_frame_trans _ _ _ _ F).
        pose proof (frame_check_successors _installable _buildable Build ss [] g1) as P.
        now rewrite C in P. }
      destruct (IH (l2 ++ out) (visited ++ [m]) g1' F1) as [fuel [s' [g' [R U]]]].
      * intros x Ix. rewrite in_app_iff in Ix. simpl in Ix. rewrite in_app_iff in Ix.
        destruct Ix as [Ix|[Ix|[Ix|Ix]]].
        -- apply N. right. apply in_app_iff. now left.
        -- apply N. right. apply in_app_iff. right. now left.
        -- apply N. right. apply in_app_iff. right. now right.
        -- rewrite A in Ix. apply filter_In in Ix. now apply Nss.
      * exists (S fuel), s', g'. split; [|exact U].
        simpl. unfold bind at 1. unfold successors. rewrite L1.
        unfold bind at 1. rewrite C.
        replace ((l1 ++ n :: l2) ++ out) with (l1 ++ n :: l2 ++ out); [exact R|].
        now rewrite <- app_assoc.
    + exists 1, s', g1'. split; [|auto].
      simpl. unfold bind at 1. unfold successors. rewrite L1.
      unfold bind at 1. now rewrite C.
Qed.

Lemma aborts_from_reached start x :
  reached _installable g0 start x -> aborts_from _installable _buildable g0 x ->
  exists y, In y start /\ aborts_from _installable _buildable g0 y.
Proof.
  intros R. induction R as [n I|n s R IH E N]; intros A; [eauto|].
  apply IH. apply (aborts_from_successor n s E N). now right.
Qed.

(** C6 (as the code has it). On a well-formed graph, when a node that
    the worklist reaches depends on a package that is neither installable
    nor buildable, Pass 1 raises [ValueError]; its message names such a
    package, the first one the worklist meets, and is made of the package
    name alone. *)
Theorem unsatisfiable_dependency_aborts (n s : string) :
  reached _installable g0 (seeds g0) n -> edge g0 n s ->
  needs g0 s = true -> can_build g0 s = false ->
  exists fuel s' g',
    upstream_dependencies_needing_build _installable _buildable fuel g0
    = (Raise (ValueError (unsatisfiable_msg s')), g') /\
    needs g0 s' = true /\ can_build g0 s' = false /\
    is_substring s' (unsatisfiable_msg s') = true.
Proof.
  intros R E N B.
  assert (A : aborts_from _installable _buildable g0 n) by (apply (aborts_from_successor n s E N); now left).
  destruct (aborts_from_reached _ _ R A) as [y [Iy Ay]].
  destruct (Ay (seeds g0) [] g0 (flags_frame_refl _ _)
               (fun x I => seeds_are_nodes g0 x I) Iy) as [fuel [s' [g' [H [Ns Bs]]]]].
  exists fuel, s', g'. repeat split; auto using unsatisfiable_msg_names.
Qed.
End Unsatisfiable.

(** [x] changed and needs [y 2.0], which nobody has and nobody builds. *)
Lemma unsatisfiable_dependency_aborts_witness :
  exists fuel s' g',
    upstream_dependencies_needing_build Examples.no Examples.no fuel Examples.graph_x
    = (Raise (ValueError (unsatisfiable_msg s')), g') /\
    not_installable Examples.no Examples.graph_x s' = true /\
    buildable Examples.no Examples.graph_x s' = false /\
    is_substring s' (unsatisfiable_msg s') = true.
Proof.
  apply (unsatisfiable_dependency_aborts Examples.no Examples.no Examples.graph_x eq_refl
                                         "x" "y").
  - apply reached_start. vm_compute. now left.
  - eexists. split; [reflexivity | now left].
  - reflexivity.
  - reflexivity.
Defined.

(** C6 (as stated) fails: the error raised for [y], required at version
    2.0, does not tell the version. *)
Lemma unsatisfiable_error_omits_version :
  version_of (attrs_of Examples.graph_x "y") = "2.0" /\
  ~ unsatisfiable_reported_as_stated Examples.no Examples.no Examples.graph_x.
Proof.
  split; [reflexivity|].
  intros H. destruct (H "x" "y") as [fuel [msg [g' [E [_ V]]]]].
  - apply reached_start. vm_compute. now left.
  - eexists. split; [reflexivity | now left].
  - reflexivity.
  - reflexivity.
  - destruct fuel as [|fuel]; [discriminate|].
    vm_compute in E. inversion E; subst msg. vm_compute in V. discriminate.
Qed.

(* ================================================================== *)
(** ** Pass 2: the cap on downstream marking *)

(** C2. On the graph built for the recipes [a] and [b], where [b]
    needs [a] and only [a] changed, the downstream pass with
    [max_downstream = 0] and [steps = -1] still marks [b], which was not
    dirty after Pass 1: the counter starts at 0 instead of the size of the
    dirty set, so the first round may mark [max_downstream] plus that size.
    With a second dependent [c] and [max_downstream = 1], both are marked. *)
Theorem expand_run_exceeds_cap :
  (Examples.construct_dependents ["a"; "b"] = Ret Examples.one_dependent /\
   exists D g1,
     upstream_dependencies_needing_build Examples.yes Examples.yes 5
                                         Examples.one_dependent = (Ret D, g1) /\
     dirty g1 = ["a"]) /\
  (exists g2,
      expand_run Examples.yes Examples.yes 5 Test (-1) 0 Examples.one_dependent
      = (Ret ["a"; "b"], g2) /\
      test (attrs_of g2 "b") = Some true) /\
  (Examples.construct_dependents ["a"; "b"; "c"] = Ret Examples.two_dependents /\
   exists D g1,
     upstream_dependencies_needing_build Examples.yes Examples.yes 5
                                         Examples.two_dependents = (Ret D, g1) /\
     dirty g1 = ["a"]) /\
  (exists g2,
      expand_run Examples.yes Examples.yes 5 Test (-1) 1 Examples.two_dependents
      = (Ret ["a"; "b"; "c"], g2)).
Proof.
  repeat split; repeat eexists; vm_compute; reflexivity.
Qed.

(* ================================================================== *)
(** ** Pass 1 on a cycle of packages that cannot be installed *)

Lemma upstream_loop_cycle fuel : forall visited todo,
  todo <> [] -> Forall (fun x => x = "a" \/ x = "b") todo ->
  upstream_loop Examples.no Examples.yes fuel visited todo Examples.graph_cycle
  = (Timeout, Examples.graph_cycle).
Proof.
  induction fuel as [|fuel IH]; intros visited todo NE A.
  - destruct todo; [contradiction | reflexivity].
  - destruct todo as [|n rest]; [contradiction|].
    inversion A as [|x l [E|E] A']; subst.
    + change (upstream_loop Examples.no Examples.yes fuel (visited ++ ["a"]) (rest ++ ["b"])
                            Examples.graph_cycle = (Timeout, Examples.graph_cycle)).
      apply IH; [now destruct rest|].
      apply Forall_app. split; [assumption | constructor; auto].
    + change (upstream_loop Examples.no Examples.yes fuel (visited ++ ["b"]) (rest ++ ["a"])
                            Examples.graph_cycle = (Timeout, Examples.graph_cycle)).
      apply IH; [now destruct rest|].
      apply Forall_app. split; [assumption | constructor; auto].
Qed.

Lemma graph_cycle_stable :
  stable Examples.no Examples.yes Build Examples.graph_cycle.
Proof.
  split.
  - intros n s I _ [vs [L Is]] _.
    destruct I as [<-|[<-|[]]]; vm_compute in L; inversion L; subst vs;
      destruct Is as [<-|[]]; split; reflexivity.
  - intros n ps p D L Ip. vm_compute in D.
    destruct D as [<-|[<-|[]]]; vm_compute in L; inversion L; subst ps;
      destruct Ip as [<-|[]]; reflexivity.
Qed.

(** C7. The graph of two changed recipes that need each other is well
    formed and stable: every node is flagged for a build and nothing is
    left to propagate. Yet [expand_run] does not return on it whatever
    fuel it is given: neither package can be installed, both can be built,
    and Pass 1 appends each to the worklist every time it visits the
    other. *)
Theorem expand_run_diverges_on_cycle (fuel : nat) (run : Flag) (steps max_downstream : Z) :
  Examples.construct_cycle = Ret Examples.graph_cycle /\
  wf_graph Examples.graph_cycle = true /\
  stable Examples.no Examples.yes Build Examples.graph_cycle /\
  expand_run Examples.no Examples.yes fuel run steps max_downstream Examples.graph_cycle
  = (Timeout, Examples.graph_cycle).
Proof.
  split; [vm_compute; reflexivity|]. split; [reflexivity|].
  split; [exact graph_cycle_stable|].
  unfold expand_run. unfold bind at 1.
  unfold upstream_dependencies_needing_build. unfold bind at 1. unfold get at 1.
  cbv beta iota.
  rewrite upstream_loop_cycle; [reflexivity | discriminate |].
  vm_compute. constructor; [now left|]. constructor; [now right|]. constructor.
Qed.

(* ================================================================== *)
(** ** Propagation on a graph with nothing left to propagate *)

Lemma wf_graph_predecessors g n :
  wf_graph g = true -> In n (nodes g) -> exists ps, lookup n (pred g) = Some ps.
Proof.
  intros wf I. destruct (wf_graph_spec g wf) as [_ [_ [K _]]].
  apply In_keys_lookup. now rewrite K.
Qed.

Lemma wf_graph_closed_pred g n ps p :
  wf_graph g = true -> lookup n (pred g) = Some ps -> In p ps -> In p (nodes g).
Proof.
  intros wf. destruct (wf_graph_spec g wf) as [_ [_ [_ [_ C]]]].
  now apply closed_adj_In.
Qed.

Lemma dirty_are_nodes g n : In n (dirty g) -> In n (nodes g).
Proof.
  unfold dirty, nodes, keys. rewrite !in_map_iff.
  intros [nv [E I]]. apply filter_In in I. exists nv. tauto.
Qed.

Lemma NoDup_keys_lookup {V} (d : dict V) k v :
  NoDup (keys d) -> In (k, v) d -> lookup k d = Some v.
Proof.
  induction d as [|[k' v'] d IH]; simpl; [tauto|].
  intros N I. inversion N as [|x l Nk Nd]; subst.
  destruct I as [E|I].
  - inversion E; subst. now rewrite String.eqb_refl.
  - destruct (String.eqb_spec k k'); [|auto].
    subst k'. exfalso. apply Nk. unfold keys. apply in_map_iff. now exists (k, v).
Qed.

Lemma seeds_any_flag g n :
  NoDup (nodes g) -> In n (seeds g) -> any_flag (attrs_of g n) = true.
Proof.
  intros N I. unfold seeds, keys in I. apply in_map_iff in I.
  destruct I as [[k a] [E I]]. simpl in E. subst k. apply filter_In in I.
  destruct I as [I F]. unfold attrs_of. now rewrite (NoDup_keys_lookup _ _ _ N I).
Qed.

Lemma dict_adjust_id {V} (f : V -> V) n (d : dict V) :
  (forall v, lookup n d = Some v -> f v = v) -> dict_adjust f n d = d.
Proof.
  induction d as [|[k v] d IH]; simpl; [reflexivity|].
  destruct (String.eqb n k); intros H.
  - now rewrite (H v eq_refl).
  - now rewrite IH.
Qed.

Lemma set_flag_id f a : get_flag f a = Some true -> set_flag f true a = a.
Proof. destruct a, f; simpl; intros ->; reflexivity. Qed.

(** Marking what is marked changes nothing. *)
Lemma mark_id f n g :
  In n (nodes g) -> get_flag f (attrs_of g n) = Some true -> mark f n g = (Ret tt, g).
Proof.
  intros I F. unfold mark. destruct (In_keys_lookup n (node g) I) as [a L].
  rewrite L. f_equal. unfold attrs_of in F. rewrite L in F.
  rewrite dict_adjust_id; [now destruct g|].
  intros v Lv. rewrite L in Lv. inversion Lv; subst. now apply set_flag_id.
Qed.

Section Stable.
Variable _installable : string -> string -> bool.
Variable _buildable : string -> string -> bool.
Variable run : Flag.
Variable g : DiGraph.
Hypothesis wf : wf_graph g = true.
Hypothesis st : stable _installable _buildable run g.

Local Abbreviation needs := (not_installable _installable).

Lemma check_successors_stable ss : forall acc,
  (forall s, In s ss -> In s (nodes g)) ->
  (forall s, In s ss -> needs g s = true ->
             buildable _buildable g s = true /\ build (attrs_of g s) = Some true) ->
  check_successors _installable _buildable ss acc g
  = (Ret (acc ++ filter (needs g) ss), g).
Proof.
  induction ss as [|s ss IH]; intros acc N B; simpl.
  - now rewrite app_nil_r.
  - unfold bind at 1. unfold node_attrs.
    destruct (In_keys_lookup s (node g) (N s (or_introl eq_refl))) as [a L]. rewrite L.
    assert (V : version_of a = version_of (attrs_of g s))
      by (unfold attrs_of; now rewrite L).
    rewrite V. unfold not_installable at 1.
    destruct (_installable s (version_of (attrs_of g s))) eqn:EI; simpl.
    + apply IH; intros x Ix; [apply N | apply B]; now right.
    + destruct (B s (or_introl eq_refl)) as [Bs Fs];
        [unfold not_installable; now rewrite EI|].
      unfold buildable in Bs. rewrite Bs.
      unfold bind at 1. rewrite (mark_id Build s g (N s (or_introl eq_refl)) Fs).
      rewrite IH; [now rewrite <- app_assoc | |]; intros x Ix; [apply N | apply B];
        now right.
Qed.

Lemma upstream_loop_stable fuel : forall visited todo,
  (forall n, In n todo -> In n (nodes g) /\ any_flag (attrs_of g n) = true) ->
  (exists D, upstream_loop _installable _buildable fuel visited todo g = (Ret D, g)) \/
  upstream_loop _installable _buildable fuel visited todo g = (Timeout, g).
Proof.
  induction fuel as [|fuel IH]; intros visited todo H.
  - destruct todo; simpl; [left; exists visited; reflexivity | now right].
  - destruct todo as [|n rest]; simpl; [left; exists visited; reflexivity|].
    destruct (H n (or_introl eq_refl)) as [In_ An].
    destruct (wf_graph_successors g n wf In_) as [ss L].
    assert (Ns : forall s, In s ss -> In s (nodes g)).
    { intros s I. eapply wf_graph_closed; eassumption. }
    assert (Bs : forall s, In s ss -> needs g s = true ->
                 buildable _buildable g s = true /\ build (attrs_of g s) = Some true).
    { intros s I Nd. apply (proj1 st n s); auto. exists ss. auto. }
    assert (E : upstream_loop _installable _buildable (S fuel) visited (n :: rest) g
                = upstream_loop _installable _buildable fuel (visited ++ [n])
                                (rest ++ filter (needs g) ss) g).
    { simpl. unfold bind at 1. unfold successors. rewrite L.
      unfold bind at 1. now rewrite (check_successors_stable ss [] Ns Bs). }
    simpl in E. rewrite E.
    apply IH. intros x I. apply in_app_iff in I. destruct I as [I|I].
    + apply H. now right.
    + apply filter_In in I. destruct I as [I Nd]. split; [now apply Ns|].
      destruct (Bs x I Nd) as [_ F]. unfold any_flag. now rewrite F.
Qed.

Variables max_downstream initial_dirty : Z.

Lemma mark_predecessors_stable ps : forall downstream,
  (forall p, In p ps -> In p (nodes g) /\ get_flag run (attrs_of g p) = Some true) ->
  exists d, mark_predecessors run max_downstream initial_dirty ps downstream g
            = (Ret d, g).
Proof.
  induction ps as [|p ps IH]; intros downstream H; simpl; [eexists; reflexivity|].
  destruct (_ || _)%bool.
  - unfold bind. destruct (H p (or_introl eq_refl)) as [I F].
    rewrite (mark_id run p g I F). apply IH. intros x Ix. apply H. now right.
  - apply IH. intros x Ix. apply H. now right.
Qed.

Lemma expand_nodes_stable ns : forall downstream,
  (forall n, In n ns -> In n (dirty g)) ->
  exists d, expand_nodes run max_downstream initial_dirty ns downstream g = (Ret d, g).
Proof.
  induction ns as [|n ns IH]; intros downstream H; simpl; [eexists; reflexivity|].
  assert (Dn : In n (dirty g)) by (apply H; now left).
  destruct (wf_graph_predecessors g n wf (dirty_are_nodes g n Dn)) as [ps L].
  unfold bind at 1. unfold predecessors. rewrite L.
  destruct (mark_predecessors_stable ps downstream) as [d E].
  { intros p I. split; [eapply wf_graph_closed_pred; eassumption|].
    exact (proj2 st n ps p Dn L I). }
  unfold bind at 1. rewrite E. apply IH. intros x Ix. apply H. now right.
Qed.

Lemma expand_step_stable downstream :
  expand_step run max_downstream initial_dirty (dirty g) downstream g
  = (Ret (Z.of_nat (length (dirty g))), g).
Proof.
  unfold expand_step. destruct (expand_nodes_stable (dirty g) downstream) as [d E]; auto.
  unfold bind at 1. rewrite E. reflexivity.
Qed.

Lemma expand_steps_stable steps : forall downstream,
  exists d, expand_steps run max_downstream initial_dirty steps downstream g = (Ret d, g).
Proof.
  induction steps as [|steps IH]; intros downstream; simpl; [eexists; reflexivity|].
  unfold bind at 1. unfold get at 1. unfold bind at 1. rewrite expand_step_stable.
  apply IH.
Qed.

Lemma expand_until_stable_stable fuel downstream :
  expand_until_stable run max_downstream initial_dirty (S fuel) (dirty g) downstream g
  = (Ret tt, g).
Proof.
  simpl. unfold bind at 1. rewrite expand_step_stable.
  unfold bind at 1. unfold get at 1. now rewrite list_eqb_refl.
Qed.
End Stable.

(** On a stable graph [expand_run] raises nothing and changes nothing;
    when it returns, it returns the dirty set as it was; and it does return
    when a numbering shows the graph free of cycles and the fuel covers
    what the flagged nodes weigh. *)
Lemma expand_run_stable _installable _buildable run steps max_downstream g :
  wf_graph g = true -> stable _installable _buildable run g ->
  (forall fuel,
      expand_run _installable _buildable fuel run steps max_downstream g
      = (Ret (dirty g), g) \/
      expand_run _installable _buildable fuel run steps max_downstream g
      = (Timeout, g)) /\
  (forall rank fuel,
      rank_ok rank g = true -> 1 + total_weight g rank (seeds g) <= fuel ->
      expand_run _installable _buildable fuel run steps max_downstream g
      = (Ret (dirty g), g)).
Proof.
  intros wf st.
  assert (Up : forall fuel,
             (exists D, upstream_dependencies_needing_build _installable _buildable fuel g
                        = (Ret D, g)) \/
             upstream_dependencies_needing_build _installable _buildable fuel g
             = (Timeout, g)).
  { intros fuel. unfold upstream_dependencies_needing_build.
    unfold bind, get. fold (seeds g).
    apply (upstream_loop_stable _installable _buildable run g wf st).
    intros n I. split; [now apply seeds_are_nodes|].
    apply seeds_any_flag; [|exact I]. now destruct (wf_graph_spec g wf). }
  assert (Down : forall fuel D,
             upstream_dependencies_needing_build _installable _buildable fuel g
             = (Ret D, g) ->
             (fuel = 0 /\ (steps <? 0)%Z = true /\
              expand_run _installable _buildable fuel run steps max_downstream g
              = (Timeout, g)) \/
             expand_run _installable _buildable fuel run steps max_downstream g
             = (Ret (dirty g), g)).
  { intros fuel D E. unfold expand_run, bind, get, ret. rewrite E.
    destruct (steps >=? 0)%Z eqn:Es.
    - right.
      destruct (expand_steps_stable _installable _buildable run g wf st max_downstream
                                    (Z.of_nat (length (dirty g))) (Z.to_nat steps) 0%Z)
        as [d Ed].
      now rewrite Ed.
    - destruct fuel as [|fuel].
      + left. split; [reflexivity|]. split; [lia|]. reflexivity.
      + right.
        now rewrite (expand_until_stable_stable _installable _buildable run g wf st). }
  split.
  - intros fuel. destruct (Up fuel) as [[D E]|E].
    + destruct (Down fuel D E) as [[_ [_ T]]|R]; auto.
    + right. unfold expand_run, bind. now rewrite E.
  - intros rank fuel Hr W. destruct (Up fuel) as [[D E]|E].
    + destruct (Down fuel D E) as [[Z _]|R]; [lia | exact R].
    + exfalso.
      apply (upstream_loop_total _installable _buildable rank g Hr fuel [] (seeds g) g
                                 (flags_frame_refl _ _)); [lia|].
      unfold upstream_dependencies_needing_build, bind, get in E. fold (seeds g) in E.
      now rewrite E.
Qed.

(** Running the propagation again on [b -> a], with [a] to build and [b]
    already marked for a test, returns the two nodes and changes nothing. *)
Example expand_run_stable_example :
  expand_run Examples.yes Examples.yes 4 Test (-1) 5 Examples.one_dependent_done
  = (Ret ["a"; "b"], Examples.one_dependent_done).
Proof.
  assert (S : stable Examples.yes Examples.yes Test Examples.one_dependent_done).
  { split.
    - intros n s _ _ _ N. discriminate.
    - intros n ps p D L Ip. vm_compute in D.
      destruct D as [<-|[<-|[]]]; vm_compute in L; inversion L; subst ps;
        [destruct Ip as [<-|[]]; reflexivity | destruct Ip]. }
  destruct (expand_run_stable Examples.yes Examples.yes Test (-1) 5
                              Examples.one_dependent_done eq_refl S) as [_ R].
  apply (R Examples.rank_ab 4 eq_refl). vm_compute. lia.
Qed.

(* ================================================================== *)
(** ** The graphs of [construct_graph] are well formed *)

Lemma NoDup_nodupb l : NoDup l -> nodupb l = true.
Proof.
  induction 1 as [|x l N _ IH]; simpl; [reflexivity|].
  rewrite IH, andb_true_r. apply negb_true_iff. now apply mem_false.
Qed.

Lemma wf_graph_wf_ok g : wf_graph g = true <-> wf_ok g.
Proof.
  split.
  - intros wf. destruct (wf_graph_spec g wf) as [N [K1 [K2 [C1 C2]]]].
    repeat split; auto; intros n vs v; now apply closed_adj_In.
  - intros [N [K1 [K2 [C1 C2]]]]. unfold wf_graph.
    rewrite (NoDup_nodupb _ N), K1, K2, !list_eqb_refl. simpl.
    assert (B : forall adj, keys adj = nodes g -> closed (nodes g) adj ->
                            closed_adj (nodes g) adj = true).
    { intros adj K C. unfold closed_adj. apply forallb_forall. intros [k vs] I.
      apply forallb_forall. intros v Iv. apply mem_In.
      apply (C k vs v); [|exact Iv]. apply NoDup_keys_lookup; [now rewrite K | exact I]. }
    now rewrite (B _ K1 C1), (B _ K2 C2).
Qed.

Lemma keeps_wf_refl g : keeps_wf g g.
Proof. intros H. exact H. Qed.

Lemma keeps_wf_trans g1 g2 g3 : keeps_wf g1 g2 -> keeps_wf g2 g3 -> keeps_wf g1 g3.
Proof. intros H1 H2 W. auto. Qed.

Lemma keys_dict_set_new {V} n (v : V) d :
  ~ In n (keys d) -> keys (dict_set n v d) = keys d ++ [n].
Proof. intros H. rewrite keys_dict_set. apply mem_false in H. now rewrite H. Qed.

Lemma closed_dict_set_nil ns adj n :
  closed ns adj -> closed (ns ++ [n]) (dict_set n [] adj).
Proof.
  intros C k vs v L I. rewrite lookup_dict_set in L.
  destruct (String.eqb k n); [inversion L; subst; destruct I|].
  apply in_app_iff. left. eapply C; eassumption.
Qed.

(** A node that is not there yet is added to the three dictionaries. *)
Lemma keeps_wf_new_node g n a :
  ~ In n (keys (succ g)) ->
  keeps_wf g (mkGraph (dict_set n a (node g)) (dict_set n [] (succ g))
                      (dict_set n [] (pred g))).
Proof.
  intros H [N [K1 [K2 [C1 C2]]]].
  assert (Hn : ~ In n (nodes g)) by now rewrite <- K1.
  unfold wf_ok, nodes in *. simpl.
  rewrite !keys_dict_set_new by congruence. rewrite K1, K2.
  repeat split; auto using closed_dict_set_nil.
  apply NoDup_app; [assumption | repeat constructor; intros [] |].
  intros x I [<-|[]]. contradiction.
Qed.

Lemma keeps_wf_adjust g f n :
  keeps_wf g (mkGraph (dict_adjust f n (node g)) (succ g) (pred g)).
Proof.
  intros W. unfold wf_ok, nodes in *. simpl. now rewrite keys_dict_adjust.
Qed.

Lemma keeps_wf_add_node n a g : keeps_wf g (nx_add_node n a g).
Proof.
  unfold nx_add_node. destruct (mem n (keys (succ g))) eqn:E.
  - apply keeps_wf_adjust.
  - apply keeps_wf_new_node. now apply mem_false.
Qed.

Lemma closed_adj_add ns adj u v :
  In v ns -> closed ns adj -> closed ns (adj_add u v adj).
Proof.
  intros Iv C k vs x L I. unfold adj_add in L. rewrite lookup_dict_adjust in L.
  destruct (String.eqb k u); [|eapply C; eassumption].
  destruct (lookup k adj) as [vs0|] eqn:L0; [|discriminate].
  simpl in L. inversion L; subst vs. clear L.
  destruct (mem v vs0); [eapply C; eassumption|].
  apply in_app_iff in I. destruct I as [I|[<-|[]]]; [eapply C; eassumption | exact Iv].
Qed.

Lemma keeps_wf_bare g u :
  keeps_wf g (if mem u (keys (succ g)) then g
              else mkGraph (dict_set u no_attrs (node g)) (dict_set u [] (succ g))
                           (dict_set u [] (pred g))).
Proof.
  destruct (mem u (keys (succ g))) eqn:E; [apply keeps_wf_refl|].
  apply keeps_wf_new_node. now apply mem_false.
Qed.

Lemma bare_is_node g u :
  wf_ok g ->
  In u (nodes (if mem u (keys (succ g)) then g
               else mkGraph (dict_set u no_attrs (node g)) (dict_set u [] (succ g))
                            (dict_set u [] (pred g)))).
Proof.
  intros [_ [K1 _]]. destruct (mem u (keys (succ g))) eqn:E.
  - apply mem_In in E. now rewrite <- K1.
  - unfold nodes. simpl. apply In_keys_dict_set. now left.
Qed.

Lemma bare_keeps_nodes g u x :
  In x (nodes g) ->
  In x (nodes (if mem u (keys (succ g)) then g
               else mkGraph (dict_set u no_attrs (node g)) (dict_set u [] (succ g))
                            (dict_set u [] (pred g)))).
Proof.
  intros I. destruct (mem u (keys (succ g))); [exact I|].
  unfold nodes. simpl. apply In_keys_dict_set. now right.
Qed.

Lemma keeps_wf_add_edge u v g : keeps_wf g (nx_add_edge u v g).
Proof.
  intros W. unfold nx_add_edge.
  set (g1 := if mem u (keys (succ g)) then g else _).
  assert (W1 : wf_ok g1) by (apply (keeps_wf_bare g u); exact W).
  assert (Iu1 : In u (nodes g1)) by (apply bare_is_node; exact W).
  set (g2 := if mem v (keys (succ g1)) then g1 else _).
  assert (W2 : wf_ok g2) by (apply (keeps_wf_bare g1 v); exact W1).
  assert (Iv : In v (nodes g2)) by (apply bare_is_node; exact W1).
  assert (Iu : In u (nodes g2)) by (apply bare_keeps_nodes; exact Iu1).
  destruct W2 as [N [K1 [K2 [C1 C2]]]].
  assert (Ka : forall a b adj, keys (adj_add a b adj) = keys adj).
  { intros a b adj. unfold adj_add. apply keys_dict_adjust. }
  unfold wf_ok, nodes in *. simpl. rewrite !Ka.
  repeat split; auto using closed_adj_add.
Qed.

Lemma keeps_wf_adjust_node f n : preserves keeps_wf (adjust_node f n).
Proof.
  intros g. unfold adjust_node. destruct (lookup n (node g)); simpl.
  - apply keeps_wf_adjust.
  - apply keeps_wf_refl.
Qed.

Lemma keeps_wf_modify f :
  (forall g, keeps_wf g (f g)) -> preserves keeps_wf (modify f).
Proof. intros H g. apply H. Qed.

Ltac wf_auto :=
  repeat match goal with
    | |- forall _, _ => intro
    | |- preserves _ (ret _) => apply preserves_ret; exact keeps_wf_refl
    | |- preserves _ (raise _) => apply preserves_raise; exact keeps_wf_refl
    | |- preserves _ get => apply preserves_get; exact keeps_wf_refl
    | |- preserves _ (lift _) => apply preserves_lift; exact keeps_wf_refl
    | |- preserves _ (adjust_node _ _) => apply keeps_wf_adjust_node
    | |- preserves _ (modify (nx_add_node _ _)) =>
        apply keeps_wf_modify; intro; apply keeps_wf_add_node
    | |- preserves _ (modify (nx_add_edge _ _)) =>
        apply keeps_wf_modify; intro; apply keeps_wf_add_edge
    | |- preserves _ (bind _ _) => apply preserves_bind; [exact keeps_wf_trans | | ]
    end.

Section ConstructWf.
Variable getcwd : string.
Variable git_diff_tree : string -> string -> list string.
Variable find_recipe : string -> bool.
Variable listdir : string -> list string.
Variable isdir : string -> bool.
Variable normpath : string -> string.
Variable render : string -> string -> Z -> Pkg.

Lemma keeps_wf_add_dependency name dv : preserves keeps_wf (add_dependency name dv).
Proof.
  destruct dv as [dep version]. unfold add_dependency.
  apply preserves_bind; [exact keeps_wf_trans | wf_auto |].
  intros g0. apply preserves_bind; [exact keeps_wf_trans | | wf_auto].
  destruct (negb (mem dep (nodes g0))); wf_auto.
Qed.

Lemma keeps_wf_add_recipe directory platform bits folders deps_type rd :
  preserves keeps_wf (add_recipe render directory platform bits folders deps_type rd).
Proof.
  unfold add_recipe.
  apply preserves_bind; [exact keeps_wf_trans | |].
  - destruct (negb (pkg_skip _)); [|wf_auto].
    apply preserves_bind; [exact keeps_wf_trans | wf_auto |].
    intros g0. apply preserves_bind; [exact keeps_wf_trans | wf_auto |].
    intros m. destruct (negb (mem _ (nodes g0))); wf_auto.
  - intros _. apply preserves_bind; [exact keeps_wf_trans | wf_auto |].
    intros deps. apply preserves_for_each;
      [exact keeps_wf_refl | exact keeps_wf_trans | apply keeps_wf_add_dependency].
Qed.

(** Whatever [construct_graph] returns satisfies the invariants that
    the propagation and planning theorems ask for. *)
Lemma construct_graph_wf directory platform bits folders deps_type git_rev stop_rev g :
  construct_graph getcwd git_diff_tree find_recipe listdir isdir normpath render
                  directory platform bits folders deps_type git_rev stop_rev = Ret g ->
  wf_graph g = true.
Proof.
  unfold construct_graph.
  set (body := construct_graph_body _ _ _ _ _ _ _ _ _ _ _ _ _ _).
  assert (P : preserves keeps_wf body).
  { unfold body, construct_graph_body.
    destruct (negb (isdir _)); [wf_auto|].
    apply preserves_for_each;
      [exact keeps_wf_refl | exact keeps_wf_trans | intros rd; apply keeps_wf_add_recipe]. }
  specialize (P empty_graph).
  destruct (body empty_graph) as [[[]|e|] g1]; try discriminate.
  intros H. inversion H; subst g1. apply wf_graph_wf_ok. apply P.
  apply wf_graph_wf_ok. reflexivity.
Qed.
End ConstructWf.

(* ================================================================== *)
(** ** [topological_sort]: what it returns is a dependency-first order *)

Lemma index_of_lt x l : In x l -> index_of x l < length l.
Proof.
  induction l as [|y l IH]; simpl; [tauto|].
  destruct (String.eqb_spec x y); [lia|].
  intros [E|I]; [congruence | specialize (IH I); lia].
Qed.

Lemma index_of_app_in x l l' : In x l -> index_of x (l ++ l') = index_of x l.
Proof.
  induction l as [|y l IH]; simpl; [tauto|].
  destruct (String.eqb_spec x y); [reflexivity|].
  intros [E|I]; [congruence | now rewrite IH].
Qed.

Lemma index_of_app_notin x l l' :
  ~ In x l -> index_of x (l ++ l') = length l + index_of x l'.
Proof.
  induction l as [|y l IH]; simpl; [reflexivity|].
  intros H. destruct (String.eqb_spec x y); [subst; tauto|].
  rewrite IH; tauto.
Qed.

Lemma precedes_app v u l l' : precedes v u l -> precedes v u (l ++ l').
Proof.
  intros [Iv [Iu Lt]]. repeat split; try (apply in_app_iff; now left).
  now rewrite !index_of_app_in.
Qed.

Lemma precedes_last v w l : In v l -> ~ In w l -> precedes v w (l ++ [w]).
Proof.
  intros Iv Nw. repeat split.
  - apply in_app_iff. now left.
  - apply in_app_iff. right. now left.
  - rewrite index_of_app_in by assumption. rewrite index_of_app_notin by assumption.
    pose proof (index_of_lt v l Iv). lia.
Qed.

Lemma In_set_add x y s : In x (set_add y s) <-> x = y \/ In x s.
Proof.
  unfold set_add. destruct (mem y s) eqn:E.
  - apply mem_In in E. split; [auto | intros [->|]; auto].
  - simpl. intuition.
Qed.

(** The scan of the successors returns the unexplored ones, none of them
    seen, or finds one that is seen and not explored. *)
Lemma scan_successors_ret E S ns : forall acc out,
  scan_successors E S ns acc = Ret out ->
  out = acc ++ filter (fun n => negb (mem n E)) ns /\
  forall n, In n ns -> mem n E = false -> mem n S = false.
Proof.
  induction ns as [|n ns IH]; intros acc out H; simpl in H.
  - inversion H. split; [now rewrite app_nil_r | intros n []].
  - simpl. destruct (mem n E) eqn:EE; simpl.
    + destruct (IH _ _ H) as [O P]. split; [exact O|].
      intros x [<-|I] Hx; [congruence | auto].
    + destruct (mem n S) eqn:ES; [discriminate|].
      destruct (IH _ _ H) as [O P]. split; [rewrite O, <- app_assoc; reflexivity|].
      intros x [<-|I] Hx; auto.
Qed.

Lemma scan_successors_cases E S ns : forall acc,
  (exists out, scan_successors E S ns acc = Ret out) \/
  (scan_successors E S ns acc = Raise NetworkXUnfeasible /\
   exists n, In n ns /\ mem n E = false /\ mem n S = true).
Proof.
  induction ns as [|n ns IH]; intros acc; simpl; [left; eauto|].
  destruct (mem n E) eqn:EE.
  - destruct (IH acc) as [H|[H [x [I [A B]]]]]; [now left | right].
    split; [exact H | exists x; auto].
  - destruct (mem n S) eqn:ES.
    + right. split; [reflexivity | exists n; auto].
    + destruct (IH (acc ++ [n])) as [H|[H [x [I [A B]]]]]; [now left | right].
      split; [exact H | exists x; auto].
Qed.

Section TopoSound.
Variable G : DiGraph.

Lemma dfs_visit_sound w rest st fr' st' :
  topo_inv G st -> dfs_visit G w rest st = Ret (fr', st') ->
  topo_inv G st' /\
  (forall x, In x (explored st) -> In x (explored st')) /\
  (forall x, In x (w :: rest) -> In x fr' \/ In x (explored st')).
Proof.
  intros [ND [EO TO]] H. unfold dfs_visit in H.
  destruct (mem w (explored st)) eqn:Ew.
  - inversion H; subst. split; [exact (conj ND (conj EO TO))|].
    split; [auto|]. intros x [<-|I]; [right; now apply mem_In | now left].
  - destruct (lookup w (succ G)) as [nbrs|] eqn:L; [|discriminate].
    destruct (scan_successors (explored st) (set_add w (seen st)) nbrs [])
      as [new_nodes| |] eqn:Sc; simpl in H; try discriminate.
    destruct (scan_successors_ret _ _ _ _ _ Sc) as [O P]. simpl in O.
    apply mem_false in Ew.
    destruct new_nodes as [|n0 new'].
    + inversion H; subst fr' st'. clear H. simpl.
      assert (Nw : ~ In w (order st)) by (now rewrite <- EO).
      split; [|split].
      * split; [|split]; simpl.
        -- apply NoDup_app; [assumption | repeat constructor; intros [] |].
           intros x I [<-|[]]. contradiction.
        -- intros x. rewrite In_set_add, in_app_iff, EO. simpl. intuition.
        -- intros u v Iu [vs [Lv Iv]]. apply in_app_iff in Iu.
           destruct Iu as [Iu|[<-|[]]].
           ++ apply precedes_app. apply TO; [assumption | exists vs; auto].
           ++ rewrite L in Lv. inversion Lv; subst vs.
              assert (Ev : In v (explored st)).
              { destruct (mem v (explored st)) eqn:Ev; [now apply mem_In|].
                assert (In v (filter (fun n => negb (mem n (explored st))) nbrs)).
                { apply filter_In. rewrite Ev. auto. }
                rewrite <- O in H. destruct H. }
              apply precedes_last; [now apply EO | assumption].
      * intros x I. apply In_set_add. now right.
      * intros x [<-|I]; [right; apply In_set_add; now left | now left].
    + inversion H; subst fr' st'. clear H. simpl.
      split; [exact (conj ND (conj EO TO))|]. split; [auto|].
      intros x I. left. apply in_app_iff. right. exact I.
Qed.

Lemma dfs_while_sound fuel : forall fringe st st',
  topo_inv G st -> dfs_while fuel G fringe st = Ret st' ->
  topo_inv G st' /\
  (forall x, In x (explored st) -> In x (explored st')) /\
  (forall x, In x fringe -> In x (explored st')).
Proof.
  induction fuel as [|fuel IH]; intros fringe st st' T H.
  - destruct fringe; simpl in H; [|discriminate].
    inversion H; subst. split; [exact T|]. split; [auto | intros x []].
  - destruct fringe as [|w rest]; simpl in H.
    { inversion H; subst. split; [exact T|]. split; [auto | intros x []]. }
    destruct (dfs_visit G w rest st) as [[fr1 st1]| |] eqn:V; simpl in H;
      try discriminate.
    destruct (dfs_visit_sound _ _ _ _ _ T V) as [T1 [M1 F1]].
    destruct (IH _ _ _ T1 H) as [T2 [M2 F2]].
    split; [exact T2|]. split; [auto|].
    intros x I. destruct (F1 x I); auto.
Qed.

Lemma topo_for_sound fuel vs : forall st st',
  topo_inv G st -> topo_for fuel G vs st = Ret st' ->
  topo_inv G st' /\
  (forall x, In x (explored st) -> In x (explored st')) /\
  (forall x, In x vs -> In x (explored st')).
Proof.
  induction vs as [|v vs IH]; intros st st' T H; simpl in H.
  - inversion H; subst. split; [exact T|]. split; [auto | intros x []].
  - destruct (mem v (explored st)) eqn:Ev.
    + destruct (IH _ _ T H) as [T' [M F]]. split; [exact T'|]. split; [exact M|].
      intros x [<-|I]; [apply M; now apply mem_In | auto].
    + destruct (dfs_while fuel G [v] st) as [st1| |] eqn:W; simpl in H;
        try discriminate.
      destruct (dfs_while_sound _ _ _ _ T W) as [T1 [M1 F1]].
      destruct (IH _ _ T1 H) as [T' [M F]]. split; [exact T'|]. split; [auto|].
      intros x [<-|I]; [apply M, F1; now left | auto].
Qed.

(** Every node is in the order, once, after all its successors. *)
Lemma topological_sort_sound fuel ord :
  topological_sort fuel G true = Ret ord ->
  NoDup ord /\
  (forall n, In n (nodes G) -> In n ord) /\
  (forall u v, In u ord -> edge G u v -> precedes v u ord).
Proof.
  unfold topological_sort. intros H.
  destruct (topo_for fuel G (nodes G) (mkDfs [] [] [])) as [st| |] eqn:T;
    simpl in H; try discriminate.
  inversion H; subst ord. clear H.
  assert (T0 : topo_inv G (mkDfs [] [] [])).
  { split; [constructor|]. split; simpl; [tauto | intros u v []]. }
  destruct (topo_for_sound _ _ _ _ T0 T) as [[ND [EO TO]] [_ F]].
  split; [exact ND|]. split; [|exact TO]. intros n I. apply EO. now apply F.
Qed.

End TopoSound.

(* ================================================================== *)
(** ** [topological_sort]: it ends, with an order or with a cycle *)

Lemma in_split_first (x : string) l :
  In x l -> exists l1 l2, l = l1 ++ x :: l2 /\ ~ In x l1.
Proof.
  induction l as [|y l IH]; [intros []|].
  intros I. destruct (string_dec y x) as [->|N].
  - exists [], l. split; [reflexivity | intros []].
  - destruct I as [E|I]; [contradiction|].
    destruct (IH I) as [l1 [l2 [-> N1]]]. exists (y :: l1), l2.
    split; [reflexivity | intros [E|I']; contradiction].
Qed.

Lemma list_sum_In_le {A} (f : A -> nat) x l : In x l -> f x <= list_sum (map f l).
Proof.
  induction l as [|y l IH]; simpl; [tauto|].
  intros [->|I]; [lia | specialize (IH I); lia].
Qed.

Lemma filter_length_mono {A} (p q : A -> bool) l :
  (forall x, In x l -> p x = true -> q x = true) ->
  length (filter p l) <= length (filter q l).
Proof.
  induction l as [|y l IH]; simpl; intros H; [lia|].
  assert (length (filter p l) <= length (filter q l)) by (apply IH; auto).
  destruct (p y) eqn:P.
  - rewrite (H y (or_introl eq_refl) P). simpl. lia.
  - destruct (q y); simpl; lia.
Qed.

Lemma filter_length_strict {A} (p q : A -> bool) l w :
  (forall x, In x l -> p x = true -> q x = true) ->
  In w l -> q w = true -> p w = false ->
  length (filter p l) < length (filter q l).
Proof.
  induction l as [|y l IH]; simpl; intros H I Q P; [tauto|].
  assert (Le : length (filter p l) <= length (filter q l))
    by (apply filter_length_mono; auto).
  destruct I as [->|I].
  - rewrite Q, P. simpl. lia.
  - assert (length (filter p l) < length (filter q l)) by (apply IH; auto).
    destruct (p y) eqn:Py.
    + rewrite (H y (or_introl eq_refl) Py). simpl. lia.
    + destruct (q y); simpl; lia.
Qed.

Lemma clos_rt_step {A} (R : relation A) x y z :
  clos_refl_trans A R x y -> R y z -> clos_trans A R x z.
Proof.
  intros H S. apply clos_rt_rtn1 in H. induction H as [|y' y'' S' _ IH] in z, S |- *.
  - now apply t_step.
  - apply t_trans with (y := y''); [|now apply t_step]. now apply IH.
Qed.

Section TopoTotal.
Variable G : DiGraph.
Hypothesis HG : graph_ok G.

Lemma degree_le w nbrs : lookup w (succ G) = Some nbrs -> length nbrs <= degree_bound G.
Proof.
  intros L. unfold degree_bound.
  apply (list_sum_In_le (fun kv : string * list string => length (snd kv)) (w, nbrs)).
  now apply lookup_In.
Qed.

Lemma unseen_le st st' :
  (forall x, In x (seen st) -> In x (seen st')) -> unseen G st' <= unseen G st.
Proof.
  intros H. apply filter_length_mono. intros x _ P.
  apply negb_true_iff in P. apply negb_true_iff. apply mem_false in P. apply mem_false.
  auto.
Qed.

Lemma unseen_lt st st' w :
  (forall x, In x (seen st) -> In x (seen st')) ->
  In w (nodes G) -> ~ In w (seen st) -> In w (seen st') ->
  unseen G st' < unseen G st.
Proof.
  intros H I N S. apply (filter_length_strict _ _ _ w); auto.
  - intros x _ P.
    apply negb_true_iff in P. apply negb_true_iff. apply mem_false in P. apply mem_false.
    auto.
  - apply negb_true_iff. now apply mem_false.
  - apply negb_false_iff. now apply mem_In.
Qed.

Lemma unseen_bound st : unseen G st <= length (nodes G).
Proof. apply List.filter_length_le. Qed.

(** One round of the search keeps the invariant and makes progress,
    unless it meets a successor that is on the current path. *)
Lemma dfs_visit_step w rest st :
  dfs_inv G (w :: rest) st ->
  (exists fr' st',
      dfs_visit G w rest st = Ret (fr', st') /\
      dfs_inv G fr' st' /\
      dfs_measure G fr' st' < dfs_measure G (w :: rest) st) \/
  (dfs_visit G w rest st = Raise NetworkXUnfeasible /\
   exists u, clos_trans string (edge G) u u).
Proof.
  intros [J [K1 [K2 N]]]. unfold dfs_visit.
  assert (Iw : In w (nodes G)) by (apply N; left; now left).
  destruct (mem w (explored st)) eqn:Ew.
  { (* already explored: pop *)
    apply mem_In in Ew. left. exists rest, st. split; [reflexivity|]. split.
    - repeat split.
      + intros above x below E Sx Nx s Es.
        destruct (J (w :: above) x below) with (s := s) as [H|[H|H]]; auto.
        * now rewrite E.
        * subst s. now left.
      + intros above x below E Na Sx Nx y Iy.
        apply (K1 (w :: above) x below); auto.
        * now rewrite E.
        * intros [H|H]; [subst x; contradiction | contradiction].
        * now right.
      + intros x Sx Nx. destruct (K2 x Sx Nx) as [H|H]; [subst x; contradiction | exact H].
      + intros x [I|I]; apply N; [left; now right | now right].
    - unfold dfs_measure. simpl. lia. }
  apply mem_false in Ew.
  destruct HG as [KG CG].
  destruct (In_keys_lookup w (succ G) (proj2 (KG w) Iw)) as [nbrs L]. rewrite L.
  destruct (scan_successors_cases (explored st) (set_add w (seen st)) nbrs [])
    as [[out Sc]|[Sc [n [In_ [En Sn]]]]]; rewrite Sc; simpl.
  2:{ (* a successor on the current path *)
    right. split; [reflexivity|].
    apply mem_false in En. apply mem_In in Sn. apply In_set_add in Sn.
    assert (Ewn : edge G w n) by (exists nbrs; auto).
    destruct (string_dec n w) as [->|Nw]; [exists w; now apply t_step|].
    destruct Sn as [->|Sn]; [contradiction|].
    destruct (K2 n Sn En) as [H|H]; [congruence|].
    assert (Iw' : In n (w :: rest)) by now right.
    destruct (in_split_first n (w :: rest) Iw') as [l1 [l2 [E Nl1]]].
    exists n. apply clos_rt_step with (y := w); [|exact Ewn].
    apply (K1 l1 n l2 E Nl1 Sn En).
    destruct l1 as [|a l1]; simpl in E; inversion E; [congruence | now left]. }
  destruct (scan_successors_ret _ _ _ _ _ Sc) as [O P]. simpl in O.
  assert (Out : forall s, edge G w s -> In s (explored st) \/ In s out).
  { intros s [vs [Ls Is]]. rewrite L in Ls. inversion Ls; subst vs.
    destruct (mem s (explored st)) eqn:Es; [left; now apply mem_In|].
    right. rewrite O. apply filter_In. rewrite Es. auto. }
  assert (OutE : forall s, In s out -> edge G w s /\ ~ In s (explored st) /\
                                       ~ In s (set_add w (seen st))).
  { intros s I. rewrite O in I. apply filter_In in I. destruct I as [I E].
    apply negb_true_iff in E. split; [exists nbrs; auto|]. split; [now apply mem_false|].
    apply mem_false. now apply P. }
  destruct out as [|n0 out'].
  { (* nothing new: [w] is explored *)
    left. eexists. eexists. split; [reflexivity|]. split.
    - repeat split; simpl.
      + intros above x below E Sx Nx s Es.
        rewrite In_set_add in Sx, Nx |- *.
        assert (x <> w) by tauto. assert (Sx' : In x (seen st)) by tauto.
        assert (Nx' : ~ In x (explored st)) by tauto.
        destruct (J (w :: above) x below) with (s := s) as [H'|[H'|H']]; auto.
        now rewrite E.
      + intros above x below E Na Sx Nx y Iy.
        rewrite In_set_add in Sx, Nx.
        assert (x <> w) by tauto. assert (Sx' : In x (seen st)) by tauto.
        assert (Nx' : ~ In x (explored st)) by tauto.
        apply (K1 (w :: above) x below); auto.
        * now rewrite E.
        * intros [H'|H']; [congruence | contradiction].
        * now right.
      + intros x Sx Nx. rewrite In_set_add in Sx, Nx.
        assert (x <> w) by tauto. assert (Sx' : In x (seen st)) by tauto.
        assert (Nx' : ~ In x (explored st)) by tauto.
        destruct (K2 x Sx' Nx') as [H'|H']; [congruence | exact H'].
      + intros x [I|I]; [apply N; left; now right|].
        apply in_app_iff in I. destruct I as [I|[<-|[]]]; [apply N; now right | exact Iw].
    - unfold dfs_measure. simpl.
      assert (unseen G (mkDfs (set_add w (seen st)) (order st ++ [w])
                              (set_add w (explored st))) <= unseen G st).
      { apply unseen_le. simpl. intros x I. apply In_set_add. now right. }
      set (u' := unseen G _) in *.
      assert (S (degree_bound G) * u' <= S (degree_bound G) * unseen G st)
        by (apply Nat.mul_le_mono_l; assumption).
      lia. }
  (* new nodes are pushed *)
  assert (Nsw : ~ In w (seen st)).
  { intros Sw. destruct (OutE n0 (or_introl eq_refl)) as [E0 [N0 _]].
    destruct (J [] w rest eq_refl Sw Ew n0 E0) as [H|[]]. contradiction. }
  left. exists (rev (n0 :: out') ++ w :: rest),
               (mkDfs (set_add w (seen st)) (order st) (explored st)).
  split; [reflexivity|].
  remember (n0 :: out') as out eqn:Eo in *. clear Eo n0 out'.
  split.
  - repeat split; simpl.
    + (* successors explored or above *)
      intros above x below E Sx Nx s Es.
      apply app_eq_app in E. destruct E as [l [[E1 E2]|[E1 E2]]].
      * destruct l as [|a l]; simpl in E2.
        -- inversion E2; subst x below. rewrite app_nil_r in E1. rewrite <- E1.
           destruct (Out s Es) as [H|H]; [now left | right; now apply in_rev in H].
        -- inversion E2; subst a. exfalso.
           assert (Ix : In x out).
           { apply in_rev. rewrite E1. apply in_app_iff. right. now left. }
           destruct (OutE x Ix) as [_ [_ H]]. contradiction.
      * destruct l as [|a l]; simpl in E2.
        -- inversion E2; subst x below. rewrite E1, app_nil_r.
           destruct (Out s Es) as [H|H]; [now left | right; now apply in_rev in H].
        -- inversion E2; subst a rest. rewrite E1.
           apply In_set_add in Sx. destruct Sx as [->|Sx].
           ++ destruct (Out s Es) as [H|H]; [now left|].
              right. apply in_app_iff. left. now apply in_rev in H.
           ++ destruct (J (w :: l) x below eq_refl Sx Nx s Es) as [H|H]; [now left|].
              right. apply in_app_iff. now right.
    + (* what lies above is reachable *)
      intros above x below E Na Sx Nx y Iy.
      assert (Rw : forall z, In z (rev out) -> clos_refl_trans string (edge G) w z).
      { intros z Iz. apply rt_step. apply in_rev in Iz. now destruct (OutE z Iz). }
      apply app_eq_app in E. destruct E as [l [[E1 E2]|[E1 E2]]].
      * destruct l as [|a l]; simpl in E2.
        -- inversion E2; subst x below. rewrite app_nil_r in E1. rewrite <- E1 in Iy.
           now apply Rw.
        -- inversion E2; subst a. exfalso.
           assert (Ix : In x out).
           { apply in_rev. rewrite E1. apply in_app_iff. right. now left. }
           destruct (OutE x Ix) as [_ [_ H]]. contradiction.
      * destruct l as [|a l]; simpl in E2.
        -- inversion E2; subst x below. rewrite E1, app_nil_r in Iy. now apply Rw.
        -- inversion E2; subst a rest. rewrite E1 in Iy, Na.
           assert (Nxw : x <> w).
           { intros ->. apply Na. apply in_app_iff. right. now left. }
           apply In_set_add in Sx. destruct Sx as [->|Sx]; [congruence|].
           assert (Nl : ~ In x (w :: l)).
           { intros H. apply Na. apply in_app_iff. now right. }
           apply in_app_iff in Iy. destruct Iy as [Iy|Iy].
           ++ apply rt_trans with (y := w); [|now apply Rw].
              apply (K1 (w :: l) x below eq_refl Nl Sx Nx). now left.
           ++ now apply (K1 (w :: l) x below eq_refl Nl Sx Nx).
    + intros x Sx Nx. apply in_app_iff. right.
      apply In_set_add in Sx. destruct Sx as [->|Sx]; [now left|].
      now apply K2.
    + intros x [I|I]; [|apply N; now right].
      apply in_app_iff in I. destruct I as [I|I]; [|apply N; now left].
      apply in_rev in I. destruct (OutE x I) as [[vs [Lv Iv]] _].
      eapply CG; eassumption.
  - unfold dfs_measure. rewrite length_app, length_rev. simpl length.
    assert (Lo : length out <= degree_bound G).
    { etransitivity; [|apply (degree_le w nbrs L)]. rewrite O. apply List.filter_length_le. }
    assert (U : unseen G (mkDfs (set_add w (seen st)) (order st) (explored st))
                < unseen G st).
    { apply (unseen_lt _ _ w); simpl; auto.
      - intros x I. apply In_set_add. now right.
      - apply In_set_add. now left. }
    set (u' := unseen G _) in *.
    assert (S (degree_bound G) * S u' <= S (degree_bound G) * unseen G st)
      by (apply Nat.mul_le_mono_l; lia).
    rewrite Nat.mul_succ_r in H. lia.
Qed.

Lemma dfs_while_total fuel : forall fringe st,
  dfs_inv G fringe st -> dfs_measure G fringe st <= fuel ->
  (exists st', dfs_while fuel G fringe st = Ret st' /\ dfs_inv G [] st') \/
  (dfs_while fuel G fringe st = Raise NetworkXUnfeasible /\
   exists u, clos_trans string (edge G) u u).
Proof.
  induction fuel as [|fuel IH]; intros fringe st I M.
  - destruct fringe as [|w rest]; [left; exists st; auto|].
    unfold dfs_measure in M. simpl in M. lia.
  - destruct fringe as [|w rest]; [left; exists st; auto|].
    simpl. destruct (dfs_visit_step w rest st I) as [[fr' [st' [V [I' M']]]]|[V C]].
    + rewrite V. simpl. apply IH; [assumption | lia].
    + rewrite V. simpl. now right.
Qed.

Lemma topo_for_total fuel vs : forall st,
  dfs_budget G <= fuel ->
  dfs_inv G [] st -> (forall v, In v vs -> In v (nodes G)) ->
  (exists st', topo_for fuel G vs st = Ret st' /\ dfs_inv G [] st') \/
  (topo_for fuel G vs st = Raise NetworkXUnfeasible /\
   exists u, clos_trans string (edge G) u u).
Proof.
  induction vs as [|v vs IH]; intros st B I N; simpl; [left; exists st; auto|].
  destruct (mem v (explored st)); [apply IH; auto; intros x Ix; apply N; now right|].
  destruct I as [J [K1 [K2 NO]]].
  assert (I1 : dfs_inv G [v] st).
  { repeat split.
    - intros above x below E Sx Nx. destruct (K2 x Sx Nx).
    - intros above x below E _ Sx Nx. destruct (K2 x Sx Nx).
    - intros x Sx Nx. destruct (K2 x Sx Nx).
    - intros x [[<-|[]]|I]; [apply N; now left | apply NO; now right]. }
  destruct (dfs_while_total fuel [v] st I1) as [[st1 [W I2]]|[W C]].
  - unfold dfs_measure, dfs_budget in *. simpl.
    pose proof (unseen_bound st).
    assert (S (degree_bound G) * unseen G st <= S (degree_bound G) * length (nodes G))
      by (apply Nat.mul_le_mono_l; assumption).
    lia.
  - rewrite W. simpl. apply IH; auto. intros x Ix. apply N. now right.
  - rewrite W. simpl. now right.
Qed.

(** With fuel for each search, [topological_sort] returns an order or
    raises [NetworkXUnfeasible] on a graph that has a cycle. *)
Lemma topological_sort_total fuel :
  dfs_budget G <= fuel ->
  (exists ord, topological_sort fuel G true = Ret ord /\
               forall x, In x ord -> In x (nodes G)) \/
  (topological_sort fuel G true = Raise NetworkXUnfeasible /\
   exists u, clos_trans string (edge G) u u).
Proof.
  intros B. unfold topological_sort.
  destruct (topo_for_total fuel (nodes G) (mkDfs [] [] []) B) as [[st [T I]]|[T C]].
  - repeat split; simpl; intros; try contradiction. tauto.
  - auto.
  - rewrite T. left. eexists. split; [reflexivity|].
    intros x Ix. destruct I as [_ [_ [_ NO]]]. apply NO. now right.
  - rewrite T. now right.
Qed.
End TopoTotal.

(* ================================================================== *)
(** ** The generator [edge_dfs] *)

Lemma pair_mem_In k l : pair_mem k l = true <-> In k l.
Proof.
  unfold pair_mem. rewrite existsb_exists. destruct k as [a b]. split.
  - intros [[a' b'] [I E]]. simpl in E. apply andb_true_iff in E. destruct E as [E1 E2].
    apply String.eqb_eq in E1, E2. now subst.
  - intros I. exists (a, b). split; [exact I|]. simpl. now rewrite !String.eqb_refl.
Qed.

Lemma pair_mem_false k l : pair_mem k l = false <-> ~ In k l.
Proof.
  rewrite <- pair_mem_In. destruct (pair_mem k l); split; congruence.
Qed.

Lemma dict_set_fresh {V} k (v : V) d : ~ In k (keys d) -> dict_set k v d = d ++ [(k, v)].
Proof.
  induction d as [|[k' v'] d IH]; intros N; simpl; [reflexivity|].
  destruct (String.eqb_spec k k') as [->|_]; [elim N; now left|].
  rewrite IH; [reflexivity|]. intros I. apply N. now right.
Qed.

Lemma iterators_left_fresh n v d :
  ~ In n (keys d) -> iterators_left (dict_set n v d) = iterators_left d + length v.
Proof.
  intros N. rewrite (dict_set_fresh n v d N). unfold iterators_left.
  rewrite map_app, list_sum_app. simpl. lia.
Qed.

Lemma iterators_left_read n (e : dedge) rest d :
  lookup n d = Some (e :: rest) ->
  iterators_left (dict_set n rest d) + 1 = iterators_left d.
Proof.
  unfold iterators_left. induction d as [|[k v] d IH]; intros L; simpl in *; [discriminate|].
  destruct (String.eqb_spec n k) as [->|N].
  - inversion L; subst. simpl. lia.
  - simpl. specialize (IH L). lia.
Qed.

Lemma unvisited_degree_visit G n visited :
  NoDup (nodes G) -> In n (nodes G) -> ~ In n visited ->
  unvisited_degree G (set_add n visited) + length (incident G n) = unvisited_degree G visited.
Proof.
  unfold unvisited_degree. intros ND I N.
  assert (S : set_add n visited = n :: visited).
  { unfold set_add. apply mem_false in N. now rewrite N. }
  rewrite S. clear S.
  induction (nodes G) as [|x l IH]; [destruct I|].
  inversion ND as [|? ? Nx ND']; subst. simpl.
  destruct I as [->|I].
  - rewrite String.eqb_refl. simpl. apply mem_false in N. rewrite N.
    assert (E : forall y, In y l ->
                (if (String.eqb y n || mem y visited)%bool then 0 else length (incident G y))
                = (if mem y visited then 0 else length (incident G y))).
    { intros y Iy. destruct (String.eqb_spec y n) as [->|_]; [contradiction | reflexivity]. }
    rewrite (map_ext_in _ _ l E). lia.
  - specialize (IH ND' I). simpl in IH.
    destruct (String.eqb_spec x n) as [->|_]; [contradiction|]. simpl. lia.
Qed.

Section EdgeDfs.
Variable G : DiGraph.
Hypothesis wfG : wf_ok G.
Hypothesis mirG : mirrored G.

Lemma successors_of_edge n v : In v (successors_of G n) <-> edge G n v.
Proof.
unfold successors_of, edge. destruct (lookup n (succ G)) as [vs|]; split.
- intros I. eauto.
- intros [vs' [E I]]. now inversion E; subst.
- intros [].
- intros [vs' [E _]]. discriminate.
Qed.

Lemma predecessors_of_edge n p : In p (predecessors_of G n) <-> edge G p n.
Proof.
rewrite (mirG p n). unfold predecessors_of, pred_edge.
destruct (lookup n (pred G)) as [ps|]; split.
- intros I. eauto.
- intros [ps' [E I]]. now inversion E; subst.
- intros [].
- intros [ps' [E _]]. discriminate.
Qed.

Lemma edge_nodes u v : edge G u v -> In u (nodes G) /\ In v (nodes G).
Proof.
intros [vs [L I]]. destruct wfG as [_ [KS [_ [CS _]]]]. split.
- rewrite <- KS. eapply lookup_In_keys; eassumption.
- eapply CS; eassumption.
Qed.

(** An incident edge starts at the node, is an edge of the graph, and is
  listed from its other end too. *)
Lemma incident_spec n e :
In e (incident G n) ->
tail_of e = n /\ edge G (fst (edge_key e)) (snd (edge_key e)) /\
In (head_of e) (nodes G) /\
((fst (edge_key e) = n /\ snd (edge_key e) = head_of e) \/
 (snd (edge_key e) = n /\ fst (edge_key e) = head_of e)).
Proof.
unfold incident. rewrite in_app_iff, !in_map_iff.
intros [[v [<- I]]|[p [<- I]]]; unfold tail_of, head_of, edge_key; simpl.
- apply successors_of_edge in I. repeat split; auto. now apply (edge_nodes n v).
- apply predecessors_of_edge in I. repeat split; auto. now apply (edge_nodes p n).
Qed.

Lemma incident_forward u v : edge G u v -> In (u, v, Forward) (incident G u).
Proof.
intros E. unfold incident. apply in_or_app. left.
apply in_map_iff. exists v. split; [reflexivity | now apply successors_of_edge].
Qed.

Lemma incident_reverse u v : edge G u v -> In (u, v, Reverse) (incident G v).
Proof.
intros E. unfold incident. apply in_or_app. right.
apply in_map_iff. exists u. split; [reflexivity | now apply predecessors_of_edge].
Qed.

Lemma incident_mirror n e :
In e (incident G n) ->
exists e', In e' (incident G (head_of e)) /\ edge_key e' = edge_key e.
Proof.
unfold incident at 1. rewrite in_app_iff, !in_map_iff.
intros [[v [<- I]]|[p [<- I]]]; unfold head_of; simpl.
- apply successors_of_edge in I. exists (n, v, Reverse).
  split; [now apply incident_reverse | reflexivity].
- apply predecessors_of_edge in I. exists (p, n, Forward).
  split; [now apply incident_forward | reflexivity].
Qed.

Lemma nbunch_of_node n : In n (nodes G) -> nbunch_of G n = [n].
Proof. intros I. unfold nbunch_of. apply mem_In in I. now rewrite I. Qed.

Lemma out_edges_node n : In n (nodes G) -> out_edges G n = Ret (incident G n).
Proof.
intros I. unfold out_edges. rewrite (nbunch_of_node n I). simpl.
destruct wfG as [_ [KS [KP _]]].
assert (Is : In n (keys (succ G))) by now rewrite KS.
assert (Ip : In n (keys (pred G))) by now rewrite KP.
destruct (In_keys_lookup n (succ G) Is) as [vs Ls].
destruct (In_keys_lookup n (pred G) Ip) as [ps Lp].
rewrite Ls, Lp. simpl. unfold incident, successors_of, predecessors_of.
rewrite Ls, Lp, !app_nil_r. reflexivity.
Qed.

Lemma gen_seen_top g current below x :
stack g = current :: below -> In current (visited_nodes g) ->
(gen_seen g x <-> In x (visited_nodes g) \/ In x below).
Proof.
intros S V. unfold gen_seen. rewrite S. simpl. intuition (subst; auto).
Qed.

(** The first half of a round: the top of the stack becomes visited. *)
Lemma round_visit g current below :
gen_ok G g -> stack g = current :: below ->
exists g1,
  (if mem current (visited_nodes g) then Ret g
   else obind (out_edges G current) (fun es =>
        Ret (mkEdgeDfs (start_nodes g) (stack g) (visited_edges g)
                       (set_add current (visited_nodes g))
                       (dict_set current es (edges g))))) = Ret g1 /\
  gen_ok G g1 /\ stack g1 = stack g /\ visited_edges g1 = visited_edges g /\
  gen_measure G g1 = gen_measure G g /\ In current (visited_nodes g1) /\
  (forall x, gen_seen g1 x <-> gen_seen g x).
Proof.
intros Ok S. destruct (mem current (visited_nodes g)) eqn:M.
- apply mem_In in M. exists g. split; [reflexivity|]. split; [exact Ok|].
  split; [reflexivity|]. split; [reflexivity|]. split; [reflexivity|].
  split; [exact M | tauto].
- apply mem_false in M.
  assert (Ic : In current (nodes G)).
  { apply (gen_stack_nodes G g Ok). rewrite S. now left. }
  rewrite (out_edges_node current Ic). simpl.
  assert (Nk : ~ In current (keys (edges g))).
  { intros I. apply M. now apply (gen_keys G g Ok). }
  eexists. split; [reflexivity|].
  split; [|split; [reflexivity|split; [reflexivity|split; [|split]]]].
  + constructor; simpl.
    * apply (gen_starts G g Ok).
    * apply (gen_stack_nodes G g Ok).
    * intros x I. apply In_set_add in I. destruct I as [->|I]; [exact Ic|].
      now apply (gen_visited_nodes G g Ok).
    * intros top bl E x I. apply In_set_add. right.
      exact (gen_below G g Ok top bl E x I).
    * intros n I. apply In_set_add in I. rewrite lookup_dict_set.
      destruct (String.eqb_spec n current) as [->|N].
      -- exists [], (incident G current). repeat split; auto. intros e [].
      -- destruct I as [I|I]; [contradiction|]. exact (gen_iter G g Ok n I).
    * intros n I. apply In_set_add. apply In_keys_dict_set in I.
      destruct I as [I|I]; [now left | right; now apply (gen_keys G g Ok)].
    * intros n I N. apply In_set_add in I. rewrite lookup_dict_set.
      destruct (String.eqb_spec n current) as [->|Nc].
      -- elim N. rewrite S. now left.
      -- destruct I as [I|I]; [contradiction|]. now apply (gen_finished G g Ok).
    * intros u v I. destruct (gen_edges G g Ok u v I) as [E [Su Sv]].
      split; [exact E|]. unfold gen_seen in *. simpl. rewrite !In_set_add. tauto.
  + unfold gen_measure. simpl. rewrite (iterators_left_fresh _ _ _ Nk).
    pose proof (unvisited_degree_visit G current (visited_nodes g)
                  (proj1 wfG) Ic M) as U. lia.
  + simpl. apply In_set_add. now left.
  + intros x. unfold gen_seen. simpl. rewrite In_set_add. rewrite S. simpl.
    intuition (subst; auto).
Qed.

(** The second half: the iterator of the top is read. *)
Lemma round_read g current below :
gen_ok G g -> stack g = current :: below -> In current (visited_nodes g) ->
exists r g',
  match lookup current (edges g) with
  | None => Raise (KeyError current)
  | Some [] =>
      Ret (None, mkEdgeDfs (start_nodes g) below (visited_edges g) (visited_nodes g)
                           (edges g))
  | Some (edge :: rest) =>
      let edges' := dict_set current rest (edges g) in
      if pair_mem (edge_key edge) (visited_edges g) then
        Ret (None, mkEdgeDfs (start_nodes g) (stack g) (visited_edges g)
                             (visited_nodes g) edges')
      else
        Ret (Some edge,
             mkEdgeDfs (start_nodes g) (snd (tailhead edge) :: stack g)
                       (edge_key edge :: visited_edges g) (visited_nodes g) edges')
  end = Ret (r, g') /\
  gen_measure G g' < gen_measure G g /\ gen_ok G g' /\
  visited_nodes g' = visited_nodes g /\
  match r with
  | None =>
      visited_edges g' = visited_edges g /\
      (stack g' = stack g \/ stack g' = below) /\
      (forall x, gen_seen g' x <-> gen_seen g x)
  | Some e =>
      stack g' = head_of e :: stack g /\
      visited_edges g' = edge_key e :: visited_edges g /\
      ~ In (edge_key e) (visited_edges g) /\
      tail_of e = current /\ In e (incident G current) /\
      (forall n, In n (visited_nodes g) -> ~ In n (stack g) ->
                 forall e', In e' (incident G n) ->
                            In (edge_key e') (visited_edges g))
  end.
Proof.
intros Ok S V.
destruct (gen_iter G g Ok current V) as [read [rest0 [L [Inc Rd]]]]. rewrite L.
assert (Fin : forall n, In n (visited_nodes g) -> ~ In n (stack g) ->
                        forall e', In e' (incident G n) ->
                                   In (edge_key e') (visited_edges g)).
{ intros n I N e' Ie.
  destruct (gen_iter G g Ok n I) as [rd [rs [Ln [In' Rn]]]].
  rewrite (gen_finished G g Ok n I N) in Ln. inversion Ln; subst rs.
  rewrite app_nil_r in In'. subst rd. now apply Rn. }
destruct rest0 as [|e rest].
- (* the iterator is used up: pop *)
  eexists. eexists. split; [reflexivity|].
  split; [unfold gen_measure; simpl; rewrite S; simpl; lia|].
  split; [|split; [reflexivity|]].
  + constructor; simpl.
    * apply (gen_starts G g Ok).
    * intros x I. apply (gen_stack_nodes G g Ok). rewrite S. now right.
    * apply (gen_visited_nodes G g Ok).
    * intros top bl E x I. apply (gen_below G g Ok current below S).
      rewrite E. now right.
    * apply (gen_iter G g Ok).
    * apply (gen_keys G g Ok).
    * intros n I N. destruct (String.eqb_spec n current) as [->|Nc]; [exact L|].
      apply (gen_finished G g Ok n I). rewrite S. intros [E|J]; [now elim Nc | contradiction].
    * intros u v I. destruct (gen_edges G g Ok u v I) as [E [Su Sv]].
      split; [exact E|].
      rewrite (gen_seen_top g current below u S V) in Su.
      rewrite (gen_seen_top g current below v S V) in Sv.
      unfold gen_seen. simpl. tauto.
  + split; [reflexivity|]. split; [now right|].
    intros x. rewrite (gen_seen_top g current below x S V). unfold gen_seen. simpl. tauto.
- (* an edge is read *)
  cbv zeta.
  assert (Ie : In e (incident G current)).
  { rewrite Inc. apply in_or_app. right. now left. }
  destruct (incident_spec current e Ie) as [Te [Ee [He Ends]]].
  pose proof (iterators_left_read current e rest (edges g) L) as It.
  assert (Iter' : forall ve',
             (forall k, In k (visited_edges g) -> In k ve') -> In (edge_key e) ve' ->
             forall n, In n (visited_nodes g) ->
             exists rd rs,
               lookup n (dict_set current rest (edges g)) = Some rs /\
               incident G n = rd ++ rs /\
               forall e', In e' rd -> In (edge_key e') ve').
  { intros ve' Sub Ik n I. rewrite lookup_dict_set.
    destruct (String.eqb_spec n current) as [->|Nc].
    - exists (read ++ [e]), rest. split; [reflexivity|].
      split; [now rewrite <- app_assoc|].
      intros e' J. apply in_app_iff in J. destruct J as [J|[<-|[]]]; [|exact Ik].
      apply Sub. now apply Rd.
    - destruct (gen_iter G g Ok n I) as [rd [rs [Ln [In' Rn]]]].
      exists rd, rs. repeat split; auto. }
  assert (Keys' : forall n, In n (keys (dict_set current rest (edges g))) ->
                            In n (visited_nodes g)).
  { intros n I. apply In_keys_dict_set in I.
    destruct I as [->|I]; [exact V | now apply (gen_keys G g Ok)]. }
  destruct (pair_mem (edge_key e) (visited_edges g)) eqn:Pm.
  + (* already visited: skipped *)
    apply pair_mem_In in Pm.
    eexists. eexists. split; [reflexivity|].
    split; [unfold gen_measure; simpl; lia|].
    split; [|split; [reflexivity|]].
    * constructor; simpl.
      -- apply (gen_starts G g Ok).
      -- apply (gen_stack_nodes G g Ok).
      -- apply (gen_visited_nodes G g Ok).
      -- apply (gen_below G g Ok).
      -- apply Iter'; auto.
      -- exact Keys'.
      -- intros n I N. rewrite lookup_dict_set.
         destruct (String.eqb_spec n current) as [->|Nc];
           [elim N; rewrite S; now left|].
         now apply (gen_finished G g Ok).
      -- apply (gen_edges G g Ok).
    * split; [reflexivity|]. split; [now left|]. intros x. reflexivity.
  + (* a new edge: yielded *)
    apply pair_mem_false in Pm.
    eexists. eexists. split; [reflexivity|].
    split; [unfold gen_measure; simpl; lia|].
    split; [|split; [reflexivity|]].
    * constructor; simpl.
      -- apply (gen_starts G g Ok).
      -- intros x [<-|I]; [exact He | now apply (gen_stack_nodes G g Ok)].
      -- apply (gen_visited_nodes G g Ok).
      -- intros top bl E x I. inversion E; subst top bl. rewrite S in I.
         destruct I as [<-|I]; [exact V|]. exact (gen_below G g Ok current below S x I).
      -- apply (Iter' (edge_key e :: visited_edges g));
           [intros k I; now right | now left].
      -- exact Keys'.
      -- intros n I N. rewrite lookup_dict_set.
         destruct (String.eqb_spec n current) as [->|Nc];
           [elim N; right; rewrite S; now left|].
         apply (gen_finished G g Ok n I). intros J. apply N. now right.
      -- intros u v [E|I].
         ++ assert (Sc : gen_seen
                           (mkEdgeDfs (start_nodes g) (snd (tailhead e) :: stack g)
                                      (edge_key e :: visited_edges g) (visited_nodes g)
                                      (dict_set current rest (edges g))) current)
              by (left; exact V).
            assert (Sh : gen_seen
                           (mkEdgeDfs (start_nodes g) (snd (tailhead e) :: stack g)
                                      (edge_key e :: visited_edges g) (visited_nodes g)
                                      (dict_set current rest (edges g))) (head_of e))
              by (right; now left).
            rewrite E in Ee, Ends. simpl in Ee, Ends. split; [exact Ee|].
            destruct Ends as [[-> ->]|[-> ->]]; auto.
         ++ destruct (gen_edges G g Ok u v I) as [E [Su Sv]].
            split; [exact E|]. unfold gen_seen in *. simpl. tauto.
    * repeat split; auto.
Qed.
Lemma finished_edges g n :
gen_ok G g -> In n (visited_nodes g) -> ~ In n (stack g) ->
forall e, In e (incident G n) -> In (edge_key e) (visited_edges g).
Proof.
intros Ok I N e Ie.
destruct (gen_iter G g Ok n I) as [rd [rs [Ln [In' Rn]]]].
rewrite (gen_finished G g Ok n I N) in Ln. inversion Ln; subst rs.
rewrite app_nil_r in In'. subst rd. now apply Rn.
Qed.

(** [next]: with fuel for the rounds left, the generator either ends,
  and then every edge at a node it has met is visited, or yields a new
  edge that leaves the node on top of what is left of the stack. *)
Lemma edge_dfs_next_spec fuel : forall g,
gen_ok G g -> gen_measure G g <= fuel ->
(edge_dfs_next fuel G g = Ret None /\
 forall n, gen_seen g n ->
           forall e, In e (incident G n) -> In (edge_key e) (visited_edges g)) \/
exists e g' junk stk,
  edge_dfs_next fuel G g = Ret (Some (e, g')) /\
  gen_ok G g' /\ gen_measure G g' < gen_measure G g /\
  stack g = junk ++ stk /\ stack g' = head_of e :: stk /\
  hd_error stk = Some (tail_of e) /\
  visited_edges g' = edge_key e :: visited_edges g /\
  ~ In (edge_key e) (visited_edges g) /\
  In e (incident G (tail_of e)) /\
  (forall x, In x (visited_nodes g') \/ In x stk <-> gen_seen g x) /\
  (forall x, In x stk -> In x (visited_nodes g')) /\
  (forall n, In n (visited_nodes g') -> ~ In n stk ->
             forall e', In e' (incident G n) -> In (edge_key e') (visited_edges g)).
Proof.
induction fuel as [|fuel IH]; intros g Ok B.
- (* no fuel: the stack is empty *)
  assert (S : stack g = []).
  { unfold gen_measure in B. destruct (stack g); [reflexivity | simpl in B; lia]. }
  left. simpl. rewrite S, (gen_starts G g Ok). split; [reflexivity|].
  intros n [I|I] e Ie; [|rewrite S in I; destruct I].
  apply (finished_edges g n Ok I); [now rewrite S | exact Ie].
- destruct (stack g) as [|current below] eqn:S.
  + left. simpl. rewrite S, (gen_starts G g Ok). split; [reflexivity|].
    intros n [I|I] e Ie; [|rewrite S in I; destruct I].
    apply (finished_edges g n Ok I); [now rewrite S | exact Ie].
  + destruct (round_visit g current below Ok S) as [g1 [E1 [Ok1 [S1 [V1 [M1 [I1 Se1]]]]]]].
    assert (S1' : stack g1 = current :: below) by congruence.
    destruct (round_read g1 current below Ok1 S1' I1)
      as [r [g2 [E2 [M2 [Ok2 [Vn2 R]]]]]].
    assert (Er : edge_dfs_round G current below g = Ret (r, g2)).
    { unfold edge_dfs_round. rewrite E1. exact E2. }
    simpl. rewrite S, Er. simpl.
    destruct r as [e|].
    * (* this round yields *)
      destruct R as [S2 [V2 [Nk [Te [Ie Fin]]]]].
      right. exists e, g2, [], (current :: below).
      split; [reflexivity|]. split; [exact Ok2|]. split; [lia|].
      split; [reflexivity|]. split; [now rewrite S2, S1'|].
      split; [simpl; now rewrite Te|]. split; [congruence|].
      split; [now rewrite <- V1|]. split; [now rewrite Te|]. split; [|split].
      -- intros x. rewrite Vn2, <- Se1. unfold gen_seen. now rewrite S1'.
      -- intros x [<-|I]; rewrite Vn2; [exact I1|].
         exact (gen_below G g1 Ok1 current below S1' x I).
      -- intros n I N. rewrite Vn2 in I. rewrite <- V1. apply Fin; [exact I|].
         now rewrite S1'.
    * (* this round yields nothing *)
      destruct R as [V2 [S2 Se2]].
      assert (B2 : gen_measure G g2 <= fuel) by lia.
      assert (Se : forall x, gen_seen g2 x <-> gen_seen g x).
      { intros x. now rewrite Se2, Se1. }
      assert (Ve : visited_edges g2 = visited_edges g) by congruence.
      destruct (IH g2 Ok2 B2)
        as [[En Fn]|(e & g' & junk & stk & En & Ok' & M' & Sj & S' & Hd & V' & Nk & Ie
                     & Sn & Sv & Fin)].
      -- left. split; [exact En|]. intros n I e Ie. rewrite <- Ve.
         apply (Fn n); [now apply Se | exact Ie].
      -- right.
         assert (J : exists junk0, current :: below = junk0 ++ stk).
         { destruct S2 as [S2|S2].
           - exists junk. now rewrite <- S1', <- S2.
           - exists (current :: junk). simpl. now rewrite <- S2, Sj. }
         destruct J as [junk0 J].
         exists e, g', junk0, stk.
         split; [exact En|]. split; [exact Ok'|]. split; [lia|].
         split; [exact J|]. split; [exact S'|]. split; [exact Hd|].
         split; [congruence|]. split; [now rewrite <- Ve|]. split; [exact Ie|].
         split; [|split; [exact Sv|]].
         ++ intros x. now rewrite Sn, Se.
         ++ intros n I N e' Ie'. rewrite <- Ve. now apply (Fin n).
Qed.
End EdgeDfs.

(* ================================================================== *)
(** ** [find_cycle] *)

Lemma leads_app a l1 b l2 c : leads a l1 b -> leads b l2 c -> leads a (l1 ++ l2) c.
Proof.
  revert a. induction l1 as [|e l1 IH]; intros a H1 H2; simpl in *.
  - now subst.
  - destruct H1 as [T H1]. split; [exact T | now apply IH].
Qed.

Lemma chained_leads s path :
  chained s path -> leads s (rev path) (hd s (map head_of path)).
Proof.
  induction path as [|e rest IH]; intros C; simpl; [reflexivity|].
  destruct C as [T C]. apply leads_app with (b := hd s (map head_of rest)).
  - now apply IH.
  - simpl. auto.
Qed.

Lemma chained_tails s path :
  chained s path -> map tail_of path = tl (map head_of path ++ [s]).
Proof.
  induction path as [|e rest IH]; intros C; simpl; [reflexivity|].
  destruct C as [T C]. rewrite T, (IH C).
  destruct (map head_of rest); reflexivity.
Qed.

Lemma chained_suffix s junk rest : chained s (junk ++ rest) -> chained s rest.
Proof.
  induction junk as [|e junk IH]; intros C; [exact C|].
  apply IH. now destruct C.
Qed.

(** [trim_cycle] keeps the part of the list from the first edge that
    starts at the final node. *)
Lemma trim_cycle_spec final l : forall a b,
  leads a l b -> In final (map tail_of l) ->
  exists pre, l = pre ++ trim_cycle final l /\ trim_cycle final l <> [] /\
              leads final (trim_cycle final l) b.
Proof.
  induction l as [|e l IH]; intros a b L I; [destruct I|].
  simpl in L. destruct L as [T L]. simpl.
  fold (tail_of e). destruct (String.eqb_spec (tail_of e) final) as [E|N].
  - exists []. split; [reflexivity|]. split; [discriminate|]. simpl. auto.
  - destruct I as [I|I]; [contradiction|].
    destruct l as [|e' l']; [destruct I|].
    destruct (IH _ _ L I) as [pre [E [Ne Ld]]].
    exists (e :: pre). split; [simpl; now f_equal|]. split; [exact Ne | exact Ld].
Qed.

Lemma split_map_app {A} (f : A -> string) s : forall junk l stk,
  map f l ++ [s] = junk ++ stk -> stk <> [] ->
  exists l1 l2, l = l1 ++ l2 /\ map f l1 = junk /\ map f l2 ++ [s] = stk.
Proof.
  induction junk as [|j junk IH]; intros l stk E N.
  - exists [], l. auto.
  - destruct l as [|a l]; simpl in E.
    + inversion E as [[E1 E2]]. destruct junk; simpl in E2; [|discriminate].
      now elim N.
    + inversion E as [[E1 E2]]. destruct (IH l stk E2 N) as [l1 [l2 [El [Ej Es]]]].
      exists (a :: l1), l2. simpl. repeat split; congruence.
Qed.

Lemma In_remove_iff x y l : In x (remove string_dec y l) <-> In x l /\ x <> y.
Proof.
  split.
  - apply in_remove.
  - intros [I N]. now apply in_in_remove.
Qed.

(** Popping the path brings it back to the stack of the generator. *)
Lemma backtrack_spec s tail rest_e : forall junk_e active,
  NoDup (map head_of (junk_e ++ rest_e) ++ [s]) ->
  junk_e <> [] ->
  hd_error (map head_of rest_e ++ [s]) = Some tail ->
  (forall x, In x active <-> In x (map head_of (junk_e ++ rest_e) ++ [s])) ->
  exists active',
    backtrack tail (junk_e ++ rest_e) active = Ret (rest_e, active') /\
    forall x, In x active' <-> In x (map head_of rest_e ++ [s]).
Proof.
  induction junk_e as [|p junk IH]; intros active ND NE Hd A; [now elim NE|].
  simpl. fold (head_of p).
  simpl in ND. inversion ND as [|? ? Np ND']; subst.
  assert (Ip : In (head_of p) active) by (apply A; now left).
  apply mem_In in Ip. rewrite Ip.
  assert (A' : forall x, In x (remove string_dec (head_of p) active) <->
                         In x (map head_of (junk ++ rest_e) ++ [s])).
  { intros x. rewrite In_remove_iff, A. simpl. split.
    - intros [[E|I] N]; [now elim N | exact I].
    - intros I. split; [now right|]. intros ->. contradiction. }
  destruct junk as [|q junk].
  - simpl in *. destruct rest_e as [|last rest].
    + simpl. simpl in Hd. inversion Hd; subst tail.
      exists [s]. split; [reflexivity|]. reflexivity.
    + fold (head_of last). simpl in Hd. inversion Hd; subst tail.
      rewrite String.eqb_refl. eexists. split; [reflexivity | exact A'].
  - change ((q :: junk) ++ rest_e) with (q :: junk ++ rest_e).
    cbv iota. fold (head_of q).
    assert (Nq : tail <> head_of q).
    { intros E. simpl in ND'. inversion ND' as [|? ? Nq _]; subst.
      apply Nq. rewrite map_app, <- app_assoc. apply in_or_app. right.
      destruct (map head_of rest_e ++ [s]) as [|h t]; [discriminate|].
      inversion Hd; subst. now left. }
    apply String.eqb_neq in Nq. rewrite Nq.
    apply (IH _ ND'); [discriminate | exact Hd | exact A'].
Qed.

Lemma clos_trans_first {A} (R : relation A) a b :
  clos_trans A R a b -> exists c, R a c.
Proof. intros C. induction C as [a b S|a b c _ IH _ _]; eauto. Qed.

Lemma clos_trans_last {A} (R : relation A) a b :
  clos_trans A R a b -> exists c, R c b.
Proof. intros C. induction C as [a b S|a b c _ _ _ IH]; eauto. Qed.

(** A new edge to a node that no edge touches yet closes no cycle. *)
Lemma acyclic_add_fresh ve u v x :
  (forall w, ~ clos_trans string (joined ve) w w) ->
  (forall a b, In (a, b) ve -> a <> x /\ b <> x) ->
  u <> v -> (u = x \/ v = x) ->
  forall w, ~ clos_trans string (joined ((u, v) :: ve)) w w.
Proof.
  intros Ac Fr Ne [Eu|Ev] w C.
  - (* [x = u] has no edge coming in *)
    subst u.
    assert (Src : forall a, ~ joined ((x, v) :: ve) a x).
    { intros a [E|I]; [inversion E; subst; now elim Ne|].
      now destruct (Fr a x I). }
    assert (P : forall a b, clos_trans string (joined ((x, v) :: ve)) a b ->
                            a <> x -> clos_trans string (joined ve) a b).
    { intros a b T. apply clos_trans_t1n in T.
      induction T as [a b S|a c b S T IH]; intros Na.
      - destruct S as [E|I]; [inversion E; subst; now elim Na|]. now apply t_step.
      - destruct S as [E|I]; [inversion E; subst; now elim Na|].
        apply t_trans with (y := c); [now apply t_step|].
        apply IH. intros ->. exact (Src a (or_intror I)). }
    destruct (string_dec w x) as [->|Nw].
    + destruct (clos_trans_last _ _ _ C) as [c S]. exact (Src c S).
    + exact (Ac w (P w w C Nw)).
  - (* [x = v] has no edge going out *)
    subst v.
    assert (Snk : forall b, ~ joined ((u, x) :: ve) x b).
    { intros b [E|I]; [inversion E; subst; now elim Ne|].
      now destruct (Fr x b I). }
    assert (P : forall a b, clos_trans string (joined ((u, x) :: ve)) a b ->
                            b <> x -> clos_trans string (joined ve) a b).
    { intros a b T. apply clos_trans_tn1 in T.
      induction T as [b S|b c S T IH]; intros Nb.
      - destruct S as [E|I]; [inversion E; subst; now elim Nb|]. now apply t_step.
      - destruct S as [E|I]; [inversion E; subst; now elim Nb|].
        apply t_trans with (y := b); [|now apply t_step].
        apply IH. intros ->. exact (Snk c (or_intror I)). }
    destruct (string_dec w x) as [->|Nw].
    + destruct (clos_trans_first _ _ _ C) as [c S]. exact (Snk c S).
    + exact (Ac w (P w w C Nw)).
Qed.

Section FindCycle.
Variable G : DiGraph.
Hypothesis wfG : wf_ok G.
Hypothesis mirG : mirrored G.

Section OneStart.
Variable s : string.
Variable explored : list string.
Hypothesis explored_closed : forall u v, edge G u v -> (In u explored <-> In v explored).

(** The body of the loop on the edge that the generator yields: it finds
a loop, or goes on with the path brought back to the stack. *)
Lemma examine_spec g c e g' junk stk :
search_ok G s explored g c ->
gen_ok G g' ->
stack g = junk ++ stk -> stack g' = head_of e :: stk ->
hd_error stk = Some (tail_of e) ->
visited_edges g' = edge_key e :: visited_edges g ->
~ In (edge_key e) (visited_edges g) ->
In e (incident G (tail_of e)) ->
(forall x, In x (visited_nodes g') \/ In x stk <-> gen_seen g x) ->
(forall n, In n (visited_nodes g') -> ~ In n stk ->
         forall e', In e' (incident G n) -> In (edge_key e') (visited_edges g)) ->
(exists cycle final,
  examine explored e c = Ret (Looped cycle final) /\
  loop_ignoring_direction G (trim_cycle final cycle)) \/
(exists c', examine explored e c = Ret (Continue c') /\ search_ok G s explored g' c').
Proof.
intros [Okg St Ch ND Act Seen Prev PK PN Acy Fr] Ok' Sj S' Hd V' Nk Ie Sn Fin.
assert (Ns : stk <> []) by (intros ->; discriminate).
assert (Sp : map head_of (path c) ++ [s] = junk ++ stk) by congruence.
destruct (split_map_app head_of s junk (path c) stk Sp Ns) as [junk_e [rest_e [Ep [Ej Es]]]].
assert (Its : In (tail_of e) stk).
{ destruct stk as [|h t]; [discriminate|]. inversion Hd. now left. }
assert (F1 : NoDup stk).
{ rewrite Sj in ND. now apply NoDup_app_remove_l in ND. }
assert (F2 : chained s rest_e).
{ rewrite Ep in Ch. now apply chained_suffix in Ch. }
assert (F3 : tail_of e = hd s (map head_of rest_e)).
{ rewrite <- Es in Hd. destruct (map head_of rest_e); simpl in *; congruence. }
assert (F4 : chained s (e :: rest_e)) by (split; assumption).
assert (F5 : map tail_of (e :: rest_e) = stk).
{ rewrite (chained_tails s _ F4). simpl. exact Es. }
assert (F6 : forall e0, In e0 rest_e -> In (edge_key e0) (visited_edges g)).
{ intros e0 I. apply PK. rewrite Ep. apply in_or_app. now right. }
assert (F7 : NoDup (map edge_key (e :: rest_e))).
{ simpl. constructor.
- intros I. apply in_map_iff in I. destruct I as [e0 [E I]].
  apply Nk. rewrite <- E. now apply F6.
- rewrite Ep, map_app in PN. now apply NoDup_app_remove_l in PN. }
assert (F8 : forall u v d, In (u, v, d) (e :: rest_e) -> edge G u v).
{ intros u v d [E|I].
- destruct (incident_spec G wfG mirG _ _ Ie) as [_ [Ee _]].
  rewrite E in Ee. exact Ee.
- apply F6 in I. now apply (gen_edges G g Okg u v). }
assert (PA : exists act,
         match previous_node c with
         | Some previous =>
             if negb (String.eqb (fst (tailhead e)) previous)
             then backtrack (fst (tailhead e)) (path c) (active_nodes c)
             else Ret (path c, active_nodes c)
         | None => Ret (path c, active_nodes c)
         end = Ret (rest_e, act) /\
         forall x, In x act <-> In x stk).
{ fold (tail_of e). rewrite Prev. destruct junk_e as [|p junk_e].
- simpl in Ep, Ej. subst junk. simpl in Sj. subst rest_e.
  exists (active_nodes c). split; [|intros x; now rewrite Act, Sj].
  destruct (path c) as [|top rest]; [reflexivity|].
  simpl in F3. rewrite F3, String.eqb_refl. reflexivity.
- rewrite Ep. change ((p :: junk_e) ++ rest_e) with (p :: junk_e ++ rest_e).
  cbv iota.
  assert (Np : tail_of e <> head_of p).
  { intros E. rewrite Sj, <- Ej in ND. simpl in ND.
    inversion ND as [|? ? Nin _]; subst. apply Nin.
    apply in_or_app. right. now rewrite <- E. }
  apply String.eqb_neq in Np. rewrite Np. cbn [negb].
  change (p :: junk_e ++ rest_e) with ((p :: junk_e) ++ rest_e).
  destruct (backtrack_spec s (tail_of e) rest_e (p :: junk_e) (active_nodes c))
    as [act [Eb Ab]].
  + rewrite <- Ep, <- St. exact ND.
  + discriminate.
  + now rewrite Es.
  + intros x. now rewrite Act, St, Ep.
  + exists act. split; [exact Eb|]. intros x. now rewrite Ab, Es. }
destruct PA as [act [Epa Aact]].
unfold examine. rewrite Epa. cbn [obind fst snd].
fold (head_of e).
destruct (mem (head_of e) act) eqn:Ma.
- (* the edge comes back to the path *)
apply mem_In in Ma. apply Aact in Ma.
left. exists (rev (e :: rest_e)), (head_of e). split; [reflexivity|].
pose proof (chained_leads s _ F4) as Ld. cbn [map hd] in Ld.
assert (If : In (head_of e) (map tail_of (rev (e :: rest_e)))).
{ rewrite map_rev, F5. now apply -> in_rev. }
destruct (trim_cycle_spec (head_of e) _ _ _ Ld If) as [pre [Ec [Nt Lt]]].
split; [exact Nt|]. split; [|split; [|split]].
+ intros u v d I. apply (F8 u v d).
  apply (proj2 (in_rev (e :: rest_e) (u, v, d))). rewrite Ec.
  apply in_or_app. now right.
+ now exists (head_of e).
+ apply NoDup_rev in F7. rewrite <- map_rev, Ec, map_app in F7.
  now apply NoDup_app_remove_l in F7.
+ assert (Nr : NoDup (map tail_of (rev (e :: rest_e)))).
  { rewrite map_rev, F5. now apply NoDup_rev. }
  rewrite Ec, map_app in Nr. now apply NoDup_app_remove_l in Nr.
- apply mem_false in Ma.
assert (Nstk : ~ In (head_of e) stk) by (intros I; apply Ma; now apply Aact).
assert (Fresh : ~ gen_seen g (head_of e)).
{ intros Sg. apply Sn in Sg. destruct Sg as [Iv|Is]; [|contradiction].
  destruct (incident_mirror G mirG _ _ Ie) as [e' [Ie' Ek]].
  apply Nk. rewrite <- Ek. exact (Fin _ Iv Nstk e' Ie'). }
destruct (incident_spec G wfG mirG _ _ Ie) as [_ [Ee [He Ends]]].
assert (Tseen : gen_seen g (tail_of e)) by (apply Sn; now right).
destruct (mem (head_of e) explored) eqn:Me.
+ (* an explored node cannot be met: no edge leaves the explored part *)
  exfalso. apply mem_In in Me.
  apply (Fr (tail_of e)); [now apply Seen|].
  pose proof (explored_closed _ _ Ee) as Cl.
  destruct Ends as [[E1 E2]|[E1 E2]]; rewrite E1, E2 in Cl; now apply Cl.
+ apply mem_false in Me.
  right. eexists. split; [reflexivity|].
  constructor; cbn [path seen_nodes active_nodes previous_node].
  * exact Ok'.
  * rewrite S'. simpl. now rewrite Es.
  * exact F4.
  * rewrite S'. now constructor.
  * intros x. rewrite In_set_add, Aact, S'. simpl. intuition.
  * intros x. rewrite In_set_add, Seen, <- Sn. unfold gen_seen. rewrite S'.
    simpl. intuition.
  * reflexivity.
  * intros e0 [<-|I]; rewrite V'; [now left | right; now apply F6].
  * exact F7.
  * rewrite V'. destruct (edge_key e) as [u v] eqn:K. simpl in Ends.
    apply acyclic_add_fresh with (x := head_of e).
    -- exact Acy.
    -- intros a b I. destruct (gen_edges G g Okg a b I) as [_ [Sa Sb]].
       split; intros ->; contradiction.
    -- destruct Ends as [[E1 E2]|[E1 E2]]; intros E; subst; apply Nstk; congruence.
    -- destruct Ends as [[E1 E2]|[E1 E2]]; auto.
  * intros x I. apply In_set_add in I. destruct I as [->|I]; [exact Me | now apply Fr].
Qed.

Lemma search_from_unfold fuel gen st :
search_from (S fuel) G explored gen st =
obind (edge_dfs_next (S fuel) G gen) (fun nx =>
match nx with
| None => Ret (None, seen_nodes st)
| Some (edge, gen') =>
  obind (examine explored edge st) (fun v =>
  match v with
  | Looped cycle final_node => Ret (Some (cycle, final_node), seen_nodes st)
  | Stopped => Ret (None, seen_nodes st)
  | Continue st' => search_from fuel G explored gen' st'
  end)
end).
Proof. reflexivity. Qed.

(** The search from one start node, given fuel for the generator: it
finds a loop, or ends having seen a part of the graph that no edge
leaves and that holds no cycle. [gX] is the state the generator is
read from, which is [g] or [g] before its first round. *)
Lemma search_from_spec fuel : forall gX g c fuelN,
search_ok G s explored g c ->
gen_measure G g < fuel -> gen_measure G g <= fuelN ->
edge_dfs_next fuel G gX = edge_dfs_next fuelN G g ->
(exists cycle final sn,
  search_from fuel G explored gX c = Ret (Some (cycle, final), sn) /\
  loop_ignoring_direction G (trim_cycle final cycle)) \/
(exists sn,
  search_from fuel G explored gX c = Ret (None, sn) /\
  In s sn /\
  (forall x, In x sn -> ~ In x explored) /\
  (forall u v, edge G u v -> (In u sn <-> In v sn)) /\
  (forall u, In u sn -> ~ on_cycle G u)).
Proof.
induction fuel as [|fuel IH]; intros gX g c fuelN SO B BN En; [lia|].
rewrite search_from_unfold, En.
pose proof (so_gen G s explored g c SO) as Okg.
destruct (edge_dfs_next_spec G wfG mirG fuelN g Okg BN)
as [[E Fn]|(e & g' & junk & stk & E & Ok' & M' & Sj & S' & Hd & V' & Nk & Ie
            & Sn & Sv & Fin)]; rewrite E; cbn [obind].
- (* the generator has ended *)
right. exists (seen_nodes c). split; [reflexivity|].
pose proof (so_seen G s explored g c SO) as Seen.
assert (Kv : forall u v, edge G u v -> gen_seen g u \/ gen_seen g v ->
                         In (u, v) (visited_edges g)).
{ intros u v Ed [Su|Sv].
  - exact (Fn u Su _ (incident_forward G u v Ed)).
  - exact (Fn v Sv _ (incident_reverse G mirG u v Ed)). }
assert (Cl : forall u v, edge G u v -> (In u (seen_nodes c) <-> In v (seen_nodes c))).
{ intros u v Ed. rewrite !Seen. split; intros I.
  - now apply (gen_edges G g Okg u v (Kv u v Ed (or_introl I))).
  - now apply (gen_edges G g Okg u v (Kv u v Ed (or_intror I))). }
split; [|split; [|split]].
+ apply Seen. right. rewrite (so_stack G s explored g c SO).
  apply in_or_app. right. now left.
+ apply (so_fresh G s explored g c SO).
+ exact Cl.
+ intros u I C.
  assert (P : forall a b, clos_trans string (edge G) a b -> In a (seen_nodes c) ->
                          clos_trans string (joined (visited_edges g)) a b /\
                          In b (seen_nodes c)).
  { intros a b T. induction T as [a b Ed|a m b _ IH1 _ IH2]; intros Ia.
    - split; [|now apply (Cl a b Ed)].
      apply t_step. apply (Kv a b Ed). left. now apply Seen.
    - destruct (IH1 Ia) as [T1 Im]. destruct (IH2 Im) as [T2 Ib].
      split; [now apply t_trans with (y := m) | exact Ib]. }
  destruct (P u u C I) as [T _].
  exact (so_acyclic G s explored g c SO u T).
- (* the generator yields an edge *)
destruct (examine_spec g c e g' junk stk SO Ok' Sj S' Hd V' Nk Ie Sn Fin)
  as [[cycle [final [Ex L]]]|[c' [Ex SO']]]; rewrite Ex; cbn [obind].
+ left. exists cycle, final, (seen_nodes c). split; [reflexivity | exact L].
+ apply (IH g' g' c' fuel SO'); [lia | lia | reflexivity].
Qed.
End OneStart.

Lemma In_fold_set_add x l explored :
In x (fold_right set_add explored l) <-> In x l \/ In x explored.
Proof.
induction l as [|y l IH]; simpl; [tauto|].
rewrite In_set_add, IH. intuition (subst; auto).
Qed.

(** The loop over the start nodes. *)
Lemma find_cycle_from_spec fuel : forall starts explored,
cycle_budget G <= fuel ->
explored_ok G explored ->
(forall x, In x starts -> In x (nodes G)) ->
(exists cycle final,
    find_cycle_from fuel G starts explored = Ret (cycle, final) /\
    loop_ignoring_direction G (trim_cycle final cycle)) \/
(find_cycle_from fuel G starts explored = Raise NetworkXNoCycle /\
 forall u, In u starts -> ~ on_cycle G u).
Proof.
intros starts. induction starts as [|start starts IH]; intros explored B [Cl Ac] Hn.
- right. split; [reflexivity | intros u []].
- simpl. destruct (mem start explored) eqn:Me.
  + apply mem_In in Me.
    destruct (IH explored B (conj Cl Ac) (fun x I => Hn x (or_intror I)))
      as [F|[E N]]; [now left|].
    right. split; [exact E|]. intros u [<-|I]; [now apply Ac | now apply N].
  + apply mem_false in Me.
    assert (Is : In start (nodes G)) by (apply Hn; now left).
    unfold edge_dfs. rewrite (nbunch_of_node G start Is). cbn [obind].
    set (g0 := mkEdgeDfs [] [start] [] [] []).
    set (c0 := mkSearch [] [start] [start] None).
    assert (SO : search_ok G start explored g0 c0).
    { constructor; simpl; auto.
      - constructor; simpl; try tauto.
        + intros x [<-|[]]. exact Is.
        + intros top below E x I. inversion E; subst. destruct I.
      - repeat constructor. intros [].
      - tauto.
      - intros x. unfold gen_seen. simpl. tauto.
      - constructor.
      - intros u C. destruct (clos_trans_first _ _ _ C) as [x []].
      - intros x [<-|[]]. exact Me. }
    assert (M0 : gen_measure G g0 = 2 * unvisited_degree G [] + 1).
    { unfold gen_measure, g0, iterators_left.
      cbn [visited_nodes edges stack map list_sum fold_right length]. lia. }
    unfold cycle_budget in B.
    destruct fuel as [|fuel]; [lia|].
    destruct (search_from_spec start explored Cl (S fuel)
                (mkEdgeDfs [start] [] [] [] []) g0 c0 fuel SO)
      as [[cycle [final [sn [E L]]]]|[sn [E [Isn [Fr [Cs As]]]]]];
      [lia | lia | reflexivity | |]; fold c0; rewrite E; cbn [obind fst snd].
    * left. exists cycle, final. split; [reflexivity | exact L].
    * assert (Ok' : explored_ok G (fold_right set_add explored sn)).
      { split.
        - intros u v Ed. rewrite !In_fold_set_add.
          pose proof (Cl u v Ed). pose proof (Cs u v Ed). tauto.
        - intros u I. apply In_fold_set_add in I.
          destruct I as [I|I]; [now apply As | now apply Ac]. }
      destruct (IH _ ltac:(unfold cycle_budget; lia) Ok'
                   (fun x I => Hn x (or_intror I)))
        as [F|[En N]]; [now left|].
      right. split; [exact En|]. intros u [<-|I]; [now apply As | now apply N].
Qed.

(** On a graph with a cycle, [find_cycle], given enough fuel, returns a
  loop of the graph when directions are ignored. *)
Lemma find_cycle_spec fuel :
(exists u, on_cycle G u) -> cycle_budget G <= fuel ->
exists l, find_cycle fuel G = Ret l /\ loop_ignoring_direction G l.
Proof.
intros [u C] B. unfold find_cycle.
destruct wfG as [_ [KS _]].
destruct (find_cycle_from_spec fuel (keys (succ G)) [] B)
  as [[cycle [final [E L]]]|[E N]].
- split; [intros u0 v0 _; simpl; tauto | intros u0 []].
- intros x I. now rewrite <- KS.
- rewrite E. simpl. eexists. split; [reflexivity | exact L].
- exfalso. apply (N u); [|exact C].
  destruct (clos_trans_first _ _ _ C) as [x [vs [L _]]].
  eapply lookup_In_keys; eassumption.
Qed.
End FindCycle.

(** *** More fuel changes no result *)





(* ================================================================== *)
(** ** [order_build] *)

Lemma wf_graph_ok g : wf_graph g = true -> graph_ok g.
Proof.
  intros wf. split.
  - destruct (wf_graph_spec g wf) as [_ [K _]]. intros n. now rewrite K.
  - intros u vs v. now apply wf_graph_closed.
Qed.

Lemma clos_trans_ext {A} (R R' : relation A) :
  (forall u v, R u v -> R' u v) ->
  forall x y, clos_trans A R x y -> clos_trans A R' x y.
Proof.
  intros H x y C. induction C as [x y S|x y z _ IH1 _ IH2].
  - apply t_step. now apply H.
  - now apply t_trans with (y := y).
Qed.

(** A numbering that decreases along the edges rules out cycles among any
    selection. *)
Lemma rank_ok_acyclic rank g sel :
  rank_ok rank g = true -> forall u, ~ clos_trans string (induced_edge g sel) u u.
Proof.
  intros H u C.
  assert (D : forall x y, clos_trans string (induced_edge g sel) x y -> rank y < rank x).
  { intros x y R. induction R as [x y [_ [_ E]]|x y z _ IH1 _ IH2]; [|lia].
    now apply (rank_ok_edge rank g x y H). }
  specialize (D u u C). lia.
Qed.

Lemma lookup_map_key {V} (f : string -> V) k hs :
  lookup k (map (fun u => (u, f u)) hs) = if mem k hs then Some (f k) else None.
Proof.
  induction hs as [|h hs IH]; simpl; [reflexivity|].
  destruct (String.eqb_spec k h); [subst; reflexivity | exact IH].
Qed.

Lemma keys_map_key {V} (f : string -> V) hs : keys (map (fun u => (u, f u)) hs) = hs.
Proof. unfold keys. rewrite map_map. simpl. apply map_id. Qed.

Lemma copy_nodes_ret g bunch : forall acc,
  (forall n, In n bunch -> In n (nodes g)) ->
  exists hnode, copy_nodes g bunch acc = Ret hnode /\
                forall k, In k (keys hnode) <-> In k (keys acc) \/ In k bunch.
Proof.
  induction bunch as [|n bunch IH]; intros acc H; simpl.
  - exists acc. split; [reflexivity | intros k; tauto].
  - destruct (In_keys_lookup n (node g) (H n (or_introl eq_refl))) as [a L]. rewrite L.
    destruct (IH (dict_set n a acc) (fun x I => H x (or_intror I))) as [h [E K]].
    exists h. split; [exact E|]. intros k. rewrite K, In_keys_dict_set.
    split; [intros [[->|I]|I] | intros [I|[->|I]]]; auto.
Qed.

Lemma copy_node_data_ret graph ns : forall acc,
  (forall n, In n ns -> In n (nodes graph) /\ In n (keys acc)) ->
  exists hnode, copy_node_data graph ns acc = Ret hnode /\ keys hnode = keys acc.
Proof.
  induction ns as [|n ns IH]; intros acc H; simpl.
  - exists acc. auto.
  - destruct (H n (or_introl eq_refl)) as [I1 I2].
    destruct (In_keys_lookup n (node graph) I1) as [a L]. rewrite L.
    assert (K : keys (dict_set n a acc) = keys acc).
    { rewrite keys_dict_set. apply mem_In in I2. now rewrite I2. }
    destruct (IH (dict_set n a acc)) as [h [E Kh]].
    + intros x I. rewrite K. apply H. now right.
    + exists h. split; [exact E | congruence].
Qed.

Lemma copy_nodes_nodup g bunch : forall acc hnode,
  NoDup (keys acc) -> copy_nodes g bunch acc = Ret hnode -> NoDup (keys hnode).
Proof.
  induction bunch as [|n bunch IH]; intros acc hnode ND H; simpl in H.
  - now inversion H; subst.
  - destruct (lookup n (node g)) as [a|]; [|discriminate].
    apply (IH _ _ (NoDup_keys_dict_set n a acc ND) H).
Qed.

(** The predecessor dictionary that [subgraph] fills: [u] is listed
    under [v] exactly when [v] is a kept successor of [u]. *)
Lemma pred_fold_inner u vs : forall acc,
  (forall v, In v vs -> In v (keys acc)) ->
  keys (fold_left (fun acc' v => adj_add v u acc') vs acc) = keys acc /\
  forall x y,
    (exists ws, lookup x (fold_left (fun acc' v => adj_add v u acc') vs acc) = Some ws /\
                In y ws) <->
    (exists ws, lookup x acc = Some ws /\ In y ws) \/ (In x vs /\ y = u).
Proof.
  induction vs as [|v vs IH]; intros acc H; simpl.
  - split; [reflexivity|]. intros x y. tauto.
  - assert (K : keys (adj_add v u acc) = keys acc) by apply keys_dict_adjust.
    destruct (IH (adj_add v u acc)) as [K' R].
    { intros w I. rewrite K. apply H. now right. }
    split; [congruence|]. intros x y. rewrite R.
    rewrite (lookup_adj_add_iff v u acc x y (H v (or_introl eq_refl))).
    intuition (subst; auto).
Qed.

Lemma pred_fold_outer (ks : string -> list string) us : forall acc,
  (forall u v, In u us -> In v (ks u) -> In v (keys acc)) ->
  keys (fold_left (fun acc u => fold_left (fun acc' v => adj_add v u acc') (ks u) acc)
                  us acc) = keys acc /\
  forall x y,
    (exists ws,
        lookup x (fold_left (fun acc u =>
                               fold_left (fun acc' v => adj_add v u acc') (ks u) acc)
                            us acc) = Some ws /\ In y ws) <->
    (exists ws, lookup x acc = Some ws /\ In y ws) \/ (In y us /\ In x (ks y)).
Proof.
  induction us as [|u us IH]; intros acc H; simpl.
  - split; [reflexivity|]. intros x y. tauto.
  - destruct (pred_fold_inner u (ks u) acc) as [K R].
    { intros v I. apply (H u v); [now left | exact I]. }
    destruct (IH (fold_left (fun acc' v => adj_add v u acc') (ks u) acc)) as [K' R'].
    { intros w v I J. rewrite K. apply (H w v); [now right | exact J]. }
    split; [congruence|]. intros x y. rewrite R', R. intuition (subst; auto).
Qed.

Section OrderBuild.
Variable graph : DiGraph.
Hypothesis wf : wf_graph graph = true.
Variable packages : option (list string).
Variable level : Z.
Variable filter_dirty : bool.

Local Abbreviation sel := (selected graph packages filter_dirty).

(** The temporary graph is the subgraph induced by the selection, with
    its two adjacency dictionaries telling the same edges, and
    [order_build] is [topological_sort] on it, then [find_cycle] when
    that fails. *)
Lemma order_build_unfold :
  exists tmp,
    graph_ok tmp /\
    (forall n, In n (nodes tmp) <-> In n sel /\ In n (nodes graph)) /\
    (forall u v, edge tmp u v <-> induced_edge graph sel u v) /\
    (forall fuel,
        order_build fuel graph packages level filter_dirty =
        match topological_sort fuel tmp true with
        | Ret order => Ret (tmp, order)
        | Raise NetworkXUnfeasible =>
            obind (find_cycle fuel tmp) (fun cycle =>
            Raise (ValueError ("Cycles detected in graph: " ++ repr_edges cycle)))
        | Raise e => Raise e
        | Timeout => Timeout
        end) /\
    wf_ok tmp /\ mirrored tmp.
Proof.
  destruct (wf_graph_ok graph wf) as [KG CG].
  assert (Hb : forall n, In n (nbunch_iter graph sel) -> In n (nodes graph)).
  { intros n I. apply filter_In in I. destruct I as [_ I]. apply KG. now apply mem_In. }
  destruct (copy_nodes_ret graph (nbunch_iter graph sel) [] Hb) as [hnode [Ec Kc]].
  pose proof (copy_nodes_nodup graph _ [] hnode (NoDup_nil _) Ec) as NDh.
  set (hs := keys hnode) in *.
  assert (Hs : forall n, In n hs <-> In n sel /\ In n (nodes graph)).
  { intros n. rewrite Kc. simpl. unfold nbunch_iter. rewrite filter_In.
    pose proof (KG n). pose proof (mem_In n (keys (succ graph))). tauto. }
  set (hsucc := map (fun u => (u, kept_successors graph hs u)) hs).
  set (hpred := fold_left
                  (fun acc u =>
                     fold_left (fun acc' v => adj_add v u acc')
                               (kept_successors graph hs u) acc)
                  hs (map (fun u => (u, @nil string)) hs)).
  assert (Es : subgraph graph sel = Ret (mkGraph hnode hsucc hpred)).
  { unfold subgraph. rewrite Ec. reflexivity. }
  destruct (copy_node_data_ret graph hs hnode) as [hnode' [Ed Kd]].
  { intros n I. split; [now apply Hs | exact I]. }
  set (tmp := mkGraph hnode' hsucc hpred).
  assert (Nt : nodes tmp = hs) by exact Kd.
  assert (Ks : forall u v, In v (kept_successors graph hs u) -> In v hs).
  { intros u v I. unfold kept_successors in I.
    destruct (lookup u (succ graph)); [|destruct I].
    apply filter_In in I. now apply mem_In. }
  assert (Et0 : forall u v, edge tmp u v <-> In u hs /\ In v (kept_successors graph hs u)).
  { intros u v. unfold edge. simpl. unfold hsucc. split.
    - intros [vs [L I]]. rewrite lookup_map_key in L.
      destruct (mem u hs) eqn:Mu; [|discriminate]. inversion L; subst vs.
      split; [now apply mem_In | exact I].
    - intros [Iu I]. exists (kept_successors graph hs u).
      rewrite lookup_map_key. apply mem_In in Iu. now rewrite Iu. }
  assert (Et : forall u v, edge tmp u v <-> In u hs /\ In v hs /\ edge graph u v).
  { intros u v. rewrite Et0. unfold kept_successors, edge. split.
    - intros [Iu I]. destruct (lookup u (succ graph)) as [vs0|] eqn:L0; [|destruct I].
      apply filter_In in I. destruct I as [I M].
      split; [exact Iu|]. split; [now apply mem_In|]. exists vs0. auto.
    - intros [Iu [Iv [vs0 [L0 I0]]]]. split; [exact Iu|]. rewrite L0.
      apply filter_In. split; [exact I0 | now apply mem_In]. }
  destruct (pred_fold_outer (kept_successors graph hs) hs
                            (map (fun u => (u, @nil string)) hs)) as [Kp Rp].
  { intros u v _ I. rewrite keys_map_key. now apply (Ks u). }
  fold hpred in Kp, Rp. rewrite keys_map_key in Kp.
  assert (Pt : forall u v, pred_edge tmp u v <-> In u hs /\ In v (kept_successors graph hs u)).
  { intros u v. unfold pred_edge. simpl. rewrite Rp. split.
    - intros [[ws [L I]]|H]; [|exact H]. rewrite lookup_map_key in L.
      destruct (mem v hs); [|discriminate]. inversion L; subst ws. destruct I.
    - intros H. now right. }
  exists tmp. split; [|split; [|split; [|split; [|split]]]].
  - split.
    + intros n. rewrite Nt. simpl. unfold hsucc. now rewrite keys_map_key.
    + intros u vs v L I. rewrite Nt.
      assert (E : edge tmp u v) by (exists vs; auto). now apply Et in E.
  - intros n. rewrite Nt. apply Hs.
  - intros u v. rewrite Et. unfold induced_edge. rewrite !Hs. split; [tauto|].
    intros [Iu [Iv E]]. repeat split; auto.
    + destruct E as [vs [L _]]. apply KG. eapply lookup_In_keys; eassumption.
    + destruct E as [vs [L I]]. eapply CG; eassumption.
  - intros fuel. unfold order_build. fold sel. rewrite Es. simpl.
    unfold nodes at 1. simpl. fold hs. rewrite Ed. reflexivity.
  - unfold wf_ok. rewrite Nt. simpl. split; [exact NDh|].
    split; [unfold hsucc; apply keys_map_key|]. split; [exact Kp|]. split.
    + intros u vs v L I. assert (E : edge tmp u v) by (exists vs; auto).
      now apply Et in E.
    + intros v ps u L I. assert (E : pred_edge tmp u v) by (exists ps; auto).
      now apply Pt in E.
  - intros u v. now rewrite Et0, Pt.
Qed.

(** C4. On a well-formed graph whose selected packages have no cycle
    among them, [order_build] returns, given enough fuel, an order
    without repetition that holds exactly the selected packages of the
    graph and puts each dependency before the package that needs it. *)
Theorem order_build_dependencies_first :
  (forall u, ~ clos_trans string (induced_edge graph sel) u u) ->
  exists fuel0,
    forall fuel, fuel0 <= fuel ->
    exists tmp order,
      order_build fuel graph packages level filter_dirty = Ret (tmp, order) /\
      NoDup order /\
      (forall n, In n order <-> In n sel /\ In n (nodes graph)) /\
      (forall p d, induced_edge graph sel p d -> precedes d p order).
Proof.
  intros Acyc. destruct order_build_unfold as [tmp [Ok [Nt [Et [U _]]]]].
  exists (dfs_budget tmp). intros fuel B.
  destruct (topological_sort_total tmp Ok fuel B) as [[ord [T Sub]]|[_ [u C]]].
  - exists tmp, ord. rewrite U, T. split; [reflexivity|].
    destruct (topological_sort_sound tmp fuel ord T) as [ND [A P]].
    split; [exact ND|]. split.
    + intros n. rewrite <- Nt. split; [apply Sub | apply A].
    + intros p d E. apply P; [|now apply Et].
      apply A, Nt. destruct E as [Ip [_ [vs [L _]]]]. split; [exact Ip|].
      apply (proj1 (wf_graph_ok graph wf)). eapply lookup_In_keys; eassumption.
  - exfalso. apply (Acyc u). revert C. apply clos_trans_ext. intros x y. apply Et.
Qed.


End OrderBuild.

(** The three recipes [a -> b -> c], all selected. *)
Lemma order_build_dependencies_first_witness :
  exists fuel0,
    forall fuel, fuel0 <= fuel ->
    exists tmp order,
      order_build fuel Examples.graph_abc (Some ["a"; "b"; "c"]) 0 true
      = Ret (tmp, order) /\
      NoDup order /\
      (forall n, In n order <->
                 In n (selected Examples.graph_abc (Some ["a"; "b"; "c"]) true) /\
                 In n (nodes Examples.graph_abc)) /\
      (forall p d,
          induced_edge Examples.graph_abc
                       (selected Examples.graph_abc (Some ["a"; "b"; "c"]) true) p d ->
          precedes d p order).
Proof.
  apply (order_build_dependencies_first Examples.graph_abc eq_refl
                                        (Some ["a"; "b"; "c"]) 0 true).
  apply (rank_ok_acyclic Examples.rank_abc). reflexivity.
Defined.

Example order_build_abc :
  option_map snd
    (match order_build 20 Examples.graph_abc (Some ["a"; "b"; "c"]) 0 true
     with Ret r => Some r | _ => None end)
  = Some ["c"; "b"; "a"].
Proof. vm_compute. reflexivity. Qed.


Example order_build_cycle_text :
  order_build 20 Examples.graph_cycle None 0 true
  = Raise (ValueError
             "Cycles detected in graph: [('a', 'b', 'forward'), ('b', 'a', 'forward')]").
Proof. vm_compute. reflexivity. Qed.

(* ------------------------------------------------------------------ *)
(** *** A loop that is no cycle *)









(* ================================================================== *)
(** ** Requirements to version dictionaries *)

Lemma split_ws_aux_nil s : forall cur,
  split_ws_aux s cur = [] <-> cur = [] /\ all_space s = true.
Proof.
  induction s as [|a s IH]; intros cur; simpl.
  - destruct cur; split; intros H; try discriminate; auto. now destruct H.
  - destruct (is_space a); simpl.
    + destruct cur.
      * rewrite IH. tauto.
      * split; [discriminate | intros [H _]; discriminate].
    + rewrite IH. split; [intros [H _]; discriminate | intros [_ H]; discriminate].
Qed.

Lemma split_ws_nil x : split_ws x = [] <-> all_space x = true.
Proof. unfold split_ws. rewrite split_ws_aux_nil. tauto. Qed.

Lemma deps_loop_step x deps d :
  split_ws x <> [] ->
  deps_loop (x :: deps) d = deps_loop deps (dict_set (first_token x) (version_part x) d).
Proof.
  intros H. simpl. unfold first_token, version_part.
  destruct (split_ws x) as [|a [|b [|c l]]]; [contradiction | | |]; reflexivity.
Qed.

Lemma deps_loop_blank x deps d : split_ws x = [] -> deps_loop (x :: deps) d = Raise IndexError.
Proof. intros H. simpl. now rewrite H. Qed.

(** The loop, from any dictionary built so far. *)
Lemma deps_loop_ret deps : forall d0,
  (forall x, In x deps -> split_ws x <> []) ->
  exists d,
    deps_loop deps d0 = Ret d /\
    (NoDup (keys d0) -> NoDup (keys d)) /\
    (forall k, In k (keys d) <-> In k (keys d0) \/ exists x, In x deps /\ first_token x = k) /\
    (forall k, (forall x, In x deps -> first_token x <> k) -> lookup k d = lookup k d0) /\
    (forall pre x post,
        deps = pre ++ x :: post ->
        (forall y, In y post -> first_token y <> first_token x) ->
        lookup (first_token x) d = Some (version_part x)).
Proof.
  induction deps as [|x deps IH]; intros d0 H.
  - exists d0. split; [reflexivity|]. split; [auto|]. split.
    + intros k. split; [auto | intros [I|[x [[] _]]]; exact I].
    + split; [reflexivity|]. intros [|? ?] x post E; discriminate.
  - rewrite deps_loop_step by (apply H; now left).
    destruct (IH (dict_set (first_token x) (version_part x) d0)
                 (fun y I => H y (or_intror I))) as [d [E [N [K [L P]]]]].
    exists d. split; [exact E|]. split; [|split; [|split]].
    + intros N0. apply N. now apply NoDup_keys_dict_set.
    + intros k. rewrite K, In_keys_dict_set. split.
      * intros [[->|I]|[y [I F]]]; [right; exists x; split; [now left | reflexivity]
                                   | now left | right; exists y; split; [now right | exact F]].
      * intros [I|[y [[<-|I] F]]]; [left; now right | left; left; now symmetry
                                   | right; exists y; auto].
    + intros k Hk. rewrite L by (intros y I; apply Hk; now right).
      rewrite lookup_dict_set. destruct (String.eqb_spec k (first_token x)); [|reflexivity].
      exfalso. apply (Hk x); [now left | now symmetry].
    + intros pre y post Ed Hp. destruct pre as [|z pre]; simpl in Ed; inversion Ed; subst.
      * rewrite L by exact Hp. rewrite lookup_dict_set. now rewrite String.eqb_refl.
      * eapply P; [reflexivity | exact Hp].
Qed.

Lemma deps_blank_raises deps :
  (exists x, In x deps /\ all_space x = true) ->
  _deps_to_version_dict deps = Raise IndexError.
Proof.
  unfold _deps_to_version_dict. generalize (@nil (string * string)).
  induction deps as [|y deps IH]; intros d [x [I A]]; [destruct I|].
  destruct (all_space y) eqn:Ay.
  - apply deps_loop_blank. now apply split_ws_nil.
  - rewrite deps_loop_step.
    + apply IH. destruct I as [<-|I]; [congruence | eauto].
    + intros S. apply split_ws_nil in S. congruence.
Qed.

(** The words of [split()] are not empty and hold no blank. *)
Lemma split_ws_aux_words s : forall cur w,
  (forall c, In c cur -> is_space c = false) ->
  In w (split_ws_aux s cur) ->
  w <> "" /\ forall c, In c (list_ascii_of_string w) -> is_space c = false.
Proof.
  assert (F : forall cur w,
             (forall c, In c cur -> is_space c = false) -> cur <> [] ->
             w = string_of_list_ascii (rev cur) ->
             w <> "" /\ forall c, In c (list_ascii_of_string w) -> is_space c = false).
  { intros cur w H N ->. split.
    - intros E. apply (f_equal list_ascii_of_string) in E.
      rewrite list_ascii_of_string_of_list_ascii in E. simpl in E.
      apply (f_equal (@rev ascii)) in E. rewrite rev_involutive in E. now elim N.
    - intros c I. rewrite list_ascii_of_string_of_list_ascii in I.
      apply in_rev in I. now apply H. }
  induction s as [|a s IH]; intros cur w H I; simpl in I.
  - destruct cur as [|c0 cur]; [destruct I|].
    destruct I as [<-|[]]. apply (F (c0 :: cur)); [exact H | discriminate | reflexivity].
  - destruct (is_space a) eqn:Sa.
    + destruct cur as [|c0 cur].
      * apply (IH [] w); [intros c [] | exact I].
      * destruct I as [<-|I].
        -- apply (F (c0 :: cur)); [exact H | discriminate | reflexivity].
        -- apply (IH [] w); [intros c [] | exact I].
    + apply (IH (a :: cur) w); [|exact I].
      intros c [<-|J]; [exact Sa | now apply H].
Qed.

Lemma split_ws_words x w :
  In w (split_ws x) ->
  w <> "" /\ forall c, In c (list_ascii_of_string w) -> is_space c = false.
Proof. apply split_ws_aux_words. intros c []. Qed.

(** X1. [_deps_to_version_dict] raises [IndexError] exactly when some
    requirement is empty or made only of characters that [isspace] takes
    as blank (among them U+001C..U+001F, U+0085 and U+00A0); nothing else
    can go wrong with it. *)
Theorem deps_to_version_dict_error (deps : list string) :
  (_deps_to_version_dict deps = Raise IndexError <->
   exists x, In x deps /\ all_space x = true) /\
  ((forall x, In x deps -> all_space x = false) <->
   exists d, _deps_to_version_dict deps = Ret d).
Proof.
  pose proof (deps_blank_raises deps) as B.
  assert (G : (forall x, In x deps -> all_space x = false) ->
              exists d, _deps_to_version_dict deps = Ret d).
  { intros H. destruct (deps_loop_ret deps []) as [d [E _]]; [|eauto].
    intros x I S. apply split_ws_nil in S. rewrite (H x I) in S. discriminate. }
  assert (D : (forall x, In x deps -> all_space x = false) \/
              exists x, In x deps /\ all_space x = true).
  { clear. induction deps as [|y deps [IH|[x [I A]]]].
    - left. intros x [].
    - destruct (all_space y) eqn:Ay.
      + right. exists y. split; [now left | exact Ay].
      + left. intros x [<-|I]; auto.
    - right. exists x. split; [now right | exact A]. }
  split; split.
  - intros E. destruct D as [H|H]; [|exact H].
    destruct (G H) as [d Ed]. congruence.
  - exact B.
  - exact G.
  - intros [d Ed] x I. destruct (all_space x) eqn:A; [|reflexivity].
    rewrite B in Ed by eauto. discriminate.
Qed.

(** X2. In the dictionary [_deps_to_version_dict] returns, each package
    is listed once; the packages are those the requirements name; and a
    package maps to the version of the last requirement that names it,
    where only a requirement of exactly two words carries a version. Words
    are what [split()] separates: any blank of [isspace] ends one. *)
Theorem deps_to_version_dict_lookup (deps : list string) (d : dict string) :
  _deps_to_version_dict deps = Ret d ->
  NoDup (keys d) /\
  (forall k, In k (keys d) <-> exists x, In x deps /\ first_token x = k) /\
  (forall pre x post,
      deps = pre ++ x :: post ->
      (forall y, In y post -> first_token y <> first_token x) ->
      lookup (first_token x) d = Some (version_part x)).
Proof.
  intros E.
  assert (H : forall x, In x deps -> split_ws x <> []).
  { intros x I S. apply split_ws_nil in S.
    rewrite (deps_blank_raises deps) in E by eauto. discriminate. }
  destruct (deps_loop_ret deps [] H) as [d' [E' [N [K [_ P]]]]].
  unfold _deps_to_version_dict in E. rewrite E' in E. inversion E; subst d'.
  split; [apply N; constructor|]. split; [|exact P].
  intros k. rewrite K. simpl. tauto.
Qed.

Lemma deps_to_version_dict_lookup_witness :
  NoDup (keys Requirements.versions) /\
  (forall k, In k (keys Requirements.versions) <->
             exists x, In x Requirements.listed /\ first_token x = k) /\
  (forall pre x post,
      Requirements.listed = pre ++ x :: post ->
      (forall y, In y post -> first_token y <> first_token x) ->
      lookup (first_token x) Requirements.versions = Some (version_part x)).
Proof.
  apply (deps_to_version_dict_lookup Requirements.listed Requirements.versions).
  reflexivity.
Defined.

(** A requirement that is one unit separator is blank, and a no-break
    space separates a package from its version. *)
Example deps_unit_separator :
  _deps_to_version_dict [String (ascii_of_nat 31) ""] = Raise IndexError.
Proof. reflexivity. Qed.

Example deps_no_break_space :
  _deps_to_version_dict [("numpy" ++ String (ascii_of_nat 160) "1.11")%string]
  = Ret [("numpy", "1.11")].
Proof. reflexivity. Qed.

(* ================================================================== *)
(** ** What [construct_graph] builds *)

Lemma for_each_ret_inv {A} (body : A -> M unit) l1 x l2 : forall g g',
  for_each (l1 ++ x :: l2) body g = (Ret tt, g') ->
  exists g1 g2,
    for_each l1 body g = (Ret tt, g1) /\ body x g1 = (Ret tt, g2) /\
    for_each l2 body g2 = (Ret tt, g').
Proof.
  induction l1 as [|y l1 IH]; intros g g' H; simpl in H.
  - unfold bind in H. destruct (body x g) as [[[]|e|] g2] eqn:E; try discriminate.
    exists g, g2. auto.
  - unfold bind in H. destruct (body y g) as [[[]|e|] gy] eqn:E; try discriminate.
    destruct (IH gy g' H) as [g1 [g2 [H1 [H2 H3]]]].
    exists g1, g2. split; [|auto]. simpl. unfold bind. now rewrite E.
Qed.

Lemma preserves_for_each_In (R : DiGraph -> DiGraph -> Prop) {A} (xs : list A)
      (body : A -> M unit) :
  (forall g, R g g) -> (forall g1 g2 g3, R g1 g2 -> R g2 g3 -> R g1 g3) ->
  (forall x, In x xs -> preserves R (body x)) -> preserves R (for_each xs body).
Proof.
  intros Rr Rt. induction xs as [|x xs IH]; intros H; simpl.
  - now apply preserves_ret.
  - apply preserves_bind; [exact Rt | apply H; now left |].
    intros _. apply IH. intros y I. apply H. now right.
Qed.

Section ConstructBody.
Variable getcwd : string.
Variable git_diff_tree : string -> string -> list string.
Variable find_recipe : string -> bool.
Variable listdir : string -> list string.
Variable isdir : string -> bool.
Variable normpath : string -> string.
Variable render : string -> string -> Z -> Pkg.

(** [construct_graph] is the loop over the recipe directories, run from
    the empty graph, once the root directory is known to exist. *)
Lemma construct_graph_ret directory platform bits folders deps_type git_rev stop_rev g :
  construct_graph getcwd git_diff_tree find_recipe listdir isdir normpath render
                  directory platform bits folders deps_type git_rev stop_rev = Ret g ->
  isdir (abs_directory getcwd normpath directory) = true /\
  for_each (recipe_dirs_of find_recipe listdir isdir
                           (abs_directory getcwd normpath directory))
           (add_recipe render (abs_directory getcwd normpath directory) platform bits
                       (changed_folders getcwd git_diff_tree find_recipe
                                        (abs_directory getcwd normpath directory)
                                        folders git_rev stop_rev)
                       deps_type)
           empty_graph = (Ret tt, g).
Proof.
  unfold construct_graph, construct_graph_body.
  fold (abs_directory getcwd normpath directory).
  destruct (isdir (abs_directory getcwd normpath directory)); simpl; [|discriminate].
  fold (recipe_dirs_of find_recipe listdir isdir (abs_directory getcwd normpath directory)).
  fold (changed_folders getcwd git_diff_tree find_recipe
                        (abs_directory getcwd normpath directory) folders git_rev stop_rev).
  intros H. split; [reflexivity|].
  destruct (for_each _ _ empty_graph) as [[[]|e|] g1]; try discriminate.
  now inversion H.
Qed.
End ConstructBody.

Lemma bind_ret_inv {A B} (m : M A) (k : A -> M B) g b g' :
  bind m k g = (Ret b, g') -> exists a g1, m g = (Ret a, g1) /\ k a g1 = (Ret b, g').
Proof.
  unfold bind. destruct (m g) as [[a|e|] g1]; try discriminate. eauto.
Qed.

Lemma edges_kept_refl g : edges_kept g g.
Proof. intros u v H. exact H. Qed.

Lemma edges_kept_trans g1 g2 g3 : edges_kept g1 g2 -> edges_kept g2 g3 -> edges_kept g1 g3.
Proof. intros H1 H2 u v E. auto. Qed.

Lemma edges_kept_new n g nd pd :
  ~ In n (keys (succ g)) -> edges_kept g (mkGraph nd (dict_set n [] (succ g)) pd).
Proof.
  intros H u v [vs [L I]]. exists vs. split; [|exact I]. simpl.
  rewrite lookup_dict_set. destruct (String.eqb_spec u n); [|exact L].
  subst u. exfalso. apply H. eapply lookup_In_keys; eassumption.
Qed.

Lemma edges_kept_same g nd pd : edges_kept g (mkGraph nd (succ g) pd).
Proof. intros u v H. exact H. Qed.

Lemma edges_kept_add_node n a g : edges_kept g (nx_add_node n a g).
Proof.
  unfold nx_add_node. destruct (mem n (keys (succ g))) eqn:E.
  - apply edges_kept_same.
  - apply edges_kept_new. now apply mem_false.
Qed.

Lemma edges_kept_bare g u :
  edges_kept g (if mem u (keys (succ g)) then g
                else mkGraph (dict_set u no_attrs (node g)) (dict_set u [] (succ g))
                             (dict_set u [] (pred g))).
Proof.
  destruct (mem u (keys (succ g))) eqn:E; [apply edges_kept_refl|].
  apply edges_kept_new. now apply mem_false.
Qed.

Lemma bare_has_key g u :
  In u (keys (succ (if mem u (keys (succ g)) then g
                    else mkGraph (dict_set u no_attrs (node g)) (dict_set u [] (succ g))
                                 (dict_set u [] (pred g))))).
Proof.
  destruct (mem u (keys (succ g))) eqn:E; [now apply mem_In|].
  simpl. apply In_keys_dict_set. now left.
Qed.

Lemma bare_keeps_key g u x :
  In x (keys (succ g)) ->
  In x (keys (succ (if mem u (keys (succ g)) then g
                    else mkGraph (dict_set u no_attrs (node g)) (dict_set u [] (succ g))
                                 (dict_set u [] (pred g))))).
Proof.
  intros I. destruct (mem u (keys (succ g))); [exact I|].
  simpl. apply In_keys_dict_set. now right.
Qed.

(** [add_edge] keeps the edges there are and adds the one asked for. *)
Lemma add_edge_edges u v g :
  edges_kept g (nx_add_edge u v g) /\ edge (nx_add_edge u v g) u v.
Proof.
  unfold nx_add_edge.
  set (g1 := if mem u (keys (succ g)) then g else _).
  set (g2 := if mem v (keys (succ g1)) then g1 else _).
  assert (K1 : edges_kept g g1) by apply edges_kept_bare.
  assert (K2 : edges_kept g1 g2) by apply edges_kept_bare.
  assert (Iu : In u (keys (succ g2))) by (apply bare_keeps_key, bare_has_key).
  split.
  - intros x y E. destruct (K2 x y (K1 x y E)) as [vs [L I]].
    unfold edge. simpl. rewrite lookup_adj_add, L. simpl.
    destruct (String.eqb x u); [|eauto].
    eexists. split; [reflexivity|]. destruct (mem v vs); [exact I|].
    apply in_app_iff. now left.
  - destruct (In_keys_lookup u (succ g2) Iu) as [vs L].
    unfold edge. simpl. rewrite lookup_adj_add, String.eqb_refl, L. simpl.
    eexists. split; [reflexivity|]. destruct (mem v vs) eqn:E; [now apply mem_In|].
    apply in_app_iff. right. now left.
Qed.

Lemma edges_kept_adjust_node f n : preserves edges_kept (adjust_node f n).
Proof.
  intros g. unfold adjust_node. destruct (lookup n (node g)); simpl.
  - apply edges_kept_same.
  - apply edges_kept_refl.
Qed.

Lemma edges_kept_modify f :
  (forall g, edges_kept g (f g)) -> preserves edges_kept (modify f).
Proof. intros H g. apply H. Qed.

Ltac edges_auto :=
  repeat match goal with
    | |- forall _, _ => intro
    | |- preserves _ (ret _) => apply preserves_ret; exact edges_kept_refl
    | |- preserves _ (raise _) => apply preserves_raise; exact edges_kept_refl
    | |- preserves _ get => apply preserves_get; exact edges_kept_refl
    | |- preserves _ (lift _) => apply preserves_lift; exact edges_kept_refl
    | |- preserves _ (adjust_node _ _) => apply edges_kept_adjust_node
    | |- preserves _ (modify (nx_add_node _ _)) =>
        apply edges_kept_modify; intro; apply edges_kept_add_node
    | |- preserves _ (modify (nx_add_edge _ _)) =>
        apply edges_kept_modify; intro; apply add_edge_edges
    | |- preserves _ (bind _ _) => apply preserves_bind; [exact edges_kept_trans | | ]
    end.

Lemma edges_kept_add_dependency name dv : preserves edges_kept (add_dependency name dv).
Proof.
  destruct dv as [dep version]. unfold add_dependency.
  apply preserves_bind; [exact edges_kept_trans | edges_auto |].
  intros g0. apply preserves_bind; [exact edges_kept_trans | | edges_auto].
  destruct (negb (mem dep (nodes g0))); edges_auto.
Qed.

Lemma add_dependency_edge name dep version g g' :
  add_dependency name (dep, version) g = (Ret tt, g') -> edge g' name dep.
Proof.
  unfold add_dependency. intros H.
  apply bind_ret_inv in H. destruct H as [g0 [g1 [_ H]]].
  apply bind_ret_inv in H. destruct H as [[] [g2 [_ H]]].
  apply bind_ret_inv in H. destruct H as [[] [g3 [_ H]]].
  unfold modify in H. inversion H. apply add_edge_edges.
Qed.

Lemma for_each_add_dependency_edges name deps : forall g g',
  for_each deps (add_dependency name) g = (Ret tt, g') ->
  forall dep, In dep (keys deps) -> edge g' name dep.
Proof.
  intros g g' H dep I. unfold keys in I. apply in_map_iff in I.
  destruct I as [[dep' version] [E I]]. simpl in E. subst dep'.
  apply in_split in I. destruct I as [l1 [l2 ->]].
  apply for_each_ret_inv in H. destruct H as [g1 [g2 [_ [H2 H3]]]].
  apply add_dependency_edge in H2.
  assert (P : preserves edges_kept (for_each l2 (add_dependency name))).
  { apply preserves_for_each;
      [exact edges_kept_refl | exact edges_kept_trans | apply edges_kept_add_dependency]. }
  specialize (P g2). rewrite H3 in P. now apply P.
Qed.

Section ConstructEdges.
Variable render : string -> string -> Z -> Pkg.

Lemma edges_kept_add_recipe directory platform bits folders deps_type rd :
  preserves edges_kept (add_recipe render directory platform bits folders deps_type rd).
Proof.
  unfold add_recipe.
  apply preserves_bind; [exact edges_kept_trans | |].
  - destruct (negb (pkg_skip _)); [|edges_auto].
    apply preserves_bind; [exact edges_kept_trans | edges_auto |].
    intros g0. apply preserves_bind; [exact edges_kept_trans | edges_auto |].
    intros m. destruct (negb (mem _ (nodes g0))); edges_auto.
  - intros _. apply preserves_bind; [exact edges_kept_trans | edges_auto |].
    intros deps. apply preserves_for_each;
      [exact edges_kept_refl | exact edges_kept_trans | apply edges_kept_add_dependency].
Qed.

(** A recipe that is processed without error has an edge to each of its
    selected dependencies, skipped or not. *)
Lemma add_recipe_edges directory platform bits folders deps_type rd g g' deps :
  add_recipe render directory platform bits folders deps_type rd g = (Ret tt, g') ->
  selected_deps deps_type (render (path_join directory rd) platform bits) = Ret deps ->
  forall dep, In dep (keys deps) ->
              edge g' (pkg_name (render (path_join directory rd) platform bits)) dep.
Proof.
  unfold add_recipe. intros H S.
  apply bind_ret_inv in H. destruct H as [[] [g1 [_ H]]].
  apply bind_ret_inv in H. destruct H as [deps' [g2 [L H]]].
  fold (selected_deps deps_type (render (path_join directory rd) platform bits)) in L.
  unfold lift in L. rewrite S in L. inversion L; subst deps' g2.
  now apply for_each_add_dependency_edges with (g := g1).
Qed.
End ConstructEdges.

(** X3. The graph [construct_graph] returns has an edge from the package
    of every recipe directory it visits to each dependency of the selected
    requirement set of that recipe, whether the recipe is skipped for the
    platform or not. *)
Theorem construct_graph_edges
        (getcwd : string) (git_diff_tree : string -> string -> list string)
        (find_recipe : string -> bool) (listdir : string -> list string)
        (isdir : string -> bool) (normpath : string -> string)
        (render : string -> string -> Z -> Pkg)
        (directory platform : string) (bits : Z) (folders : list string)
        (deps_type : Flag) (git_rev stop_rev : option string) (g : DiGraph) :
  construct_graph getcwd git_diff_tree find_recipe listdir isdir normpath render
                  directory platform bits folders deps_type git_rev stop_rev = Ret g ->
  forall rd deps dep,
    In rd (recipe_dirs_of find_recipe listdir isdir (abs_directory getcwd normpath directory)) ->
    selected_deps deps_type
                  (render (path_join (abs_directory getcwd normpath directory) rd)
                          platform bits) = Ret deps ->
    In dep (keys deps) ->
    edge g (pkg_name (render (path_join (abs_directory getcwd normpath directory) rd)
                             platform bits)) dep.
Proof.
  intros H rd deps dep I S Id.
  apply construct_graph_ret in H. destruct H as [_ H].
  apply in_split in I. destruct I as [l1 [l2 E]]. rewrite E in H.
  apply for_each_ret_inv in H. destruct H as [g1 [g2 [_ [H2 H3]]]].
  pose proof (add_recipe_edges render _ _ _ _ _ _ _ _ deps H2 S dep Id) as Ed.
  assert (P : preserves edges_kept
                (for_each l2 (add_recipe render (abs_directory getcwd normpath directory)
                                         platform bits
                                         (changed_folders getcwd git_diff_tree find_recipe
                                            (abs_directory getcwd normpath directory)
                                            folders git_rev stop_rev) deps_type))).
  { apply preserves_for_each;
      [exact edges_kept_refl | exact edges_kept_trans | intros x; apply edges_kept_add_recipe]. }
  specialize (P g2). rewrite H3 in P. now apply P.
Qed.

(** Of the three recipes [a -> b -> c], [b] needs [c]. *)
Lemma construct_graph_edges_witness : edge Examples.graph_abc "b" "c".
Proof.
  apply (construct_graph_edges "/" Examples.no_diff Examples.always
           (fun _ => ["a"; "b"; "c"]) Examples.always Examples.same Examples.render_abc
           "/r" "linux" 64 ["a"] Build None None Examples.graph_abc)
    with (rd := "b") (deps := [("c", "1.0")]).
  - vm_compute. reflexivity.
  - vm_compute. auto.
  - reflexivity.
  - now left.
Defined.

(* ------------------------------------------------------------------ *)
(** *** The node of a recipe *)

Lemma wf_ok_adj_keys g : wf_ok g -> adj_keys_ok g.
Proof. intros [_ [K _]] n. now rewrite K. Qed.

Lemma node_kept_refl name g : node_kept name g g.
Proof. intros K. split; [exact K | auto]. Qed.

Lemma node_kept_trans name g1 g2 g3 :
  node_kept name g1 g2 -> node_kept name g2 g3 -> node_kept name g1 g3.
Proof.
  intros H1 H2 K. destruct (H1 K) as [K2 A]. destruct (H2 K2) as [K3 B].
  split; [exact K3|]. intros I. destruct (A I) as [I2 [M1 [R1 [B1 T1]]]].
  destruct (B I2) as [I3 [M2 [R2 [B2 T2]]]]. repeat split; congruence.
Qed.

(** What changes nothing but install flags and new nodes keeps [name]. *)
Lemma node_kept_of_skip_frame name g g' : skip_frame g g' -> node_kept name g g'.
Proof.
  intros F K. destruct (F K) as [K' [A B]]. split; [exact K'|].
  intros I. destruct (B name I) as [I' Mt]. destruct (A name) as [Bt [Tt Rt]]. auto.
Qed.

Lemma node_kept_add_dependency name name' dv :
  preserves (node_kept name) (add_dependency name' dv).
Proof. intros g. apply node_kept_of_skip_frame, skip_frame_add_dependency. Qed.

(** Changing the attributes of another node. *)
Lemma node_kept_adjust_other name f n :
  n <> name -> preserves (node_kept name) (adjust_node f n).
Proof.
  intros Hn g. unfold adjust_node. destruct (lookup n (node g)); simpl;
    [|apply node_kept_refl].
  intros K. split.
  - intros x. unfold nodes. simpl. rewrite keys_dict_adjust. apply K.
  - intros I. unfold nodes. simpl. rewrite keys_dict_adjust. split; [exact I|].
    rewrite attrs_of_adjust. destruct (String.eqb_spec name n); [congruence | auto].
Qed.

Lemma node_kept_add_other name n a g :
  n <> name -> node_kept name g (nx_add_node n a g).
Proof.
  intros Hn K. unfold nx_add_node. destruct (mem n (keys (succ g))) eqn:E.
  - split.
    + intros x. unfold nodes. simpl. rewrite keys_dict_adjust. apply K.
    + intros I. unfold nodes. simpl. rewrite keys_dict_adjust. split; [exact I|].
      rewrite attrs_of_adjust. destruct (String.eqb_spec name n); [congruence | auto].
  - split.
    + intros x. unfold nodes. simpl. rewrite !In_keys_dict_set. specialize (K x).
      unfold nodes in K. tauto.
    + intros I. unfold nodes. simpl. rewrite In_keys_dict_set. split; [now right|].
      rewrite attrs_of_set. destruct (String.eqb_spec name n); [congruence | auto].
Qed.

Section RecipeNode.
Variable render : string -> string -> Z -> Pkg.
Variables (directory platform : string) (bits : Z) (folders : list string).
Variable deps_type : Flag.

Local Abbreviation pkg_of rd := (render (path_join directory rd) platform bits).

(** A recipe for another package leaves the node alone. *)
Lemma node_kept_add_recipe name rd :
  pkg_name (pkg_of rd) <> name ->
  preserves (node_kept name)
            (add_recipe render directory platform bits folders deps_type rd).
Proof.
  intros Hn. unfold add_recipe.
  apply preserves_bind; [apply node_kept_trans | |].
  - destruct (negb (pkg_skip _)); [|apply preserves_ret, node_kept_refl].
    apply preserves_bind; [apply node_kept_trans | apply preserves_get, node_kept_refl |].
    intros g0.
    apply preserves_bind; [apply node_kept_trans | apply preserves_lift, node_kept_refl |].
    intros m. destruct (negb (mem _ (nodes g0))).
    + intros g. now apply node_kept_add_other.
    + repeat (apply preserves_bind;
              [apply node_kept_trans | now apply node_kept_adjust_other | intros _]).
      now apply node_kept_adjust_other.
  - intros _.
    apply preserves_bind; [apply node_kept_trans | apply preserves_lift, node_kept_refl |].
    intros deps. apply preserves_for_each;
      [apply node_kept_refl | apply node_kept_trans | intros dv; apply node_kept_add_dependency].
Qed.

(** The recipe's own step leaves its node with the rendered metadata,
    the recipe directory and the flags of [run_dict]. *)
Lemma add_recipe_own rd g g' :
  adj_keys_ok g -> pkg_skip (pkg_of rd) = false ->
  add_recipe render directory platform bits folders deps_type rd g = (Ret tt, g') ->
  exists m,
    describe_meta (pkg_of rd) = Ret m /\
    adj_keys_ok g' /\
    In (pkg_name (pkg_of rd)) (nodes g') /\
    meta (attrs_of g' (pkg_name (pkg_of rd))) = Some m /\
    recipe (attrs_of g' (pkg_name (pkg_of rd))) = Some (path_join directory rd) /\
    build (attrs_of g' (pkg_name (pkg_of rd)))
    = build (run_dict_of (mem rd folders) deps_type) /\
    test (attrs_of g' (pkg_name (pkg_of rd)))
    = test (run_dict_of (mem rd folders) deps_type).
Proof.
  intros K Hs H. unfold add_recipe in H. rewrite Hs in H. cbn [negb] in H.
  set (name := pkg_name (pkg_of rd)) in *.
  set (rdict := run_dict_of (mem rd folders) deps_type) in *.
  assert (Rb : exists b t i, rdict = mkAttrs None None (Some b) (Some t) (Some i)).
  { unfold rdict, run_dict_of. destruct (mem rd folders), deps_type; simpl; eauto. }
  destruct Rb as [b [t [i Rb]]].
  apply bind_ret_inv in H. destruct H as [[] [g1 [H1 H]]].
  apply bind_ret_inv in H1. destruct H1 as [g0 [g0' [Hg H1]]].
  unfold get in Hg. inversion Hg; subst g0 g0'. clear Hg.
  apply bind_ret_inv in H1. destruct H1 as [m [gm [Hm H1]]].
  unfold lift in Hm. inversion Hm as [[Em Eg]]. subst gm.
  exists m. split; [exact Em|].
  assert (S1 : adj_keys_ok g1 /\ In name (nodes g1) /\
               meta (attrs_of g1 name) = Some m /\
               recipe (attrs_of g1 name) = Some (path_join directory rd) /\
               build (attrs_of g1 name) = build rdict /\
               test (attrs_of g1 name) = test rdict).
  { destruct (mem name (nodes g)) eqn:En; cbn [negb] in H1.
    - (* merge into the existing node *)
      apply mem_In in En.
      apply bind_ret_inv in H1. destruct H1 as [[] [ga [Ha H1]]].
      apply bind_ret_inv in H1. destruct H1 as [[] [gb [Hb Hc]]].
      destruct (In_keys_lookup name (node g) En) as [a0 L0].
      unfold adjust_node in Ha. rewrite L0 in Ha. inversion Ha; subst ga. clear Ha.
      unfold adjust_node in Hb. simpl in Hb. rewrite lookup_dict_adjust in Hb.
      rewrite String.eqb_refl, L0 in Hb. simpl in Hb. inversion Hb; subst gb. clear Hb.
      unfold adjust_node in Hc. simpl in Hc. rewrite !lookup_dict_adjust in Hc.
      rewrite String.eqb_refl, L0 in Hc. simpl in Hc. inversion Hc; subst g1. clear Hc.
      split; [|split].
      + intros x. unfold nodes. simpl. rewrite !keys_dict_adjust. apply K.
      + unfold nodes. simpl. now rewrite !keys_dict_adjust.
      + unfold attrs_of. simpl. rewrite !lookup_dict_adjust, String.eqb_refl, L0.
        simpl. rewrite Rb. simpl. auto.
    - (* a new node *)
      apply mem_false in En. unfold modify in H1. inversion H1; subst g1. clear H1.
      assert (Ns : ~ In name (keys (succ g))) by (intros I; apply En; now apply K).
      unfold nx_add_node. apply mem_false in Ns. rewrite Ns.
      split; [|split].
      + intros x. unfold nodes. simpl. rewrite !In_keys_dict_set. specialize (K x).
        unfold nodes in K. tauto.
      + unfold nodes. simpl. apply In_keys_dict_set. now left.
      + rewrite attrs_of_set, String.eqb_refl. rewrite Rb. simpl. auto. }
  destruct S1 as [K1 [I1 [M1 [R1 [B1 T1]]]]].
  apply bind_ret_inv in H. destruct H as [deps [g2 [Hl H]]].
  unfold lift in Hl. inversion Hl; subst g2. clear Hl.
  assert (P : preserves skip_frame (for_each deps (add_dependency name))).
  { apply preserves_for_each;
      [apply skip_frame_refl | apply skip_frame_trans | apply skip_frame_add_dependency]. }
  specialize (P g1). rewrite H in P. simpl in P. destruct (P K1) as [K' [A B]].
  destruct (B name I1) as [I' Mt]. destruct (A name) as [Bt [Tt Rt]].
  split; [exact K'|]. split; [exact I'|].
  split; [congruence|]. split; [congruence|]. split; congruence.
Qed.
End RecipeNode.

Lemma NoDup_map_later {A} (f : A -> string) l1 x l2 :
  NoDup (map f (l1 ++ x :: l2)) -> forall y, In y l2 -> f y <> f x.
Proof.
  rewrite map_app. simpl. intros N y I E.
  apply NoDup_remove_2 in N. apply N. apply in_app_iff. right.
  rewrite <- E. now apply in_map.
Qed.

Lemma run_dict_flag changed deps_type f :
  f <> Install ->
  get_flag f (run_dict_of changed deps_type) = Some (changed && flag_eqb deps_type f)%bool.
Proof.
  intros H. unfold run_dict_of. destruct changed, deps_type, f; simpl; congruence.
Qed.

(** X4. When the recipes visited produce packages of different names,
    the node of each recipe that is not skipped ends with the metadata
    [describe_meta] gives for it and with its recipe directory; its build
    flag, and its test flag, is [True] exactly when the directory is among
    the changed folders and [deps_type] is that flag, [False] otherwise. *)
Theorem construct_graph_recipe_node
        (getcwd : string) (git_diff_tree : string -> string -> list string)
        (find_recipe : string -> bool) (listdir : string -> list string)
        (isdir : string -> bool) (normpath : string -> string)
        (render : string -> string -> Z -> Pkg)
        (directory platform : string) (bits : Z) (folders : list string)
        (deps_type : Flag) (git_rev stop_rev : option string) (g : DiGraph) :
  construct_graph getcwd git_diff_tree find_recipe listdir isdir normpath render
                  directory platform bits folders deps_type git_rev stop_rev = Ret g ->
  NoDup (map (fun rd => pkg_name (render (path_join (abs_directory getcwd normpath directory)
                                                    rd) platform bits))
             (recipe_dirs_of find_recipe listdir isdir
                             (abs_directory getcwd normpath directory))) ->
  forall rd,
    In rd (recipe_dirs_of find_recipe listdir isdir (abs_directory getcwd normpath directory)) ->
    pkg_skip (render (path_join (abs_directory getcwd normpath directory) rd) platform bits)
    = false ->
    exists m,
      describe_meta (render (path_join (abs_directory getcwd normpath directory) rd)
                            platform bits) = Ret m /\
      In (pkg_name (render (path_join (abs_directory getcwd normpath directory) rd)
                           platform bits)) (nodes g) /\
      meta (attrs_of g (pkg_name (render (path_join (abs_directory getcwd normpath directory)
                                                    rd) platform bits))) = Some m /\
      recipe (attrs_of g (pkg_name (render (path_join (abs_directory getcwd normpath directory)
                                                      rd) platform bits)))
      = Some (path_join (abs_directory getcwd normpath directory) rd) /\
      forall f,
        f <> Install ->
        get_flag f (attrs_of g (pkg_name (render (path_join
                                                    (abs_directory getcwd normpath directory)
                                                    rd) platform bits)))
        = Some (mem rd (changed_folders getcwd git_diff_tree find_recipe
                                        (abs_directory getcwd normpath directory)
                                        folders git_rev stop_rev)
                && flag_eqb deps_type f)%bool.
Proof.
  intros H ND rd I Hs.
  set (dir := abs_directory getcwd normpath directory) in *.
  set (fs := changed_folders getcwd git_diff_tree find_recipe dir folders git_rev stop_rev).
  set (name := pkg_name (render (path_join dir rd) platform bits)).
  apply construct_graph_ret in H. destruct H as [_ H]. fold dir fs in H.
  apply in_split in I. destruct I as [l1 [l2 E]]. rewrite E in H, ND.
  apply for_each_ret_inv in H. destruct H as [g1 [g2 [H1 [H2 H3]]]].
  assert (W1 : wf_ok g1).
  { assert (P : preserves keeps_wf
                  (for_each l1 (add_recipe render dir platform bits fs deps_type))).
    { apply preserves_for_each;
        [exact keeps_wf_refl | exact keeps_wf_trans | intros x; apply keeps_wf_add_recipe]. }
    specialize (P empty_graph). rewrite H1 in P. apply P.
    apply wf_graph_wf_ok. reflexivity. }
  destruct (add_recipe_own render dir platform bits fs deps_type rd g1 g2
                           (wf_ok_adj_keys g1 W1) Hs H2)
    as [m [Em [K2 [I2 [M2 [R2 [B2 T2]]]]]]].
  fold name in I2, M2, R2, B2, T2.
  assert (P : preserves (node_kept name)
                (for_each l2 (add_recipe render dir platform bits fs deps_type))).
  { apply preserves_for_each_In; [apply node_kept_refl | apply node_kept_trans |].
    intros x Ix. apply node_kept_add_recipe.
    exact (NoDup_map_later _ l1 rd l2 ND x Ix). }
  specialize (P g2). rewrite H3 in P. simpl in P.
  destruct (P K2) as [_ Q]. destruct (Q I2) as [Ig [Mg [Rg [Bg Tg]]]].
  exists m. split; [exact Em|]. split; [exact Ig|].
  split; [congruence|]. split; [congruence|].
  intros f Hf. rewrite <- (run_dict_flag (mem rd fs) deps_type f Hf).
  destruct f; simpl; [congruence | congruence | contradiction].
Qed.

(** The three recipes [a -> b -> c] with [a] changed: the node of [b]. *)
Lemma construct_graph_recipe_node_witness :
  exists m,
    describe_meta (Examples.render_abc "/r/b" "linux" 64) = Ret m /\
    In "b" (nodes Examples.graph_abc) /\
    meta (attrs_of Examples.graph_abc "b") = Some m /\
    recipe (attrs_of Examples.graph_abc "b") = Some "/r/b" /\
    forall f, f <> Install ->
              get_flag f (attrs_of Examples.graph_abc "b")
              = Some (mem "b" ["a"] && flag_eqb Build f)%bool.
Proof.
  apply (fun H N I S =>
           construct_graph_recipe_node "/" Examples.no_diff Examples.always
             (fun _ => ["a"; "b"; "c"]) Examples.always Examples.same Examples.render_abc
             "/r" "linux" 64 ["a"] Build None None Examples.graph_abc H N "b" I S).
  - vm_compute. reflexivity.
  - vm_compute. repeat constructor; simpl; intuition discriminate.
  - vm_compute. auto.
  - reflexivity.
Defined.

(* ================================================================== *)
(** ** What Pass 1 leaves alone *)

Lemma option_bool_dec (a b : option bool) : a = b \/ a <> b.
Proof. destruct a as [[|]|], b as [[|]|]; auto; right; discriminate. Qed.

Lemma build_changes_refl Q g : build_changes_in Q g g.
Proof. intros x H. now elim H. Qed.

Lemma build_changes_trans Q g1 g2 g3 :
  build_changes_in Q g1 g2 -> build_changes_in Q g2 g3 -> build_changes_in Q g1 g3.
Proof.
  intros H1 H2 x H.
  destruct (option_bool_dec (build (attrs_of g2 x)) (build (attrs_of g1 x))) as [E|N].
  - apply H2. congruence.
  - now apply H1.
Qed.

Lemma build_changes_mark (Q : string -> Prop) f s g :
  Q s -> build_changes_in Q g (snd (mark f s g)).
Proof.
  intros q x. unfold mark. destruct (lookup s (node g)) eqn:L; simpl.
  - rewrite attrs_of_adjust. destruct (String.eqb x s) eqn:E.
    + apply String.eqb_eq in E. now subst x.
    + intros H. now elim H.
  - intros H. now elim H.
Qed.

Section UpstreamTouch.
Variable _installable : string -> string -> bool.
Variable _buildable : string -> string -> bool.
Variable g0 : DiGraph.

Local Abbreviation needs := (not_installable _installable).
Local Abbreviation can_build := (buildable _buildable).
Local Abbreviation check := (check_successors _installable _buildable).
Local Abbreviation loop := (upstream_loop _installable _buildable).

(** What Pass 1 may flag: a dependency of a reached node that cannot be
  installed and can be built. *)
Let wanted (x : string) : Prop :=
needs g0 x = true /\ can_build g0 x = true /\
exists p, reached _installable g0 (seeds g0) p /\ edge g0 p x.

Lemma check_successors_touch p ss : forall acc g1,
flags_frame Build g0 g1 ->
reached _installable g0 (seeds g0) p ->
(forall s, In s ss -> edge g0 p s) ->
build_changes_in wanted g1 (snd (check ss acc g1)).
Proof.
induction ss as [|s ss IH]; intros acc g1 F Rp E; simpl.
- apply build_changes_refl.
- unfold bind at 1. unfold node_attrs.
  destruct (lookup s (node g1)) as [a|] eqn:L; [|apply build_changes_refl].
  assert (V : version_of a = version_of (attrs_of g0 s)).
  { rewrite <- (flags_frame_version Build g0 g1 s F). unfold attrs_of. now rewrite L. }
  rewrite V.
  destruct (_installable s (version_of (attrs_of g0 s))) eqn:EI.
  { apply IH; auto. intros x I. apply E. now right. }
  destruct (_buildable s (version_of (attrs_of g0 s))) eqn:EB;
    [|apply build_changes_refl].
  unfold bind at 1.
  assert (W : wanted s).
  { split; [unfold not_installable; now rewrite EI|]. split; [exact EB|].
    exists p. split; [exact Rp | apply E; now left]. }
  pose proof (build_changes_mark wanted Build s g1 W) as T.
  pose proof (flags_frame_mark Build Build s (or_introl eq_refl) g1) as Fm.
  destruct (mark Build s g1) as [[[]|e|] gm]; simpl in *; try exact T.
  eapply build_changes_trans; [exact T|].
  apply IH; [eapply flags_frame_trans; eassumption | exact Rp |].
  intros x I. apply E. now right.
Qed.

Lemma upstream_loop_touch fuel : forall visited todo g1,
flags_frame Build g0 g1 ->
(forall n, In n todo -> reached _installable g0 (seeds g0) n) ->
build_changes_in wanted g1 (snd (loop fuel visited todo g1)).
Proof.
induction fuel as [|fuel IH]; intros visited [|n rest] g1 F T; simpl;
  try apply build_changes_refl.
unfold bind at 1. unfold successors.
destruct (lookup n (succ g1)) as [ss|] eqn:L; [|apply build_changes_refl].
assert (Ls : lookup n (succ g0) = Some ss).
{ destruct F as [S _]. now rewrite <- S. }
assert (Rn : reached _installable g0 (seeds g0) n) by (apply T; now left).
assert (E : forall s, In s ss -> edge g0 n s) by (intros s I; exists ss; auto).
pose proof (check_successors_touch n ss [] g1 F Rn E) as C.
pose proof (frame_check_successors _installable _buildable Build ss [] g1) as F1.
unfold bind at 1.
destruct (check ss [] g1) as [[appended|e|] g1'] eqn:Ec; simpl in *; try exact C.
destruct (check_successors_ret _installable _buildable g0 ss [] g1 appended g1' F Ec)
  as [A _].
simpl in A.
eapply build_changes_trans; [exact C|].
apply IH; [eapply flags_frame_trans; eassumption|].
intros x I. apply in_app_iff in I. destruct I as [I|I]; [apply T; now right|].
rewrite A in I. apply filter_In in I. destruct I as [I N].
eapply reached_step; [exact Rn | now apply E | exact N].
Qed.

Lemma upstream_touch fuel g' o :
upstream_dependencies_needing_build _installable _buildable fuel g0 = (o, g') ->
flags_frame Build g0 g' /\ build_changes_in wanted g0 g'.
Proof.
intros H. split.
- pose proof (frame_upstream _installable _buildable Build fuel g0) as P.
  now rewrite H in P.
- unfold upstream_dependencies_needing_build in H. unfold bind at 1 in H.
  unfold get at 1 in H. cbv beta iota in H. fold (seeds g0) in H.
  pose proof (upstream_loop_touch fuel [] (seeds g0) g0 (flags_frame_refl _ _)) as P.
  rewrite H in P. apply P. intros n I. now apply reached_start.
Qed.
End UpstreamTouch.

Lemma attrs_frame_build_only a a' :
  attrs_frame Build a a' -> a' <> a ->
  build a' <> build a /\ a' = set_flag Build true a.
Proof.
  intros [M [R F]] N.
  destruct (F Build) as [B|[_ B]], (F Test) as [T|[[T0|T0] _]],
           (F Install) as [J|[[J0|J0] _]]; try discriminate; simpl in *.
  - elim N. destruct a, a'; simpl in *; congruence.
  - split.
    + intros E. elim N. destruct a, a'; simpl in *; congruence.
    + destruct a, a'; simpl in *; congruence.
Qed.

(** X5. Whether it returns or fails, Pass 1 changes a node in one way
    only: it sets its [build] flag. It does so only to a node that the
    resolver cannot install at the recorded version, that can be built,
    and that is a dependency of a node the worklist reaches from the
    initially flagged ones. An installable package, and a package no
    flagged node leads to, is left exactly as it was. *)
Theorem upstream_flags_only_needed
        (_installable _buildable : string -> string -> bool)
        (fuel : nat) (g : DiGraph) (x : string) :
  attrs_of (snd (upstream_dependencies_needing_build _installable _buildable fuel g)) x
  <> attrs_of g x ->
  attrs_of (snd (upstream_dependencies_needing_build _installable _buildable fuel g)) x
  = set_flag Build true (attrs_of g x) /\
  not_installable _installable g x = true /\
  buildable _buildable g x = true /\
  exists p, reached _installable g (seeds g) p /\ edge g p x.
Proof.
  destruct (upstream_dependencies_needing_build _installable _buildable fuel g)
    as [o g'] eqn:H.
  simpl. intros N.
  destruct (upstream_touch _installable _buildable g fuel g' o H) as [F T].
  destruct (attrs_frame_build_only _ _ (flags_frame_attrs_of Build g g' x F) N) as [B E].
  split; [exact E|]. exact (T x B).
Qed.

(** With nothing installable, the change of [a] in [a -> b -> c] has
    [c] flagged. *)
Lemma upstream_flags_only_needed_witness :
  attrs_of (snd (upstream_dependencies_needing_build Examples.no Examples.yes 3
                                                     Examples.graph_abc)) "c"
  = set_flag Build true (attrs_of Examples.graph_abc "c") /\
  not_installable Examples.no Examples.graph_abc "c" = true /\
  buildable Examples.yes Examples.graph_abc "c" = true /\
  exists p, reached Examples.no Examples.graph_abc (seeds Examples.graph_abc) p /\
            edge Examples.graph_abc p "c".
Proof.
  apply (upstream_flags_only_needed Examples.no Examples.yes 3 Examples.graph_abc "c").
  vm_compute. discriminate.
Defined.

(* ================================================================== *)
(** ** The cap of the downstream pass *)

Lemma dirty_adjust_length f n (d : dict Attrs) :
  length (filter (fun nv => is_dirty (snd nv)) (dict_adjust f n d))
  <= S (length (filter (fun nv => is_dirty (snd nv)) d)).
Proof.
  induction d as [|[k a] d IH]; simpl; [lia|].
  destruct (String.eqb n k); simpl.
  - destruct (is_dirty (f a)), (is_dirty a); simpl; lia.
  - destruct (is_dirty a); simpl; lia.
Qed.

Lemma dirty_mark_length f n g :
  length (dirty (snd (mark f n g))) <= S (length (dirty g)).
Proof.
  unfold mark. destruct (lookup n (node g)); simpl; [|lia].
  unfold dirty, keys. rewrite !length_map. simpl. apply dirty_adjust_length.
Qed.

Section CapBound.
Variable run : Flag.
Variable k : Z.
Variable d0 : Z.
Hypothesis k_nonneg : (0 <= k)%Z.
Hypothesis d0_nonneg : (0 <= d0)%Z.

Let size (g : DiGraph) : Z := Z.of_nat (length (dirty g)).

(** The counter never falls behind the dirty nodes by more than the
  baseline, and the dirty nodes never exceed the cap by more than twice
  the baseline. *)
Let within_cap (c : Z) (g : DiGraph) : Prop :=
(size g <= c + d0 /\ size g <= 2 * d0 + k)%Z.

Let after {A} (value : A -> Z) (r : outcome A * DiGraph) : Prop :=
(size (snd r) <= 2 * d0 + k)%Z /\
forall a, fst r = Ret a -> within_cap (value a) (snd r).

Lemma cap_mark_predecessors ps : forall c g,
within_cap c g -> after (fun c' => c') (mark_predecessors run k d0 ps c g).
Proof.
induction ps as [|p ps IH]; intros c g [H1 H2]; simpl.
- split; [exact H2|]. intros a E. inversion E; subst. split; assumption.
- destruct ((k <? 0) || (c - d0 <? k))%bool%Z eqn:Cnd.
  + apply orb_true_iff in Cnd. destruct Cnd as [Cnd|Cnd]; [apply Z.ltb_lt in Cnd; lia|].
    apply Z.ltb_lt in Cnd.
    pose proof (dirty_mark_length run p g) as L.
    unfold bind.
    destruct (mark run p g) as [[[]|e|] gm]; simpl in L.
    * apply IH. unfold within_cap, size in *. lia.
    * split; [unfold size in *; cbn [snd]; lia | intros a E; discriminate].
    * split; [unfold size in *; cbn [snd]; lia | intros a E; discriminate].
  + apply IH. split; assumption.
Qed.

Lemma cap_expand_nodes ns : forall c g,
within_cap c g -> after (fun c' => c') (expand_nodes run k d0 ns c g).
Proof.
induction ns as [|n ns IH]; intros c g [H1 H2]; simpl.
- split; [exact H2|]. intros a E. inversion E; subst. split; assumption.
- unfold bind at 1. unfold predecessors.
  destruct (lookup n (pred g)) as [ps|]; simpl;
    [|split; [exact H2 | intros a E; discriminate]].
  unfold bind at 1.
  pose proof (cap_mark_predecessors ps c g (conj H1 H2)) as [B C].
  destruct (mark_predecessors run k d0 ps c g) as [[c'|e|] g1]; cbn [fst snd] in *.
  + apply IH. now apply C.
  + split; [exact B | intros a E; discriminate].
  + split; [exact B | intros a E; discriminate].
Qed.

Lemma cap_expand_step ns c g :
within_cap c g -> after (fun c' => c') (expand_step run k d0 ns c g).
Proof.
intros H. unfold expand_step, bind, get, ret.
pose proof (cap_expand_nodes ns c g H) as [B C].
destruct (expand_nodes run k d0 ns c g) as [[c'|e|] g1]; cbn [fst snd] in *.
- split; [exact B|]. intros a E. inversion E; subst a.
  split; [unfold size; cbn [snd]; lia | exact B].
- split; [exact B | intros a E; discriminate].
- split; [exact B | intros a E; discriminate].
Qed.

Lemma cap_expand_steps steps : forall c g,
within_cap c g -> (size (snd (expand_steps run k d0 steps c g)) <= 2 * d0 + k)%Z.
Proof.
induction steps as [|steps IH]; intros c g H; simpl; [apply H|].
unfold bind at 1. unfold get at 1. unfold bind at 1.
pose proof (cap_expand_step (dirty g) c g H) as [B C].
destruct (expand_step run k d0 (dirty g) c g) as [[c'|e|] g1]; cbn [fst snd] in *; auto.
Qed.

Lemma cap_expand_until_stable fuel : forall start c g,
within_cap c g ->
(size (snd (expand_until_stable run k d0 fuel start c g)) <= 2 * d0 + k)%Z.
Proof.
induction fuel as [|fuel IH]; intros start c g H; simpl; [apply H|].
unfold bind at 1.
pose proof (cap_expand_step start c g H) as [B C].
destruct (expand_step run k d0 start c g) as [[c'|e|] g1]; cbn [fst snd] in *; auto.
unfold bind, get.
destruct (list_eqb start (dirty g1)); simpl; auto.
Qed.
End CapBound.

Lemma snd_bind_pure {A B} (m : M A) (k : A -> M B) g :
  (forall a g1, snd (k a g1) = g1) -> snd (bind m k g) = snd (m g).
Proof. intros H. unfold bind. destruct (m g) as [[a|e|] g1]; simpl; auto. Qed.

(** What [expand_run] returns is the dirty view of the graph it leaves. *)
Lemma expand_run_returns_dirty _installable _buildable fuel run steps max_downstream g D g' :
  expand_run _installable _buildable fuel run steps max_downstream g = (Ret D, g') ->
  D = dirty g'.
Proof.
  unfold expand_run. intros E.
  apply bind_ret_inv in E. destruct E as [u [g1 [_ E]]].
  apply bind_ret_inv in E. destruct E as [g1' [g2 [_ E]]].
  apply bind_ret_inv in E. destruct E as [u' [g3 [_ E]]].
  unfold bind, get, ret in E. now inversion E.
Qed.

(** X6. What a cap [max_downstream >= 0] does bound: however the run
    ends, the dirty nodes are at most the cap plus twice the baseline,
    the number of dirty nodes that Pass 1 leaves. So the downstream pass
    marks at most the cap plus the baseline. *)
Theorem expand_run_cap_bound
        (_installable _buildable : string -> string -> bool)
        (fuel : nat) (run : Flag) (steps max_downstream : Z) (g : DiGraph) :
  (0 <= max_downstream)%Z ->
  (Z.of_nat (length (dirty (snd (expand_run _installable _buildable fuel run steps
                                            max_downstream g))))
   <= 2 * Z.of_nat (length (dirty (snd (upstream_dependencies_needing_build
                                          _installable _buildable fuel g))))
      + max_downstream)%Z /\
  forall D g',
    expand_run _installable _buildable fuel run steps max_downstream g = (Ret D, g') ->
    (Z.of_nat (length D)
     <= 2 * Z.of_nat (length (dirty (snd (upstream_dependencies_needing_build
                                            _installable _buildable fuel g))))
        + max_downstream)%Z.
Proof.
  intros K.
  assert (G : (Z.of_nat (length (dirty (snd (expand_run _installable _buildable fuel run steps
                                            max_downstream g))))
   <= 2 * Z.of_nat (length (dirty (snd (upstream_dependencies_needing_build
                                          _installable _buildable fuel g))))
      + max_downstream)%Z).
  { unfold expand_run. unfold bind at 1.
    destruct (upstream_dependencies_needing_build _installable _buildable fuel g)
      as [[U|e|] g1]; cbn [snd]; try lia.
    unfold bind at 1. unfold get at 1. cbv beta iota.
    rewrite snd_bind_pure by reflexivity.
    set (d0 := Z.of_nat (length (dirty g1))).
    assert (D0 : (0 <= d0)%Z) by (unfold d0; lia).
    assert (I : (Z.of_nat (length (dirty g1)) <= 0 + d0 /\
                 Z.of_nat (length (dirty g1)) <= 2 * d0 + max_downstream)%Z)
      by (unfold d0; lia).
    destruct (steps >=? 0)%Z.
    - rewrite snd_bind_pure by reflexivity.
      exact (cap_expand_steps run max_downstream d0 K D0 (Z.to_nat steps) 0%Z g1 I).
    - unfold bind at 1. unfold get at 1. cbv beta iota.
      exact (cap_expand_until_stable run max_downstream d0 K D0 fuel (dirty g1) 0%Z g1 I). }
  split; [exact G|].
  intros D g' E. rewrite E in G. cbn [snd] in G.
  now rewrite (expand_run_returns_dirty _ _ _ _ _ _ _ _ _ E).
Qed.

(** The changed recipe [a] with its two dependents, and a cap of zero. *)
Lemma expand_run_cap_bound_witness :
  (Z.of_nat (length (dirty (snd (expand_run Examples.yes Examples.yes 5 Test (-1) 0
                                            Examples.two_dependents))))
   <= 2 * Z.of_nat (length (dirty (snd (upstream_dependencies_needing_build
                                          Examples.yes Examples.yes 5
                                          Examples.two_dependents))))
      + 0)%Z /\
  forall D g',
    expand_run Examples.yes Examples.yes 5 Test (-1) 0 Examples.two_dependents = (Ret D, g') ->
    (Z.of_nat (length D)
     <= 2 * Z.of_nat (length (dirty (snd (upstream_dependencies_needing_build
                                            Examples.yes Examples.yes 5
                                            Examples.two_dependents))))
        + 0)%Z.
Proof.
  apply (expand_run_cap_bound Examples.yes Examples.yes 5 Test (-1) 0
                              Examples.two_dependents).
  lia.
Defined.

(* ================================================================== *)
(** ** The downstream pass *)

Lemma is_dirty_frame run a a' :
  attrs_frame run a a' -> is_dirty a = true -> is_dirty a' = true.
Proof.
  intros [_ [_ F]] H. unfold is_dirty in *.
  apply orb_true_iff in H. apply orb_true_iff.
  destruct H as [H|H]; [left; destruct (F Build) as [E|[_ E]]
                       | right; destruct (F Test) as [E|[_ E]]];
    simpl in E; rewrite E; auto.
Qed.

Lemma In_dirty g n : is_dirty (attrs_of g n) = true -> In n (dirty g).
Proof.
  unfold attrs_of. destruct (lookup n (node g)) as [a|] eqn:L; [|discriminate].
  intros H. unfold dirty, keys. apply in_map_iff. exists (n, a). split; [reflexivity|].
  apply filter_In. split; [now apply lookup_In | exact H].
Qed.

Lemma flag_dirty run g p :
  run <> Install -> get_flag run (attrs_of g p) = Some true -> In p (dirty g).
Proof.
  intros R H. apply In_dirty. unfold is_dirty.
  destruct run; [| |now elim R]; simpl in H; rewrite H; simpl; auto using orb_true_r.
Qed.

(** Propagation only adds to the dirty view. *)
Lemma dirty_frame run g g' :
  flags_frame run g g' ->
  incl (dirty g) (dirty g') /\
  length (dirty g) <= length (dirty g') /\
  (dirty g' = dirty g \/ length (dirty g) < length (dirty g')).
Proof.
  intros [_ [_ N]]. unfold dirty.
  induction N as [|[k a] [k' a'] d d' [K A] _ [I [L E]]]; simpl.
  - split; [intros x []|]. split; [lia | now left].
  - simpl in K, A. subst k'. pose proof (is_dirty_frame run a a' A) as Mo.
    destruct (is_dirty a) eqn:Da.
    + rewrite (Mo eq_refl). simpl. split; [|split].
      * intros x [X|X]; [now left | right; now apply I].
      * lia.
      * destruct E as [E|E]; [left; now rewrite E | right; lia].
    + destruct (is_dirty a'); simpl.
      * split; [intros x X; right; now apply I|]. split; [lia | right; lia].
      * split; [exact I|]. split; [exact L | exact E].
Qed.

Lemma dirty_length_nodes g : length (dirty g) <= length (nodes g).
Proof.
  unfold dirty, nodes, keys. rewrite !length_map. apply List.filter_length_le.
Qed.

Lemma mark_ret_inv f n g u g' :
  mark f n g = (Ret u, g') -> get_flag f (attrs_of g' n) = Some true.
Proof.
  unfold mark. destruct (lookup n (node g)) as [a|] eqn:L; [|discriminate].
  intros E. inversion E; subst.
  rewrite attrs_of_adjust, String.eqb_refl, L. now destruct f.
Qed.

Lemma mark_no_timeout f n g : fst (mark f n g) <> Timeout.
Proof. unfold mark. destruct (lookup n (node g)); discriminate. Qed.

(** *** Without a cap every predecessor is marked *)

Section NoCap.
Variable run : Flag.
Variable max_downstream : Z.
Variable initial_dirty : Z.
Hypothesis no_cap : (max_downstream < 0)%Z.

Lemma mark_predecessors_all ps : forall c g c' g',
mark_predecessors run max_downstream initial_dirty ps c g = (Ret c', g') ->
forall p, In p ps -> get_flag run (attrs_of g' p) = Some true.
Proof.
induction ps as [|q ps IH]; intros c g c' g' H p I; [destruct I|].
simpl in H.
assert (C : (max_downstream <? 0)%Z = true) by now apply Z.ltb_lt.
rewrite C in H. simpl in H.
apply bind_ret_inv in H. destruct H as [u [gm [Em H]]].
destruct I as [<-|I]; [|exact (IH _ _ _ _ H p I)].
pose proof (frame_mark_predecessors run max_downstream initial_dirty ps (c + 1)%Z gm) as F.
rewrite H in F. simpl in F.
exact (flags_frame_keeps run gm g' q run F (mark_ret_inv run q g u gm Em)).
Qed.

Lemma expand_nodes_all ns : forall c g c' g',
expand_nodes run max_downstream initial_dirty ns c g = (Ret c', g') ->
forall n p, In n ns -> pred_edge g p n -> get_flag run (attrs_of g' p) = Some true.
Proof.
induction ns as [|m ns IH]; intros c g c' g' H n p I E; [destruct I|].
simpl in H.
apply bind_ret_inv in H. destruct H as [ps [g1 [Ep H]]].
unfold predecessors in Ep. destruct (lookup m (pred g)) as [ps'|] eqn:L; [|discriminate].
inversion Ep; subst ps' g1. clear Ep.
apply bind_ret_inv in H. destruct H as [c1 [g1 [Em H]]].
pose proof (frame_mark_predecessors run max_downstream initial_dirty ps c g) as F1.
rewrite Em in F1. simpl in F1.
pose proof (frame_expand_nodes run max_downstream initial_dirty ns c1 g1) as F2.
rewrite H in F2. simpl in F2.
destruct I as [<-|I].
- destruct E as [ps' [L' Ip]]. rewrite L in L'. inversion L'; subst ps'.
  exact (flags_frame_keeps run g1 g' p run F2 (mark_predecessors_all ps c g c1 g1 Em p Ip)).
- apply (IH _ _ _ _ H n p I). destruct E as [ps' [L' Ip]]. exists ps'.
  destruct F1 as [_ [P _]]. rewrite P. auto.
Qed.

Lemma expand_until_stable_closed fuel : forall start c g u g',
expand_until_stable run max_downstream initial_dirty fuel start c g = (Ret u, g') ->
forall n p, In n (dirty g') -> pred_edge g' p n ->
            get_flag run (attrs_of g' p) = Some true.
Proof.
induction fuel as [|fuel IH]; intros start c g u g' H; [discriminate|].
simpl in H.
apply bind_ret_inv in H. destruct H as [c1 [g1 [Es H]]].
unfold bind at 1 in H. unfold get at 1 in H. cbv beta iota in H.
destruct (list_eqb start (dirty g1)) eqn:Q.
- inversion H; subst g'. apply list_eqb_eq in Q.
  unfold expand_step in Es.
  apply bind_ret_inv in Es. destruct Es as [c0 [g2 [En Es]]].
  unfold bind, get, ret in Es. inversion Es; subst g2.
  pose proof (frame_expand_nodes run max_downstream initial_dirty start c g) as F.
  rewrite En in F. simpl in F.
  intros n p I [ps [L Ip]].
  apply (expand_nodes_all start c g c0 g1 En n p); [now rewrite Q|].
  exists ps. destruct F as [_ [P _]]. rewrite <- P. auto.
- exact (IH _ _ _ _ _ H).
Qed.
End NoCap.

(** X7. A run to the fixed point without a cap ([steps < 0] and
    [max_downstream < 0]) that returns has marked everything downstream:
    every node dirty at the start is returned, and every package that
    lists a returned node as a dependency has its [run] flag and, [run]
    being [build] or [test], is returned as well. *)
Theorem expand_run_downstream_closed
        (_installable _buildable : string -> string -> bool)
        (fuel : nat) (run : Flag) (steps max_downstream : Z)
        (g g' : DiGraph) (D : list string) :
  (steps < 0)%Z -> (max_downstream < 0)%Z ->
  expand_run _installable _buildable fuel run steps max_downstream g = (Ret D, g') ->
  (forall n, In n (dirty g) -> In n D) /\
  (forall n p, In n D -> pred_edge g p n ->
               get_flag run (attrs_of g' p) = Some true /\
               (run <> Install -> In p D)).
Proof.
  intros S K H.
  pose proof (frame_expand_run _installable _buildable fuel run steps max_downstream g) as F.
  rewrite H in F. simpl in F.
  pose proof (expand_run_returns_dirty _ _ _ _ _ _ _ _ _ H) as ED. subst D.
  split; [apply (dirty_frame run g g' F)|].
  assert (C : forall n p, In n (dirty g') -> pred_edge g' p n ->
                          get_flag run (attrs_of g' p) = Some true).
  { unfold expand_run in H.
    apply bind_ret_inv in H. destruct H as [U [g1 [_ H]]].
    unfold bind at 1 in H. unfold get at 1 in H. cbv beta iota in H.
    apply bind_ret_inv in H. destruct H as [u [g2 [H E]]].
    unfold bind, get, ret in E. inversion E; subst g2.
    assert (Sg : (steps >=? 0)%Z = false) by (rewrite Z.geb_leb; apply Z.leb_gt; lia).
    rewrite Sg in H. unfold bind at 1 in H. unfold get at 1 in H. cbv beta iota in H.
    exact (expand_until_stable_closed run max_downstream _ K fuel _ _ _ _ _ H). }
  intros n p I E.
  assert (E' : pred_edge g' p n).
  { destruct E as [ps [L Ip]]. exists ps. destruct F as [_ [P _]]. rewrite P. auto. }
  split; [exact (C n p I E')|].
  intros R. exact (flag_dirty run g' p R (C n p I E')).
Qed.

(** The changed recipe [a] and its dependent [b], run to the fixed point. *)
Lemma expand_run_downstream_closed_witness :
  (forall n, In n (dirty Examples.one_dependent) ->
             In n (dirty Examples.one_dependent_done)) /\
  (forall n p, In n (dirty Examples.one_dependent_done) ->
               pred_edge Examples.one_dependent p n ->
               get_flag Test (attrs_of Examples.one_dependent_done p) = Some true /\
               (Test <> Install -> In p (dirty Examples.one_dependent_done))).
Proof.
  apply (expand_run_downstream_closed Examples.yes Examples.yes 5 Test (-1) (-1)
                                      Examples.one_dependent Examples.one_dependent_done
                                      (dirty Examples.one_dependent_done)).
  - lia.
  - lia.
  - vm_compute. reflexivity.
Defined.

(* ================================================================== *)
(** ** When propagation returns *)

Lemma wf_ok_frame run g g' : flags_frame run g g' -> wf_ok g -> wf_ok g'.
Proof.
  intros F W. pose proof (flags_frame_nodes run g g' F) as N.
  destruct F as [S [P _]]. unfold wf_ok in *. rewrite N, S, P. exact W.
Qed.

Lemma mark_returns f n g :
  In n (nodes g) -> exists g', mark f n g = (Ret tt, g') /\ nodes g' = nodes g.
Proof.
  intros I. destruct (In_keys_lookup n (node g) I) as [a L].
  unfold mark. rewrite L. eexists. split; [reflexivity|].
  unfold nodes. simpl. apply keys_dict_adjust.
Qed.

Section DownstreamTotal.
Variable run : Flag.
Variable max_downstream : Z.
Variable initial_dirty : Z.

Local Abbreviation marks := (mark_predecessors run max_downstream initial_dirty).
Local Abbreviation visit := (expand_nodes run max_downstream initial_dirty).
Local Abbreviation step := (expand_step run max_downstream initial_dirty).

Lemma mark_predecessors_no_timeout ps : forall c g, fst (marks ps c g) <> Timeout.
Proof.
induction ps as [|p ps IH]; intros c g; simpl; [discriminate|].
destruct ((max_downstream <? 0) || (c - initial_dirty <? max_downstream))%bool%Z;
  [|apply IH].
unfold bind. pose proof (mark_no_timeout run p g) as N.
destruct (mark run p g) as [[[]|e|] gm]; simpl in *;
  [apply IH | discriminate | contradiction].
Qed.

Lemma expand_nodes_no_timeout ns : forall c g, fst (visit ns c g) <> Timeout.
Proof.
induction ns as [|n ns IH]; intros c g; simpl; [discriminate|].
unfold bind at 1. unfold predecessors.
destruct (lookup n (pred g)) as [ps|]; [|discriminate].
unfold bind at 1. pose proof (mark_predecessors_no_timeout ps c g) as N.
destruct (marks ps c g) as [[c1|e|] g1]; simpl in *;
  [apply IH | discriminate | contradiction].
Qed.

Lemma expand_step_no_timeout ns c g : fst (step ns c g) <> Timeout.
Proof.
unfold expand_step, bind. pose proof (expand_nodes_no_timeout ns c g) as N.
destruct (visit ns c g) as [[c1|e|] g1]; simpl in *;
  [discriminate | discriminate | contradiction].
Qed.

Lemma expand_steps_no_timeout steps : forall c g,
fst (expand_steps run max_downstream initial_dirty steps c g) <> Timeout.
Proof.
induction steps as [|steps IH]; intros c g; simpl; [discriminate|].
unfold bind at 1. unfold get at 1. cbv beta iota.
unfold bind at 1. pose proof (expand_step_no_timeout (dirty g) c g) as N.
destruct (step (dirty g) c g) as [[c1|e|] g1]; simpl in *;
  [apply IH | discriminate | contradiction].
Qed.

(** Each round of the loop that does not end it adds a dirty node. *)
Lemma expand_until_stable_terminates fuel : forall c g,
length (nodes g) - length (dirty g) < fuel ->
fst (expand_until_stable run max_downstream initial_dirty fuel (dirty g) c g) <> Timeout.
Proof.
induction fuel as [|fuel IH]; intros c g L; [lia|].
simpl. unfold bind at 1.
pose proof (expand_step_no_timeout (dirty g) c g) as N.
pose proof (frame_expand_step run max_downstream initial_dirty (dirty g) c g) as F.
destruct (step (dirty g) c g) as [[c1|e|] g1]; simpl in N, F;
  [|discriminate|contradiction].
unfold bind at 1. unfold get at 1. cbv beta iota.
destruct (list_eqb (dirty g) (dirty g1)) eqn:Q; [discriminate|].
apply IH.
destruct (dirty_frame run g g1 F) as [_ [_ [E|Lt]]].
- rewrite E, list_eqb_refl in Q. discriminate.
- pose proof (dirty_length_nodes g1) as B.
  rewrite (flags_frame_nodes run g g1 F) in *. lia.
Qed.

Lemma mark_predecessors_returns ps : forall c g,
(forall p, In p ps -> In p (nodes g)) -> exists c' g', marks ps c g = (Ret c', g').
Proof.
induction ps as [|p ps IH]; intros c g H; simpl; [unfold ret; eauto|].
destruct ((max_downstream <? 0) || (c - initial_dirty <? max_downstream))%bool%Z.
- destruct (mark_returns run p g (H p (or_introl eq_refl))) as [gm [E N]].
  unfold bind. rewrite E. apply IH. intros q I. rewrite N. apply H. now right.
- apply IH. intros q I. apply H. now right.
Qed.

Lemma expand_nodes_returns ns : forall c g,
wf_ok g -> (forall n, In n ns -> In n (nodes g)) ->
exists c' g', visit ns c g = (Ret c', g').
Proof.
induction ns as [|n ns IH]; intros c g W H; simpl; [unfold ret; eauto|].
destruct W as [ND [KS [KP [CS CP]]]].
assert (I : In n (keys (pred g))) by (rewrite KP; apply H; now left).
destruct (In_keys_lookup n (pred g) I) as [ps L].
unfold bind at 1. unfold predecessors. rewrite L.
destruct (mark_predecessors_returns ps c g (fun p Ip => CP n ps p L Ip)) as [c1 [g1 E]].
pose proof (frame_mark_predecessors run max_downstream initial_dirty ps c g) as F.
unfold bind at 1. rewrite E in *. simpl in F.
apply IH.
- apply (wf_ok_frame run g g1 F). repeat split; assumption.
- intros m Im. rewrite (flags_frame_nodes run g g1 F). apply H. now right.
Qed.

Lemma expand_step_returns ns c g :
wf_ok g -> (forall n, In n ns -> In n (nodes g)) ->
exists c' g', step ns c g = (Ret c', g').
Proof.
intros W H. destruct (expand_nodes_returns ns c g W H) as [c1 [g1 E]].
unfold expand_step, bind. rewrite E. unfold get, ret. eauto.
Qed.

Lemma expand_steps_returns steps : forall c g,
wf_ok g -> exists c' g', expand_steps run max_downstream initial_dirty steps c g
                         = (Ret c', g').
Proof.
induction steps as [|steps IH]; intros c g W; simpl; [unfold ret; eauto|].
unfold bind at 1. unfold get at 1. cbv beta iota.
destruct (expand_step_returns (dirty g) c g W (dirty_are_nodes g)) as [c1 [g1 E]].
pose proof (frame_expand_step run max_downstream initial_dirty (dirty g) c g) as F.
unfold bind at 1. rewrite E in *. simpl in F.
apply IH. exact (wf_ok_frame run g g1 F W).
Qed.

Lemma expand_until_stable_returns fuel : forall c g,
wf_ok g -> length (nodes g) - length (dirty g) < fuel ->
exists g', expand_until_stable run max_downstream initial_dirty fuel (dirty g) c g
           = (Ret tt, g').
Proof.
induction fuel as [|fuel IH]; intros c g W L; [lia|].
simpl. unfold bind at 1.
destruct (expand_step_returns (dirty g) c g W (dirty_are_nodes g)) as [c1 [g1 E]].
pose proof (frame_expand_step run max_downstream initial_dirty (dirty g) c g) as F.
rewrite E in *. simpl in F.
unfold bind at 1. unfold get at 1. cbv beta iota.
destruct (list_eqb (dirty g) (dirty g1)) eqn:Q; [unfold ret; eauto|].
apply IH; [exact (wf_ok_frame run g g1 F W)|].
destruct (dirty_frame run g g1 F) as [_ [_ [Eq|Lt]]].
- rewrite Eq, list_eqb_refl in Q. discriminate.
- pose proof (dirty_length_nodes g1) as B.
  rewrite (flags_frame_nodes run g g1 F) in *. lia.
Qed.
End DownstreamTotal.

Section UpstreamReturns.
Variable _installable : string -> string -> bool.
Variable _buildable : string -> string -> bool.
Variable rank : string -> nat.
Variable g0 : DiGraph.
Hypothesis wf : wf_graph g0 = true.
Hypothesis acyclic : rank_ok rank g0 = true.

Local Abbreviation needs := (not_installable _installable).
Local Abbreviation can_build := (buildable _buildable).

Hypothesis satisfiable :
forall n s, reached _installable g0 (seeds g0) n -> edge g0 n s ->
            needs g0 s = true -> can_build g0 s = true.

Lemma reached_nodes n : reached _installable g0 (seeds g0) n -> In n (nodes g0).
Proof.
intros R. induction R as [n I|n s R IH [ss [L I]] N].
- now apply seeds_are_nodes.
- exact (wf_graph_closed g0 n ss s wf L I).
Qed.

Lemma upstream_loop_returns fuel : forall visited todo g1,
flags_frame Build g0 g1 ->
total_weight g0 rank todo <= fuel ->
(forall n, In n todo -> reached _installable g0 (seeds g0) n) ->
exists D g2, upstream_loop _installable _buildable fuel visited todo g1 = (Ret D, g2).
Proof.
induction fuel as [|fuel IH]; intros visited todo g1 F Wt T.
- destruct todo as [|n rest]; simpl; [unfold ret; eauto|].
  unfold total_weight in Wt. simpl in Wt.
  pose proof (weight_pos g0 (rank n) n). lia.
- destruct todo as [|n rest]; simpl; [unfold ret; eauto|].
  assert (Rn : reached _installable g0 (seeds g0) n) by (apply T; now left).
  destruct (wf_graph_successors g0 n wf (reached_nodes n Rn)) as [ss Ls].
  assert (L : lookup n (succ g1) = Some ss).
  { destruct F as [S _]. now rewrite S. }
  unfold bind at 1. unfold successors. rewrite L.
  assert (Ns : forall s, In s ss -> In s (nodes g0)).
  { intros s I. exact (wf_graph_closed g0 n ss s wf Ls I). }
  unfold bind at 1.
  destruct (check_successors_cases _installable _buildable g0 ss [] g1 F Ns)
    as [[out [g1' [C _]]]|[s' [g1' [_ [I [N B]]]]]].
  + rewrite C.
    destruct (check_successors_ret _installable _buildable g0 ss [] g1 out g1' F C)
      as [A _].
    simpl in A.
    assert (F1 : flags_frame Build g1 g1').
    { pose proof (frame_check_successors _installable _buildable Build ss [] g1) as P.
      now rewrite C in P. }
    apply IH; [eapply flags_frame_trans; eassumption| |].
    * rewrite total_weight_app.
      assert (Lw : successors_of g0 n = ss) by (unfold successors_of; now rewrite Ls).
      pose proof (weight_step rank g0 n acyclic) as Ws. rewrite Lw in Ws.
      assert (total_weight g0 rank out <= total_weight g0 rank ss).
      { rewrite A. apply list_sum_filter_le. }
      unfold total_weight in Wt at 1. simpl in Wt.
      fold (total_weight g0 rank rest) in Wt. lia.
    * intros x Ix. apply in_app_iff in Ix. destruct Ix as [Ix|Ix]; [apply T; now right|].
      rewrite A in Ix. apply filter_In in Ix. destruct Ix as [Ix Nx].
      apply (reached_step _ g0 _ n x Rn); [exists ss; auto | exact Nx].
  + assert (E : edge g0 n s') by (exists ss; auto).
    rewrite (satisfiable n s' Rn E N) in B. discriminate.
Qed.
End UpstreamReturns.

(** X8. On a well-formed graph that a numbering shows free of cycles,
    where every dependency the worklist reaches that cannot be installed
    can be built, [expand_run] returns: no lookup fails, and neither pass
    runs short once the fuel covers the weight of the flagged nodes and
    exceeds the number of nodes. *)
Theorem expand_run_returns
        (_installable _buildable : string -> string -> bool)
        (rank : string -> nat) (fuel : nat) (run : Flag) (steps max_downstream : Z)
        (g : DiGraph) :
  wf_graph g = true ->
  rank_ok rank g = true ->
  (forall n s, reached _installable g (seeds g) n -> edge g n s ->
               not_installable _installable g s = true ->
               buildable _buildable g s = true) ->
  total_weight g rank (seeds g) <= fuel ->
  length (nodes g) < fuel ->
  exists D g', expand_run _installable _buildable fuel run steps max_downstream g
               = (Ret D, g').
Proof.
  intros W A S Wt L.
  destruct (upstream_loop_returns _installable _buildable rank g W A S fuel [] (seeds g) g
                                  (flags_frame_refl _ _) Wt
                                  (fun n I => reached_start _ g (seeds g) n I))
    as [U [g1 E1]].
  assert (E : upstream_dependencies_needing_build _installable _buildable fuel g
              = (Ret U, g1)) by exact E1.
  pose proof (frame_upstream _installable _buildable run fuel g) as F.
  rewrite E in F. simpl in F.
  assert (W1 : wf_ok g1) by (apply (wf_ok_frame run g g1 F); now apply wf_graph_wf_ok).
  assert (N1 : nodes g1 = nodes g) by exact (flags_frame_nodes run g g1 F).
  unfold expand_run. unfold bind at 1. rewrite E.
  unfold bind at 1. unfold get at 1. cbv beta iota.
  destruct (steps >=? 0)%Z.
  - destruct (expand_steps_returns run max_downstream (Z.of_nat (length (dirty g1)))
                                   (Z.to_nat steps) 0%Z g1 W1) as [c [g2 E2]].
    unfold bind, get, ret. rewrite E2. eauto.
  - destruct (expand_until_stable_returns run max_downstream
                                          (Z.of_nat (length (dirty g1))) fuel 0%Z g1 W1)
      as [g2 E2]; [rewrite N1; lia|].
    unfold bind, get, ret. unfold bind, get in E2. rewrite E2. eauto.
Qed.

(** The recipes [a -> b -> c] with nothing installable and all buildable. *)
Lemma expand_run_returns_witness :
  exists D g', expand_run Examples.no Examples.yes 5 Test (-1) (-1) Examples.graph_abc
               = (Ret D, g').
Proof.
  apply (expand_run_returns Examples.no Examples.yes Examples.rank_abc 5 Test (-1) (-1)
                            Examples.graph_abc).
  - reflexivity.
  - reflexivity.
  - intros n s _ _ _. reflexivity.
  - vm_compute. lia.
  - vm_compute. lia.
Defined.

(** X9. The fixed-point loop of the downstream pass always ends,
    whatever the graph: a round that does not end it adds a dirty node.
    So with fuel beyond the number of nodes [expand_run] runs short only
    if Pass 1 does. *)
Theorem expand_run_downstream_terminates
        (_installable _buildable : string -> string -> bool)
        (fuel : nat) (run : Flag) (steps max_downstream : Z) (g : DiGraph) :
  fst (upstream_dependencies_needing_build _installable _buildable fuel g) <> Timeout ->
  length (nodes g) < fuel ->
  fst (expand_run _installable _buildable fuel run steps max_downstream g) <> Timeout.
Proof.
  intros E L.
  pose proof (frame_upstream _installable _buildable run fuel g) as F.
  unfold expand_run. unfold bind at 1.
  destruct (upstream_dependencies_needing_build _installable _buildable fuel g)
    as [[U|e|] g1]; cbn [fst snd] in *; [|discriminate|contradiction].
  assert (N1 : nodes g1 = nodes g) by exact (flags_frame_nodes run g g1 F).
  unfold bind at 1. unfold get at 1. cbv beta iota.
  destruct (steps >=? 0)%Z.
  - pose proof (expand_steps_no_timeout run max_downstream (Z.of_nat (length (dirty g1)))
                                        (Z.to_nat steps) 0%Z g1) as N.
    unfold bind, get, ret.
    destruct (expand_steps run max_downstream (Z.of_nat (length (dirty g1)))
                           (Z.to_nat steps) 0 g1) as [[c|e|] g2]; simpl in *;
      [discriminate | discriminate | contradiction].
  - pose proof (expand_until_stable_terminates run max_downstream
                  (Z.of_nat (length (dirty g1))) fuel 0%Z g1) as N.
    unfold bind, get, ret. unfold bind, get in N.
    destruct (expand_until_stable run max_downstream (Z.of_nat (length (dirty g1))) fuel
                                  (dirty g1) 0 g1) as [[c|e|] g2]; simpl in *;
      [discriminate | discriminate | exfalso; apply N; [rewrite N1; lia | reflexivity]].
Qed.

(** The two recipes that need each other, where Pass 1 adds nothing. *)
Lemma expand_run_downstream_terminates_witness :
  length (nodes Examples.graph_cycle) < 3 /\
  fst (expand_run Examples.yes Examples.yes 3 Build (-1) (-1) Examples.graph_cycle)
  <> Timeout.
Proof.
  split; [vm_compute; lia|].
  apply (expand_run_downstream_terminates Examples.yes Examples.yes 3 Build (-1) (-1)
                                          Examples.graph_cycle).
  - vm_compute. discriminate.
  - vm_compute. lia.
Defined.

(* ================================================================== *)
(** ** How far the downstream pass goes *)

Lemma marks_in_refl Q g : marks_in Q g g.
Proof. intros x I. now left. Qed.

Lemma marks_in_trans Q g1 g2 g3 :
  marks_in Q g1 g2 -> marks_in Q g2 g3 -> marks_in Q g1 g3.
Proof.
  intros H1 H2 x I. destruct (H2 x I) as [J|J]; [now apply H1 | now right].
Qed.

Lemma dirty_adjust_in f n (d : dict Attrs) x :
  In x (keys (filter (fun nv => is_dirty (snd nv)) (dict_adjust f n d))) ->
  In x (keys (filter (fun nv => is_dirty (snd nv)) d)) \/ x = n.
Proof.
  induction d as [|[k a] d IH]; simpl; [tauto|].
  destruct (String.eqb n k) eqn:E; simpl.
  - apply String.eqb_eq in E. subst k.
    destruct (is_dirty (f a)), (is_dirty a); simpl; intuition (subst; auto).
  - destruct (is_dirty a); simpl; intuition.
Qed.

Lemma marks_in_mark (Q : string -> Prop) f p g : Q p -> marks_in Q g (snd (mark f p g)).
Proof.
  intros q x. unfold mark. destruct (lookup p (node g)); simpl; [|now left].
  unfold dirty. simpl. intros I. apply dirty_adjust_in in I.
  destruct I as [I|E]; [now left | subst x; now right].
Qed.

Lemma within_S g start d x : within g start d x -> within g start (S d) x.
Proof.
  induction 1 as [d n I|d n p W IH E]; [now apply within_start|].
  eapply within_step; eassumption.
Qed.

Lemma within_le g start d d' x : d <= d' -> within g start d x -> within g start d' x.
Proof. induction 1; auto using within_S. Qed.

Lemma within_pred g g' start d x :
  pred g' = pred g -> within g start d x -> within g' start d x.
Proof.
  intros P. induction 1 as [d n I|d n p W IH [ps [L Ip]]]; [now apply within_start|].
  apply (within_step g' start d n p IH). exists ps. rewrite P. auto.
Qed.

Section Depth.
Variable run : Flag.
Variable max_downstream : Z.
Variable initial_dirty : Z.
Variable g0 : DiGraph.
Variable start : list string.

Local Abbreviation marks := (mark_predecessors run max_downstream initial_dirty).
Local Abbreviation visit := (expand_nodes run max_downstream initial_dirty).
Local Abbreviation step := (expand_step run max_downstream initial_dirty).

(** The dirty nodes of [g] lie within [d] steps, its predecessor lists
  being those of [g0]. *)
Let reach (d : nat) (g : DiGraph) : Prop :=
pred g = pred g0 /\ forall x, In x (dirty g) -> within g0 start d x.

Lemma depth_mark_predecessors d ps : forall c g,
(forall p, In p ps -> within g0 start d p) ->
marks_in (within g0 start d) g (snd (marks ps c g)).
Proof.
induction ps as [|p ps IH]; intros c g H; simpl; [apply marks_in_refl|].
assert (H' : forall q, In q ps -> within g0 start d q) by (intros q I; apply H; now right).
destruct ((max_downstream <? 0) || (c - initial_dirty <? max_downstream))%bool%Z;
  [|now apply IH].
unfold bind.
pose proof (marks_in_mark (within g0 start d) run p g (H p (or_introl eq_refl))) as T.
destruct (mark run p g) as [[[]|e|] gm]; simpl in *; try exact T.
eapply marks_in_trans; [exact T | now apply IH].
Qed.

Lemma depth_expand_nodes d ns : forall c g,
pred g = pred g0 ->
(forall n, In n ns -> within g0 start d n) ->
marks_in (within g0 start (S d)) g (snd (visit ns c g)).
Proof.
induction ns as [|n ns IH]; intros c g P H; simpl; [apply marks_in_refl|].
unfold bind at 1. unfold predecessors.
destruct (lookup n (pred g)) as [ps|] eqn:L; [|apply marks_in_refl].
assert (Hp : forall p, In p ps -> within g0 start (S d) p).
{ intros p I. apply (within_step g0 start d n p); [apply H; now left|].
  exists ps. rewrite <- P. auto. }
pose proof (depth_mark_predecessors (S d) ps c g Hp) as T.
pose proof (frame_mark_predecessors run max_downstream initial_dirty ps c g) as F.
unfold bind at 1.
destruct (marks ps c g) as [[c1|e|] g1]; simpl in *; try exact T.
eapply marks_in_trans; [exact T|].
apply IH; [destruct F as [_ [P1 _]]; congruence|].
intros m I. apply H. now right.
Qed.

Lemma depth_expand_step d c g :
reach d g ->
reach (S d) (snd (step (dirty g) c g)) /\
flags_frame run g (snd (step (dirty g) c g)).
Proof.
intros [P H].
pose proof (frame_expand_step run max_downstream initial_dirty (dirty g) c g) as F.
split; [|exact F]. split; [destruct F as [_ [P1 _]]; congruence|].
unfold expand_step. rewrite snd_bind_pure by reflexivity.
intros x I. destruct (depth_expand_nodes d (dirty g) c g P H x I) as [J|J]; [|exact J].
apply within_S. now apply H.
Qed.

Lemma depth_expand_steps steps : forall d c g,
reach d g ->
reach (d + steps) (snd (expand_steps run max_downstream initial_dirty steps c g)).
Proof.
induction steps as [|steps IH]; intros d c g R; simpl.
- now rewrite Nat.add_0_r.
- unfold bind at 1. unfold get at 1. cbv beta iota. unfold bind at 1.
  destruct (depth_expand_step d c g R) as [[P1 R1] _].
  destruct (step (dirty g) c g) as [[c1|e|] g1]; simpl in *.
  + rewrite Nat.add_succ_r. apply (IH (S d)). split; assumption.
  + split; [exact P1|]. intros x I. apply (within_le g0 start (S d)); [lia | now apply R1].
  + split; [exact P1|]. intros x I. apply (within_le g0 start (S d)); [lia | now apply R1].
Qed.

Lemma depth_expand_until_stable fuel : forall d c g,
reach d g ->
exists d', reach d' (snd (expand_until_stable run max_downstream initial_dirty fuel
                                              (dirty g) c g)).
Proof.
induction fuel as [|fuel IH]; intros d c g R; simpl; [now exists d|].
unfold bind at 1.
destruct (depth_expand_step d c g R) as [R1 _].
destruct (step (dirty g) c g) as [[c1|e|] g1]; simpl in *; try (now exists (S d)).
unfold bind at 1. unfold get at 1. cbv beta iota.
destruct (list_eqb (dirty g) (dirty g1)); [now exists (S d)|].
exact (IH (S d) c1 g1 R1).
Qed.
End Depth.

(** X10. The downstream pass marks only what depends on a node that
    Pass 1 left dirty: every node dirty at the end lies some number of
    predecessor steps away from one of those, and with [steps >= 0] no
    more than [steps] of them. This holds however the run ends. *)
Theorem expand_run_downstream_depth
        (_installable _buildable : string -> string -> bool)
        (fuel : nat) (run : Flag) (steps max_downstream : Z) (g : DiGraph) (x : string) :
  In x (dirty (snd (expand_run _installable _buildable fuel run steps max_downstream g))) ->
  exists d,
    within g (dirty (snd (upstream_dependencies_needing_build
                            _installable _buildable fuel g))) d x /\
    ((0 <= steps)%Z -> d <= Z.to_nat steps).
Proof.
  pose proof (frame_upstream _installable _buildable run fuel g) as F.
  unfold expand_run. unfold bind at 1.
  destruct (upstream_dependencies_needing_build _installable _buildable fuel g)
    as [[U|e|] g1]; cbn [fst snd] in *;
    try (intros I; exists 0; split; [now apply within_start | lia]).
  assert (P : pred g = pred g1) by (destruct F as [_ [P _]]; congruence).
  unfold bind at 1. unfold get at 1. cbv beta iota.
  rewrite snd_bind_pure by reflexivity.
  assert (R0 : pred g1 = pred g1 /\
               forall y, In y (dirty g1) -> within g1 (dirty g1) 0 y).
  { split; [reflexivity | intros y I; now apply within_start]. }
  destruct (steps >=? 0)%Z eqn:Sg.
  - rewrite snd_bind_pure by reflexivity.
    destruct (depth_expand_steps run max_downstream (Z.of_nat (length (dirty g1))) g1
                                 (dirty g1) (Z.to_nat steps) 0 0%Z g1 R0) as [_ R].
    intros I. exists (Z.to_nat steps). split; [|lia].
    apply (within_pred g1 g); [exact P | exact (R x I)].
  - unfold bind at 1. unfold get at 1. cbv beta iota.
    destruct (depth_expand_until_stable run max_downstream (Z.of_nat (length (dirty g1))) g1
                                        (dirty g1) fuel 0 0%Z g1 R0) as [d [_ R]].
    intros I. exists d. split.
    + apply (within_pred g1 g); [exact P | exact (R x I)].
    + intros S0. rewrite Z.geb_leb in Sg. apply Z.leb_gt in Sg. lia.
Qed.

(** The dependent [b] of the changed recipe [a], one step away. *)
Lemma expand_run_downstream_depth_witness :
  exists d,
    within Examples.one_dependent
           (dirty (snd (upstream_dependencies_needing_build
                          Examples.yes Examples.yes 5 Examples.one_dependent))) d "b" /\
    ((0 <= 1)%Z -> d <= Z.to_nat 1).
Proof.
  apply (expand_run_downstream_depth Examples.yes Examples.yes 5 Test 1 5
                                     Examples.one_dependent "b").
  vm_compute. auto.
Defined.

(* ================================================================== *)
(** ** Successors and predecessors of the constructed graph *)

Lemma lookup_set_new_nil n (adj : dict (list string)) x vs v :
  ~ In n (keys adj) ->
  (lookup x (dict_set n [] adj) = Some vs /\ In v vs) <->
  (lookup x adj = Some vs /\ In v vs).
Proof.
  intros H. rewrite lookup_dict_set. destruct (String.eqb_spec x n) as [->|N]; [|tauto].
  split.
  - intros [E I]. inversion E; subst vs. destruct I.
  - intros [E _]. exfalso. apply H. eapply lookup_In_keys; eassumption.
Qed.

Lemma keeps_mirror_refl g : keeps_mirror g g.
Proof. intros H. exact H. Qed.

Lemma keeps_mirror_trans g1 g2 g3 :
  keeps_mirror g1 g2 -> keeps_mirror g2 g3 -> keeps_mirror g1 g3.
Proof. unfold keeps_mirror. tauto. Qed.

Lemma mirrored_same g nd : mirrored g -> mirrored (mkGraph nd (succ g) (pred g)).
Proof. intros H u v. exact (H u v). Qed.

Lemma mirrored_new g n nd :
  wf_ok g -> ~ In n (keys (succ g)) -> mirrored g ->
  mirrored (mkGraph nd (dict_set n [] (succ g)) (dict_set n [] (pred g))).
Proof.
  intros [_ [KS [KP _]]] H Mi u v. unfold edge, pred_edge. simpl.
  assert (Hp : ~ In n (keys (pred g))) by (rewrite KP, <- KS; exact H).
  split; intros [vs E].
  - apply (lookup_set_new_nil n (succ g) u vs v H) in E.
    destruct (proj1 (Mi u v) (ex_intro _ vs E)) as [ps Ep].
    exists ps. now apply (lookup_set_new_nil n (pred g) v ps u Hp).
  - apply (lookup_set_new_nil n (pred g) v vs u Hp) in E.
    destruct (proj2 (Mi u v) (ex_intro _ vs E)) as [ss Es].
    exists ss. now apply (lookup_set_new_nil n (succ g) u ss v H).
Qed.

Lemma keeps_mirror_bare g u :
  keeps_mirror g (if mem u (keys (succ g)) then g
                  else mkGraph (dict_set u no_attrs (node g)) (dict_set u [] (succ g))
                               (dict_set u [] (pred g))).
Proof.
  intros [W Mi]. split; [now apply (keeps_wf_bare g u)|].
  destruct (mem u (keys (succ g))) eqn:E; [exact Mi|].
  apply mirrored_new; auto. now apply mem_false.
Qed.

Lemma keeps_mirror_add_node n a g : keeps_mirror g (nx_add_node n a g).
Proof.
  intros [W Mi]. split; [now apply (keeps_wf_add_node n a g)|].
  unfold nx_add_node. destruct (mem n (keys (succ g))) eqn:E.
  - now apply mirrored_same.
  - apply mirrored_new; auto. now apply mem_false.
Qed.

Lemma keeps_mirror_add_edge u v g : keeps_mirror g (nx_add_edge u v g).
Proof.
  intros [W Mi]. split; [now apply (keeps_wf_add_edge u v g)|].
  unfold nx_add_edge.
  set (g1 := if mem u (keys (succ g)) then g else _).
  destruct (keeps_mirror_bare g u (conj W Mi)) as [W1 M1]. fold g1 in W1, M1.
  set (g2 := if mem v (keys (succ g1)) then g1 else _).
  destruct (keeps_mirror_bare g1 v (conj W1 M1)) as [W2 M2]. fold g2 in W2, M2.
  assert (Iu : In u (keys (succ g2))) by (apply bare_keeps_key, bare_has_key).
  assert (Iv : In v (keys (pred g2))).
  { destruct W2 as [_ [KS [KP _]]]. rewrite KP, <- KS. apply bare_has_key. }
  intros x y. unfold edge, pred_edge. simpl.
  rewrite (lookup_adj_add_iff u v (succ g2) x y Iu).
  rewrite (lookup_adj_add_iff v u (pred g2) y x Iv).
  pose proof (M2 x y) as E. unfold edge, pred_edge in E. tauto.
Qed.

Lemma keeps_mirror_adjust_node f n : preserves keeps_mirror (adjust_node f n).
Proof.
  intros g. pose proof (keeps_wf_adjust_node f n g) as K. revert K.
  unfold adjust_node. destruct (lookup n (node g)); simpl.
  - intros K [W Mi]. split; [now apply K | now apply mirrored_same].
  - intros _. apply keeps_mirror_refl.
Qed.

Lemma keeps_mirror_modify f :
  (forall g, keeps_mirror g (f g)) -> preserves keeps_mirror (modify f).
Proof. intros H g. apply H. Qed.

Ltac mirror_auto :=
  repeat match goal with
    | |- forall _, _ => intro
    | |- preserves _ (ret _) => apply preserves_ret; exact keeps_mirror_refl
    | |- preserves _ (raise _) => apply preserves_raise; exact keeps_mirror_refl
    | |- preserves _ get => apply preserves_get; exact keeps_mirror_refl
    | |- preserves _ (lift _) => apply preserves_lift; exact keeps_mirror_refl
    | |- preserves _ (adjust_node _ _) => apply keeps_mirror_adjust_node
    | |- preserves _ (modify (nx_add_node _ _)) =>
        apply keeps_mirror_modify; intro; apply keeps_mirror_add_node
    | |- preserves _ (modify (nx_add_edge _ _)) =>
        apply keeps_mirror_modify; intro; apply keeps_mirror_add_edge
    | |- preserves _ (bind _ _) => apply preserves_bind; [exact keeps_mirror_trans | | ]
    end.

Lemma keeps_mirror_add_dependency name dv :
  preserves keeps_mirror (add_dependency name dv).
Proof.
  destruct dv as [dep version]. unfold add_dependency.
  apply preserves_bind; [exact keeps_mirror_trans | mirror_auto |].
  intros g0. apply preserves_bind; [exact keeps_mirror_trans | | mirror_auto].
  destruct (negb (mem dep (nodes g0))); mirror_auto.
Qed.

Lemma keeps_mirror_add_recipe render directory platform bits folders deps_type rd :
  preserves keeps_mirror (add_recipe render directory platform bits folders deps_type rd).
Proof.
  unfold add_recipe.
  apply preserves_bind; [exact keeps_mirror_trans | |].
  - destruct (negb (pkg_skip _)); [|mirror_auto].
    apply preserves_bind; [exact keeps_mirror_trans | mirror_auto |].
    intros g0. apply preserves_bind; [exact keeps_mirror_trans | mirror_auto |].
    intros m. destruct (negb (mem _ (nodes g0))); mirror_auto.
  - intros _. apply preserves_bind; [exact keeps_mirror_trans | mirror_auto |].
    intros deps. apply preserves_for_each;
      [exact keeps_mirror_refl | exact keeps_mirror_trans
       | apply keeps_mirror_add_dependency].
Qed.

(** X11. The graph [construct_graph] returns is well formed: no name
    twice among its nodes, a successor and a predecessor list for every
    node, only nodes in them, and the two tell the same edges: [v] is a
    successor of [u] exactly when [u] is a predecessor of [v]. *)
Theorem construct_graph_well_formed
        (getcwd : string) (git_diff_tree : string -> string -> list string)
        (find_recipe : string -> bool) (listdir : string -> list string)
        (isdir : string -> bool) (normpath : string -> string)
        (render : string -> string -> Z -> Pkg)
        (directory platform : string) (bits : Z) (folders : list string)
        (deps_type : Flag) (git_rev stop_rev : option string) (g : DiGraph) :
  construct_graph getcwd git_diff_tree find_recipe listdir isdir normpath render
                  directory platform bits folders deps_type git_rev stop_rev = Ret g ->
  wf_graph g = true /\ forall u v, edge g u v <-> pred_edge g u v.
Proof.
  unfold construct_graph.
  set (body := construct_graph_body _ _ _ _ _ _ _ _ _ _ _ _ _ _).
  assert (P : preserves keeps_mirror body).
  { unfold body, construct_graph_body.
    destruct (negb (isdir _)); [mirror_auto|].
    apply preserves_for_each;
      [exact keeps_mirror_refl | exact keeps_mirror_trans
       | intros rd; apply keeps_mirror_add_recipe]. }
  specialize (P empty_graph).
  destruct (body empty_graph) as [[[]|e|] g1]; try discriminate.
  intros H. inversion H; subst g1. simpl in P.
  destruct P as [W Mi].
  - split; [apply wf_graph_wf_ok; reflexivity|].
    intros u v. split; intros [vs [L _]]; discriminate.
  - split; [now apply wf_graph_wf_ok | exact Mi].
Qed.

(** The three recipes [a -> b -> c]. *)
Lemma construct_graph_well_formed_witness :
  wf_graph Examples.graph_abc = true /\
  forall u v, edge Examples.graph_abc u v <-> pred_edge Examples.graph_abc u v.
Proof.
  apply (construct_graph_well_formed "/" Examples.no_diff Examples.always
           (fun _ => ["a"; "b"; "c"]) Examples.always Examples.same Examples.render_abc
           "/r" "linux" 64 ["a"] Build None None Examples.graph_abc).
  vm_compute. reflexivity.
Defined.

(* ================================================================== *)
(** ** How [construct_graph] ends *)

Lemma forallb_false_ex {A} (f : A -> bool) l :
  forallb f l = false -> exists x, In x l /\ f x = false.
Proof.
  induction l as [|a l IH]; simpl; [discriminate|].
  destruct (f a) eqn:E; simpl.
  - intros H. destruct (IH H) as [x [I F]]. exists x. auto.
  - intros _. exists a. auto.
Qed.

Lemma deps_dict_cases deps :
  if no_blank deps then exists d, _deps_to_version_dict deps = Ret d
  else _deps_to_version_dict deps = Raise IndexError.
Proof.
  destruct (no_blank deps) eqn:E; unfold no_blank in E.
  - destruct (deps_loop_ret deps []) as [d [Ed _]]; [|now exists d].
    intros x I S. apply split_ws_nil in S.
    rewrite forallb_forall in E. specialize (E x I). rewrite S in E. discriminate.
  - apply forallb_false_ex in E. destruct E as [x [I F]].
    apply deps_blank_raises. exists x. split; [exact I|].
    now destruct (all_space x).
Qed.

Lemma describe_meta_cases pkg :
  if (no_blank (requirements_build pkg)
      && no_blank (requirements_run pkg ++ test_requires pkg))%bool
  then exists m, describe_meta pkg = Ret m
  else describe_meta pkg = Raise IndexError.
Proof.
  unfold describe_meta, get_build_deps, get_run_test_deps.
  pose proof (deps_dict_cases (requirements_build pkg)) as B.
  pose proof (deps_dict_cases (requirements_run pkg ++ test_requires pkg)) as R.
  destruct (no_blank (requirements_build pkg)); simpl.
  - destruct B as [bd ->]. simpl.
    destruct (no_blank (requirements_run pkg ++ test_requires pkg)).
    + destruct R as [rt ->]. simpl. eauto.
    + now rewrite R.
  - now rewrite B.
Qed.

Lemma selected_deps_cases deps_type pkg :
  if no_blank (selected_requirements deps_type pkg)
  then exists d, match deps_type with
                 | Build => get_build_deps pkg
                 | _ => get_run_test_deps pkg
                 end = Ret d
  else match deps_type with
       | Build => get_build_deps pkg
       | _ => get_run_test_deps pkg
       end = Raise IndexError.
Proof.
  pose proof (deps_dict_cases (selected_requirements deps_type pkg)) as C.
  destruct deps_type; exact C.
Qed.

Lemma ret_keeps_wf {A} (m : M A) g a g' :
  preserves keeps_wf m -> m g = (Ret a, g') -> wf_ok g -> wf_ok g'.
Proof. intros P E W. specialize (P g). rewrite E in P. now apply P. Qed.

Lemma adjust_node_returns f n g :
  In n (nodes g) ->
  exists g', adjust_node f n g = (Ret tt, g') /\ nodes g' = nodes g.
Proof.
  intros I. destruct (In_keys_lookup n (node g) I) as [a L].
  unfold adjust_node. rewrite L. eexists. split; [reflexivity|].
  unfold nodes. simpl. apply keys_dict_adjust.
Qed.

Lemma add_node_is_node n a g : wf_ok g -> In n (nodes (nx_add_node n a g)).
Proof.
  intros [_ [KS _]]. unfold nx_add_node. destruct (mem n (keys (succ g))) eqn:E.
  - unfold nodes. simpl. rewrite keys_dict_adjust. fold (nodes g). rewrite <- KS.
    now apply mem_In.
  - unfold nodes. simpl. apply In_keys_dict_set. now left.
Qed.

Lemma add_dependency_returns name dv g :
  wf_ok g -> exists g', add_dependency name dv g = (Ret tt, g') /\ wf_ok g'.
Proof.
  intros W. destruct dv as [dep version].
  assert (E : exists g', add_dependency name (dep, version) g = (Ret tt, g')).
  { unfold add_dependency. unfold bind at 1. unfold get at 1. cbv beta iota.
    unfold bind at 1.
    destruct (mem dep (nodes g)) eqn:Md; cbn [negb].
    - unfold ret at 1. cbv beta iota.
      destruct (adjust_node_returns (set_flag Install true) dep g) as [g1 [E1 _]];
        [now apply mem_In|].
      unfold bind. rewrite E1. unfold modify. eauto.
    - unfold modify at 1. cbv beta iota.
      destruct (adjust_node_returns (set_flag Install true) dep
                                    (nx_add_node dep (placeholder version) g))
        as [g1 [E1 _]]; [now apply add_node_is_node|].
      unfold bind. rewrite E1. unfold modify. eauto. }
  destruct E as [g' E]. exists g'. split; [exact E|].
  exact (ret_keeps_wf _ g tt g' (keeps_wf_add_dependency name (dep, version)) E W).
Qed.

Lemma for_each_add_dependency_returns name deps : forall g,
  wf_ok g -> exists g', for_each deps (add_dependency name) g = (Ret tt, g') /\ wf_ok g'.
Proof.
  induction deps as [|dv deps IH]; intros g W; simpl; [unfold ret; eauto|].
  destruct (add_dependency_returns name dv g W) as [g1 [E W1]].
  unfold bind. rewrite E. now apply IH.
Qed.

Section RecipeOutcome.
Variable render : string -> string -> Z -> Pkg.
Variable directory platform : string.
Variable bits : Z.
Variable folders : list string.
Variable deps_type : Flag.

Local Abbreviation pkg_of rd := (render (path_join directory rd) platform bits).
Local Abbreviation visit := (add_recipe render directory platform bits folders deps_type).

(** The step of a recipe returns when the recipe is readable and raises
  [IndexError] when it is not. *)
Lemma add_recipe_cases rd g :
wf_ok g ->
if recipe_readable deps_type (pkg_of rd)
then exists g', visit rd g = (Ret tt, g') /\ wf_ok g'
else exists g', visit rd g = (Raise IndexError, g').
Proof.
intros W. unfold recipe_readable, add_recipe.
set (pkg := pkg_of rd). set (name := pkg_name pkg).
set (rdict := run_dict_of (mem rd folders) deps_type).
set (own := if negb (pkg_skip pkg) then _ else ret tt).
assert (O : if (pkg_skip pkg
                || no_blank (requirements_build pkg)
                   && no_blank (requirements_run pkg ++ test_requires pkg))%bool
            then exists g1, own g = (Ret tt, g1) /\ wf_ok g1
            else own g = (Raise IndexError, g)).
{ unfold own. destruct (pkg_skip pkg); cbn [negb orb]; [unfold ret; eauto|].
  pose proof (describe_meta_cases pkg) as D.
  unfold bind at 1. unfold get at 1. cbv beta iota. unfold bind at 1. unfold lift at 1.
  destruct (no_blank (requirements_build pkg)
            && no_blank (requirements_run pkg ++ test_requires pkg))%bool;
    [|now rewrite D].
  destruct D as [m ->].
  destruct (mem name (nodes g)) eqn:Mn; cbn [negb].
  - apply mem_In in Mn.
    destruct (adjust_node_returns (set_meta m) name g Mn) as [g1 [E1 N1]].
    destruct (adjust_node_returns (set_recipe (path_join directory rd)) name g1)
      as [g2 [E2 N2]]; [now rewrite N1|].
    destruct (adjust_node_returns (attrs_update rdict) name g2) as [g3 [E3 N3]];
      [now rewrite N2, N1|].
    exists g3. split.
    + unfold bind. now rewrite E1, E2, E3.
    + apply (ret_keeps_wf _ g2 tt g3 (keeps_wf_adjust_node _ _) E3).
      apply (ret_keeps_wf _ g1 tt g2 (keeps_wf_adjust_node _ _) E2).
      exact (ret_keeps_wf _ g tt g1 (keeps_wf_adjust_node _ _) E1 W).
  - unfold modify. eexists. split; [reflexivity|]. now apply keeps_wf_add_node. }
pose proof (selected_deps_cases deps_type pkg) as S.
destruct (pkg_skip pkg
          || no_blank (requirements_build pkg)
             && no_blank (requirements_run pkg ++ test_requires pkg))%bool; cbn [andb].
- destruct O as [g1 [E1 W1]].
  destruct (no_blank (selected_requirements deps_type pkg)).
  + destruct S as [deps Ed].
    destruct (for_each_add_dependency_returns name deps g1 W1) as [g2 [E2 W2]].
    exists g2. split; [|exact W2].
    unfold bind at 1. rewrite E1. unfold bind, lift. now rewrite Ed.
  + exists g1. unfold bind at 1. rewrite E1. unfold bind, lift. now rewrite S.
- exists g. unfold bind at 1. now rewrite O.
Qed.

Lemma for_each_add_recipe_cases rds : forall g,
wf_ok g ->
if forallb (fun rd => recipe_readable deps_type (pkg_of rd)) rds
then exists g', for_each rds visit g = (Ret tt, g')
else exists g', for_each rds visit g = (Raise IndexError, g').
Proof.
induction rds as [|rd rds IH]; intros g W; simpl; [unfold ret; eauto|].
pose proof (add_recipe_cases rd g W) as C.
destruct (recipe_readable deps_type (pkg_of rd)); cbn [andb].
- destruct C as [g1 [E W1]]. unfold bind. rewrite E. now apply IH.
- destruct C as [g1 E]. exists g1. unfold bind. now rewrite E.
Qed.
End RecipeOutcome.

Lemma construct_graph_cases
        (getcwd : string) (git_diff_tree : string -> string -> list string)
        (find_recipe : string -> bool) (listdir : string -> list string)
        (isdir : string -> bool) (normpath : string -> string)
        (render : string -> string -> Z -> Pkg)
        (directory platform : string) (bits : Z) (folders : list string)
        (deps_type : Flag) (git_rev stop_rev : option string) :
  match construct_graph getcwd git_diff_tree find_recipe listdir isdir normpath render
                        directory platform bits folders deps_type git_rev stop_rev with
  | Ret _ =>
      isdir (abs_directory getcwd normpath directory) = true /\
      forallb (fun rd => recipe_readable deps_type
                           (render (path_join (abs_directory getcwd normpath directory) rd)
                                   platform bits))
              (recipe_dirs_of find_recipe listdir isdir
                              (abs_directory getcwd normpath directory)) = true
  | Raise e =>
      (e = AssertionError /\ isdir (abs_directory getcwd normpath directory) = false) \/
      (e = IndexError /\
       isdir (abs_directory getcwd normpath directory) = true /\
       forallb (fun rd => recipe_readable deps_type
                            (render (path_join (abs_directory getcwd normpath directory) rd)
                                    platform bits))
               (recipe_dirs_of find_recipe listdir isdir
                               (abs_directory getcwd normpath directory)) = false)
  | Timeout => False
  end.
Proof.
  unfold construct_graph, construct_graph_body.
  fold (abs_directory getcwd normpath directory).
  set (dir := abs_directory getcwd normpath directory).
  fold (recipe_dirs_of find_recipe listdir isdir dir).
  fold (changed_folders getcwd git_diff_tree find_recipe dir folders git_rev stop_rev).
  destruct (isdir dir); cbn [negb]; [|left; auto].
  pose proof (for_each_add_recipe_cases
                render dir platform bits
                (changed_folders getcwd git_diff_tree find_recipe dir folders git_rev stop_rev)
                deps_type (recipe_dirs_of find_recipe listdir isdir dir) empty_graph) as C.
  destruct (forallb _ (recipe_dirs_of find_recipe listdir isdir dir)).
  - destruct C as [g' E]; [apply wf_graph_wf_ok; reflexivity|]. rewrite E. auto.
  - destruct C as [g' E]; [apply wf_graph_wf_ok; reflexivity|]. rewrite E. right. auto.
Qed.

(** X12. What the endings of [construct_graph] tell, rendering and git
    taken as answering. It raises [AssertionError] exactly when the
    directory is not one. When it
    raises [IndexError], a recipe it visits has a blank requirement among
    those it splits: all requirements of a recipe that is not skipped, the
    selected ones of any recipe. When it returns a graph, the directory is
    one and no visited recipe has such a requirement. Its own lookups in
    the graph never fail. *)
Theorem construct_graph_outcome
        (getcwd : string) (git_diff_tree : string -> string -> list string)
        (find_recipe : string -> bool) (listdir : string -> list string)
        (isdir : string -> bool) (normpath : string -> string)
        (render : string -> string -> Z -> Pkg)
        (directory platform : string) (bits : Z) (folders : list string)
        (deps_type : Flag) (git_rev stop_rev : option string) :
  (construct_graph getcwd git_diff_tree find_recipe listdir isdir normpath render
                   directory platform bits folders deps_type git_rev stop_rev
   = Raise AssertionError <->
   isdir (abs_directory getcwd normpath directory) = false) /\
  (construct_graph getcwd git_diff_tree find_recipe listdir isdir normpath render
                   directory platform bits folders deps_type git_rev stop_rev
   = Raise IndexError ->
   exists rd,
     In rd (recipe_dirs_of find_recipe listdir isdir
                           (abs_directory getcwd normpath directory)) /\
     recipe_readable deps_type
       (render (path_join (abs_directory getcwd normpath directory) rd) platform bits)
     = false) /\
  (forall g,
      construct_graph getcwd git_diff_tree find_recipe listdir isdir normpath render
                      directory platform bits folders deps_type git_rev stop_rev
      = Ret g ->
      isdir (abs_directory getcwd normpath directory) = true /\
      forall rd,
        In rd (recipe_dirs_of find_recipe listdir isdir
                              (abs_directory getcwd normpath directory)) ->
        recipe_readable deps_type
          (render (path_join (abs_directory getcwd normpath directory) rd) platform bits)
        = true) /\
  (forall k,
      construct_graph getcwd git_diff_tree find_recipe listdir isdir normpath render
                      directory platform bits folders deps_type git_rev stop_rev
      <> Raise (KeyError k)) /\
  (forall n,
      construct_graph getcwd git_diff_tree find_recipe listdir isdir normpath render
                      directory platform bits folders deps_type git_rev stop_rev
      <> Raise (NetworkXError n)).
Proof.
  pose proof (construct_graph_cases getcwd git_diff_tree find_recipe listdir isdir normpath
                                    render directory platform bits folders deps_type
                                    git_rev stop_rev) as C.
  destruct (construct_graph getcwd git_diff_tree find_recipe listdir isdir normpath render
                            directory platform bits folders deps_type git_rev stop_rev)
    as [g|e|]; [| |contradiction].
  - destruct C as [D R]. split; [|split; [|split; [|split]]]; try discriminate.
    + split; [discriminate | congruence].
    + intros g' _. split; [exact D|]. intros rd I.
      rewrite forallb_forall in R. now apply R.
  - destruct C as [[-> D]|[-> [D R]]]; (split; [|split; [|split; [|split]]]);
      try discriminate.
    + tauto.
    + split; [discriminate | congruence].
    + intros _. apply forallb_false_ex in R. exact R.
Qed.

(* ================================================================== *)
(** ** No edge without a requirement *)

Lemma edges_from_refl Q g : edges_from Q g g.
Proof. intros u v E. now left. Qed.

Lemma edges_from_trans Q g1 g2 g3 :
  edges_from Q g1 g2 -> edges_from Q g2 g3 -> edges_from Q g1 g3.
Proof.
  intros H1 H2 u v E. destruct (H2 u v E) as [E2|q]; [now apply H1 | now right].
Qed.

Lemma edges_from_same Q g nd pd : edges_from Q g (mkGraph nd (succ g) pd).
Proof. intros u v E. now left. Qed.

Lemma edges_from_new Q n g nd pd :
  ~ In n (keys (succ g)) -> edges_from Q g (mkGraph nd (dict_set n [] (succ g)) pd).
Proof.
  intros H u v [vs E]. left. exists vs. simpl in E.
  now apply (lookup_set_new_nil n (succ g) u vs v H).
Qed.

Lemma edges_from_bare Q g u :
  edges_from Q g (if mem u (keys (succ g)) then g
                  else mkGraph (dict_set u no_attrs (node g)) (dict_set u [] (succ g))
                               (dict_set u [] (pred g))).
Proof.
  destruct (mem u (keys (succ g))) eqn:E; [apply edges_from_refl|].
  apply edges_from_new. now apply mem_false.
Qed.

Lemma edges_from_add_node Q n a g : edges_from Q g (nx_add_node n a g).
Proof.
  unfold nx_add_node. destruct (mem n (keys (succ g))) eqn:E.
  - apply edges_from_same.
  - apply edges_from_new. now apply mem_false.
Qed.

Lemma edges_from_add_edge (Q : string -> string -> Prop) u v g :
  Q u v -> edges_from Q g (nx_add_edge u v g).
Proof.
  intros q. unfold nx_add_edge.
  set (g1 := if mem u (keys (succ g)) then g else _).
  set (g2 := if mem v (keys (succ g1)) then g1 else _).
  assert (K1 : edges_from Q g g1) by apply edges_from_bare.
  assert (K2 : edges_from Q g1 g2) by apply edges_from_bare.
  assert (Iu : In u (keys (succ g2))) by (apply bare_keeps_key, bare_has_key).
  apply (edges_from_trans Q g g1); [exact K1|].
  apply (edges_from_trans Q g1 g2); [exact K2|].
  intros x y E. unfold edge in E. simpl in E.
  apply (lookup_adj_add_iff u v (succ g2) x y Iu) in E.
  destruct E as [E|[-> ->]]; [now left | now right].
Qed.

Lemma edges_from_adjust_node Q f n : preserves (edges_from Q) (adjust_node f n).
Proof.
  intros g. unfold adjust_node. destruct (lookup n (node g)); simpl.
  - apply edges_from_same.
  - apply edges_from_refl.
Qed.

Lemma edges_from_add_dependency (Q : string -> string -> Prop) name dv :
  Q name (fst dv) -> preserves (edges_from Q) (add_dependency name dv).
Proof.
  intros q. destruct dv as [dep version]. simpl in q. unfold add_dependency.
  apply preserves_bind; [exact (edges_from_trans Q) | |].
  { apply preserves_get. exact (edges_from_refl Q). }
  intros g0. apply preserves_bind; [exact (edges_from_trans Q) | |].
  { destruct (negb (mem dep (nodes g0))).
    - intros g. apply edges_from_add_node.
    - apply preserves_ret. exact (edges_from_refl Q). }
  intros _. apply preserves_bind; [exact (edges_from_trans Q) | |].
  { apply edges_from_adjust_node. }
  intros _ g. now apply edges_from_add_edge.
Qed.

Section EdgesOnly.
Variable render : string -> string -> Z -> Pkg.
Variable directory platform : string.
Variable bits : Z.
Variable folders : list string.
Variable deps_type : Flag.

Local Abbreviation pkg_of rd := (render (path_join directory rd) platform bits).

(** The edges that the recipe directories [rds] ask for. *)
Let asked (rds : list string) (u v : string) : Prop :=
exists rd deps,
  In rd rds /\ u = pkg_name (pkg_of rd) /\
  selected_deps deps_type (pkg_of rd) = Ret deps /\ In v (keys deps).

Lemma edges_from_add_recipe rds rd :
In rd rds ->
preserves (edges_from (asked rds))
          (add_recipe render directory platform bits folders deps_type rd).
Proof.
intros I. unfold add_recipe.
apply preserves_bind; [exact (edges_from_trans _) | |].
- destruct (negb (pkg_skip _)); [|apply preserves_ret; exact (edges_from_refl _)].
  apply preserves_bind; [exact (edges_from_trans _) | |].
  { apply preserves_get. exact (edges_from_refl _). }
  intros g0. apply preserves_bind; [exact (edges_from_trans _) | |].
  { apply preserves_lift. exact (edges_from_refl _). }
  intros m. destruct (negb (mem _ (nodes g0))).
  + intros g. apply edges_from_add_node.
  + apply preserves_bind;
      [exact (edges_from_trans _) | apply edges_from_adjust_node | intros _].
    apply preserves_bind;
      [exact (edges_from_trans _) | apply edges_from_adjust_node | intros _].
    apply edges_from_adjust_node.
- intros _ g. unfold bind, lift.
  fold (selected_deps deps_type (pkg_of rd)).
  destruct (selected_deps deps_type (pkg_of rd)) as [deps|e|] eqn:S;
    try apply edges_from_refl.
  apply preserves_for_each_In;
    [exact (edges_from_refl _) | exact (edges_from_trans _) |].
  intros [dep version] Id. apply edges_from_add_dependency. simpl.
  exists rd, deps. repeat split; auto.
  unfold keys. apply in_map_iff. exists (dep, version). auto.
Qed.
End EdgesOnly.

(** X13. The graph [construct_graph] returns has no edge but those the
    recipes ask for: every edge leaves the package of a recipe directory
    visited and enters a dependency of the selected requirement set of
    that recipe. *)
Theorem construct_graph_edges_only
        (getcwd : string) (git_diff_tree : string -> string -> list string)
        (find_recipe : string -> bool) (listdir : string -> list string)
        (isdir : string -> bool) (normpath : string -> string)
        (render : string -> string -> Z -> Pkg)
        (directory platform : string) (bits : Z) (folders : list string)
        (deps_type : Flag) (git_rev stop_rev : option string) (g : DiGraph)
        (u v : string) :
  construct_graph getcwd git_diff_tree find_recipe listdir isdir normpath render
                  directory platform bits folders deps_type git_rev stop_rev = Ret g ->
  edge g u v ->
  exists rd deps,
    In rd (recipe_dirs_of find_recipe listdir isdir
                          (abs_directory getcwd normpath directory)) /\
    u = pkg_name (render (path_join (abs_directory getcwd normpath directory) rd)
                         platform bits) /\
    selected_deps deps_type
                  (render (path_join (abs_directory getcwd normpath directory) rd)
                          platform bits) = Ret deps /\
    In v (keys deps).
Proof.
  intros H E. apply construct_graph_ret in H. destruct H as [_ H].
  set (dir := abs_directory getcwd normpath directory) in *.
  set (rds := recipe_dirs_of find_recipe listdir isdir dir) in *.
  set (fs := changed_folders getcwd git_diff_tree find_recipe dir folders git_rev stop_rev)
    in *.
  assert (P : preserves
                (edges_from (fun u v =>
                   exists rd deps,
                     In rd rds /\ u = pkg_name (render (path_join dir rd) platform bits) /\
                     selected_deps deps_type (render (path_join dir rd) platform bits)
                     = Ret deps /\ In v (keys deps)))
                (for_each rds (add_recipe render dir platform bits fs deps_type))).
  { apply preserves_for_each_In;
      [exact (edges_from_refl _) | exact (edges_from_trans _) |].
    intros rd I. exact (edges_from_add_recipe render dir platform bits fs deps_type rds rd I). }
  specialize (P empty_graph). rewrite H in P. simpl in P.
  destruct (P u v E) as [[vs [L _]]|Q]; [discriminate | exact Q].
Qed.

(** The edge from [b] to [c] among the three recipes [a -> b -> c]. *)
Lemma construct_graph_edges_only_witness :
  exists rd deps,
    In rd (recipe_dirs_of Examples.always (fun _ => ["a"; "b"; "c"]) Examples.always
                          (abs_directory "/" Examples.same "/r")) /\
    "b" = pkg_name (Examples.render_abc
                      (path_join (abs_directory "/" Examples.same "/r") rd) "linux" 64) /\
    selected_deps Build
                  (Examples.render_abc
                     (path_join (abs_directory "/" Examples.same "/r") rd) "linux" 64)
    = Ret deps /\
    In "c" (keys deps).
Proof.
  apply (construct_graph_edges_only "/" Examples.no_diff Examples.always
           (fun _ => ["a"; "b"; "c"]) Examples.always Examples.same Examples.render_abc
           "/r" "linux" 64 ["a"] Build None None Examples.graph_abc "b" "c").
  - vm_compute. reflexivity.
  - exists ["c"]. split; [reflexivity | now left].
Defined.

(* ================================================================== *)
(** ** The temporary graph of [order_build] *)

Lemma copy_node_data_lookup graph ns : forall acc hnode,
  copy_node_data graph ns acc = Ret hnode ->
  (forall n, In n ns -> lookup n hnode = lookup n (node graph)) /\
  (forall n, ~ In n ns -> lookup n hnode = lookup n acc).
Proof.
  induction ns as [|k ns IH]; intros acc hnode H; simpl in H.
  - inversion H; subst. split; [intros n [] | reflexivity].
  - destruct (lookup k (node graph)) as [a|] eqn:L; [|discriminate].
    destruct (IH _ _ H) as [A B]. split.
    + intros n I. destruct (in_dec string_dec n ns) as [J|J]; [now apply A|].
      destruct I as [<-|I]; [|contradiction].
      rewrite (B k J), lookup_dict_set, String.eqb_refl. now rewrite L.
    + intros n I. rewrite (B n (fun J => I (or_intror J))), lookup_dict_set.
      destruct (String.eqb_spec n k) as [->|N]; [|reflexivity].
      elim I. now left.
Qed.

Section OrderBuildGraph.
Variable graph : DiGraph.
Hypothesis wf : wf_graph graph = true.
Variable packages : option (list string).
Variable level : Z.
Variable filter_dirty : bool.

Local Abbreviation sel := (selected graph packages filter_dirty).

Lemma order_build_tmp fuel tmp order :
order_build fuel graph packages level filter_dirty = Ret (tmp, order) ->
(forall n, In n (nodes tmp) <-> In n sel /\ In n (nodes graph)) /\
(forall n, In n (nodes tmp) -> attrs_of tmp n = attrs_of graph n) /\
(forall u v, edge tmp u v <-> induced_edge graph sel u v) /\
topological_sort fuel tmp true = Ret order.
Proof.
intros H.
destruct (wf_graph_ok graph wf) as [KG CG].
assert (Hb : forall n, In n (nbunch_iter graph sel) -> In n (nodes graph)).
{ intros n I. apply filter_In in I. destruct I as [_ I]. apply KG. now apply mem_In. }
destruct (copy_nodes_ret graph (nbunch_iter graph sel) [] Hb) as [hnode [Ec Kc]].
set (hs := keys hnode).
assert (Hs : forall n, In n hs <-> In n sel /\ In n (nodes graph)).
{ intros n. unfold hs. rewrite Kc. simpl. unfold nbunch_iter. rewrite filter_In.
  pose proof (KG n). pose proof (mem_In n (keys (succ graph))). tauto. }
set (hsucc := map (fun u => (u, kept_successors graph hs u)) hs).
set (hpred := fold_left
                (fun acc u =>
                   fold_left (fun acc' v => adj_add v u acc')
                             (kept_successors graph hs u) acc)
                hs (map (fun u => (u, @nil string)) hs)).
assert (Es : subgraph graph sel = Ret (mkGraph hnode hsucc hpred)).
{ unfold subgraph. rewrite Ec. reflexivity. }
destruct (copy_node_data_ret graph hs hnode) as [hnode' [Ed Kd]].
{ intros n I. split; [now apply Hs | exact I]. }
destruct (copy_node_data_lookup graph hs hnode hnode' Ed) as [La _].
set (tmp0 := mkGraph hnode' hsucc hpred).
assert (Nt : nodes tmp0 = hs) by exact Kd.
assert (Et : forall u v, edge tmp0 u v <-> In u hs /\ In v hs /\ edge graph u v).
{ intros u v. unfold edge at 1. simpl. unfold hsucc. split.
  - intros [vs [L I]]. rewrite lookup_map_key in L.
    destruct (mem u hs) eqn:Mu; [|discriminate]. inversion L; subst vs.
    unfold kept_successors in I.
    destruct (lookup u (succ graph)) as [vs0|] eqn:L0; [|destruct I].
    apply filter_In in I. destruct I as [I M].
    split; [now apply mem_In|]. split; [now apply mem_In|]. exists vs0. auto.
  - intros [Iu [Iv [vs0 [L0 I0]]]]. exists (kept_successors graph hs u).
    rewrite lookup_map_key. apply mem_In in Iu. rewrite Iu. split; [reflexivity|].
    unfold kept_successors. rewrite L0. apply filter_In. split; [exact I0|].
    now apply mem_In. }
assert (U : order_build fuel graph packages level filter_dirty =
            match topological_sort fuel tmp0 true with
            | Ret order => Ret (tmp0, order)
            | Raise NetworkXUnfeasible =>
                obind (find_cycle fuel tmp0) (fun cycle =>
                Raise (ValueError ("Cycles detected in graph: " ++ repr_edges cycle)))
            | Raise e => Raise e
            | Timeout => Timeout
            end).
{ unfold order_build. fold sel. rewrite Es. simpl.
  unfold nodes at 1. simpl. fold hs. rewrite Ed. reflexivity. }
rewrite U in H.
destruct (topological_sort fuel tmp0 true) as [ord|e|] eqn:T;
  [|destruct e; try discriminate; destruct (find_cycle fuel tmp0); discriminate
   |discriminate].
inversion H; subst tmp order. clear H.
split; [|split; [|split]].
- intros n. rewrite Nt. apply Hs.
- intros n I. rewrite Nt in I. unfold attrs_of. simpl. now rewrite (La n I).
- intros u v. rewrite Et. unfold induced_edge. rewrite !Hs. split; [tauto|].
  intros [Iu [Iv E]]. repeat split; auto.
  + destruct E as [vs [L _]]. apply KG. eapply lookup_In_keys; eassumption.
  + destruct E as [vs [L I]]. eapply CG; eassumption.
- exact T.
Qed.
End OrderBuildGraph.

(** X14. The temporary graph that [order_build] returns beside the
    order: its nodes are the selected packages that the graph has, each
    with the attributes it has in the graph; its edges are the edges of
    the graph between two of them; and the order lists each of its nodes
    once. *)
Theorem order_build_subgraph
        (fuel : nat) (graph : DiGraph)
        (packages : option (list string)) (level : Z) (filter_dirty : bool)
        (tmp : DiGraph) (order : list string) :
  wf_graph graph = true ->
  order_build fuel graph packages level filter_dirty = Ret (tmp, order) ->
  (forall n, In n (nodes tmp) <->
             In n (selected graph packages filter_dirty) /\ In n (nodes graph)) /\
  (forall n, In n (nodes tmp) -> attrs_of tmp n = attrs_of graph n) /\
  (forall u v, edge tmp u v <->
               induced_edge graph (selected graph packages filter_dirty) u v) /\
  NoDup order /\
  (forall n, In n (nodes tmp) -> In n order).
Proof.
  intros W H.
  destruct (order_build_tmp graph W packages level filter_dirty fuel tmp order H)
    as [N [A [E T]]].
  destruct (topological_sort_sound tmp fuel order T) as [ND [I _]].
  split; [exact N|]. split; [exact A|]. split; [exact E|]. split; [exact ND | exact I].
Qed.

(** The three recipes [a -> b -> c], of which [a] and [c] are asked for. *)
Lemma order_build_subgraph_witness :
  exists tmp order,
    order_build 20 Examples.graph_abc (Some ["a"; "c"]) 0 true
    = Ret (tmp, order) /\
    (forall n, In n (nodes tmp) <->
               In n (selected Examples.graph_abc (Some ["a"; "c"]) true) /\
               In n (nodes Examples.graph_abc)) /\
    (forall n, In n (nodes tmp) -> attrs_of tmp n = attrs_of Examples.graph_abc n) /\
    (forall u v, edge tmp u v <->
                 induced_edge Examples.graph_abc
                              (selected Examples.graph_abc (Some ["a"; "c"]) true) u v) /\
    NoDup order /\
    (forall n, In n (nodes tmp) -> In n order).
Proof.
  eexists. eexists. split; [vm_compute; reflexivity|].
  apply (order_build_subgraph 20 Examples.graph_abc
                              (Some ["a"; "c"]) 0 true).
  - reflexivity.
  - vm_compute. reflexivity.
Defined.

(* ================================================================== *)
(** ** Dependencies without a recipe *)

Lemma nx_add_edge_unfold u v g :
  nx_add_edge u v g =
  mkGraph (node (with_bare v (with_bare u g)))
          (adj_add u v (succ (with_bare v (with_bare u g))))
          (adj_add v u (pred (with_bare v (with_bare u g)))).
Proof. reflexivity. Qed.

Lemma untouched_refl n g : untouched n g g.
Proof. intros K. split; [exact K|]. split; [tauto | reflexivity]. Qed.

Lemma untouched_trans n g1 g2 g3 :
  untouched n g1 g2 -> untouched n g2 g3 -> untouched n g1 g3.
Proof.
  intros H1 H2 K. destruct (H1 K) as [K2 [I2 A2]]. destruct (H2 K2) as [K3 [I3 A3]].
  split; [exact K3|]. split; [tauto | congruence].
Qed.

Lemma untouched_same_keys n g nd :
  keys nd = keys (node g) -> lookup n nd = lookup n (node g) ->
  untouched n g (mkGraph nd (succ g) (pred g)).
Proof.
  intros Ek El K. split; [|split].
  - intros x. unfold nodes. simpl. rewrite Ek. apply K.
  - unfold nodes. simpl. now rewrite Ek.
  - unfold attrs_of. simpl. now rewrite El.
Qed.

Lemma untouched_new n m a g sd pd :
  m <> n -> keys sd = keys (dict_set m [] (succ g)) ->
  untouched n g (mkGraph (dict_set m a (node g)) sd pd).
Proof.
  intros N Es K. split; [|split].
  - intros x. unfold nodes. simpl. rewrite Es, !In_keys_dict_set.
    specialize (K x). unfold nodes in K. tauto.
  - unfold nodes. simpl. rewrite In_keys_dict_set. split; [|tauto].
    intros [E|I]; [congruence | exact I].
  - unfold attrs_of. simpl. rewrite lookup_dict_set.
    destruct (String.eqb_spec n m); [congruence | reflexivity].
Qed.

Lemma untouched_bare n u g : u <> n -> untouched n g (with_bare u g).
Proof.
  intros N. unfold with_bare. destruct (mem u (keys (succ g))).
  - apply untouched_refl.
  - now apply untouched_new.
Qed.

Lemma untouched_add_node n m a g : m <> n -> untouched n g (nx_add_node m a g).
Proof.
  intros N. unfold nx_add_node. destruct (mem m (keys (succ g))).
  - apply untouched_same_keys; [apply keys_dict_adjust|].
    rewrite lookup_dict_adjust. destruct (String.eqb_spec n m); [congruence | reflexivity].
  - now apply untouched_new.
Qed.

Lemma untouched_adjacency n g sd pd :
  keys sd = keys (succ g) -> untouched n g (mkGraph (node g) sd pd).
Proof.
  intros Es K. split; [|split; [tauto | reflexivity]].
  intros x. unfold nodes. simpl. rewrite Es. apply K.
Qed.

Lemma untouched_add_edge n u v g :
  u <> n -> v <> n -> untouched n g (nx_add_edge u v g).
Proof.
  intros Nu Nv. rewrite nx_add_edge_unfold.
  eapply untouched_trans; [apply (untouched_bare n u g Nu)|].
  eapply untouched_trans; [apply (untouched_bare n v _ Nv)|].
  apply untouched_adjacency. unfold adj_add. apply keys_dict_adjust.
Qed.

Lemma untouched_adjust_node n f m :
  m <> n -> preserves (untouched n) (adjust_node f m).
Proof.
  intros N g. unfold adjust_node. destruct (lookup m (node g)); simpl;
    [|apply untouched_refl].
  apply untouched_same_keys; [apply keys_dict_adjust|].
  rewrite lookup_dict_adjust. destruct (String.eqb_spec n m); [congruence | reflexivity].
Qed.

Lemma untouched_add_dependency n name dv :
  name <> n -> fst dv <> n -> preserves (untouched n) (add_dependency name dv).
Proof.
  destruct dv as [dep version]. simpl. intros Nn Nd. unfold add_dependency.
  apply preserves_bind; [exact (untouched_trans n) | |].
  { apply preserves_get. exact (untouched_refl n). }
  intros g0. apply preserves_bind; [exact (untouched_trans n) | |].
  { destruct (negb (mem dep (nodes g0))).
    - intros g. now apply untouched_add_node.
    - apply preserves_ret. exact (untouched_refl n). }
  intros _. apply preserves_bind; [exact (untouched_trans n) | |].
  { now apply untouched_adjust_node. }
  intros _ g. now apply untouched_add_edge.
Qed.

Lemma fixed_refl n g : fixed n g g.
Proof. intros K. split; auto. Qed.

Lemma fixed_trans n g1 g2 g3 : fixed n g1 g2 -> fixed n g2 g3 -> fixed n g1 g3.
Proof.
  intros H1 H2 K. destruct (H1 K) as [K2 A]. destruct (H2 K2) as [K3 B].
  split; [exact K3|]. intros I F. destruct (A I F) as [I2 E2].
  destruct (B I2) as [I3 E3]; [congruence|]. split; [exact I3 | congruence].
Qed.

Lemma fixed_of_untouched n g g' : untouched n g g' -> fixed n g g'.
Proof.
  intros U K. destruct (U K) as [K' [I A]]. split; [exact K'|].
  intros J _. split; [now apply I | exact A].
Qed.

Lemma fixed_install n m : preserves (fixed n) (adjust_node (set_flag Install true) m).
Proof.
  destruct (String.eqb_spec m n) as [->|N];
    [|intros g; apply fixed_of_untouched; now apply untouched_adjust_node].
  intros g. unfold adjust_node. destruct (lookup n (node g)) as [a|] eqn:L; simpl;
    [|apply fixed_refl].
  intros K. split.
  - intros x. unfold nodes. simpl. rewrite keys_dict_adjust. apply K.
  - intros I F. unfold nodes. simpl. rewrite keys_dict_adjust. split; [exact I|].
    rewrite attrs_of_adjust, String.eqb_refl, L.
    unfold attrs_of in *. rewrite L in *. now apply set_flag_id.
Qed.

Lemma with_bare_present u g : adj_keys_ok g -> In u (nodes g) -> with_bare u g = g.
Proof.
  intros K I. unfold with_bare. apply K in I. apply mem_In in I. now rewrite I.
Qed.

Lemma fixed_add_edge n u v g : u <> n -> fixed n g (nx_add_edge u v g).
Proof.
  intros Nu. destruct (String.eqb_spec v n) as [->|Nv];
    [|apply fixed_of_untouched; now apply untouched_add_edge].
  intros K.
  destruct (untouched_bare n u g Nu K) as [K1 [I1 A1]].
  split.
  - rewrite nx_add_edge_unfold. intros x. unfold nodes, adj_add. simpl.
    rewrite keys_dict_adjust.
    assert (K2 : adj_keys_ok (with_bare n (with_bare u g))).
    { unfold with_bare at 1. destruct (mem n (keys (succ (with_bare u g)))); [exact K1|].
      intros y. unfold nodes. simpl. rewrite !In_keys_dict_set.
      specialize (K1 y). unfold nodes in K1. tauto. }
    apply K2.
  - intros I _. rewrite nx_add_edge_unfold.
    rewrite (with_bare_present n (with_bare u g) K1) by now apply I1.
    split; [now apply I1 | exact A1].
Qed.

Lemma fixed_add_dependency n name dv :
  name <> n -> preserves (fixed n) (add_dependency name dv).
Proof.
  destruct dv as [dep version]. intros Nn g. unfold add_dependency.
  unfold bind at 1. unfold get at 1. cbv beta iota.
  apply bind_rel; [exact (fixed_trans n) | |].
  - destruct (mem dep (nodes g)) eqn:M; simpl; [apply fixed_refl|].
    destruct (String.eqb_spec dep n) as [->|Nd].
    + intros K. split.
      * destruct (untouched_refl n g K) as [_ _].
        unfold nx_add_node. apply mem_false in M.
        assert (Ms : mem n (keys (succ g)) = false).
        { destruct (mem n (keys (succ g))) eqn:E; [|reflexivity].
          apply mem_In in E. elim M. now apply K. }
        rewrite Ms. intros x. unfold nodes. simpl. rewrite !In_keys_dict_set.
        specialize (K x). unfold nodes in K. tauto.
      * intros I. apply mem_false in M. contradiction.
    + apply fixed_of_untouched. now apply untouched_add_node.
  - intros _. apply preserves_bind; [exact (fixed_trans n) | apply fixed_install |].
    intros _ g1. now apply fixed_add_edge.
Qed.

Section Placeholder.
Variable render : string -> string -> Z -> Pkg.
Variable directory platform : string.
Variable bits : Z.
Variable folders : list string.
Variable deps_type : Flag.
Variable n : string.

Local Abbreviation pkg_of rd := (render (path_join directory rd) platform bits).
Local Abbreviation visit := (add_recipe render directory platform bits folders deps_type).

Lemma untouched_own rd g0 m :
pkg_name (pkg_of rd) <> n ->
preserves (untouched n)
          (if negb (mem (pkg_name (pkg_of rd)) (nodes g0))
           then modify (nx_add_node (pkg_name (pkg_of rd))
                          (attrs_update (run_dict_of (mem rd folders) deps_type)
                             (mkAttrs (Some m) (Some (path_join directory rd))
                                      None None None)))
           else adjust_node (set_meta m) (pkg_name (pkg_of rd)) ;;;
                adjust_node (set_recipe (path_join directory rd)) (pkg_name (pkg_of rd)) ;;;
                adjust_node (attrs_update (run_dict_of (mem rd folders) deps_type))
                            (pkg_name (pkg_of rd)))%M.
Proof.
intros N. destruct (negb (mem _ (nodes g0))).
- intros g. now apply untouched_add_node.
- apply preserves_bind;
    [exact (untouched_trans n) | now apply untouched_adjust_node | intros _].
  apply preserves_bind;
    [exact (untouched_trans n) | now apply untouched_adjust_node | intros _].
  now apply untouched_adjust_node.
Qed.

Lemma add_recipe_parts rd g g' :
visit rd g = (Ret tt, g') ->
exists ga deps,
  selected_deps deps_type (pkg_of rd) = Ret deps /\
  for_each deps (add_dependency (pkg_name (pkg_of rd))) ga = (Ret tt, g') /\
  (pkg_name (pkg_of rd) <> n -> untouched n g ga).
Proof.
unfold add_recipe. intros H.
apply bind_ret_inv in H. destruct H as [[] [ga [Ho H]]].
apply bind_ret_inv in H. destruct H as [deps [ga' [Hl H]]].
unfold lift in Hl. fold (selected_deps deps_type (pkg_of rd)) in Hl.
inversion Hl; subst ga'. exists ga, deps. split; [assumption|]. split; [exact H|].
intros N.
assert (P : preserves (untouched n)
              (if negb (pkg_skip (pkg_of rd)) then
                 (g0 <- get ;;
                  m <- lift (describe_meta (pkg_of rd)) ;;
                  if negb (mem (pkg_name (pkg_of rd)) (nodes g0))
                  then modify (nx_add_node (pkg_name (pkg_of rd))
                                 (attrs_update (run_dict_of (mem rd folders) deps_type)
                                    (mkAttrs (Some m) (Some (path_join directory rd))
                                             None None None)))
                  else adjust_node (set_meta m) (pkg_name (pkg_of rd)) ;;;
                       adjust_node (set_recipe (path_join directory rd))
                                   (pkg_name (pkg_of rd)) ;;;
                       adjust_node (attrs_update (run_dict_of (mem rd folders) deps_type))
                                   (pkg_name (pkg_of rd)))%M
               else ret tt)).
{ destruct (negb (pkg_skip (pkg_of rd)));
    [|apply preserves_ret; exact (untouched_refl n)].
  apply preserves_bind; [exact (untouched_trans n) | |].
  { apply preserves_get. exact (untouched_refl n). }
  intros g0. apply preserves_bind; [exact (untouched_trans n) | |].
  { apply preserves_lift. exact (untouched_refl n). }
  intros m. now apply untouched_own. }
specialize (P g). rewrite Ho in P. exact P.
Qed.

Lemma for_each_untouched name deps : forall g,
name <> n -> ~ In n (keys deps) ->
untouched n g (snd (for_each deps (add_dependency name) g)).
Proof.
intros g Nn Nd.
apply preserves_for_each_In; [exact (untouched_refl n) | exact (untouched_trans n) |].
intros dv I. apply untouched_add_dependency; [exact Nn|].
intros E. apply Nd. rewrite <- E. unfold keys. now apply in_map.
Qed.

Lemma for_each_fixed name deps : forall g,
name <> n -> fixed n g (snd (for_each deps (add_dependency name) g)).
Proof.
intros g Nn.
apply preserves_for_each; [exact (fixed_refl n) | exact (fixed_trans n) |].
intros dv. now apply fixed_add_dependency.
Qed.

Lemma untouched_add_recipe rd g g' :
pkg_name (pkg_of rd) <> n ->
(forall deps, selected_deps deps_type (pkg_of rd) = Ret deps -> ~ In n (keys deps)) ->
visit rd g = (Ret tt, g') -> untouched n g g'.
Proof.
intros Nn Nd H. destruct (add_recipe_parts rd g g' H) as [ga [deps [S [F U]]]].
apply (untouched_trans n g ga g'); [now apply U|].
pose proof (for_each_untouched (pkg_name (pkg_of rd)) deps ga Nn (Nd deps S)) as P.
now rewrite F in P.
Qed.

Lemma fixed_add_recipe rd g g' :
pkg_name (pkg_of rd) <> n -> visit rd g = (Ret tt, g') -> fixed n g g'.
Proof.
intros Nn H. destruct (add_recipe_parts rd g g' H) as [ga [deps [S [F U]]]].
apply (fixed_trans n g ga g'); [apply fixed_of_untouched; now apply U|].
pose proof (for_each_fixed (pkg_name (pkg_of rd)) deps ga Nn) as P.
now rewrite F in P.
Qed.

(** Where the dependency enters the graph. *)
Lemma add_dependency_creates name version g g' :
name <> n -> adj_keys_ok g -> ~ In n (nodes g) ->
add_dependency name (n, version) g = (Ret tt, g') ->
adj_keys_ok g' /\ In n (nodes g') /\
attrs_of g' n = set_flag Install true (placeholder version).
Proof.
intros Nn K A H. unfold add_dependency in H.
unfold bind at 1 in H. unfold get at 1 in H. cbv beta iota in H.
assert (M : mem n (nodes g) = false).
{ destruct (mem n (nodes g)) eqn:E; [|reflexivity]. apply mem_In in E. contradiction. }
rewrite M in H. cbn [negb] in H.
unfold bind at 1 in H. unfold modify at 1 in H. cbv beta iota in H.
assert (Ms : mem n (keys (succ g)) = false).
{ destruct (mem n (keys (succ g))) eqn:E; [|reflexivity].
  apply mem_In in E. elim A. now apply K. }
set (g1 := nx_add_node n (placeholder version) g) in *.
assert (E1 : g1 = mkGraph (dict_set n (placeholder version) (node g))
                          (dict_set n [] (succ g)) (dict_set n [] (pred g))).
{ unfold g1, nx_add_node. now rewrite Ms. }
assert (K1 : adj_keys_ok g1).
{ rewrite E1. intros x. unfold nodes. simpl. rewrite !In_keys_dict_set.
  specialize (K x). unfold nodes in K. tauto. }
assert (L1 : lookup n (node g1) = Some (placeholder version)).
{ rewrite E1. simpl. now rewrite lookup_dict_set, String.eqb_refl. }
unfold bind at 1 in H. unfold adjust_node at 1 in H. rewrite L1 in H.
set (g2 := mkGraph (dict_adjust (set_flag Install true) n (node g1)) (succ g1) (pred g1))
  in *.
assert (K2 : adj_keys_ok g2).
{ intros x. unfold g2, nodes. simpl. rewrite keys_dict_adjust. apply K1. }
assert (I2 : In n (nodes g2)).
{ unfold g2, nodes. simpl. rewrite keys_dict_adjust. eapply lookup_In_keys. exact L1. }
assert (A2 : attrs_of g2 n = set_flag Install true (placeholder version)).
{ unfold g2. rewrite attrs_of_adjust, String.eqb_refl, L1. reflexivity. }
unfold modify in H. inversion H; subst g'. clear H.
destruct (fixed_add_edge n name n g2 Nn K2) as [K3 F3].
destruct (F3 I2) as [I3 A3]; [now rewrite A2|].
split; [exact K3|]. split; [exact I3 | congruence].
Qed.

Lemma lookup_split {V} (d : dict V) k v :
lookup k d = Some v -> exists d1 d2, d = d1 ++ (k, v) :: d2 /\ ~ In k (keys d1).
Proof.
induction d as [|[k0 v0] d IH]; simpl; [discriminate|].
destruct (String.eqb_spec k k0) as [->|N].
- intros E. inversion E; subst. exists [], d. split; [reflexivity | intros []].
- intros L. destruct (IH L) as [d1 [d2 [E A]]]. exists ((k0, v0) :: d1), d2.
  split; [simpl; now rewrite E|]. simpl. intros [J|J]; [congruence | contradiction].
Qed.

Lemma placeholder_enters rd version deps g g' :
pkg_name (pkg_of rd) <> n ->
selected_deps deps_type (pkg_of rd) = Ret deps -> lookup n deps = Some version ->
adj_keys_ok g -> ~ In n (nodes g) ->
visit rd g = (Ret tt, g') ->
adj_keys_ok g' /\ In n (nodes g') /\
attrs_of g' n = set_flag Install true (placeholder version).
Proof.
intros Nn S L K A H.
destruct (add_recipe_parts rd g g' H) as [ga [deps' [S' [F U]]]].
rewrite S in S'. inversion S'; subst deps'. clear S'.
destruct (U Nn K) as [Ka [Ia _]].
destruct (lookup_split deps n version L) as [d1 [d2 [E N1]]]. rewrite E in F.
apply for_each_ret_inv in F. destruct F as [gb [gc [F1 [F2 F3]]]].
pose proof (for_each_untouched (pkg_name (pkg_of rd)) d1 ga Nn N1) as U1.
rewrite F1 in U1. cbn [snd] in U1. destruct (U1 Ka) as [Kb [Ib _]].
destruct (add_dependency_creates (pkg_name (pkg_of rd)) version gb gc Nn Kb) as [Kc [Ic Ac]];
  [tauto | exact F2 |].
pose proof (for_each_fixed (pkg_name (pkg_of rd)) d2 gc Nn) as P.
rewrite F3 in P. cbn [snd] in P. destruct (P Kc) as [K' F'].
destruct (F' Ic) as [I' A']; [now rewrite Ac|].
split; [exact K'|]. split; [exact I' | congruence].
Qed.

Lemma for_each_recipes_untouched rds : forall g g',
(forall rd, In rd rds -> pkg_name (pkg_of rd) <> n) ->
(forall rd deps, In rd rds -> selected_deps deps_type (pkg_of rd) = Ret deps ->
                 ~ In n (keys deps)) ->
for_each rds visit g = (Ret tt, g') -> untouched n g g'.
Proof.
induction rds as [|rd rds IH]; intros g g' Nn Nd H; simpl in H.
- unfold ret in H. inversion H. apply untouched_refl.
- apply bind_ret_inv in H. destruct H as [[] [g1 [H1 H]]].
  apply (untouched_trans n g g1 g').
  + apply (untouched_add_recipe rd); [apply Nn; now left | | exact H1].
    intros deps. apply Nd. now left.
  + apply IH; [intros x I; apply Nn; now right | | exact H].
    intros x deps I. apply Nd. now right.
Qed.

Lemma for_each_recipes_fixed rds : forall g g',
(forall rd, In rd rds -> pkg_name (pkg_of rd) <> n) ->
for_each rds visit g = (Ret tt, g') -> fixed n g g'.
Proof.
induction rds as [|rd rds IH]; intros g g' Nn H; simpl in H.
- unfold ret in H. inversion H. apply fixed_refl.
- apply bind_ret_inv in H. destruct H as [[] [g1 [H1 H]]].
  apply (fixed_trans n g g1 g').
  + apply (fixed_add_recipe rd); [apply Nn; now left | exact H1].
  + apply IH; [intros x I; apply Nn; now right | exact H].
Qed.
End Placeholder.

(** X15. A dependency that none of the recipes visited produces is a
    node without recipe, with no build and no test flag, with its install
    flag set, and with the placeholder metadata whose version is the
    constraint of the first recipe, in the order of the visit, that asks
    for it; what later recipes ask of it is not recorded. *)
Theorem construct_graph_placeholder
        (getcwd : string) (git_diff_tree : string -> string -> list string)
        (find_recipe : string -> bool) (listdir : string -> list string)
        (isdir : string -> bool) (normpath : string -> string)
        (render : string -> string -> Z -> Pkg)
        (directory platform : string) (bits : Z) (folders : list string)
        (deps_type : Flag) (git_rev stop_rev : option string) (g : DiGraph)
        (before after : list string) (rd dep version : string) (deps : dict string) :
  construct_graph getcwd git_diff_tree find_recipe listdir isdir normpath render
                  directory platform bits folders deps_type git_rev stop_rev = Ret g ->
  recipe_dirs_of find_recipe listdir isdir (abs_directory getcwd normpath directory)
  = before ++ rd :: after ->
  (forall rd', In rd' (before ++ rd :: after) ->
               pkg_name (render (path_join (abs_directory getcwd normpath directory) rd')
                                platform bits) <> dep) ->
  (forall rd' deps',
      In rd' before ->
      selected_deps deps_type
                    (render (path_join (abs_directory getcwd normpath directory) rd')
                            platform bits) = Ret deps' ->
      ~ In dep (keys deps')) ->
  selected_deps deps_type
                (render (path_join (abs_directory getcwd normpath directory) rd)
                        platform bits) = Ret deps ->
  lookup dep deps = Some version ->
  In dep (nodes g) /\
  attrs_of g dep = mkAttrs (Some (mkMeta 0 [] [] version)) None None None (Some true).
Proof.
  intros H E Nn Nb S L.
  apply construct_graph_ret in H. destruct H as [_ H].
  set (dir := abs_directory getcwd normpath directory) in *.
  set (fs := changed_folders getcwd git_diff_tree find_recipe dir folders git_rev stop_rev)
    in *.
  rewrite E in H.
  apply for_each_ret_inv in H. destruct H as [g1 [g2 [H1 [H2 H3]]]].
  assert (K0 : adj_keys_ok empty_graph) by (intros x; simpl; tauto).
  destruct (for_each_recipes_untouched render dir platform bits fs deps_type dep before
              empty_graph g1) as [K1 [I1 _]]; auto.
  { intros x I. apply Nn. apply in_app_iff. now left. }
  destruct (placeholder_enters render dir platform bits fs deps_type dep rd version deps
                               g1 g2) as [K2 [I2 A2]]; auto.
  { apply Nn. apply in_app_iff. right. now left. }
  { intros J. apply I1 in J. destruct J. }
  destruct (for_each_recipes_fixed render dir platform bits fs deps_type dep after g2 g)
    as [K3 F3]; auto.
  { intros x I. apply Nn. apply in_app_iff. right. now right. }
  destruct (F3 I2) as [I3 A3]; [now rewrite A2|].
  split; [exact I3|]. rewrite A3, A2. reflexivity.
Qed.

(** The dependency [y] of the only recipe [x], asked for at 2.0. *)
Lemma construct_graph_placeholder_witness :
  In "y" (nodes Examples.graph_x) /\
  attrs_of Examples.graph_x "y"
  = mkAttrs (Some (mkMeta 0 [] [] "2.0")) None None None (Some true).
Proof.
  apply (construct_graph_placeholder "/" Examples.no_diff Examples.always
           (fun _ => ["x"]) Examples.always Examples.same Examples.render_xy
           "/r" "linux" 64 ["x"] Build None None Examples.graph_x
           [] [] "x" "y" "2.0" [("y", "2.0")]).
  - vm_compute. reflexivity.
  - reflexivity.
  - intros rd' [<-|[]]. vm_compute. discriminate.
  - intros rd' deps' [].
  - reflexivity.
  - reflexivity.
Defined.

(* ================================================================== *)
(** ** Propagation on a constructed graph *)

Section UpstreamOutcome.
Variable _installable : string -> string -> bool.
Variable _buildable : string -> string -> bool.
Variable g0 : DiGraph.
Hypothesis wf : wf_graph g0 = true.

(** How a run on a well-formed graph may end: it returns, it runs short,
  or it reports a dependency that can be neither installed nor built. *)
Let fine {A} (o : outcome A) : Prop :=
match o with
| Ret _ => True
| Timeout => True
| Raise (ValueError msg) =>
    exists s, msg = unsatisfiable_msg s /\
              not_installable _installable g0 s = true /\
              buildable _buildable g0 s = false
| Raise _ => False
end.

Lemma upstream_loop_outcome fuel : forall visited todo g1,
flags_frame Build g0 g1 ->
(forall n, In n todo -> In n (nodes g0)) ->
fine (fst (upstream_loop _installable _buildable fuel visited todo g1)).
Proof.
induction fuel as [|fuel IH]; intros visited todo g1 F T.
- destruct todo; simpl; exact I.
- destruct todo as [|n rest]; simpl; [exact I|].
  destruct (wf_graph_successors g0 n wf (T n (or_introl eq_refl))) as [ss Ls].
  assert (L : lookup n (succ g1) = Some ss).
  { destruct F as [S _]. now rewrite S. }
  unfold bind at 1. unfold successors. rewrite L.
  assert (Ns : forall s, In s ss -> In s (nodes g0)).
  { intros s J. exact (wf_graph_closed g0 n ss s wf Ls J). }
  unfold bind at 1.
  destruct (check_successors_cases _installable _buildable g0 ss [] g1 F Ns)
    as [[out [g1' [C _]]]|[s' [g1' [C [J [N B]]]]]].
  + rewrite C.
    destruct (check_successors_ret _installable _buildable g0 ss [] g1 out g1' F C)
      as [A _].
    simpl in A.
    assert (F1 : flags_frame Build g1 g1').
    { pose proof (frame_check_successors _installable _buildable Build ss [] g1) as P.
      now rewrite C in P. }
    apply IH; [eapply flags_frame_trans; eassumption|].
    intros x Ix. apply in_app_iff in Ix. destruct Ix as [Ix|Ix]; [apply T; now right|].
    rewrite A in Ix. apply filter_In in Ix. apply Ns. tauto.
  + rewrite C. simpl. exists s'. auto.
Qed.
End UpstreamOutcome.

Lemma expand_until_stable_no_raise run max_downstream initial_dirty fuel : forall c g e,
  wf_ok g ->
  fst (expand_until_stable run max_downstream initial_dirty fuel (dirty g) c g) <> Raise e.
Proof.
  induction fuel as [|fuel IH]; intros c g e W; simpl; [discriminate|].
  unfold bind at 1.
  destruct (expand_step_returns run max_downstream initial_dirty (dirty g) c g W
                                (dirty_are_nodes g)) as [c1 [g1 E]].
  pose proof (frame_expand_step run max_downstream initial_dirty (dirty g) c g) as F.
  rewrite E in *. simpl in F.
  unfold bind at 1. unfold get at 1. cbv beta iota.
  destruct (list_eqb (dirty g) (dirty g1)); [discriminate|].
  apply IH. exact (wf_ok_frame run g g1 F W).
Qed.

(** X16. Propagation on a graph that [construct_graph] has returned
    fails in one way only: whatever the fuel and the parameters,
    [expand_run] returns, runs short of fuel, or raises the [ValueError]
    of a dependency that can be neither installed nor built; none of its
    lookups in the graph fails. *)
Theorem expand_run_on_constructed_graph
        (getcwd : string) (git_diff_tree : string -> string -> list string)
        (find_recipe : string -> bool) (listdir : string -> list string)
        (isdir : string -> bool) (normpath : string -> string)
        (render : string -> string -> Z -> Pkg)
        (_installable _buildable : string -> string -> bool)
        (directory platform : string) (bits : Z) (folders : list string)
        (deps_type : Flag) (git_rev stop_rev : option string) (g : DiGraph)
        (fuel : nat) (run : Flag) (steps max_downstream : Z) :
  construct_graph getcwd git_diff_tree find_recipe listdir isdir normpath render
                  directory platform bits folders deps_type git_rev stop_rev = Ret g ->
  match fst (expand_run _installable _buildable fuel run steps max_downstream g) with
  | Ret _ => True
  | Timeout => True
  | Raise (ValueError msg) =>
      exists s, msg = unsatisfiable_msg s /\
                not_installable _installable g s = true /\
                buildable _buildable g s = false
  | Raise _ => False
  end.
Proof.
  intros H.
  assert (W : wf_graph g = true).
  { exact (construct_graph_wf getcwd git_diff_tree find_recipe listdir isdir normpath render
                              directory platform bits folders deps_type git_rev stop_rev
                              g H). }
  pose proof (upstream_loop_outcome _installable _buildable g W fuel [] (seeds g) g
                                    (flags_frame_refl _ _) (seeds_are_nodes g)) as U.
  pose proof (frame_upstream _installable _buildable run fuel g) as F.
  unfold expand_run. unfold bind at 1.
  change (upstream_loop _installable _buildable fuel [] (seeds g) g)
    with (upstream_dependencies_needing_build _installable _buildable fuel g) in U.
  destruct (upstream_dependencies_needing_build _installable _buildable fuel g)
    as [[D|e|] g1]; cbn [fst snd] in *; [|exact U|exact I].
  assert (W1 : wf_ok g1) by (apply (wf_ok_frame run g g1 F); now apply wf_graph_wf_ok).
  unfold bind at 1. unfold get at 1. cbv beta iota.
  destruct (steps >=? 0)%Z.
  - destruct (expand_steps_returns run max_downstream (Z.of_nat (length (dirty g1)))
                                   (Z.to_nat steps) 0%Z g1 W1) as [c [g2 E2]].
    unfold bind, get, ret. rewrite E2. exact I.
  - pose proof (expand_until_stable_no_raise run max_downstream
                  (Z.of_nat (length (dirty g1))) fuel 0%Z g1) as N.
    unfold bind, get, ret. unfold bind, get in N.
    destruct (expand_until_stable run max_downstream (Z.of_nat (length (dirty g1))) fuel
                                  (dirty g1) 0 g1) as [[c|e|] g2]; cbn [fst] in *;
      [exact I | now elim (N e W1) | exact I].
Qed.

(** The recipe [x] whose dependency [y] is neither installable nor
    buildable. *)
Lemma expand_run_on_constructed_graph_witness :
  exists s, unsatisfiable_msg "y" = unsatisfiable_msg s /\
            not_installable Examples.no Examples.graph_x s = true /\
            buildable Examples.no Examples.graph_x s = false.
Proof.
  exact (expand_run_on_constructed_graph "/" Examples.no_diff Examples.always
           (fun _ => ["x"]) Examples.always Examples.same Examples.render_xy
           Examples.no Examples.no
           "/r" "linux" 64 ["x"] Build None None Examples.graph_x
           3 Test (-1) 5 eq_refl).
Defined.

(* ================================================================== *)
(** ** Running again, and planning what was constructed *)

(** X17. Propagation is idempotent where nothing is left to do: on a
    well-formed graph without cycles that is stable, [expand_run] returns
    the dirty nodes there are and leaves the graph as it is. *)
Theorem expand_run_idempotent
        (_installable _buildable : string -> string -> bool)
        (rank : string -> nat) (fuel : nat) (run : Flag) (steps max_downstream : Z)
        (g : DiGraph) :
  wf_graph g = true ->
  stable _installable _buildable run g ->
  rank_ok rank g = true ->
  1 + total_weight g rank (seeds g) <= fuel ->
  expand_run _installable _buildable fuel run steps max_downstream g = (Ret (dirty g), g).
Proof.
  intros W S R F.
  destruct (expand_run_stable _installable _buildable run steps max_downstream g W S)
    as [_ H].
  exact (H rank fuel R F).
Qed.

Lemma one_dependent_done_stable :
  stable Examples.yes Examples.yes Test Examples.one_dependent_done.
Proof.
  split.
  - intros n s _ _ _ N. discriminate.
  - intros n ps p D L Ip. vm_compute in D.
    destruct D as [<-|[<-|[]]]; vm_compute in L; inversion L; subst ps;
      [destruct Ip as [<-|[]]; reflexivity | destruct Ip].
Qed.

(** [b -> a] with [a] to build and [b] already marked for a test. *)
Lemma expand_run_idempotent_witness :
  expand_run Examples.yes Examples.yes 4 Test (-1) 5 Examples.one_dependent_done
  = (Ret (dirty Examples.one_dependent_done), Examples.one_dependent_done).
Proof.
  apply (expand_run_idempotent Examples.yes Examples.yes Examples.rank_ab 4 Test (-1) 5
                               Examples.one_dependent_done).
  - reflexivity.
  - exact one_dependent_done_stable.
  - reflexivity.
  - vm_compute. lia.
Defined.

(** X18. Planning on a graph that [construct_graph] has returned: with
    enough fuel [order_build] either returns an order without repetition
    that puts every dependency among the selected packages before the
    package that needs it, or raises the [ValueError] of a cycle, and then
    the selected packages do have a cycle among them. No lookup fails,
    whatever packages are asked for. *)
Theorem order_build_on_constructed_graph
        (getcwd : string) (git_diff_tree : string -> string -> list string)
        (find_recipe : string -> bool) (listdir : string -> list string)
        (isdir : string -> bool) (normpath : string -> string)
        (render : string -> string -> Z -> Pkg)
        (directory platform : string) (bits : Z) (folders : list string)
        (deps_type : Flag) (git_rev stop_rev : option string) (g : DiGraph)
        (packages : option (list string)) (level : Z) (filter_dirty : bool) :
  construct_graph getcwd git_diff_tree find_recipe listdir isdir normpath render
                  directory platform bits folders deps_type git_rev stop_rev = Ret g ->
  exists fuel0,
    forall fuel, fuel0 <= fuel ->
      match order_build fuel g packages level filter_dirty with
      | Ret (tmp, order) =>
          NoDup order /\
          (forall n, In n order <->
                     In n (selected g packages filter_dirty) /\ In n (nodes g)) /\
          (forall p d, induced_edge g (selected g packages filter_dirty) p d ->
                       precedes d p order)
      | Raise (ValueError msg) =>
          exists u, clos_trans string (induced_edge g (selected g packages filter_dirty)) u u
      | Raise _ => False
      | Timeout => False
      end.
Proof.
  intros H.
  assert (W : wf_graph g = true).
  { exact (construct_graph_wf getcwd git_diff_tree find_recipe listdir isdir normpath render
                              directory platform bits folders deps_type git_rev stop_rev
                              g H). }
  destruct (order_build_unfold g W packages level filter_dirty)
    as [tmp [Ok [Nt [Et [U [Wt Mt]]]]]].
  exists (Nat.max (dfs_budget tmp) (cycle_budget tmp)). intros fuel B. rewrite U.
  destruct (topological_sort_total tmp Ok fuel ltac:(lia)) as [[ord [T Sub]]|[T [u C]]].
  - rewrite T. destruct (topological_sort_sound tmp fuel ord T) as [ND [A P]].
    split; [exact ND|]. split.
    + intros n. rewrite <- Nt. split; [apply Sub | apply A].
    + intros p d E. apply P; [|now apply Et].
      apply A, Nt. destruct E as [Ip [_ [vs [L _]]]]. split; [exact Ip|].
      apply (proj1 (wf_graph_ok g W)). eapply lookup_In_keys; eassumption.
  - rewrite T.
    destruct (find_cycle_spec tmp Wt Mt fuel (ex_intro _ u C) ltac:(lia)) as [l [El _]].
    rewrite El. cbn [obind]. exists u. revert C. apply clos_trans_ext. intros x y. apply Et.
Qed.

(** The two recipes that need each other, both dirty: the cycle. *)
Lemma order_build_on_constructed_graph_witness :
  exists fuel0,
    forall fuel, fuel0 <= fuel ->
      match order_build fuel Examples.graph_cycle None 0 true with
      | Ret (tmp, order) =>
          NoDup order /\
          (forall n, In n order <->
                     In n (selected Examples.graph_cycle None true) /\
                     In n (nodes Examples.graph_cycle)) /\
          (forall p d, induced_edge Examples.graph_cycle
                                    (selected Examples.graph_cycle None true) p d ->
                       precedes d p order)
      | Raise (ValueError msg) =>
          exists u, clos_trans string
                               (induced_edge Examples.graph_cycle
                                             (selected Examples.graph_cycle None true)) u u
      | Raise _ => False
      | Timeout => False
      end.
Proof.
  apply (order_build_on_constructed_graph "/" Examples.no_diff Examples.always
           (fun _ => ["a"; "b"]) Examples.always Examples.same Examples.render_cycle
           "/r" "linux" 64 ["a"; "b"] Build None None
           Examples.graph_cycle None 0 true).
  vm_compute. reflexivity.
Defined.

(* ================================================================== *)
(** ** The build matrix *)

Import BuildMatrix.

Lemma lookup_dict_del {V} k k' (d : dict V) :
  lookup k (dict_del k' d) = if String.eqb k k' then None else lookup k d.
Proof.
  unfold dict_del. induction d as [|[k0 v] d IH]; simpl.
  - now destruct (String.eqb k k').
  - destruct (String.eqb_spec k' k0) as [E|N]; simpl.
    + subst k0. rewrite IH. destruct (String.eqb_spec k k'); [reflexivity|reflexivity].
    + rewrite IH. destruct (String.eqb_spec k k0) as [E0|N0]; [|reflexivity].
      subst k0. destruct (String.eqb_spec k k'); [congruence | reflexivity].
Qed.

Lemma dict_set_new {V} k (v : V) d : ~ In k (keys d) -> dict_set k v d = d ++ [(k, v)].
Proof.
  induction d as [|[k0 v0] d IH]; simpl; [reflexivity|].
  intros H. destruct (String.eqb_spec k k0) as [E|N]; [elim H; now left|].
  rewrite IH; [reflexivity | tauto].
Qed.

(** *** The requirement loop *)

Lemma split_char_single c s w : split_char c s = [w] -> s = w.
Proof.
  revert w. induction s as [|a s IH]; intros w H; simpl in H.
  - now inversion H.
  - destruct (Ascii.eqb a c).
    + inversion H as [[E1 E2]]. pose proof (split_char_nonempty c s). congruence.
    + destruct (split_char c s) as [|w0 ws] eqn:E.
      * now elim (split_char_nonempty c s).
      * inversion H; subst. now rewrite (IH w0 eq_refl).
Qed.

Lemma split_char_none c s : contains_char c s = false -> split_char c s = [s].
Proof.
  induction s as [|a s IH]; simpl; [reflexivity|].
  destruct (Ascii.eqb a c); [discriminate|]. intros H. now rewrite (IH H).
Qed.

Lemma split_char_blank c s : contains_char c s = true -> 1 < length (split_char c s).
Proof.
  induction s as [|a s IH]; simpl; [discriminate|].
  destruct (Ascii.eqb a c).
  - intros _. simpl. pose proof (split_char_nonempty c s).
    destruct (split_char c s); [congruence | simpl; lia].
  - intros H. specialize (IH H). destruct (split_char c s); simpl in *; lia.
Qed.

Lemma split_char_single_none c s w : split_char c s = [w] -> contains_char c s = false.
Proof.
  intros H. destruct (contains_char c s) eqn:E; [|reflexivity].
  apply split_char_blank in E. rewrite H in E. simpl in E. lia.
Qed.

(** X19. What the loop over the run requirements decides. A package
    other than [numpy] is left open, and its key kept, exactly when the
    recipe lists it bare, without a version. [numpy] is left open exactly
    when some requirement on it carries the word [x.x]. *)
Theorem leaves_open_spec (name : string) (reqs : list string) :
  leaves_open name reqs = true <->
  if String.eqb name "numpy"
  then exists req, In req reqs /\
                   hd "" (split_char " "%char req) = "numpy" /\
                   In "x.x" (split_char " "%char req)
  else In name reqs /\ contains_char " "%char name = false.
Proof.
  induction reqs as [|req reqs IH]; simpl.
  - destruct (String.eqb name "numpy"); split; try discriminate.
    + intros [req [[] _]].
    + intros [[] _].
  - assert (Hone : length (split_char " "%char req) <= 1 ->
                   split_char " "%char req = [req] /\ contains_char " "%char req = false).
    { intros L. pose proof (split_char_nonempty " "%char req) as NE.
      destruct (split_char " "%char req) as [|w [|w' ws]] eqn:P;
        [congruence | | simpl in L; lia].
      pose proof (split_char_single _ _ _ P) as E. subst w.
      split; [reflexivity | exact (split_char_single_none _ _ _ P)]. }
    assert (Hmany : 1 < length (split_char " "%char req) ->
                    contains_char " "%char req = true).
    { intros L. destruct (contains_char " "%char req) eqn:E; [reflexivity|].
      apply split_char_none in E. rewrite E in L. simpl in L. lia. }
    remember (split_char " "%char req) as parts eqn:P0.
    destruct (String.eqb_spec (hd "" parts) name) as [Eh|Nh].
    + destruct (Nat.ltb_spec 1 (length parts)) as [L|L].
      * destruct (String.eqb_spec name "numpy") as [En|Nn]; simpl.
        -- destruct (mem "x.x" parts) eqn:Mx.
           ++ split; [intros _|reflexivity]. exists req. rewrite <- P0.
              split; [now left|]. split; [congruence | now apply mem_In].
           ++ rewrite IH. split.
              ** intros [r [I R]]. exists r. split; [now right | exact R].
              ** intros [r [[E|I] [R1 R2]]]; [|exists r; auto].
                 subst r. rewrite <- P0 in R2. apply mem_In in R2. congruence.
        -- rewrite IH. split.
           ++ intros [I C]. split; [now right | exact C].
           ++ intros [[E|I] C]; [|auto]. subst req. rewrite (Hmany L) in C. discriminate.
      * destruct (Hone L) as [P C].
        assert (Er : req = name) by (rewrite P in Eh; simpl in Eh; exact Eh).
        destruct (String.eqb_spec name "numpy") as [En|Nn].
        -- rewrite IH. split.
           ++ intros [r [I R]]. exists r. split; [now right | exact R].
           ++ intros [r [[E|I] [R1 R2]]]; [|exists r; auto].
              subst r. rewrite <- P0, P in R2. destruct R2 as [R2|[]].
              subst req. rewrite En in R2. discriminate.
        -- split; [intros _|reflexivity]. split; [now left | now rewrite <- Er].
    + rewrite IH. destruct (String.eqb_spec name "numpy") as [En|Nn].
      * split.
        -- intros [r [I R]]. exists r. split; [now right | exact R].
        -- intros [r [[E|I] [R1 R2]]]; [|exists r; auto].
           subst r. rewrite <- P0 in R1. congruence.
      * split.
        -- intros [I C]. split; [now right | exact C].
        -- intros [[E|I] C]; [|auto]. subst req.
           apply split_char_none in C. rewrite C in P0. subst parts. now elim Nh.
Qed.

(** *** The environment *)

Lemma set_vars_spec items : forall backup env r env1,
  set_vars items backup env = (r, env1) ->
  NoDup (keys items) ->
  (forall k, In k (keys items) -> ~ In k (keys backup)) ->
  match r with
  | Ok backup' =>
      backup' = backup ++ map (fun kv => (fst kv, lookup (fst kv) env)) items /\
      (forall k, In k (keys items) -> lookup k env1 <> None) /\
      (forall k, ~ In k (keys items) -> lookup k env1 = lookup k env)
  | Fail IndexError => exists k, In (k, Items []) items
  | Fail TypeError =>
      (exists k l, In (k, Items (Truthy :: l)) items) \/ (exists k, In (k, One Truthy) items)
  | Fail (KeyError _) => False
  end.
Proof.
  induction items as [|[k0 v0] items IH]; intros backup env r env1 H ND Fresh; simpl in H.
  - inversion H; subst. rewrite app_nil_r. simpl. repeat split; auto; intros k [].
  - simpl in ND. inversion ND as [|? ? N0 ND']; subst.
    assert (Step : forall s,
               set_vars items (dict_set k0 (lookup k0 env) backup) (dict_set k0 s env)
               = (r, env1) ->
               match r with
               | Ok backup' =>
                   backup' = backup ++ map (fun kv => (fst kv, lookup (fst kv) env))
                                           ((k0, v0) :: items) /\
                   (forall k, In k (keys ((k0, v0) :: items)) -> lookup k env1 <> None) /\
                   (forall k, ~ In k (keys ((k0, v0) :: items)) ->
                              lookup k env1 = lookup k env)
               | Fail IndexError => exists k, In (k, Items []) items
               | Fail TypeError =>
                   (exists k l, In (k, Items (Truthy :: l)) items) \/
                   (exists k, In (k, One Truthy) items)
               | Fail (KeyError _) => False
               end).
    { intros s Hs.
      assert (Fresh' : forall k, In k (keys items) ->
                                 ~ In k (keys (dict_set k0 (lookup k0 env) backup))).
      { intros k I J. apply In_keys_dict_set in J. destruct J as [J|J].
        - subst k. contradiction.
        - apply (Fresh k); [now right | exact J]. }
      pose proof (IH _ _ _ _ Hs ND' Fresh') as R.
      destruct r as [backup'|[key| |]]; auto.
      destruct R as [B [P Q]]. split; [|split].
      - rewrite B, dict_set_new by (apply Fresh; now left).
        rewrite <- app_assoc. simpl. f_equal. f_equal.
        apply map_ext_in. intros [k v] I. simpl. rewrite lookup_dict_set.
        destruct (String.eqb_spec k k0) as [E|N]; [|reflexivity].
        subst k. elim N0. unfold keys. apply in_map_iff. exists (k0, v). auto.
      - intros k [E|I]; [|now apply P]. simpl in E. subst k.
        rewrite (Q k0 N0), lookup_dict_set, String.eqb_refl. discriminate.
      - intros k N. simpl in N. rewrite Q by tauto. rewrite lookup_dict_set.
        destruct (String.eqb_spec k k0) as [E|_]; [|reflexivity]. subst k. elim N. now left. }
    assert (Tail : match r with
                   | Ok _ => True
                   | Fail IndexError => exists k, In (k, Items []) items
                   | Fail TypeError =>
                       (exists k l, In (k, Items (Truthy :: l)) items) \/
                       (exists k, In (k, One Truthy) items)
                   | Fail (KeyError _) => False
                   end ->
                   match r with
                   | Ok _ => True
                   | Fail IndexError => exists k, In (k, Items []) ((k0, v0) :: items)
                   | Fail TypeError =>
                       (exists k l, In (k, Items (Truthy :: l)) ((k0, v0) :: items)) \/
                       (exists k, In (k, One Truthy) ((k0, v0) :: items))
                   | Fail (KeyError _) => False
                   end).
    { destruct r as [b|[key| |]]; auto.
      - intros [k I]. exists k. now right.
      - intros [[k [l I]]|[k I]]; [left; exists k, l | right; exists k]; now right. }
    assert (Done : forall s,
               set_vars items (dict_set k0 (lookup k0 env) backup) (dict_set k0 s env)
               = (r, env1) ->
               match r with
               | Ok backup' =>
                   backup' = backup ++ map (fun kv => (fst kv, lookup (fst kv) env))
                                           ((k0, v0) :: items) /\
                   (forall k, In k (keys ((k0, v0) :: items)) -> lookup k env1 <> None) /\
                   (forall k, ~ In k (keys ((k0, v0) :: items)) ->
                              lookup k env1 = lookup k env)
               | Fail IndexError => exists k, In (k, Items []) ((k0, v0) :: items)
               | Fail TypeError =>
                   (exists k l, In (k, Items (Truthy :: l)) ((k0, v0) :: items)) \/
                   (exists k, In (k, One Truthy) ((k0, v0) :: items))
               | Fail (KeyError _) => False
               end).
    { intros s Hs. pose proof (Step s Hs) as R.
      destruct r as [b|[key| |]]; auto; apply Tail; exact R. }
    destruct v0 as [[|a l]|a].
    + inversion H; subst. exists k0. now left.
    + destruct a as [s| |]; simpl in H.
      * destruct (String.eqb s ""); exact (Done _ H).
      * exact (Done _ H).
      * inversion H; subst. left. exists k0, l. now left.
    + destruct a as [s| |]; simpl in H.
      * destruct (String.eqb s ""); exact (Done _ H).
      * exact (Done _ H).
      * inversion H; subst. right. exists k0. now left.
Qed.

Lemma restore_vars_spec backup : forall env2,
  NoDup (keys backup) ->
  (forall k, In k (keys backup) -> lookup k env2 <> None) ->
  exists env3,
    restore_vars backup env2 = (Ok tt, env3) /\
    forall k, lookup k env3 = match lookup k backup with
                              | Some old => restored old
                              | None => lookup k env2
                              end.
Proof.
  induction backup as [|[k0 o] backup IH]; intros env2 ND P; simpl.
  - exists env2. auto.
  - simpl in ND. inversion ND as [|? ? N0 ND']; subst.
    assert (L0 : lookup k0 backup = None) by now apply lookup_None.
    assert (Go : forall env2',
               (forall k, k <> k0 -> lookup k env2' = lookup k env2) ->
               lookup k0 env2' = restored o ->
               exists env3,
                 restore_vars backup env2' = (Ok tt, env3) /\
                 forall k, lookup k env3 =
                           match (if String.eqb k k0 then Some o else lookup k backup) with
                           | Some old => restored old
                           | None => lookup k env2
                           end).
    { intros env2' Same At.
      destruct (IH env2' ND') as [env3 [E Q]].
      - intros k I. rewrite Same; [apply P; now right|].
        intros ->. contradiction.
      - exists env3. split; [exact E|]. intros k. rewrite Q.
        destruct (String.eqb_spec k k0) as [->|N].
        + now rewrite L0, At.
        + destruct (lookup k backup); [reflexivity | now apply Same]. }
    destruct o as [[|a s]|].
    + destruct (lookup k0 env2) eqn:L; [|elim (P k0); [now left | exact L]].
      apply Go.
      * intros k N. rewrite lookup_dict_del. apply String.eqb_neq in N. now rewrite N.
      * rewrite lookup_dict_del, String.eqb_refl. reflexivity.
    + apply Go.
      * intros k N. rewrite lookup_dict_set. apply String.eqb_neq in N. now rewrite N.
      * rewrite lookup_dict_set, String.eqb_refl. reflexivity.
    + destruct (lookup k0 env2) eqn:L; [|elim (P k0); [now left | exact L]].
      apply Go.
      * intros k N. rewrite lookup_dict_del. apply String.eqb_neq in N. now rewrite N.
      * rewrite lookup_dict_del, String.eqb_refl. reflexivity.
Qed.

(** X20. The context manager gives the environment back when its body
    returns and leaves the environment alone: a variable of the
    dictionary has its old value again when that was not empty, and is
    gone when it was empty or not set; every other variable is as before.
    So a variable that was set to the empty string does not survive. *)
Theorem set_conda_env_vars_restores
        (A : Type) (env_dict : dict value) (body : E A)
        (env env' : environ) (a : A) :
  NoDup (keys env_dict) ->
  (forall env1, snd (body env1) = env1) ->
  set_conda_env_vars env_dict body env = (Ok a, env') ->
  forall k, lookup k env' = if mem k (keys env_dict) then restored (lookup k env)
                            else lookup k env.
Proof.
  intros ND Pure H k. unfold set_conda_env_vars in H.
  destruct (set_vars env_dict [] env) as [[backup|e] env1] eqn:S; [|discriminate].
  pose proof (set_vars_spec env_dict [] env _ _ S ND (fun _ _ J => J)) as [B [P Q]].
  simpl in B. pose proof (Pure env1) as Pu.
  destruct (body env1) as [[a'|e] env2]; [|discriminate]. simpl in Pu. subst env2.
  assert (Kb : keys backup = keys env_dict).
  { rewrite B. unfold keys. rewrite map_map. reflexivity. }
  destruct (restore_vars_spec backup env1) as [env3 [R L]].
  { now rewrite Kb. }
  { intros x I. apply P. now rewrite <- Kb. }
  rewrite R in H. inversion H; subst a' env3. rewrite L.
  destruct (mem k (keys env_dict)) eqn:M.
  - apply mem_In in M. destruct (In_keys_lookup k backup) as [o Lo]; [now rewrite Kb|].
    rewrite Lo. f_equal. apply lookup_In in Lo. rewrite B in Lo.
    apply in_map_iff in Lo. destruct Lo as [[k1 v1] [E _]]. simpl in E. congruence.
  - apply mem_false in M. rewrite (proj2 (lookup_None k backup)) by now rewrite Kb.
    now apply Q.
Qed.

Lemma filter_filter {A} (p q : A -> bool) l :
  filter p (filter q l) = filter (fun x => (q x && p x)%bool) l.
Proof.
  induction l as [|x l IH]; simpl; [reflexivity|].
  destruct (q x); simpl; [destruct (p x)|]; now rewrite IH.
Qed.

Lemma filter_names_spec reqs names : forall vd,
  NoDup (map conda_key names) ->
  match filter_names names reqs vd with
  | Ok d => d = filter (fun kv => negb (dropped names reqs (fst kv))) vd
  | Fail (KeyError k) =>
      exists name, In name names /\ k = conda_key name /\
                   leaves_open name reqs = false /\ lookup k vd = None
  | Fail _ => False
  end.
Proof.
  induction names as [|name names IH]; intros vd ND; cbn [filter_names].
  - unfold dropped. cbn [existsb negb]. induction vd as [|kv vd IHv]; simpl; congruence.
  - simpl in ND. inversion ND as [|? ? N0 ND']; subst.
    destruct (leaves_open name reqs) eqn:Lo.
    + specialize (IH vd ND'). destruct (filter_names names reqs vd) as [d|[k| |]]; auto.
      * rewrite IH. apply filter_ext. intros kv. unfold dropped. cbn [existsb].
        rewrite Lo. cbn [negb]. now rewrite andb_false_r.
      * destruct IH as [n [I [E [L Q]]]]. exists n.
        split; [now right|]. split; [exact E|]. split; [exact L | exact Q].
    + unfold del_key. destruct (lookup (conda_key name) vd) eqn:Lk.
      * specialize (IH (dict_del (conda_key name) vd) ND').
        destruct (filter_names names reqs (dict_del (conda_key name) vd)) as [d|[k| |]]; auto.
        -- rewrite IH. unfold dict_del. rewrite filter_filter. apply filter_ext.
           intros kv. unfold dropped. cbn [existsb]. rewrite Lo. cbn [negb].
           rewrite andb_true_r, negb_orb. reflexivity.
        -- destruct IH as [n [I [E [L Q]]]]. exists n.
           split; [now right|]. split; [exact E|]. split; [exact L|].
           rewrite lookup_dict_del in Q.
           destruct (String.eqb_spec k (conda_key name)) as [Ek|Nk]; [|exact Q].
           elim N0. rewrite <- Ek, E. now apply in_map.
      * exists name. split; [now left|]. split; [reflexivity|]. split; [exact Lo | exact Lk].
Qed.

Lemma matrix_keys_distinct : NoDup (map conda_key matrix_packages).
Proof.
  vm_compute. repeat constructor; simpl; intuition discriminate.
Qed.

(** X21. How the filter ends. When it returns, it returns the versions
    without the keys of the packages that the recipe, rendered under the
    versions, does not leave open, the others in their order. It raises
    [KeyError] for a package that is not left open and has no key in the
    versions, [IndexError] for a variable with an empty list, and
    [TypeError] for a variable whose value, or first value, is no string
    and counts as true. *)
Theorem filter_environment_outcome
        (render_run : environ -> string -> list string)
        (build_recipe : string) (version_dicts : dict value) (env : environ) :
  NoDup (keys version_dicts) ->
  match fst (_filter_environment_with_metadata render_run build_recipe version_dicts env) with
  | Ok d =>
      d = filter (fun kv =>
                    negb (dropped matrix_packages
                                  (matrix_requirements render_run build_recipe
                                                       version_dicts env) (fst kv)))
                 version_dicts
  | Fail (KeyError k) =>
      exists name,
        In name matrix_packages /\ k = conda_key name /\
        leaves_open name (matrix_requirements render_run build_recipe version_dicts env)
        = false /\
        lookup k version_dicts = None
  | Fail IndexError => exists k, In (k, Items []) version_dicts
  | Fail TypeError =>
      (exists k l, In (k, Items (Truthy :: l)) version_dicts) \/
      (exists k, In (k, One Truthy) version_dicts)
  end.
Proof.
  intros ND. unfold _filter_environment_with_metadata, set_conda_env_vars, matrix_requirements.
  destruct (set_vars version_dicts [] env) as [[backup|e] env1] eqn:S.
  - pose proof (set_vars_spec version_dicts [] env _ _ S ND (fun _ _ J => J)) as [B [P Q]].
    simpl in B.
    assert (Kb : keys backup = keys version_dicts).
    { rewrite B. unfold keys. rewrite map_map. reflexivity. }
    destruct (restore_vars_spec backup env1) as [env3 [R _]].
    { now rewrite Kb. }
    { intros x I. apply P. now rewrite <- Kb. }
    rewrite R. cbn [fst snd].
    pose proof (filter_names_spec (render_run env1 build_recipe) matrix_packages
                                  version_dicts matrix_keys_distinct) as F.
    destruct (filter_names matrix_packages (render_run env1 build_recipe) version_dicts)
      as [d|[k| |]]; [exact F | exact F | contradiction | contradiction].
  - pose proof (set_vars_spec version_dicts [] env _ _ S ND (fun _ _ J => J)) as F.
    cbn [fst]. destruct e as [k| |]; [contradiction | exact F | exact F].
Qed.

(** *** The combinations *)

Lemma product_length {A} (pools : list (list A)) :
  length (product pools) = fold_right (fun pool n => length pool * n) 1 pools.
Proof.
  induction pools as [|pool pools IH]; simpl; [reflexivity|].
  rewrite <- IH. clear IH. induction pool as [|x pool IHp]; simpl; [reflexivity|].
  rewrite length_app, length_map, IHp. reflexivity.
Qed.

Lemma product_In {A} (pools : list (list A)) x :
  In x (product pools) <-> Forall2 (fun a pool => In a pool) x pools.
Proof.
  revert x. induction pools as [|pool pools IH]; intros x; simpl.
  - split.
    + intros [<-|[]]. constructor.
    + intros F. inversion F. now left.
  - rewrite in_flat_map. split.
    + intros [a [Ia Ix]]. apply in_map_iff in Ix. destruct Ix as [y [<- Iy]].
      constructor; [exact Ia | now apply IH].
    + intros F. inversion F as [|a p y ps Ia Fy]; subst.
      exists a. split; [exact Ia|]. apply in_map. now apply IH.
Qed.

Lemma lookup_dict_of_pairs {V} (kvs : list (string * V)) : forall d k v,
  lookup k (dict_of_pairs kvs d) = Some v -> In (k, v) kvs \/ lookup k d = Some v.
Proof.
  induction kvs as [|[k0 v0] kvs IH]; intros d k v H; simpl in H; [now right|].
  destruct (IH _ _ _ H) as [I|L]; [left; now right|].
  rewrite lookup_dict_set in L. destruct (String.eqb_spec k k0) as [->|N]; [|now right].
  inversion L; subst. left. now left.
Qed.

Lemma lookup_map_value {V W} (f : V -> W) (d : dict V) k :
  lookup k (map (fun kv => (fst kv, f (snd kv))) d) = option_map f (lookup k d).
Proof.
  induction d as [|[k0 v0] d IH]; simpl; [reflexivity|].
  destruct (String.eqb k k0); [reflexivity | exact IH].
Qed.

Lemma combine_pools (dicts : dict value) : forall pools x k a,
  pools_of (map snd dicts) = Ok pools ->
  Forall2 (fun a pool => In a pool) x pools ->
  In (k, a) (combine (keys dicts) x) ->
  exists v pool, In (k, v) dicts /\ iterate v = Ok pool /\ In a pool.
Proof.
  induction dicts as [|[k0 v0] dicts IH]; intros pools x k a P F I; simpl in *;
    [destruct I|].
  destruct (iterate v0) as [pool|e] eqn:Ev; [|discriminate].
  destruct (pools_of (map snd dicts)) as [ps|e] eqn:Ep; [|discriminate].
  inversion P; subst pools. inversion F as [|b p y ps' Ib Fy]; subst.
  destruct I as [E|I].
  - inversion E; subst. exists v0, pool. auto.
  - destruct (IH ps y k a eq_refl Fy I) as [v [pl [Iv [Et Ia]]]].
    exists v, pl. auto.
Qed.

Lemma lookup_dict_of_pairs_other {V} (kvs : list (string * V)) : forall d k,
  ~ In k (map fst kvs) -> lookup k (dict_of_pairs kvs d) = lookup k d.
Proof.
  induction kvs as [|[k0 v0] kvs IH]; intros d k N; simpl; [reflexivity|].
  rewrite IH by (intros I; apply N; now right).
  rewrite lookup_dict_set. destruct (String.eqb_spec k k0) as [->|_]; [|reflexivity].
  elim N. now left.
Qed.

Lemma lookup_dict_of_pairs_In {V} (kvs : list (string * V)) : forall d k v,
  NoDup (map fst kvs) -> In (k, v) kvs -> lookup k (dict_of_pairs kvs d) = Some v.
Proof.
  induction kvs as [|[k0 v0] kvs IH]; intros d k v ND I; [destruct I|].
  simpl in ND. inversion ND as [|? ? N0 ND']; subst. simpl.
  destruct I as [E|I].
  - inversion E; subst. rewrite lookup_dict_of_pairs_other by exact N0.
    rewrite lookup_dict_set. now rewrite String.eqb_refl.
  - now apply IH.
Qed.

Lemma combine_keys_distinct {V} (ks : list string) : forall x : list V,
  NoDup ks -> NoDup (map fst (combine ks x)).
Proof.
  induction ks as [|k ks IH]; intros x ND; [constructor|].
  destruct x as [|a x]; [constructor|]. simpl.
  inversion ND as [|? ? N0 ND']; subst. constructor; [|now apply IH].
  intros I. apply N0. apply in_map_iff in I. destruct I as [[k' a'] [E I]].
  simpl in E. subst k'. exact (in_combine_l _ _ _ _ I).
Qed.

Lemma combine_nth {V} (ks : list string) : forall (x : list V) i k a,
  nth_error ks i = Some k -> nth_error x i = Some a -> In (k, a) (combine ks x).
Proof.
  induction ks as [|k0 ks IH]; intros x i k a Hk Ha; [now destruct i|].
  destruct x as [|a0 x]; [now destruct i|].
  destruct i as [|i]; simpl in *.
  - inversion Hk; inversion Ha; subst. now left.
  - right. eapply IH; eassumption.
Qed.

Lemma NoDup_keys_filter {V} (p : string * V -> bool) (d : dict V) :
  NoDup (keys d) -> NoDup (keys (filter p d)).
Proof.
  unfold keys. induction d as [|kv d IH]; intros ND; simpl; [constructor|].
  simpl in ND. inversion ND as [|? ? N0 ND']; subst.
  destruct (p kv); simpl; [|now apply IH].
  constructor; [|now apply IH].
  intros I. apply N0. apply in_map_iff in I. destruct I as [kv' [E I]].
  apply filter_In in I. rewrite <- E. apply in_map. tauto.
Qed.

Lemma Forall2_map_each {A B} (R : A -> B -> Prop) (f : A -> B) (l : list A) :
  (forall x, In x l -> R x (f x)) -> Forall2 R l (map f l).
Proof.
  induction l as [|x l IH]; intros H; simpl; constructor.
  - apply H. now left.
  - apply IH. intros y I. apply H. now right.
Qed.

(** X22. The configurations of [expand_build_matrix]. With the variables
    that are left and their lists of values, the combinations are the
    lists that take one value from each variable's list, in the order of
    [itertools.product]; the configurations are one for each combination,
    in that order, so their number is the product of the numbers of values.
    The configuration of a combination gives each variable the value the
    combination has at the variable's place, holds the label as a one-item
    tuple under [TARGET_PLATFORM] and the path of the recipe under
    [BUILD_RECIPE] when that is a directory, and holds nothing else. *)
Theorem expand_build_matrix_spec
        (load_yaml : string -> dict value) (isdir : string -> bool)
        (render_run : environ -> string -> list string)
        (build_recipe repo_base_dir label : string)
        (env env' : environ) (configurations : list configuration) :
  NoDup (keys (load_yaml (path_join repo_base_dir "versions.yml"))) ->
  expand_build_matrix load_yaml isdir render_run build_recipe repo_base_dir label env
  = (Ok configurations, env') ->
  exists dicts pools,
    (if isdir (recipe_path repo_base_dir build_recipe)
     then fst (_filter_environment_with_metadata
                 render_run (recipe_path repo_base_dir build_recipe)
                 (load_yaml (path_join repo_base_dir "versions.yml")) env) = Ok dicts
     else dicts = load_yaml (path_join repo_base_dir "versions.yml")) /\
    pools_of (map snd dicts) = Ok pools /\
    (forall x, In x (product pools) <-> Forall2 (fun a pool => In a pool) x pools) /\
    length configurations = fold_right (fun pool n => length pool * n) 1 pools /\
    Forall2
      (fun x c =>
         lookup "TARGET_PLATFORM" (variables c) = Some (Tuple1 label) /\
         (isdir (recipe_path repo_base_dir build_recipe) = true ->
          lookup "BUILD_RECIPE" (variables c)
          = Some (Plain (Str (recipe_path repo_base_dir build_recipe)))) /\
         (forall k,
             k <> "TARGET_PLATFORM" ->
             (isdir (recipe_path repo_base_dir build_recipe) = true ->
              k <> "BUILD_RECIPE") ->
             (forall i a, nth_error (keys dicts) i = Some k -> nth_error x i = Some a ->
                          lookup k (variables c) = Some (Plain a)) /\
             (~ In k (keys dicts) -> lookup k (variables c) = None) /\
             (forall s, lookup k (variables c) = Some s ->
                        exists v pool a,
                          In (k, v) dicts /\ iterate v = Ok pool /\ In a pool /\
                          s = Plain a)))
      (product pools) configurations.
Proof.
  unfold expand_build_matrix, _get_versions_product.
  fold (recipe_path repo_base_dir build_recipe).
  set (path := recipe_path repo_base_dir build_recipe).
  set (vf := path_join repo_base_dir "versions.yml").
  intros ND H.
  assert (G : exists dicts env1,
             (if isdir path
              then _filter_environment_with_metadata render_run path (load_yaml vf) env
              else (Ok (load_yaml vf), env)) = (Ok dicts, env1)).
  { destruct (if isdir path
              then _filter_environment_with_metadata render_run path (load_yaml vf) env
              else (Ok (load_yaml vf), env)) as [[dicts|e] env1]; [eauto | discriminate]. }
  destruct G as [dicts [env1 G]]. rewrite G in H.
  destruct (pools_of (map snd dicts)) as [pools|e] eqn:P; [|discriminate].
  inversion H; subst configurations env'. clear H.
  assert (NDd : NoDup (keys dicts)).
  { destruct (isdir path); [|now inversion G].
    unfold _filter_environment_with_metadata in G.
    destruct (set_conda_env_vars (load_yaml vf)
                (fun env1 => (Ok (render_run env1 path), env1)) env) as [[reqs|e] env2];
      [|discriminate].
    pose proof (filter_names_spec reqs matrix_packages (load_yaml vf) matrix_keys_distinct)
      as F.
    assert (Gd : filter_names matrix_packages reqs (load_yaml vf) = Ok dicts)
      by congruence.
    rewrite Gd in F. rewrite F. now apply NoDup_keys_filter. }
  exists dicts, pools. split; [|split; [exact P|split; [|split]]].
  - destruct (isdir path); [now rewrite G | now inversion G].
  - intros x. apply product_In.
  - rewrite !length_map. apply product_length.
  - rewrite map_map. apply Forall2_map_each. intros x I.
    apply product_In in I. cbn [variables].
    assert (T : forall d : dict setting,
               lookup "TARGET_PLATFORM" (dict_set "TARGET_PLATFORM" (Tuple1 label) d)
               = Some (Tuple1 label)).
    { intros d. now rewrite lookup_dict_set. }
    split; [|split].
    + destruct (isdir path); [|apply T].
      rewrite lookup_dict_set. cbn. apply T.
    + intros D. rewrite D. now rewrite lookup_dict_set.
    + intros k Nt Nb.
      assert (L : lookup k
                    (if isdir path
                     then dict_set "BUILD_RECIPE" (Plain (Str path))
                            (dict_set "TARGET_PLATFORM" (Tuple1 label)
                               (map (fun kv => (fst kv, Plain (snd kv)))
                                    (dict_of_pairs (combine (keys dicts) x) [])))
                     else dict_set "TARGET_PLATFORM" (Tuple1 label)
                            (map (fun kv => (fst kv, Plain (snd kv)))
                                 (dict_of_pairs (combine (keys dicts) x) [])))
                  = option_map Plain (lookup k (dict_of_pairs (combine (keys dicts) x) []))).
      { rewrite <- lookup_map_value. destruct (isdir path).
        - rewrite lookup_dict_set.
          destruct (String.eqb_spec k "BUILD_RECIPE") as [E|_]; [now elim (Nb eq_refl)|].
          rewrite lookup_dict_set.
          destruct (String.eqb_spec k "TARGET_PLATFORM") as [E|_];
            [contradiction | reflexivity].
        - rewrite lookup_dict_set.
          destruct (String.eqb_spec k "TARGET_PLATFORM") as [E|_];
            [contradiction | reflexivity]. }
      rewrite L. split; [|split].
      * intros i a Hk Ha.
        rewrite (lookup_dict_of_pairs_In (combine (keys dicts) x) [] k a); [reflexivity | |].
        -- now apply combine_keys_distinct.
        -- eapply combine_nth; eassumption.
      * intros N. rewrite lookup_dict_of_pairs_other; [reflexivity|].
        intros I'. apply N. apply in_map_iff in I'. destruct I' as [[k' a'] [E I']].
        simpl in E. subst k'. exact (in_combine_l _ _ _ _ I').
      * intros s Ls.
        destruct (lookup k (dict_of_pairs (combine (keys dicts) x) [])) as [a|] eqn:La;
          [|discriminate].
        inversion Ls; subst s.
        apply lookup_dict_of_pairs in La. destruct La as [La|La]; [|discriminate].
        destruct (combine_pools dicts pools x k a P I La) as [v [pool [Iv [Et Ia]]]].
        exists v, pool, a. auto.
Qed.

Lemma matrix_versions_distinct : NoDup (keys MatrixExamples.versions).
Proof. vm_compute. repeat constructor; simpl; intuition discriminate. Qed.

(** [CONDA_R] comes back, [CONDA_PY], set but empty before, is gone. *)
Lemma set_conda_env_vars_restores_witness :
  lookup "CONDA_PY" MatrixExamples.environment_after = None /\
  forall k, lookup k MatrixExamples.environment_after
            = if mem k (keys MatrixExamples.versions)
              then restored (lookup k MatrixExamples.environment)
              else lookup k MatrixExamples.environment.
Proof.
  split; [reflexivity|].
  apply (set_conda_env_vars_restores unit MatrixExamples.versions (fun env => (Ok tt, env))
                                     MatrixExamples.environment
                                     MatrixExamples.environment_after tt).
  - exact matrix_versions_distinct.
  - reflexivity.
  - vm_compute. reflexivity.
Defined.

Lemma filter_environment_outcome_witness :
  match fst (_filter_environment_with_metadata MatrixExamples.requirements "/repo/recipe"
                                               MatrixExamples.versions
                                               MatrixExamples.environment) with
  | Ok d =>
      d = filter (fun kv =>
                    negb (dropped matrix_packages
                                  (matrix_requirements MatrixExamples.requirements
                                                       "/repo/recipe"
                                                       MatrixExamples.versions
                                                       MatrixExamples.environment) (fst kv)))
                 MatrixExamples.versions
  | Fail (KeyError k) =>
      exists name,
        In name matrix_packages /\ k = conda_key name /\
        leaves_open name (matrix_requirements MatrixExamples.requirements "/repo/recipe"
                                              MatrixExamples.versions
                                              MatrixExamples.environment)
        = false /\
        lookup k MatrixExamples.versions = None
  | Fail IndexError => exists k, In (k, Items []) MatrixExamples.versions
  | Fail TypeError =>
      (exists k l, In (k, Items (Truthy :: l)) MatrixExamples.versions) \/
      (exists k, In (k, One Truthy) MatrixExamples.versions)
  end.
Proof.
  apply (filter_environment_outcome MatrixExamples.requirements "/repo/recipe"
                                    MatrixExamples.versions MatrixExamples.environment).
  exact matrix_versions_distinct.
Defined.

(** The recipe leaves Python and numpy open: two configurations, one
    for each Python. *)
Lemma expand_build_matrix_spec_witness :
  exists dicts pools,
    fst (_filter_environment_with_metadata
           MatrixExamples.requirements "/repo/recipe" MatrixExamples.versions
           MatrixExamples.environment) = Ok dicts /\
    pools_of (map snd dicts) = Ok pools /\
    (forall x, In x (product pools) <-> Forall2 (fun a pool => In a pool) x pools) /\
    length MatrixExamples.configurations = fold_right (fun pool n => length pool * n) 1 pools /\
    Forall2
      (fun x c =>
         lookup "TARGET_PLATFORM" (variables c) = Some (Tuple1 "linux-64") /\
         (true = true ->
          lookup "BUILD_RECIPE" (variables c) = Some (Plain (Str "/repo/recipe"))) /\
         (forall k,
             k <> "TARGET_PLATFORM" ->
             (true = true -> k <> "BUILD_RECIPE") ->
             (forall i a, nth_error (keys dicts) i = Some k -> nth_error x i = Some a ->
                          lookup k (variables c) = Some (Plain a)) /\
             (~ In k (keys dicts) -> lookup k (variables c) = None) /\
             (forall s, lookup k (variables c) = Some s ->
                        exists v pool a,
                          In (k, v) dicts /\ iterate v = Ok pool /\ In a pool /\
                          s = Plain a)))
      (product pools) MatrixExamples.configurations.
Proof.
  apply (expand_build_matrix_spec (fun _ => MatrixExamples.versions) (fun _ => true)
           MatrixExamples.requirements "recipe" "/repo" "linux-64"
           MatrixExamples.environment MatrixExamples.environment_after
           MatrixExamples.configurations).
  - exact matrix_versions_distinct.
  - vm_compute. reflexivity.
Defined.

Example expand_build_matrix_two :
  map (fun c => lookup "CONDA_PY" (variables c)) MatrixExamples.configurations
  = [Some (Plain (Str "27")); Some (Plain (Str "35"))] /\
  map (fun c => map fst (variables c)) MatrixExamples.configurations
  = [["CONDA_PY"; "CONDA_NPY"; "TARGET_PLATFORM"; "BUILD_RECIPE"];
     ["CONDA_PY"; "CONDA_NPY"; "TARGET_PLATFORM"; "BUILD_RECIPE"]].
Proof. vm_compute. split; reflexivity. Qed.
